(** * The KN5 scene serializer: a shallow embedding and its properties

    The development follows the Python sources of the exporter:
    - [src/utils/coordinates.py], [src/utils/helpers.py], [src/utils/constants.py]
    - [src/lib/kn5/utils.py], [src/lib/kn5/constants.py]
    - [src/lib/kn5/texture_writer.py], [src/lib/kn5/node_writer.py]
    - [src/lib/kn5/exporter.py]

    Part I embeds the code (modules named after the Python modules and
    classes), Part II states and proves the properties.

    Conventions of the embedding:
    - a Python [float] is an element of a type with the operations of class
      [Scalar]; the instance [float_scalar_with pow] is IEEE binary64 (what
      CPython computes with) on a platform whose [**] is [pow], and
      [float_scalar] is the one with correctly rounded powers; the instance
      [xreal_scalar], exact real arithmetic extended with the two infinities
      and NaN, is what the floats approximate;
    - a Python exception is a constructor of [exn]; a function that can raise
      returns an [outcome];
    - the writers only ever append to the output file and to the shared
      [warnings] list, so a writer method is a computation of the monad [M]
      that carries the tokens written, the warnings appended and the outcome;
    - a Python [dict] whose iteration order is observable is an association
      list in insertion order. *)

From Stdlib Require Import ZArith List String Ascii Bool Arith Lia.
From Stdlib Require Import Sorting.Sorted Permutation.
From Stdlib Require Import Floats Reals Lra.
From Stdlib Require DecimalString.
From Equations Require Import Equations.
Import ListNotations.

Set Implicit Arguments.
Set Warnings "-register-all,-inexact-float,-abstract-large-number".
Local Open Scope string_scope.
Local Open Scope list_scope.
Local Open Scope nat_scope.

(* ===================================================================== *)
(** * Part I.  The embedding                                             *)
(* ===================================================================== *)

(** ** Python values, exceptions and builtins *)

Module Py.

(** The exceptions the embedded code can raise.  [Exception] is the plain
    [raise Exception(msg)] of the writers. *)
Inductive exn : Type :=
| Exception (msg : string)
| RuntimeError (msg : string)
| OSError (msg : string)
| CalledProcessError (stderr : string)
| IndexError
| AttributeError
| KeyError (key : string)
| ZeroDivisionError
| ValueError
| OverflowError.

Inductive outcome (A : Type) : Type :=
| Ok (a : A)
| Raise (e : exn).
Arguments Ok {A} a.
Arguments Raise {A} e.
Arguments Exception msg%_string.
Arguments RuntimeError msg%_string.
Arguments OSError msg%_string.

Definition is_ok {A} (r : outcome A) : bool :=
  match r with Ok _ => true | Raise _ => false end.

Definition obind {A B} (r : outcome A) (k : A -> outcome B) : outcome B :=
  match r with Ok a => k a | Raise e => Raise e end.

(** [for x in l: acc = f(acc, x)] where the body can raise. *)
Fixpoint ofold {A S} (f : S -> A -> outcome S) (l : list A) (s : S) : outcome S :=
  match l with
  | [] => Ok s
  | x :: l' => obind (f s x) (ofold f l')
  end.

(** [str(n)] for a non-negative integer. *)
Definition str_nat (n : nat) : string :=
  DecimalString.NilZero.string_of_uint (Nat.to_uint n).

(** [s.startswith(p)]. *)
Definition startswith (s p : string) : bool := String.prefix p s.

(** [c.lower()] and [s.lower()] on ASCII text. *)
Definition lower_ascii (c : ascii) : ascii :=
  let n := nat_of_ascii c in
  if (65 <=? n) && (n <=? 90) then ascii_of_nat (n + 32) else c.

Fixpoint lower (s : string) : string :=
  match s with
  | EmptyString => EmptyString
  | String c s' => String (lower_ascii c) (lower s')
  end.

(** [list.sort(key=...)] and [sorted(..., key=...)] are stable: an element
    goes after the elements whose key is not greater.  [le] is the
    comparison [<=] of the keys. *)
Section Sorting.
Variables (A K : Type) (key : A -> K) (le : K -> K -> bool).

Fixpoint insert_sorted (x : A) (l : list A) : list A :=
  match l with
  | [] => [x]
  | y :: l' => if le (key y) (key x) then y :: insert_sorted x l'
               else x :: y :: l'
  end.

Definition sorted_by (l : list A) : list A :=
  fold_left (fun acc x => insert_sorted x acc) l [].
End Sorting.

(** [range(start, stop, 3)]. *)
Definition range3 (start stop : nat) : list nat :=
  map (fun k => start + 3 * k) (seq 0 ((stop - start + 2) / 3)).

(** [l[i:i+3]]. *)
Definition slice3 {A} (l : list A) (i : nat) : list A := firstn 3 (skipn i l).

(** [l[i]] for a non-negative index. *)
Definition getitem {A} (l : list A) (i : nat) : outcome A :=
  match nth_error l i with Some a => Ok a | None => Raise IndexError end.

(** Insertion-ordered dictionaries with keys compared by a boolean
    equality ([str] keys, [int] keys). *)
Section Dict.
Variables (K V : Type) (eqb : K -> K -> bool).

Fixpoint dict_get (d : list (K * V)) (k : K) : option V :=
  match d with
  | [] => None
  | (k', v) :: d' => if eqb k' k then Some v else dict_get d' k
  end.

Definition dict_mem (d : list (K * V)) (k : K) : bool :=
  match dict_get d k with Some _ => true | None => false end.

(** [d[k] = v]: an existing key keeps its place. *)
Fixpoint dict_set (d : list (K * V)) (k : K) (v : V) : list (K * V) :=
  match d with
  | [] => [(k, v)]
  | (k', v') :: d' => if eqb k' k then (k', v) :: d'
                      else (k', v') :: dict_set d' k v
  end.
End Dict.

(** [set(l)] for a list of small non-negative integers, in the order
    iteration yields its elements when each is below the size of the hash
    table: CPython keeps such an [int] in the slot of its own value, so
    they come in ascending order (as the material slots [0 .. k-1] do).
    Sparse elements can come in another order ([set([8, 0])] yields 8, 0):
    the properties about the records of the slots are stated for any order
    of iteration, or do not depend on it. *)
Definition set_of (l : list nat) : list nat :=
  sorted_by (fun n => n) Nat.leb (nodup Nat.eq_dec l).

(** *** Regular expressions ([re]), matched by derivatives

    [Chr p] is one character satisfying [p]. *)
Inductive regex : Type :=
| Void
| Eps
| Chr (p : ascii -> bool)
| Cat (r s : regex)
| Alt (r s : regex)
| Star (r : regex).

Fixpoint nullable (r : regex) : bool :=
  match r with
  | Void => false
  | Eps => true
  | Chr _ => false
  | Cat r s => nullable r && nullable s
  | Alt r s => nullable r || nullable s
  | Star _ => true
  end.

Fixpoint deriv (c : ascii) (r : regex) : regex :=
  match r with
  | Void => Void
  | Eps => Void
  | Chr p => if p c then Eps else Void
  | Cat r s => if nullable r then Alt (Cat (deriv c r) s) (deriv c s)
               else Cat (deriv c r) s
  | Alt r s => Alt (deriv c r) (deriv c s)
  | Star r => Cat (deriv c r) (Star r)
  end.

(** The whole of [s] is in the language of [r]. *)
Fixpoint accepts (r : regex) (s : string) : bool :=
  match s with
  | EmptyString => nullable r
  | String c s' => accepts (deriv c r) s'
  end.

Definition Plus (r : regex) : regex := Cat r (Star r).

Fixpoint Lit (s : string) : regex :=
  match s with
  | EmptyString => Eps
  | String c s' => Cat (Chr (Ascii.eqb c)) (Lit s')
  end.

(** [\d] and [.] on ASCII text.  The sources match [str] patterns: there
    [\d] also accepts the other decimal digits of Unicode and [IGNORECASE]
    folds U+017F and U+212A onto [s] and [k].  The matcher sees the bytes
    of the name, so what is proved of names is proved of ASCII names. *)
Definition is_digit (c : ascii) : bool :=
  let n := nat_of_ascii c in (48 <=? n) && (n <=? 57).
Definition is_newline (c : ascii) : bool := Ascii.eqb c (ascii_of_nat 10).
Definition Digit : regex := Chr is_digit.
Definition AnyChar : regex := Chr (fun c => negb (is_newline c)).

(** [re.compile("^" + r + "$").match(s)]: [$] matches at the end of the
    string and also just before a newline that ends it. *)
Definition re_match_anchored (r : regex) (s : string) : bool :=
  accepts r s || accepts (Cat r (Chr is_newline)) s.

(** *** The hash of an [int] and of a [tuple] of [int]s

    CPython, 64-bit build: [hash(n)] is [n] reduced modulo [2^61 - 1] with
    the sign of [n], and [-1] is mapped to [-2]; the hash of a tuple is the
    xxHash-style accumulation of [Objects/tupleobject.c] over the hashes of
    its items, in unsigned 64-bit arithmetic, read back as a signed
    integer. *)
Definition hash_modulus : Z := 2 ^ 61 - 1.

Definition int_hash (n : Z) : Z :=
  let h := (Z.sgn n * (Z.abs n mod hash_modulus))%Z in
  if (h =? -1)%Z then (-2)%Z else h.

Definition u64 (x : Z) : Z := (x mod 2 ^ 64)%Z.
Definition XXPRIME_1 : Z := 11400714785074694791.
Definition XXPRIME_2 : Z := 14029467366897019727.
Definition XXPRIME_5 : Z := 2870177450012600261.
Definition XXROTATE (x : Z) : Z :=
  u64 (Z.lor (Z.shiftl x 31) (Z.shiftr x 33)).

Definition tuple_hash (items : list Z) : Z :=
  let step acc item :=
    let lane := u64 (int_hash item) in
    let acc := u64 (acc + lane * XXPRIME_2) in
    let acc := XXROTATE acc in
    u64 (acc * XXPRIME_1) in
  let acc := fold_left step items XXPRIME_5 in
  let acc := u64 (acc + Z.lxor (Z.of_nat (List.length items))
                               (Z.lxor XXPRIME_5 3527539)) in
  if (acc =? 2 ^ 64 - 1)%Z then 1546275796%Z
  else if (acc <? 2 ^ 63)%Z then acc else (acc - 2 ^ 64)%Z.

(** *** The writer monad of the serializer

    [T] is the type of the tokens written to the output file. *)
Record M (T A : Type) : Type := mkM {
  written : list T;
  warned : list string;
  result : outcome A
}.
Arguments mkM {T A} written warned result.

Definition ret {T A} (a : A) : M T A := mkM [] [] (Ok a).

Definition bind {T A B} (m : M T A) (k : A -> M T B) : M T B :=
  match result m with
  | Ok a => let m' := k a in
            mkM (written m ++ written m') (warned m ++ warned m') (result m')
  | Raise e => mkM (written m) (warned m) (Raise e)
  end.

Definition emit {T} (t : T) : M T unit := mkM [t] [] (Ok tt).
Definition warn {T} (w : string) : M T unit := mkM [] [w] (Ok tt).
Definition raise {T A} (e : exn) : M T A := mkM [] [] (Raise e).
Definition lift {T A} (r : outcome A) : M T A := mkM [] [] r.
Arguments warn {T} w%_string.

(** [for x in l: body(x)]. *)
Fixpoint for_each {T A} (body : A -> M T unit) (l : list A) : M T unit :=
  match l with
  | [] => ret tt
  | x :: l' => bind (body x) (fun _ => for_each body l')
  end.

(** [for x in l: st = body(st, x)]. *)
Fixpoint fold_m {T A S} (body : S -> A -> M T S) (l : list A) (st : S) : M T S :=
  match l with
  | [] => ret st
  | x :: l' => bind (body st x) (fold_m body l')
  end.

End Py.
Export Py.

Declare Scope py_scope.
Delimit Scope py_scope with py.
Notation "x <- c ;; k" := (bind c (fun x => k))
  (at level 61, c at next level, right associativity) : py_scope.
Notation "c ;; k" := (bind c (fun _ => k))
  (at level 61, right associativity) : py_scope.
Notation "x <~ c ;; k" := (obind c (fun x => k))
  (at level 61, c at next level, right associativity) : py_scope.
Local Open Scope py_scope.


(** ** Python floats

    The arithmetic the exporter performs on a [float].  [fdec m e] is the
    value of the decimal literal [m * 10^e] (also of the [int] [m] used where
    a float is expected, with [e = 0]); [fround] is the one-argument builtin
    [round], which raises on NaN and on the infinities.  [fpow a b] is
    [a ** b], where it is a float: the sources raise sums of squares to the
    power [0.5] and the components of unit normals to the power [2].  Its
    value is that of the [pow] of the platform's C library, which need not
    be the correctly rounded one; [fsqrt] is [math.sqrt]. *)

Class Scalar (F : Type) : Type := {
  fdec : Z -> Z -> F;
  finf : F;
  fadd : F -> F -> F;
  fsub : F -> F -> F;
  fmul : F -> F -> F;
  fdiv : F -> F -> F;
  fopp : F -> F;
  fabs : F -> F;
  fsqrt : F -> F;
  fpow : F -> F -> F;
  fltb : F -> F -> bool;
  feqb : F -> F -> bool;
  fround : F -> outcome Z
}.

Declare Scope scalar_scope.
Delimit Scope scalar_scope with sc.
Infix "+!" := fadd (at level 50, left associativity) : scalar_scope.
Infix "-!" := fsub (at level 50, left associativity) : scalar_scope.
Infix "*!" := fmul (at level 40, left associativity) : scalar_scope.
Infix "/!" := fdiv (at level 40, left associativity) : scalar_scope.
Notation "-! x" := (fopp x) (at level 35, right associativity) : scalar_scope.
Infix "<!" := fltb (at level 70, no associativity) : scalar_scope.
Notation "a >! b" := (fltb b a) (at level 70, no associativity) : scalar_scope.
Local Open Scope scalar_scope.

Section ScalarBuiltins.
Context {F : Type} `{Scalar F}.

Definition fzero : F := fdec 0 0.
Definition fone : F := fdec 1 0.
Definition of_len (n : nat) : F := fdec (Z.of_nat n) 0.

(** [a / b] where nothing guards [b]: Python raises on a zero divisor. *)
Definition py_div (a b : F) : outcome F :=
  if feqb b fzero then Raise ZeroDivisionError else Ok (a /! b).

(** [max(a, b)] and [min(a, b)] keep the first argument unless the second
    is strictly larger (smaller). *)
Definition py_max (a b : F) : F := if b >! a then b else a.
Definition py_min (a b : F) : F := if b <! a then b else a.

(** [sum(l)]: starts from the int [0] and adds from the left. *)
Definition py_sum (l : list F) : F := fold_left fadd l fzero.
End ScalarBuiltins.

(** *** IEEE binary64 *)

Module Float64.

(** The float nearest to a non-negative integer (exact below [2^53]). *)
Definition of_Z (z : Z) : float :=
  match z with
  | Z0 => PrimFloat.zero
  | Zpos _ => PrimFloat.of_uint63 (Uint63.of_Z z)
  | Zneg p => PrimFloat.opp (PrimFloat.of_uint63 (Uint63.of_Z (Zpos p)))
  end.

(** A decimal literal: both operands of the division are exact for the
    literals of the sources, so the quotient is the correctly rounded
    value, as the parser of Python produces it. *)
Definition dec (m e : Z) : float :=
  if (0 <=? e)%Z then of_Z (m * 10 ^ e)
  else PrimFloat.div (of_Z m) (of_Z (10 ^ (- e))).

(** Rounding [m * 2^e] to the nearest integer, ties to even. *)
Definition round_half_even (m : positive) (e : Z) : Z :=
  if (0 <=? e)%Z then (Zpos m * 2 ^ e)%Z
  else
    let d := (2 ^ (- e))%Z in
    let q := (Zpos m / d)%Z in
    let r := (Zpos m mod d)%Z in
    if (2 * r <? d)%Z then q
    else if (d <? 2 * r)%Z then (q + 1)%Z
    else if Z.even q then q else (q + 1)%Z.

Definition round (x : float) : outcome Z :=
  match Prim2SF x with
  | S754_zero _ => Ok 0%Z
  | S754_finite s m e =>
      let v := round_half_even m e in Ok (if s then (- v)%Z else v)
  | S754_infinity _ => Raise OverflowError
  | S754_nan => Raise ValueError
  end.

(** The powers of a C library that rounds them correctly: the square
    is the product, the power [0.5] of a number other than zero its square
    root, that of a zero is [0.0]. *)
Definition pow (x y : float) : float :=
  if PrimFloat.eqb y 2 then PrimFloat.mul x x
  else if PrimFloat.eqb y 0.5 then
    if PrimFloat.eqb x 0 then 0%float else PrimFloat.sqrt x
  else PrimFloat.nan.

End Float64.

(** Binary64 on a platform whose [**] is [pow]. *)
Definition float_scalar_with (pow : float -> float -> float) : Scalar float := {|
  fdec := Float64.dec;
  finf := PrimFloat.infinity;
  fadd := PrimFloat.add;
  fsub := PrimFloat.sub;
  fmul := PrimFloat.mul;
  fdiv := PrimFloat.div;
  fopp := PrimFloat.opp;
  fabs := PrimFloat.abs;
  fsqrt := PrimFloat.sqrt;
  fpow := pow;
  fltb := PrimFloat.ltb;
  feqb := PrimFloat.eqb;
  fround := Float64.round
|}.

(** Binary64 with correctly rounded powers, to run the model with. *)
#[export] Instance float_scalar : Scalar float := {
  fdec := Float64.dec;
  finf := PrimFloat.infinity;
  fadd := PrimFloat.add;
  fsub := PrimFloat.sub;
  fmul := PrimFloat.mul;
  fdiv := PrimFloat.div;
  fopp := PrimFloat.opp;
  fabs := PrimFloat.abs;
  fsqrt := PrimFloat.sqrt;
  fpow := Float64.pow;
  fltb := PrimFloat.ltb;
  feqb := PrimFloat.eqb;
  fround := Float64.round
}.

(** ** [src/utils/coordinates.py] *)

Module coordinates.
Section Defs.
Context {F : Type} `{Scalar F}.

Definition ac_to_blender (x y z : F) : F * F * F := (x, -! z, y).

Definition blender_to_ac (x y z : F) : F * F * F := (x, z, -! y).
End Defs.
End coordinates.

(** ** [src/utils/helpers.py] and [src/utils/constants.py] *)

Module helpers.
Definition is_hidden_name (name : string) : bool := startswith name "__".
End helpers.

Module constants.
Definition MAX_VERTICES_PER_MESH : nat := Z.to_nat 65536.
Definition KN5_HEADER : string := "sc6969".
Definition KN5_VERSION : nat := 5.
Definition MESH_CHILD_COUNT : nat := 0.
Definition DEFAULT_MATERIAL_ID : nat := 0.

(** [NODE_TYPES]. *)
Inductive node_class : Type := NodeClass | MeshClass | SkinnedMeshClass.
Definition NODE_TYPES (c : node_class) : nat :=
  match c with NodeClass => 1 | MeshClass => 2 | SkinnedMeshClass => 3 end.
End constants.

(** ** The host's matrix library

    [mathutils] is not part of the sources; the exporter uses the
    operations below, which stay abstract.  [inverted] raises on a singular
    matrix. *)

Class Mathutils (F : Type) : Type := {
  Matrix : Type;
  Quaternion : Type;
  Matrix_identity : Matrix;
  Matrix_Translation : F * F * F -> Matrix;
  Matrix_Scale : F -> F * F * F -> Matrix;
  matmul : Matrix -> Matrix -> Matrix;
  matrix_apply : Matrix -> F * F * F -> F * F * F;
  inverted : Matrix -> outcome Matrix;
  decompose : Matrix -> (F * F * F) * Quaternion * (F * F * F);
  to_axis_angle : Quaternion -> (F * F * F) * F;
  Quaternion_axis_angle : F * F * F -> F -> Quaternion;
  to_matrix_4x4 : Quaternion -> Matrix
}.

(** ** The scene as the exporter reads it

    A read-only snapshot of the host's objects.  The fields are the
    attributes the sources access, under their names. *)

Module bpy.
Section Types.
Context {F : Type} `{Mathutils F}.

Definition Vector2 : Type := F * F.
Definition Vector3 : Type := F * F * F.

Record Image : Type := {
  image_name : string;
  (** [image.filepath]; [abspath] is [bpy.path.abspath(image.filepath)]. *)
  filepath : string;
  abspath : string;
  (** [image.packed_file.data] when the image is packed. *)
  packed_file : option string;
  (** Truth value of [image.pixels]. *)
  pixels : bool;
  source : string;
  (** The bytes [image.save()] produces for the PNG format, or the
      exception it raises. *)
  save_png : outcome string
}.

Record TextureMapping : Type := {
  scale : Vector3;
  translation : Vector3
}.

Record ShaderNodeTexImage : Type := {
  node_name : string;
  image : option Image;
  show_texture : bool;
  texture_mapping : TextureMapping
}.

(** A node of a material's node tree. *)
Inductive ShaderNode : Type :=
| TexImage (n : ShaderNodeTexImage)
| OtherNode.

Record Material : Type := {
  material_name : string;
  (** [material.node_tree.nodes], [None] without a node tree. *)
  node_tree : option (list ShaderNode);
  shader_name : string
}.

Record MeshLoop : Type := {
  vertex_index : nat;
  loop_normal : Vector3;
  loop_tangent : Vector3
}.

Record MeshLoopTriangle : Type := {
  material_index : nat;
  loops : list nat
}.

(** The mesh [obj.to_mesh()] yields once it has been welded,
    triangulated and written back ([bmesh] is not part of the
    sources), with its loop triangles computed. *)
Record MeshData : Type := {
  materials : list (option Material);
  mesh_vertices : list Vector3;
  mesh_loops : list MeshLoop;
  loop_triangles : list MeshLoopTriangle;
  (** [len(mesh.uv_layers)] and [mesh.uv_layers.active.data]. *)
  uv_layers : nat;
  uv_layers_active : option (list Vector2);
  (** Whether [mesh.calc_tangents()] returns; it raises [RuntimeError]
      otherwise. *)
  calc_tangents_ok : bool
}.

Record Collection : Type := {
  collection_name : string;
  collection_hide_viewport : bool
}.

Inductive LayerCollection : Type :=
  mkLayerCollection (collection : Collection) (exclude : bool)
                    (layer_children : list LayerCollection).

(** [obj.AC_KN5]. *)
Record AC_KN5 : Type := {
  lod_in : F;
  lod_out : F;
  cast_shadows : bool;
  kn5_visible : bool;
  kn5_transparent : bool;
  kn5_renderable : bool
}.

(** What the exporter reads of [obj.parent]. *)
Record ParentRef : Type := {
  parent_name : string;
  parent_matrix_world : Matrix
}.

(** The fields the exporter reads.  The host derives [obj.children]
    from the parent links of the objects of the file; here both are
    fields, and a property that depends on their agreement says so. *)
Inductive Object : Type := mkObject {
  name : string;
  type : string;
  parent : option ParentRef;
  children : list Object;
  hide_viewport : bool;
  hide_render : bool;
  hide_get : bool;
  users_collection : list Collection;
  matrix_world : Matrix;
  matrix_local : Matrix;
  dimensions : Vector3;
  kn5 : AC_KN5;
  (** [slot.material] for the slots of [obj.material_slots]. *)
  material_slots : list (option Material);
  to_mesh : MeshData
}.

Record Context : Type := {
  (** [context.blend_data.objects], every object of the file. *)
  blend_data_objects : list Object;
  (** [context.view_layer.layer_collection]. *)
  layer_collection : LayerCollection;
  (** [context.scene.AC_Settings.working_dir]. *)
  working_dir : string
}.
End Types.

Arguments TextureMapping F : clear implicits.
Arguments ShaderNodeTexImage F : clear implicits.
Arguments ShaderNode F : clear implicits.
Arguments Material F : clear implicits.
Arguments MeshLoop F : clear implicits.
Arguments MeshLoopTriangle : clear implicits.
Arguments MeshData F : clear implicits.
Arguments AC_KN5 F : clear implicits.
Arguments ParentRef F {_}.
Arguments Object F {_}.
Arguments Context F {_}.
End bpy.
Import bpy.

(** ** The primitive writer

    Modelled from the spec: [kn5_writer.py] (class [KN5Writer]) is not part
    of the sources.  The spec lists its operations: little-endian writes of
    signed and unsigned 32-bit integers, 32-bit floats, booleans,
    length-prefixed strings, 2D and 3D vectors, 4x4 matrices and
    length-prefixed blobs; [write_ushort] writes one 16-bit index.  A call is
    recorded as one token of the output, [W_raw] being a direct
    [file.write]. *)

Module kn5_writer.
Section Tokens.
Context {F : Type} `{Mathutils F}.

Inductive token : Type :=
| W_raw (b : string)
| W_int (n : nat)
| W_uint (n : nat)
| W_ushort (n : nat)
| W_float (x : F)
| W_bool (b : bool)
| W_string (s : string)
| W_blob (b : string)
| W_vector2 (v : F * F)
| W_vector3 (v : F * F * F)
| W_matrix (m : Matrix).

Definition W : Type -> Type := M token.

Definition write_int (n : nat) : W unit := emit (W_int n).
Definition write_uint (n : nat) : W unit := emit (W_uint n).
Definition write_ushort (n : nat) : W unit := emit (W_ushort n).
Definition write_float (x : F) : W unit := emit (W_float x).
Definition write_bool (b : bool) : W unit := emit (W_bool b).
Definition write_string (s : string) : W unit := emit (W_string s).
Definition write_blob (b : string) : W unit := emit (W_blob b).
Definition write_vector2 (v : F * F) : W unit := emit (W_vector2 v).
Definition write_vector3 (v : F * F * F) : W unit := emit (W_vector3 v).
Definition write_matrix (m : Matrix) : W unit := emit (W_matrix m).
End Tokens.
Arguments token F {_}.
Arguments W F {_} _.
End kn5_writer.
Import kn5_writer.

(** ** [os.path], as far as the exporter uses it *)

Module os_path.

(** Index one past the last occurrence of a separator ([0] without). *)
Fixpoint after_last (is_sep : ascii -> bool) (s : string) : nat :=
  match s with
  | EmptyString => 0
  | String c s' =>
      let k := after_last is_sep s' in
      if (0 <? k) then S k else if is_sep c then 1 else 0
  end.

Definition is_sep (c : ascii) : bool :=
  Ascii.eqb c "/" || Ascii.eqb c "\".

(** [os.path.basename(p)]. *)
Definition basename (p : string) : string :=
  let i := after_last is_sep p in
  substring i (String.length p - i) p.

(** Number of leading dots of a string. *)
Fixpoint leading_dots (s : string) : nat :=
  match s with
  | String "." s' => S (leading_dots s')
  | _ => 0
  end.

(** [os.path.splitext(p)]: the extension starts at the last dot of the
    last component, leading dots of the component not counting. *)
Definition splitext (p : string) : string * string :=
  let sep_index := after_last is_sep p in
  let dot := after_last (Ascii.eqb ".") p in
  let name := substring sep_index (String.length p - sep_index) p in
  if (sep_index <? dot) && (leading_dots name <? dot - sep_index)
  then (substring 0 (dot - 1) p,
        substring (dot - 1) (String.length p - (dot - 1)) p)
  else (p, "").

End os_path.

(** ** [src/lib/kn5/utils.py] *)

Module utils.
Section Defs.
Context {F : Type} `{Scalar F} `{Mathutils F}.

Definition convert_vector3 (blender_vec : F * F * F) : F * F * F :=
  let '(v0, v1, v2) := blender_vec in (v0, v2, -! v1).

Definition convert_quaternion (blender_quat : Quaternion) : Quaternion :=
  let '(axis, angle) := to_axis_angle blender_quat in
  let axis := convert_vector3 axis in
  Quaternion_axis_angle axis angle.

Definition convert_matrix (blender_matrix : Matrix) : Matrix :=
  let '(translation, rotation, scale) := decompose blender_matrix in
  let translation := convert_vector3 translation in
  let rotation := convert_quaternion rotation in
  let mat_loc := Matrix_Translation translation in
  let '(scale0, scale1, scale2) := scale in
  let mat_scale_1 := Matrix_Scale scale0 (fone, fzero, fzero) in
  let mat_scale_2 := Matrix_Scale scale2 (fzero, fone, fzero) in
  let mat_scale_3 := Matrix_Scale scale1 (fzero, fzero, fone) in
  let mat_scale := matmul (matmul mat_scale_1 mat_scale_2) mat_scale_3 in
  let mat_rot := to_matrix_4x4 rotation in
  matmul (matmul mat_loc mat_rot) mat_scale.

Definition get_texture_nodes (material : Material F)
  : list (ShaderNodeTexImage F) :=
  match node_tree material with
  | Some nodes =>
      flat_map (fun node => match node with
                            | TexImage n => [n]
                            | OtherNode => []
                            end) nodes
  | None => []
  end.

Definition get_all_texture_nodes (context : Context F)
  : list (ShaderNodeTexImage F) :=
  flat_map
    (fun obj =>
       if negb (String.eqb (type obj) "MESH") then []
       else flat_map (fun slot => match slot with
                                  | Some material => get_texture_nodes material
                                  | None => []
                                  end) (material_slots obj))
    (blend_data_objects context).

Definition get_active_material_texture_slot (material : Material F)
  : option (ShaderNodeTexImage F) :=
  find (fun texture_node => show_texture texture_node)
       (get_texture_nodes material).

(** Two collections are the same object iff they have the same name:
    the host keeps collection names unique. *)
Definition same_collection (a b : Collection) : bool :=
  String.eqb (collection_name a) (collection_name b).

Fixpoint find_layer_collection (layer_col : LayerCollection)
         (c : Collection) : option LayerCollection :=
  match layer_col with
  | mkLayerCollection col _ layer_children =>
      if same_collection col c then Some layer_col
      else (fix search (l : list LayerCollection) : option LayerCollection :=
              match l with
              | [] => None
              | child :: l' =>
                  match find_layer_collection child c with
                  | Some r => Some r
                  | None => search l'
                  end
              end) layer_children
  end.

Definition layer_exclude (l : LayerCollection) : bool :=
  match l with mkLayerCollection _ ex _ => ex end.

Definition is_object_excluded_by_collection (obj : Object F)
           (context : Context F) : bool :=
  if hide_viewport obj then true
  else if hide_render obj then true
  else if hide_get obj then true
  else
    match users_collection obj with
    | [] => false
    | obj_collections =>
        (* the loop leaves [all_excluded] true unless some collection is
           shown and its layer collection is found and not excluded *)
        negb (existsb
                (fun c =>
                   negb (collection_hide_viewport c) &&
                   match find_layer_collection (layer_collection context) c with
                   | Some layer_col => negb (layer_exclude layer_col)
                   | None => false
                   end) obj_collections)
    end.
End Defs.
End utils.

(** ** The operating system, as the texture writer sees it

    The external conversion tool and the files read are outside the
    program; their behaviour is an input of the model. *)

Module os_env.

(** What running the tool on a staged PNG leads to, inside the [try] of
    [convert_png_to_dds]. *)
Inductive texconv_run : Type :=
| ToolExited (dds_file : option string)
    (** exit status 0; the bytes of the [.dds] file if the tool made one *)
| ToolFailed (stderr : string)
    (** [subprocess.CalledProcessError] *)
| ToolError (message : string).
    (** any other exception [e], with [str(e)] *)

Record Env : Type := {
  (** [get_texconv_path()]. *)
  texconv_path : string;
  (** [os.path.exists]. *)
  path_exists : string -> bool;
  (** [open(path, "rb").read()]. *)
  read_bytes : string -> outcome string;
  (** Creating the temporary directory and writing the PNG [png_filename]
      into it. *)
  stage_png : string -> string -> outcome unit;
  (** [subprocess.run] on the staged file and the look for its output. *)
  run_texconv : string -> string -> texconv_run
}.

End os_env.
Import os_env.

(** ** [src/lib/kn5/texture_writer.py] *)

Module texture_writer.
Import helpers utils.

Definition DDS_HEADER_BYTES : string := "DDS".
Definition PNG_HEADER_BYTES : string := String (ascii_of_nat 137) "PNG".

Definition get_real_texture_name (image : Image) : string :=
  if negb (String.eqb (filepath image) "") then
    let real_filename := os_path.basename (abspath image) in
    if negb (String.eqb real_filename "") then real_filename
    else image_name image
  else image_name image.

Definition is_png_data (image_data : string) : bool :=
  String.eqb (substring 0 4 image_data) PNG_HEADER_BYTES.

Definition is_dds_data (image_data : string) : bool :=
  String.eqb (substring 0 3 image_data) DDS_HEADER_BYTES.

Section Defs.
Context {F : Type} `{Scalar F} `{Mathutils F}.
Variable env : Env.

(** Returns [(dds_data, new_name)], or [None] for [(None, None)]. *)
Definition convert_png_to_dds (png_data image_name : string)
  : W F (option (string * string)) :=
  if negb (path_exists env (texconv_path env)) then
    warn ("texconv.exe not found at " ++ texconv_path env
          ++ " - PNG will not be converted");;
    ret None
  else
    let png_filename := (fst (os_path.splitext image_name) ++ ".png")%string in
    lift (stage_png env png_filename png_data);;
    match run_texconv env png_filename png_data with
    | ToolExited (Some dds_data) =>
        let new_name := (fst (os_path.splitext image_name) ++ ".dds")%string in
        ret (Some (dds_data, new_name))
    | ToolExited None =>
        warn ("texconv did not create output file for '" ++ image_name ++ "'");;
        ret None
    | ToolFailed stderr =>
        warn ("texconv failed for '" ++ image_name ++ "': " ++ stderr);;
        ret None
    | ToolError message =>
        warn ("Error converting '" ++ image_name ++ "' to DDS: " ++ message);;
        ret None
    end.

(** The state of a [TextureWriter] object. *)
Record TextureWriter : Type := {
  available_textures : list (string * ShaderNodeTexImage F);
  texture_positions : list (string * nat);
  texture_name_mapping : list (string * string);
  _processed_textures : list (string * (string * string))
}.

Definition _fill_available_image_textures (context : Context F)
  : W F (list (string * ShaderNodeTexImage F) * list (string * nat)) :=
  let all_texture_nodes := get_all_texture_nodes context in
  st <- fold_m
    (fun (st : list (string * ShaderNodeTexImage F) * list (string * nat) * nat)
         texture_node =>
       let '(available, positions, position) := st in
       if negb (is_hidden_name (node_name texture_node)) then
         match image texture_node with
         | None =>
             warn ("Ignoring texture node without image '"
                   ++ node_name texture_node ++ "'");;
             ret st
         | Some img =>
             if negb (pixels img) then
               warn ("Ignoring texture node without image data '"
                     ++ node_name texture_node ++ "'");;
               ret st
             else
               ret (dict_set String.eqb available (image_name img) texture_node,
                    dict_set String.eqb positions (image_name img) position,
                    position + 1)
         end
       else ret st)
    all_texture_nodes ([], [], 0);;
  ret (fst st).

(** [TextureWriter(file, context, warnings)]. *)
Definition TextureWriter_init (context : Context F) : W F TextureWriter :=
  filled <- _fill_available_image_textures context;;
  ret {| available_textures := fst filled;
         texture_positions := snd filled;
         texture_name_mapping := [];
         _processed_textures := [] |}.

Definition _get_raw_image_data (img : Image) : outcome string :=
  let from_memory :=
    match packed_file img with
    | Some data => Ok data
    | None =>
        if pixels img then save_png img
        else Raise (RuntimeError
               ("Cannot get image data for '" ++ image_name img
                ++ "' - no file path, not packed, and no pixel data. "
                ++ "Please ensure the image file exists or pack it manually."))
    end in
  if negb (String.eqb (filepath img) "") then
    if path_exists env (abspath img) then read_bytes env (abspath img)
    else from_memory
  else from_memory.

(** Returns [(output_name, image_data)].  The texture nodes of
    [available_textures] all carry an image. *)
Definition _process_texture (texture_node : ShaderNodeTexImage F)
  : W F (string * string) :=
  match image texture_node with
  | None => raise (Exception "'NoneType' object has no attribute 'filepath'")
  | Some img =>
      let real_name := get_real_texture_name img in
      image_data <- lift (_get_raw_image_data img);;
      if is_dds_data image_data then ret (real_name, image_data)
      else if is_png_data image_data then
        converted <- convert_png_to_dds image_data real_name;;
        match converted with
        | Some (dds_data, new_name) =>
            warn ("Converted '" ++ real_name ++ "' to DDS ("
                  ++ str_nat (String.length image_data) ++ " â†’ "
                  ++ str_nat (String.length dds_data) ++ " bytes)");;
            ret (new_name, dds_data)
        | None =>
            warn ("Using original PNG for '" ++ real_name
                  ++ "' (conversion failed)");;
            ret (real_name, image_data)
        end
      else ret (real_name, image_data)
  end.

(** Returns the writer with [_processed_textures] and
    [texture_name_mapping] filled. *)
Definition _process_all_textures (self : TextureWriter) : W F TextureWriter :=
  st <- fold_m
    (fun (st : list (string * (string * string)) * list (string * string))
         (entry : string * ShaderNodeTexImage F) =>
       let '(processed, mapping) := st in
       let '(blender_name, texture_node) := entry in
       out <- _process_texture texture_node;;
       let '(output_name, image_data) := out in
       let processed :=
         dict_set String.eqb processed blender_name (output_name, image_data) in
       ret (processed,
            if negb (String.eqb output_name blender_name)
            then dict_set String.eqb mapping blender_name output_name
            else mapping))
    (available_textures self) ([], []);;
  ret {| available_textures := available_textures self;
         texture_positions := texture_positions self;
         texture_name_mapping := snd st;
         _processed_textures := fst st |}.

Definition _write_texture_data (texture_name image_data : string) : W F unit :=
  let is_active := 1 in
  write_int is_active;;
  write_string texture_name;;
  write_blob image_data.

Definition write (self : TextureWriter) : W F TextureWriter :=
  self <- _process_all_textures self;;
  write_int (List.length (_processed_textures self));;
  for_each
    (fun entry : string * nat =>
       let texture_name := fst entry in
       match dict_get String.eqb (_processed_textures self) texture_name with
       | Some (output_name, image_data) =>
           _write_texture_data output_name image_data
       | None => raise (KeyError texture_name)
       end)
    (sorted_by snd Nat.leb (texture_positions self));;
  ret self.
End Defs.
End texture_writer.

(** ** The material writer

    Modelled from the spec: [material_writer.py] is not part of the
    sources.  The spec gives its contract: it writes the material section
    and assigns a stable non-negative integer id to each material, by name.
    [materials_write] is whatever its [write()] does on the shared file and
    warning list. *)

Module material_writer.
Section Defs.
Context {F : Type} `{Mathutils F}.

Record MaterialWriter : Type := {
  material_positions : list (string * nat);
  materials_write : W F unit
}.
End Defs.
Arguments MaterialWriter F {_}.
End material_writer.
Import material_writer.

(** ** [src/lib/kn5/node_writer.py] *)

Module node_writer.
Import helpers utils constants.

(** *** [class UvVertex] *)
Section UvVertexDefs.
Context {F : Type} `{Scalar F}.

Record UvVertex : Type := mkUvVertex {
  co : F * F * F;
  normal : F * F * F;
  uv : F * F;
  tangent : F * F * F
}.

Definition EPSILON : F := fdec 1 (-5).
Definition QUANT : F := fdec 1 5.

Definition _quantize (value : F) : outcome Z := fround (value *! QUANT).

(** The tuple [__hash__] hashes, its items evaluated from left to
    right. *)
Definition hash_key (self : UvVertex) : outcome (list Z) :=
  let '(co0, co1, co2) := co self in
  let '(normal0, normal1, normal2) := normal self in
  let '(uv0, uv1) := uv self in
  q0 <~ _quantize co0;;
  q1 <~ _quantize co1;;
  q2 <~ _quantize co2;;
  q3 <~ _quantize normal0;;
  q4 <~ _quantize normal1;;
  q5 <~ _quantize normal2;;
  q6 <~ _quantize uv0;;
  q7 <~ _quantize uv1;;
  Ok [q0; q1; q2; q3; q4; q5; q6; q7].

Definition __hash__ (self : UvVertex) : outcome Z :=
  key <~ hash_key self;;
  Ok (tuple_hash key).

Definition _approx_equal (a b : F) : bool := fabs (a -! b) <! EPSILON.

Definition __eq__ (self other : UvVertex) : bool :=
  let '(co0, co1, co2) := co self in
  let '(oco0, oco1, oco2) := co other in
  let '(n0, n1, n2) := normal self in
  let '(on0, on1, on2) := normal other in
  let '(uv0, uv1) := uv self in
  let '(ouv0, ouv1) := uv other in
  if negb (_approx_equal co0 oco0 && _approx_equal co1 oco1
           && _approx_equal co2 oco2) then false
  else if negb (_approx_equal n0 on0 && _approx_equal n1 on1
                && _approx_equal n2 on2) then false
  else if negb (_approx_equal uv0 ouv0 && _approx_equal uv1 ouv1) then false
  else true.

(** A [dict] keyed by [UvVertex]: the entries in insertion order, each
    with the hash of its key.  A lookup finds the first entry whose hash
    is the hash looked up and whose key [__eq__]s the key looked up. *)
Definition vertex_dict : Type := list (UvVertex * Z * nat).

Definition vertex_dict_find (d : vertex_dict) (h : Z) (v : UvVertex)
  : option nat :=
  match find (fun e : UvVertex * Z * nat =>
                let '(k, hk, _) := e in (hk =? h)%Z && __eq__ k v) d with
  | Some (_, _, index) => Some index
  | None => None
  end.

(** [if vertex not in vertices: vertices[vertex] = len(vertices)],
    then [vertices[vertex]]. *)
Definition vertex_dict_intern (d : vertex_dict) (v : UvVertex)
  : outcome (vertex_dict * nat) :=
  h <~ __hash__ v;;
  match vertex_dict_find d h v with
  | Some index => Ok (d, index)
  | None => let new_index := List.length d in
            Ok (d ++ [(v, h, new_index)], new_index)
  end.

(** [[v for v, index in sorted(vertices.items(), key=lambda k: k[1])]]. *)
Definition vertex_dict_sorted_keys (d : vertex_dict) : list UvVertex :=
  map (fun e : UvVertex * Z * nat => fst (fst e))
      (sorted_by (fun e : UvVertex * Z * nat => snd e) Nat.leb d).

(** *** [class Mesh] *)
Record Mesh : Type := mkMesh {
  material_id : option nat;
  vertices : list UvVertex;
  indices : list nat
}.
End UvVertexDefs.
Arguments UvVertex F : clear implicits.
Arguments Mesh F : clear implicits.
Arguments vertex_dict F : clear implicits.

(** *** [KSTREE_GROUP_PATTERN] and the special object names *)

(** [[A-Z0-9_]] under [re.IGNORECASE], on ASCII text. *)
Definition is_group_char (c : ascii) : bool :=
  let n := nat_of_ascii c in
  ((65 <=? n) && (n <=? 90)) || ((97 <=? n) && (n <=? 122))
  || is_digit c || Ascii.eqb c "_".

(** [s] without the prefix [p], the letters compared ignoring case. *)
Fixpoint strip_prefix_ignorecase (p s : string) : option string :=
  match p, s with
  | EmptyString, _ => Some s
  | String a p', String b s' =>
      if Ascii.eqb (lower_ascii a) (lower_ascii b)
      then strip_prefix_ignorecase p' s' else None
  | String _ _, EmptyString => None
  end.

(** A greedy [cls+] followed by [rest]: the longest non-empty run of
    [cls] characters at the start of [s] after which [rest] accepts what
    is left; shorter runs are tried when a longer one fails. *)
Fixpoint greedy_plus (cls : ascii -> bool) (rest : string -> bool)
         (s : string) : option string :=
  match s with
  | EmptyString => None
  | String c s' =>
      if cls c then
        match greedy_plus cls rest s' with
        | Some g => Some (String c g)
        | None => if rest s' then Some (String c EmptyString) else None
        end
      else None
  end.

(** [KSTREE_GROUP_PATTERN.match(obj_name)], giving [group(1)]:
    the pattern is [^KSTREE_GROUP_([A-Z0-9_]+)_(\\d+)$], ignoring case. *)
Definition KSTREE_GROUP_PATTERN_match (obj_name : string) : option string :=
  match strip_prefix_ignorecase "KSTREE_GROUP_" obj_name with
  | None => None
  | Some s =>
      greedy_plus is_group_char
        (fun rest => match rest with
                     | String "_" number =>
                         re_match_anchored (Plus Digit) number
                     | _ => false
                     end) s
  end.

Definition _get_kstree_group_name (obj_name : string) : option string :=
  KSTREE_GROUP_PATTERN_match obj_name.

(** [ASSETTO_CORSA_OBJECTS] of [src/utils/constants.py]. *)
Definition ASSETTO_CORSA_OBJECTS : list regex :=
  [ Cat (Lit "AC_START_") (Plus Digit);
    Cat (Lit "AC_PIT_") (Plus Digit);
    Cat (Lit "AC_TIME_") (Cat (Plus Digit) (Lit "_L"));
    Cat (Lit "AC_TIME_") (Cat (Plus Digit) (Lit "_R"));
    Cat (Lit "AC_HOTLAP_START_") (Plus Digit);
    Lit "AC_OPEN_FINISH_R";
    Lit "AC_OPEN_FINISH_L";
    Lit "AC_OPEN_START_L";
    Lit "AC_OPEN_START_R";
    Cat (Lit "AC_AUDIO_") (Plus AnyChar);
    Cat (Lit "AC_CREW_") (Plus Digit) ].

Definition _is_ac_object (name : string) : bool :=
  existsb (fun regex => re_match_anchored regex name) ASSETTO_CORSA_OBJECTS.

(** *** Splitting a mesh at the vertex limit

    The loops of [_split_meshes_for_vertex_limit], for any vertex type. *)
Section VertexLimit.
Variable V : Type.

(** [if not face_index in vertex_index_mapping: ...] followed by the
    lookup [vertex_index_mapping[face_index]]. *)
Definition intern_index (vertex_index_mapping : list (nat * nat))
           (face_index : nat) : list (nat * nat) * nat :=
  match dict_get Nat.eqb vertex_index_mapping face_index with
  | Some index => (vertex_index_mapping, index)
  | None =>
      let new_index := List.length vertex_index_mapping in
      (vertex_index_mapping ++ [(face_index, new_index)], new_index)
  end.

(** [for face_index in face: ...]. *)
Definition add_face (st : list (nat * nat) * list nat) (face : list nat)
  : list (nat * nat) * list nat :=
  fold_left
    (fun (st : list (nat * nat) * list nat) face_index =>
       let '(vertex_index_mapping, new_indices) := st in
       let '(vertex_index_mapping, index) :=
         intern_index vertex_index_mapping face_index in
       (vertex_index_mapping, new_indices ++ [index]))
    face st.

Record chunk_state : Type := {
  cs_start_index : nat;
  cs_mapping : list (nat * nat);
  cs_new_indices : list nat
}.

(** [for i in range(start_index, len(mesh.indices), 3): ...], over the
    values [range] still to come. *)
Fixpoint chunk_loop (limit : nat) (mesh_indices : list nat)
         (range : list nat) (st : chunk_state) : chunk_state :=
  match range with
  | [] => st
  | i :: range' =>
      let start_index := cs_start_index st + 3 in
      let face := slice3 mesh_indices i in
      let '(vertex_index_mapping, new_indices) :=
        add_face (cs_mapping st, cs_new_indices st) face in
      let st' := {| cs_start_index := start_index;
                    cs_mapping := vertex_index_mapping;
                    cs_new_indices := new_indices |} in
      if limit - 3 <=? List.length vertex_index_mapping then st'
      else chunk_loop limit mesh_indices range' st'
  end.

Definition run_chunk (limit : nat) (mesh_indices : list nat)
           (start_index : nat) : chunk_state :=
  chunk_loop limit mesh_indices
             (range3 start_index (List.length mesh_indices))
             {| cs_start_index := start_index;
                cs_mapping := [];
                cs_new_indices := [] |}.

(** [[mesh.vertices[v] for v, index in sorted(mapping.items(), ...)]]. *)
Definition chunk_verts (mesh_vertices : list V)
           (vertex_index_mapping : list (nat * nat)) : outcome (list V) :=
  ofold (fun verts (entry : nat * nat) =>
           v <~ getitem mesh_vertices (fst entry);;
           Ok (verts ++ [v]))
        (sorted_by snd Nat.leb vertex_index_mapping) [].

(** The loop advances: this is what makes the [while] terminate. *)
Lemma chunk_loop_monotone limit mesh_indices range st :
  cs_start_index st
  <= cs_start_index (chunk_loop limit mesh_indices range st).
Proof.
  revert st. induction range as [|i range IH]; intros st; simpl.
  - lia.
  - destruct (add_face _ _) as [m n].
    destruct (limit - 3 <=? List.length m); simpl; [lia|].
    specialize (IH {| cs_start_index := cs_start_index st + 3;
                      cs_mapping := m; cs_new_indices := n |}).
    simpl in IH. lia.
Qed.

Lemma chunk_loop_advances limit mesh_indices range st :
  1 <= List.length range ->
  cs_start_index st + 3
  <= cs_start_index (chunk_loop limit mesh_indices range st).
Proof.
  destruct range as [|i range]; simpl; [lia|]. intros _.
  destruct (add_face _ _) as [m n].
  destruct (limit - 3 <=? List.length m); simpl; [lia|].
  pose proof (chunk_loop_monotone limit mesh_indices range
                {| cs_start_index := cs_start_index st + 3;
                   cs_mapping := m; cs_new_indices := n |}) as Hm.
  simpl in Hm. lia.
Qed.

Lemma range3_length start stop :
  start < stop -> 1 <= List.length (range3 start stop).
Proof.
  intros Hlt. unfold range3. rewrite length_map, length_seq.
  apply (Nat.div_le_lower_bound _ 3 1); lia.
Qed.
End VertexLimit.

Section VertexLimitWhile.
Context {F : Type} `{Scalar F}.

(** [while start_index < len(mesh.indices): ...]. *)
Equations? split_while (limit : nat) (mesh : Mesh F) (start_index : nat)
           (new_meshes : list (Mesh F)) : outcome (list (Mesh F))
  by wf (List.length (indices mesh) - start_index) lt :=
  split_while limit mesh start_index new_meshes
    with lt_dec start_index (List.length (indices mesh)) := {
    | right _ => Ok new_meshes
    | left Hlt =>
        match chunk_verts (vertices mesh)
                (cs_mapping (run_chunk limit (indices mesh) start_index)) with
        | Raise e => Raise e
        | Ok verts =>
            split_while limit mesh
              (cs_start_index (run_chunk limit (indices mesh) start_index))
              (new_meshes ++
               [mkMesh (material_id mesh) verts
                  (cs_new_indices (run_chunk limit (indices mesh) start_index))])
        end }.
Proof.
  pose proof (@chunk_loop_advances limit (indices mesh)
                (range3 start_index (List.length (indices mesh)))
                {| cs_start_index := start_index;
                   cs_mapping := []; cs_new_indices := [] |}
                (range3_length Hlt)) as Hp.
  unfold run_chunk. cbn [cs_start_index] in Hp. lia.
Qed.

Definition split_meshes_at (limit : nat) (divided_meshes : list (Mesh F))
  : outcome (list (Mesh F)) :=
  ofold (fun new_meshes mesh =>
           if limit <? List.length (vertices mesh)
           then split_while limit mesh 0 new_meshes
           else Ok (new_meshes ++ [mesh]))
        divided_meshes [].

Definition _split_meshes_for_vertex_limit (divided_meshes : list (Mesh F))
  : outcome (list (Mesh F)) :=
  let limit := MAX_VERTICES_PER_MESH in
  split_meshes_at limit divided_meshes.
End VertexLimitWhile.

(** *** Extracting the geometry of an object *)
Section Geometry.
Context {F : Type} `{Scalar F} `{Mathutils F}.
(** [self.material_writer]. *)
Variable material_writer : MaterialWriter F.

(** [has_uvs] once [calc_tangents] has been tried. *)
Definition has_uvs_of (mesh_copy : MeshData F) : bool :=
  if 0 <? uv_layers mesh_copy then calc_tangents_ok mesh_copy else false.

Definition _calculate_uvs (obj : Object F) (mesh : MeshData F)
           (material_id : nat) (co : F * F * F) : outcome (F * F) :=
  let '(size0, size1, _) := dimensions obj in
  let '(co0, co1, _) := co in
  x <~ py_div co0 size0;;
  y <~ py_div co1 size1;;
  slot <~ getitem (materials mesh) material_id;;
  match slot with
  | None => Raise AttributeError
  | Some mat =>
      match get_active_material_texture_slot mat with
      | Some texture_node =>
          let '(scale0, scale1, _) := scale (texture_mapping texture_node) in
          let '(translation0, translation1, _) :=
            translation (texture_mapping texture_node) in
          Ok (x *! scale0 +! translation0, y *! scale1 +! translation1)
      | None => Ok (x, y)
      end
  end.

(** The vertex of one loop of a triangle.  [default_uv] is what [uv]
    becomes without a UV layer. *)
Definition loop_vertex (obj : Object F) (mesh_copy : MeshData F)
           (has_uvs : bool) (uv_layer : option (list (F * F)))
           (default_uv : F * F * F -> outcome (F * F))
           (loop_index : nat) : outcome (UvVertex F) :=
  loop <~ getitem (mesh_loops mesh_copy) loop_index;;
  vertex_co <~ getitem (mesh_vertices mesh_copy) (vertex_index loop);;
  let local_position := matrix_apply (matrix_world obj) vertex_co in
  let converted_position := convert_vector3 local_position in
  let converted_normal := convert_vector3 (loop_normal loop) in
  uv <~ match uv_layer with
        | Some data =>
            uv <~ getitem data loop_index;;
            Ok (fst uv, -! snd uv)
        | None => default_uv local_position
        end;;
  let tangent := if has_uvs then convert_vector3 (loop_tangent loop)
                 else (fone, fzero, fzero) in
  Ok (mkUvVertex converted_position converted_normal uv tangent).

(** [for loop_index in triangle.loops: ...], giving the dictionary and
    [face_indices]. *)
Definition face_loop (vertex_of : nat -> outcome (UvVertex F))
           (vertices : vertex_dict F) (triangle : MeshLoopTriangle)
  : outcome (vertex_dict F * list nat) :=
  ofold (fun (st : vertex_dict F * list nat) loop_index =>
           let '(vertices, face_indices) := st in
           vertex <~ vertex_of loop_index;;
           r <~ vertex_dict_intern vertices vertex;;
           Ok (fst r, face_indices ++ [snd r]))
        (loops triangle) (vertices, []).

(** [indices.extend((face_indices[a], face_indices[b], face_indices[c]))]. *)
Definition extend3 (indices face_indices : list nat) (a b c : nat)
  : outcome (list nat) :=
  ia <~ getitem face_indices a;;
  ib <~ getitem face_indices b;;
  ic <~ getitem face_indices c;;
  Ok (indices ++ [ia; ib; ic]).

(** The body of [for triangle in mesh_triangles] in
    [_split_object_by_materials]. *)
Definition split_triangle (obj : Object F) (mesh_copy : MeshData F)
           (has_uvs : bool) (uv_layer : option (list (F * F)))
           (material_index : nat) (st : vertex_dict F * list nat)
           (triangle : MeshLoopTriangle) : outcome (vertex_dict F * list nat) :=
  let '(vertices, indices) := st in
  if negb (material_index =? bpy.material_index triangle) then Ok st
  else
    r <~ face_loop
           (loop_vertex obj mesh_copy has_uvs uv_layer
              (_calculate_uvs obj mesh_copy material_index))
           vertices triangle;;
    let '(vertices, face_indices) := r in
    indices <~ extend3 indices face_indices 1 2 0;;
    if List.length face_indices =? 4 then
      indices <~ extend3 indices face_indices 2 3 0;;
      Ok (vertices, indices)
    else Ok (vertices, indices).

(** The body of [for material_index in used_materials] in
    [_split_object_by_materials]. *)
Definition split_material (obj : Object F) (mesh_copy : MeshData F)
           (has_uvs : bool) (uv_layer : option (list (F * F)))
           (meshes : list (Mesh F)) (material_index : nat)
  : outcome (list (Mesh F)) :=
  slot <~ getitem (materials mesh_copy) material_index;;
  match slot with
  | None =>
      Raise (Exception ("Material slot " ++ str_nat material_index
                        ++ " for object '" ++ name obj
                        ++ "' has no material assigned"))
  | Some material =>
      let material_name := bpy.material_name material in
      if is_hidden_name material_name then
        Raise (Exception ("Material '" ++ material_name
                          ++ "' is ignored but is used by object '"
                          ++ name obj ++ "'"))
      else
        r <~ ofold (split_triangle obj mesh_copy has_uvs uv_layer material_index)
                   (loop_triangles mesh_copy) ([], []);;
        let '(vertices, indices) := r in
        let vertices := vertex_dict_sorted_keys vertices in
        match dict_get String.eqb (material_positions material_writer)
                       material_name with
        | None => Raise (KeyError material_name)
        | Some material_id =>
            Ok (meshes ++ [mkMesh (Some material_id) vertices indices])
        end
  end.

Definition _split_object_by_materials (obj : Object F)
  : outcome (list (Mesh F)) :=
  let mesh_copy := to_mesh obj in
  let has_uvs := has_uvs_of mesh_copy in
  let uv_layer := if has_uvs then uv_layers_active mesh_copy else None in
  match materials mesh_copy with
  | [] => Raise (Exception ("Object '" ++ name obj
                            ++ "' has no material assigned"))
  | _ :: _ =>
      let used_materials :=
        set_of (map bpy.material_index (loop_triangles mesh_copy)) in
      ofold (split_material obj mesh_copy has_uvs uv_layer) used_materials []
  end.

(** The body of [for triangle in mesh_triangles] in
    [_extract_tree_mesh_data]. *)
Definition extract_triangle (obj : Object F) (mesh_copy : MeshData F)
           (has_uvs : bool) (uv_layer : option (list (F * F)))
           (material_index : nat) (st : vertex_dict F * list nat)
           (triangle : MeshLoopTriangle) : outcome (vertex_dict F * list nat) :=
  let '(vertices, indices) := st in
  if negb (material_index =? bpy.material_index triangle) then Ok st
  else
    r <~ face_loop
           (loop_vertex obj mesh_copy has_uvs uv_layer
              (fun _ => Ok (fzero, fzero)))
           vertices triangle;;
    let '(vertices, face_indices) := r in
    indices <~ extend3 indices face_indices 1 2 0;;
    Ok (vertices, indices).

(** The body of [for material_index in used_materials] in
    [_extract_tree_mesh_data]. *)
Definition extract_material (obj : Object F) (mesh_copy : MeshData F)
           (has_uvs : bool) (uv_layer : option (list (F * F)))
           (result : list (list (UvVertex F) * list nat * nat))
           (material_index : nat)
  : outcome (list (list (UvVertex F) * list nat * nat)) :=
  slot <~ getitem (materials mesh_copy) material_index;;
  match slot with
  | None => Ok result
  | Some material =>
      let material_name := bpy.material_name material in
      if is_hidden_name material_name then Ok result
      else
        r <~ ofold (extract_triangle obj mesh_copy has_uvs uv_layer material_index)
                   (loop_triangles mesh_copy) ([], []);;
        let '(vertices, indices) := r in
        let vertices_list := vertex_dict_sorted_keys vertices in
        match dict_get String.eqb (material_positions material_writer)
                       material_name with
        | Some material_id => Ok (result ++ [(vertices_list, indices, material_id)])
        | None => Ok result
        end
  end.

(** Returns the list of [(vertices, indices, material_id)]. *)
Definition _extract_tree_mesh_data (obj : Object F)
  : outcome (list (list (UvVertex F) * list nat * nat)) :=
  let mesh_copy := to_mesh obj in
  let has_uvs := has_uvs_of mesh_copy in
  let uv_layer := if has_uvs then uv_layers_active mesh_copy else None in
  match materials mesh_copy with
  | [] => Ok []
  | _ :: _ =>
      let used_materials :=
        set_of (map bpy.material_index (loop_triangles mesh_copy)) in
      ofold (extract_material obj mesh_copy has_uvs uv_layer) used_materials []
  end.

(** The squares under the first [math.sqrt] are powers, [x**2]; those
    under the second are products. *)
Definition _calculate_tree_normal (vertex_pos vertex_normal : F * F * F)
           (mesh_center_y : F) : F * F * F :=
  let '(_, vertex_pos1, _) := vertex_pos in
  let '(vertex_normal0, _, vertex_normal2) := vertex_normal in
  let height_above_center := vertex_pos1 -! mesh_center_y in
  let height_factor :=
    py_min fone (py_max (fdec 5 (-1))
                        (fdec 7 (-1) +! height_above_center *! fdec 1 (-1))) in
  let orig_horiz_len :=
    fsqrt (fpow vertex_normal0 (fdec 2 0) +! fpow vertex_normal2 (fdec 2 0)) in
  let '(nx, ny, nz) :=
    if orig_horiz_len >! fdec 1 (-3) then
      let horiz_x := vertex_normal0 /! orig_horiz_len in
      let horiz_z := vertex_normal2 /! orig_horiz_len in
      let horiz_weight := (fone -! height_factor) *! fdec 5 (-1) in
      (horiz_x *! horiz_weight,
       height_factor +! (fone -! height_factor) *! fdec 5 (-1),
       horiz_z *! horiz_weight)
    else (fzero, fone, fzero) in
  let length := fsqrt (nx *! nx +! ny *! ny +! nz *! nz) in
  if length >! fdec 1 (-3) then (nx /! length, ny /! length, nz /! length)
  else (fzero, fone, fzero).
End Geometry.

(** *** [class NodeProperties] and [class NodeSettings] *)
Section Properties.
Context {F : Type} `{Scalar F} `{Mathutils F}.

Record NodeProperties : Type := {
  np_name : string;
  lodIn : F;
  lodOut : F;
  layer : nat;
  castShadows : bool;
  visible : bool;
  transparent : bool;
  renderable : bool
}.

Definition NodeProperties_init (node : Object F) : NodeProperties :=
  let ac_node := kn5 node in
  {| np_name := name node;
     lodIn := lod_in ac_node;
     lodOut := lod_out ac_node;
     layer := 0;
     castShadows := cast_shadows ac_node;
     visible := kn5_visible ac_node;
     transparent := kn5_transparent ac_node;
     renderable := kn5_renderable ac_node |}.

(** One entry of [settings["nodes"]]: the test of the node name against
    the entry's key, and the values the entry gives to the settings of
    [NODE_SETTINGS]. *)
Record NodeSettings : Type := {
  _does_node_name_match : string -> bool;
  set_lodIn : option F;
  set_lodOut : option F;
  set_layer : option nat;
  set_castShadows : option bool;
  set_visible : option bool;
  set_transparent : option bool;
  set_renderable : option bool
}.

Definition or_keep {A} (setting_val : option A) (old : A) : A :=
  match setting_val with Some v => v | None => old end.

Definition apply_settings_to_node (self : NodeSettings)
           (node : NodeProperties) : NodeProperties :=
  if negb (_does_node_name_match self (np_name node)) then node
  else
    {| np_name := np_name node;
       lodIn := or_keep (set_lodIn self) (lodIn node);
       lodOut := or_keep (set_lodOut self) (lodOut node);
       layer := or_keep (set_layer self) (layer node);
       castShadows := or_keep (set_castShadows self) (castShadows node);
       visible := or_keep (set_visible self) (visible node);
       transparent := or_keep (set_transparent self) (transparent node);
       renderable := or_keep (set_renderable self) (renderable node) |}.
End Properties.
Arguments NodeProperties F : clear implicits.
Arguments NodeSettings F : clear implicits.

(** *** The bounding sphere *)
Section BoundingSphere.
Context {F : Type} `{Scalar F}.

(** The first loop of [_write_bounding_sphere]: the state is
    [(max_x, max_y, max_z, min_x, min_y, min_z)]. *)
Definition bounds_step (st : F * F * F * F * F * F) (vertex : UvVertex F)
  : F * F * F * F * F * F :=
  let '(max_x, max_y, max_z, min_x, min_y, min_z) := st in
  let '(co0, co1, co2) := co vertex in
  let max_x := if co0 >! max_x then co0 else max_x in
  let min_x := if co0 <! min_x then co0 else min_x in
  let max_y := if co1 >! max_y then co1 else max_y in
  let min_y := if co1 <! min_y then co1 else min_y in
  let max_z := if co2 >! max_z then co2 else max_z in
  let min_z := if co2 <! min_z then co2 else min_z in
  (max_x, max_y, max_z, min_x, min_y, min_z).

Definition bounds (vertices : list (UvVertex F)) : F * F * F * F * F * F :=
  fold_left bounds_step vertices
            (-! finf, -! finf, -! finf, finf, finf, finf).

Definition sphere_center_of (vertices : list (UvVertex F)) : F * F * F :=
  let '(max_x, max_y, max_z, min_x, min_y, min_z) := bounds vertices in
  (min_x +! (max_x -! min_x) /! fdec 2 0,
   min_y +! (max_y -! min_y) /! fdec 2 0,
   min_z +! (max_z -! min_z) /! fdec 2 0).

(** [dist] in the second loop. *)
Definition dist_to (sphere_center : F * F * F) (vertex : UvVertex F) : F :=
  let '(c0, c1, c2) := sphere_center in
  let '(co0, co1, co2) := co vertex in
  let dx := co0 -! c0 in
  let dy := co1 -! c1 in
  let dz := co2 -! c2 in
  fpow (dx *! dx +! dy *! dy +! dz *! dz) (fdec 5 (-1)).

(** The second loop. *)
Definition sphere_radius_of (sphere_center : F * F * F)
           (vertices : list (UvVertex F)) : F :=
  fold_left (fun sphere_radius vertex =>
               let dist := dist_to sphere_center vertex in
               if dist >! sphere_radius then dist else sphere_radius)
            vertices fzero.
End BoundingSphere.

(** *** [class NodeWriter] *)
Section Writer.
Context {F : Type} `{Scalar F} `{Mathutils F}.
(** [self.context], [self.material_writer] and [self.node_settings]. *)
Variable context : Context F.
Variable material_writer : MaterialWriter F.
Variable node_settings : list (NodeSettings F).

Definition _write_node_class (node_class : constants.node_class) : W F unit :=
  write_uint (NODE_TYPES node_class).

Definition _write_bounding_sphere (vertices : list (UvVertex F)) : W F unit :=
  let sphere_center := sphere_center_of vertices in
  let sphere_radius := sphere_radius_of sphere_center vertices in
  write_vector3 sphere_center;;
  write_float sphere_radius.

(** [node_data]. *)
Record node_data : Type := {
  nd_name : string;
  childCount : nat;
  active : bool;
  transform : Matrix
}.

Definition _write_base_node_data (node_data : node_data) : W F unit :=
  _write_node_class NodeClass;;
  write_string (nd_name node_data);;
  write_uint (childCount node_data);;
  write_bool (active node_data);;
  write_matrix (transform node_data).

Definition write_vertex (vertex : UvVertex F) : W F unit :=
  write_vector3 (co vertex);;
  write_vector3 (normal vertex);;
  write_vector2 (uv vertex);;
  write_vector3 (tangent vertex).

Definition _write_mesh (obj : Object F) (mesh : Mesh F)
           (node_properties : NodeProperties F) : W F unit :=
  _write_node_class MeshClass;;
  write_string (name obj);;
  write_uint MESH_CHILD_COUNT;;
  let is_active := true in
  write_bool is_active;;
  write_bool (castShadows node_properties);;
  write_bool (visible node_properties);;
  write_bool (transparent node_properties);;
  if MAX_VERTICES_PER_MESH <? List.length (vertices mesh) then
    raise (Exception ("Only " ++ str_nat MAX_VERTICES_PER_MESH
                      ++ " vertices per mesh allowed. ('" ++ name obj ++ "')"))
  else
    write_uint (List.length (vertices mesh));;
    for_each write_vertex (vertices mesh);;
    write_uint (List.length (indices mesh));;
    for_each write_ushort (indices mesh);;
    match material_id mesh with
    | None =>
        warn ("No material to mesh '" ++ name obj ++ "' assigned");;
        write_uint DEFAULT_MATERIAL_ID
    | Some material_id => write_uint material_id
    end;;
    write_uint (layer node_properties);;
    write_float (lodIn node_properties);;
    write_float (lodOut node_properties);;
    _write_bounding_sphere (vertices mesh);;
    write_bool (renderable node_properties).

Definition _write_mesh_node (obj : Object F) : W F unit :=
  divided_meshes <- lift (_split_object_by_materials material_writer obj);;
  divided_meshes <- lift (_split_meshes_for_vertex_limit divided_meshes);;
  match parent obj, 1 <? List.length divided_meshes with
  | None, false => ret tt
  | obj_parent, _ =>
      transform_matrix <-
        match obj_parent with
        | Some p =>
            inverse <- lift (inverted (parent_matrix_world p));;
            ret (convert_matrix inverse)
        | None => ret Matrix_identity
        end;;
      _write_base_node_data
        {| nd_name := name obj;
           childCount := List.length divided_meshes;
           active := true;
           transform := transform_matrix |}
  end;;
  let node_properties := NodeProperties_init obj in
  let node_properties :=
    fold_left (fun node_properties node_setting =>
                 apply_settings_to_node node_setting node_properties)
              node_settings node_properties in
  for_each (fun mesh => _write_mesh obj mesh node_properties) divided_meshes.

Fixpoint _any_child_is_mesh (obj : Object F) : bool :=
  (fix any (cs : list (Object F)) : bool :=
     match cs with
     | [] => false
     | child :: cs' =>
         if String.eqb (type child) "MESH" || String.eqb (type child) "CURVE"
            || _any_child_is_mesh child
         then true else any cs'
     end) (children obj).

(** [obj.name] does not start with the hidden prefix and the object is
    not excluded: the test both loops of [_write_base_node] apply. *)
Definition counts_as_child (obj : Object F) : bool :=
  negb (is_hidden_name (name obj))
  && negb (is_object_excluded_by_collection obj context).

Definition linesep : string := String (ascii_of_nat 10) EmptyString.
Definition tab : string := String (ascii_of_nat 9) EmptyString.

Definition _write_base_node (obj : option (Object F)) (node_name : string)
  : W F unit :=
  r <- match obj with
       | None =>
           let matrix := Matrix_identity in
           let num_children :=
             List.length
               (filter (fun obj => match parent obj with
                                   | Some _ => false
                                   | None => counts_as_child obj
                                   end)
                       (blend_data_objects context)) in
           ret (matrix, num_children)
       | Some obj =>
           (if negb (_is_ac_object (name obj)) && negb (_any_child_is_mesh obj)
            then
              warn ("Unknown logical object '" ++ name obj
                    ++ "' might prevent other objects from loading." ++ linesep
                    ++ tab ++ "Rename it to '__{obj.name}' if you do not want to export it.")
            else ret tt);;
           let matrix := convert_matrix (matrix_local obj) in
           let num_children :=
             List.length (filter counts_as_child (children obj)) in
           ret (matrix, num_children)
       end;;
  _write_base_node_data
    {| nd_name := node_name;
       childCount := snd r;
       active := true;
       transform := fst r |}.

Fixpoint _write_object (obj : Object F) : W F unit :=
  if negb (is_hidden_name (name obj)) then
    (if String.eqb (type obj) "MESH" then
       match children obj with
       | _ :: _ =>
           raise (Exception ("A mesh cannot contain children ('"
                             ++ name obj ++ "')"))
       | [] => _write_mesh_node obj
       end
     else _write_base_node (Some obj) (name obj));;
    (fix each (cs : list (Object F)) : W F unit :=
       match cs with
       | [] => ret tt
       | child :: cs' =>
           (if negb (is_object_excluded_by_collection child context)
            then _write_object child else ret tt);;
           each cs'
       end) (children obj)
  else ret tt.

(** [obj] is a top-level object that is neither hidden by its name nor
    excluded: what the first three tests of the loop of
    [_collect_and_group_objects] let through. *)
Definition is_top_level_exported (obj : Object F) : bool :=
  match parent obj with
  | Some _ => false
  | None =>
      if is_hidden_name (name obj) then false
      else if is_object_excluded_by_collection obj context then false
      else true
  end.

(** The body of the loop of [_collect_and_group_objects]. *)
Definition collect_object
           (st : list (Object F) * list (string * (string * list (Object F))))
           (obj : Object F)
  : list (Object F) * list (string * (string * list (Object F))) :=
  let '(regular_objects, kstree_groups) := st in
  if negb (is_top_level_exported obj) then st
  else
    match _get_kstree_group_name (name obj) with
    | Some (String c g as group_name) =>
        let group_key := lower group_name in
        (* a new key gets [(group_name, [])] first *)
        let entry :=
          match dict_get String.eqb kstree_groups group_key with
          | Some entry => entry
          | None => (group_name, [])
          end in
        (regular_objects,
         dict_set String.eqb kstree_groups group_key
                  (fst entry, snd entry ++ [obj]))
    | _ => (regular_objects ++ [obj], kstree_groups)
    end.

Definition _collect_and_group_objects
  : list (Object F) * list (string * (string * list (Object F))) :=
  let '(regular_objects, kstree_groups) :=
    fold_left collect_object (blend_data_objects context) ([], []) in
  let regular_objects :=
    sorted_by (fun k => List.length (children k)) Nat.leb regular_objects in
  let kstree_groups :=
    map (fun entry : string * (string * list (Object F)) =>
           let '(group_key, (original_case, objects)) := entry in
           (group_key, (original_case, sorted_by (@name F _) String.leb objects)))
        kstree_groups in
  (regular_objects, kstree_groups).

(** The first pass of [_write_kstree_group] over the data of one
    object: the state is [(material_id, node_properties, all_positions_y)]. *)
Definition first_pass (obj : Object F)
           (st : option nat * option (NodeProperties F) * list F)
           (mesh_data : list (list (UvVertex F) * list nat * nat))
  : option nat * option (NodeProperties F) * list F :=
  fold_left
    (fun (st : option nat * option (NodeProperties F) * list F)
         (entry : list (UvVertex F) * list nat * nat) =>
       let '(material_id, node_properties, all_positions_y) := st in
       let '(verts, _, mat_id) := entry in
       (match material_id with None => Some mat_id | Some _ => material_id end,
        match node_properties with
        | None => Some (NodeProperties_init obj)
        | Some _ => node_properties
        end,
        all_positions_y ++ map (fun v => snd (fst (co v))) verts))
    mesh_data st.

(** The second pass: the state is [(all_vertices, all_indices)]. *)
Definition second_pass (mesh_center_y : F)
           (st : list (UvVertex F) * list nat)
           (mesh_data : list (list (UvVertex F) * list nat * nat))
  : list (UvVertex F) * list nat :=
  fold_left
    (fun (st : list (UvVertex F) * list nat)
         (entry : list (UvVertex F) * list nat * nat) =>
       let '(all_vertices, all_indices) := st in
       let '(verts, indices, _) := entry in
       let index_offset := List.length all_vertices in
       (all_vertices ++
          map (fun v =>
                 let tree_normal :=
                   _calculate_tree_normal (co v) (normal v) mesh_center_y in
                 mkUvVertex (co v) tree_normal (uv v) (tangent v)) verts,
        all_indices ++ map (fun idx => idx + index_offset) indices))
    mesh_data st.

Definition _write_kstree_group (group_name : string)
           (objects : list (Object F)) : W F unit :=
  let mesh_objects :=
    filter (fun obj => String.eqb (type obj) "MESH") objects in
  match mesh_objects with
  | [] => ret tt
  | _ :: _ =>
      collected <- lift
        (ofold (fun st obj =>
                  mesh_data <~ _extract_tree_mesh_data material_writer obj;;
                  Ok (first_pass obj st mesh_data))
               mesh_objects (None, None, []));;
      let '(material_id, node_properties, all_positions_y) := collected in
      let mesh_center_y :=
        match all_positions_y with
        | [] => fzero
        | _ :: _ => py_sum all_positions_y /! of_len (List.length all_positions_y)
        end in
      merged <- lift
        (ofold (fun st obj =>
                  mesh_data <~ _extract_tree_mesh_data material_writer obj;;
                  Ok (second_pass mesh_center_y st mesh_data))
               mesh_objects ([], []));;
      let '(all_vertices, all_indices) := merged in
      match all_vertices with
      | [] => ret tt
      | _ :: _ =>
          (if MAX_VERTICES_PER_MESH <? List.length all_vertices then
             warn ("KSTREE group '" ++ group_name ++ "' has "
                   ++ str_nat (List.length all_vertices) ++ " vertices, "
                   ++ "exceeding limit of " ++ str_nat MAX_VERTICES_PER_MESH
                   ++ ". Consider splitting into multiple groups.")
           else ret tt);;
          _write_node_class MeshClass;;
          write_string group_name;;
          write_uint MESH_CHILD_COUNT;;
          write_bool true;;
          match node_properties with
          | Some node_properties =>
              write_bool (castShadows node_properties);;
              write_bool (visible node_properties);;
              write_bool (transparent node_properties)
          | None => write_bool true;; write_bool true;; write_bool false
          end;;
          write_uint (List.length all_vertices);;
          for_each write_vertex all_vertices;;
          write_uint (List.length all_indices);;
          for_each write_ushort all_indices;;
          match material_id with
          | Some material_id => write_uint material_id
          | None =>
              warn ("No material for KSTREE group '" ++ group_name ++ "'");;
              write_uint DEFAULT_MATERIAL_ID
          end;;
          match node_properties with
          | Some node_properties =>
              write_uint (layer node_properties);;
              write_float (lodIn node_properties);;
              write_float (lodOut node_properties)
          | None => write_uint 0;; write_float fzero;; write_float fzero
          end;;
          _write_bounding_sphere all_vertices;;
          match node_properties with
          | Some node_properties => write_bool (renderable node_properties)
          | None => write_bool true
          end
      end
  end.

Definition write : W F unit :=
  let '(regular_objects, kstree_groups) := _collect_and_group_objects in
  let total_children :=
    List.length regular_objects + List.length kstree_groups in
  _write_base_node_data
    {| nd_name := "BlenderFile";
       childCount := total_children;
       active := true;
       transform := Matrix_identity |};;
  for_each
    (fun group_key =>
       match dict_get String.eqb kstree_groups group_key with
       | Some (original_name, objects) =>
           _write_kstree_group original_name objects
       | None => raise (KeyError group_key)
       end)
    (sorted_by (fun k : string => k) String.leb (map fst kstree_groups));;
  for_each _write_object regular_objects.
End Writer.
End node_writer.

(** ** The file system and the platform

    Files are byte strings with a modification time.  The operations of
    [os] that the exporter calls can fail with [OSError]; whether they do is
    an input of the model. *)

Module os.
Section Defs.
Context {F : Type} `{Mathutils F}.

Definition FileSystem : Type := string -> option (string * Z).

Definition fs_exists (fs : FileSystem) (p : string) : bool :=
  match fs p with Some _ => true | None => false end.

Definition fs_put (fs : FileSystem) (p : string) (f : string * Z) : FileSystem :=
  fun q => if String.eqb q p then Some f else fs q.

Definition fs_remove (fs : FileSystem) (p : string) : FileSystem :=
  fun q => if String.eqb q p then None else fs q.

Record Platform : Type := {
  (** The bytes the primitive writer produces for the tokens written. *)
  encode : list (token F) -> string;
  (** The time a file written now is stamped with. *)
  now : Z;
  (** [os.sep]. *)
  sep : string;
  (** Whether [open(p, "wb")], [unlink], [os.replace]/[os.rename] and
      [os.makedirs] go through. *)
  can_open_write : string -> bool;
  can_unlink : string -> bool;
  can_replace : string -> string -> bool;
  can_makedirs : string -> bool;
  (** [str(e)] of the exception [shutil.copy2] raises, if it does. *)
  copy2_error : string -> string -> option string;
  (** [traceback.format_exc()] while the exception is handled. *)
  format_exc : exn -> string;
  (** The conversion tool. *)
  get_texconv_path : string;
  staging : string -> string -> outcome unit;
  texconv : string -> string -> texconv_run
}.

(** [os.path.join(a, b)]. *)
Definition join (pf : Platform) (a b : string) : string :=
  if startswith b (sep pf) then b
  else if String.eqb a "" then b
  else if String.eqb (substring (String.length a - 1) 1 a) (sep pf)
       then (a ++ b)%string
       else (a ++ sep pf ++ b)%string.

(** What the texture writer sees of the platform and the files. *)
Definition env_of (pf : Platform) (fs : FileSystem) : Env :=
  {| texconv_path := get_texconv_path pf;
     path_exists := fs_exists fs;
     read_bytes := fun p =>
       match fs p with
       | Some (data, _) => Ok data
       | None => Raise (OSError ("No such file or directory: '" ++ p ++ "'"))
       end;
     stage_png := staging pf;
     run_texconv := texconv pf |}.
End Defs.
Arguments Platform F {_}.
End os.
Import os.

(** ** [src/lib/kn5/exporter.py] *)

Module exporter.
Import helpers utils constants.

(** [str(e)]. *)
Definition str_exn (e : exn) : string :=
  match e with
  | Exception msg => msg
  | RuntimeError msg => msg
  | OSError msg => msg
  | CalledProcessError stderr => stderr
  | IndexError => "list index out of range"
  | AttributeError => "'NoneType' object has no attribute"
  | KeyError key => ("'" ++ key ++ "'")%string
  | ZeroDivisionError => "float division by zero"
  | ValueError => "cannot convert float NaN to integer"
  | OverflowError => "cannot convert float infinity to integer"
  end.

Section Defs.
Context {F : Type} `{Scalar F} `{Mathutils F}.
Variable pf : Platform F.
(** [MaterialWriter(file, context, {}, warnings, texture_name_mapping=...)]. *)
Variable new_material_writer :
  Context F -> list (string * string) -> MaterialWriter F.

(** *** [class KN5Exporter] *)

Definition _write_header : W F unit :=
  emit (W_raw KN5_HEADER);;
  write_uint KN5_VERSION.

Definition _write_content (fs : FileSystem) (context : Context F) : W F unit :=
  texture_writer <- texture_writer.TextureWriter_init context;;
  texture_writer <- texture_writer.write (env_of pf fs) texture_writer;;
  let material_writer :=
    new_material_writer context
      (texture_writer.texture_name_mapping texture_writer) in
  materials_write material_writer;;
  node_writer.write context material_writer [].

Definition KN5Exporter_write (fs : FileSystem) (context : Context F) : W F unit :=
  _write_header;;
  _write_content fs context.

(** *** [copy_textures_to_working_directory]

    The state of its loop is the files, the warnings appended and the
    two counters. *)
Definition copy_one (texture_dir : string)
           (st : FileSystem * list string * nat * nat)
           (texture_node : ShaderNodeTexImage F)
  : FileSystem * list string * nat * nat :=
  let '(fs, warnings, copied_count, skipped_count) := st in
  if is_hidden_name (node_name texture_node) then st
  else
    match image texture_node with
    | None => st
    | Some img =>
        if String.eqb (filepath img) "" && negb (String.eqb (source img) "FILE")
        then (fs, warnings ++ [("Skipping non-file texture: " ++ image_name img)%string],
              copied_count, skipped_count + 1)
        else
          let source_path := abspath img in
          match fs source_path with
          | None =>
              (fs, warnings ++ [("Texture file not found: " ++ source_path)%string],
               copied_count, skipped_count + 1)
          | Some (source_data, source_mtime) =>
              let dest_filename := image_name img in
              let dest_filename :=
                if String.eqb (snd (os_path.splitext dest_filename)) ""
                then (dest_filename ++ snd (os_path.splitext source_path))%string
                else dest_filename in
              let dest_path := join pf texture_dir dest_filename in
              let copy2 :=
                match copy2_error pf source_path dest_path with
                | Some e =>
                    (fs, warnings ++ [("Failed to copy texture " ++ image_name img
                                       ++ ": " ++ e)%string],
                     copied_count, skipped_count + 1)
                | None =>
                    (fs_put fs dest_path (source_data, source_mtime),
                     warnings, copied_count + 1, skipped_count)
                end in
              match fs dest_path with
              | Some (_, dest_mtime) =>
                  if (dest_mtime <? source_mtime)%Z then copy2 else st
              | None => copy2
              end
          end
    end.

Definition copy_textures_to_working_directory (context : Context F)
           (fs : FileSystem) : list string * outcome FileSystem :=
  if String.eqb (working_dir context) "" then
    (["No working directory set - skipping texture copy"], Ok fs)
  else
    let texture_dir :=
      join pf (join pf (working_dir context) "content") "textures" in
    if negb (can_makedirs pf texture_dir) then
      ([], Raise (OSError ("Cannot create directory: '" ++ texture_dir ++ "'")))
    else
      let texture_nodes := get_all_texture_nodes context in
      let '(fs, warnings, copied_count, skipped_count) :=
        fold_left (copy_one texture_dir) texture_nodes (fs, [], 0, 0) in
      let warnings :=
        if 0 <? copied_count
        then warnings ++ [("Copied " ++ str_nat copied_count
                           ++ " texture(s) to " ++ texture_dir)%string]
        else warnings in
      let warnings :=
        if 0 <? skipped_count
        then warnings ++ [("Skipped " ++ str_nat skipped_count
                           ++ " texture(s)")%string]
        else warnings in
      (warnings, Ok fs).

(** *** [export_kn5] *)

(** The dictionary [export_kn5] returns. *)
Record export_result : Type := {
  status : string;
  warnings : list string
}.

(** The [except Exception as e] clause: the two warnings, the attempt to
    remove the temporary file ([OSError] ignored), the result. *)
Definition export_failed (fs : FileSystem) (temp_filepath : string)
           (warnings : list string) (e : exn) : export_result * FileSystem :=
  let error_trace := format_exc pf e in
  let warnings :=
    warnings ++ [("Export failed: " ++ str_exn e)%string; error_trace] in
  let fs := if can_unlink pf temp_filepath then fs_remove fs temp_filepath
            else fs in
  ({| status := "error"; warnings := warnings |}, fs).

Definition export_kn5 (fs : FileSystem) (filepath : string)
           (context : Context F) (copy_textures : bool)
  : export_result * FileSystem :=
  let temp_filepath := (filepath ++ ".tmp")%string in
  if negb (can_open_write pf temp_filepath) then
    export_failed fs temp_filepath []
      (OSError ("Permission denied: '" ++ temp_filepath ++ "'"))
  else
    (* [open] creates or truncates the temporary file; the writes of
       the exporter go to it *)
    let fs := fs_put fs temp_filepath (encode pf [], now pf) in
    let run := KN5Exporter_write fs context in
    let fs := fs_put fs temp_filepath (encode pf (written run), now pf) in
    let warnings := warned run in
    match result run with
    | Raise e => export_failed fs temp_filepath warnings e
    | Ok _ =>
        let '(copy_warnings, copied) :=
          if copy_textures then copy_textures_to_working_directory context fs
          else ([], Ok fs) in
        let warnings := warnings ++ copy_warnings in
        match copied with
        | Raise e => export_failed fs temp_filepath warnings e
        | Ok fs =>
            (* [os.replace] when the target exists, [os.rename] otherwise *)
            if negb (can_replace pf temp_filepath filepath) then
              export_failed fs temp_filepath warnings
                (OSError ("Cannot replace '" ++ filepath ++ "'"))
            else
              match fs temp_filepath with
              | None =>
                  export_failed fs temp_filepath warnings
                    (OSError ("No such file or directory: '"
                              ++ temp_filepath ++ "'"))
              | Some f =>
                  ({| status := "success"; warnings := warnings |},
                   fs_put (fs_remove fs temp_filepath) filepath f)
              end
        end
    end.
End Defs.
End exporter.

(** ** Exact arithmetic

    Real numbers with the two infinities and NaN, under the rules of IEEE
    arithmetic but without rounding: the arithmetic the floats
    approximate. *)

Module XReal.
Local Open Scope R_scope.

Inductive xreal : Type :=
| Fin (r : R)
| PInf
| NInf
| NaN.

Definition ltb_R (a b : R) : bool := if Rlt_dec a b then true else false.
Definition eqb_R (a b : R) : bool := if Req_dec_T a b then true else false.

Definition xopp (a : xreal) : xreal :=
  match a with
  | Fin r => Fin (- r)
  | PInf => NInf
  | NInf => PInf
  | NaN => NaN
  end.

Definition xadd (a b : xreal) : xreal :=
  match a, b with
  | Fin r, Fin s => Fin (r + s)
  | NaN, _ | _, NaN => NaN
  | PInf, NInf | NInf, PInf => NaN
  | PInf, _ | _, PInf => PInf
  | NInf, _ | _, NInf => NInf
  end.

Definition xsub (a b : xreal) : xreal := xadd a (xopp b).

(** An infinity of the sign of [r], NaN for zero. *)
Definition inf_of_sign (r : R) : xreal :=
  if ltb_R 0 r then PInf else if ltb_R r 0 then NInf else NaN.

Definition xmul (a b : xreal) : xreal :=
  match a, b with
  | Fin r, Fin s => Fin (r * s)
  | NaN, _ | _, NaN => NaN
  | PInf, Fin s | Fin s, PInf => inf_of_sign s
  | NInf, Fin s | Fin s, NInf => inf_of_sign (- s)
  | PInf, PInf | NInf, NInf => PInf
  | PInf, NInf | NInf, PInf => NInf
  end.

Definition xdiv (a b : xreal) : xreal :=
  match a, b with
  | Fin r, Fin s => if eqb_R s 0 then inf_of_sign r else Fin (r / s)
  | NaN, _ | _, NaN => NaN
  | Fin _, (PInf | NInf) => Fin 0
  | PInf, Fin s => if eqb_R s 0 then PInf else inf_of_sign s
  | NInf, Fin s => if eqb_R s 0 then NInf else inf_of_sign (- s)
  | (PInf | NInf), (PInf | NInf) => NaN
  end.

Definition xabs (a : xreal) : xreal :=
  match a with
  | Fin r => Fin (Rabs r)
  | PInf | NInf => PInf
  | NaN => NaN
  end.

Definition xsqrt (a : xreal) : xreal :=
  match a with
  | Fin r => if ltb_R r 0 then NaN else Fin (sqrt r)
  | PInf => PInf
  | NInf | NaN => NaN
  end.

(** The square and the power one half. *)
Definition xpow (a b : xreal) : xreal :=
  match b with
  | Fin s => if eqb_R s 2 then xmul a a
             else if eqb_R s (1 / 2) then xsqrt a
             else NaN
  | _ => NaN
  end.

Definition xltb (a b : xreal) : bool :=
  match a, b with
  | Fin r, Fin s => ltb_R r s
  | NaN, _ | _, NaN => false
  | _, NInf | PInf, _ => false
  | NInf, _ | _, PInf => true
  end.

Definition xeqb (a b : xreal) : bool :=
  match a, b with
  | Fin r, Fin s => eqb_R r s
  | PInf, PInf | NInf, NInf => true
  | _, _ => false
  end.

Definition xdec (m e : Z) : xreal := Fin (IZR m * powerRZ 10 e).

(** The nearest integer, ties to even. *)
Definition round_R (r : R) : Z :=
  let n := Int_part r in
  let f := r - IZR n in
  if ltb_R f (1 / 2) then n
  else if ltb_R (1 / 2) f then (n + 1)%Z
  else if Z.even n then n else (n + 1)%Z.

Definition xround (a : xreal) : outcome Z :=
  match a with
  | Fin r => Ok (round_R r)
  | PInf | NInf => Raise OverflowError
  | NaN => Raise ValueError
  end.
End XReal.

#[export] Instance xreal_scalar : Scalar XReal.xreal := {
  fdec := XReal.xdec;
  finf := XReal.PInf;
  fadd := XReal.xadd;
  fsub := XReal.xsub;
  fmul := XReal.xmul;
  fdiv := XReal.xdiv;
  fopp := XReal.xopp;
  fabs := XReal.xabs;
  fsqrt := XReal.xsqrt;
  fpow := XReal.xpow;
  fltb := XReal.xltb;
  feqb := XReal.xeqb;
  fround := XReal.xround
}.

(** ** A matrix library to run the model with

    4x4 matrices as rows of entries, with the products, the identity, the
    translations and the scalings along a unit axis of [mathutils].  The
    decomposition, the inverse and the quaternions are those of a
    translation (no rotation, unit scale), which is all the scenes the model
    is run on below contain. *)

Module SimpleMatrix.
Section Defs.
Context {F : Type} `{Scalar F}.

Definition matrix : Type := list (list F).

Definition row (m : matrix) (i : nat) : list F := nth i m [].
Definition entry (m : matrix) (i j : nat) : F := nth j (row m i) fzero.

Definition build (f : nat -> nat -> F) : matrix :=
  map (fun i => map (f i) (seq 0 4)) (seq 0 4).

Definition identity : matrix :=
  build (fun i j => if i =? j then fone else fzero).

Definition translation_matrix (v : F * F * F) : matrix :=
  let '(x, y, z) := v in
  build (fun i j =>
           if i =? j then fone
           else if j =? 3 then
                  match i with 0 => x | 1 => y | 2 => z | _ => fzero end
                else fzero).

Definition component (v : F * F * F) (i : nat) : F :=
  let '(x, y, z) := v in
  match i with 0 => x | 1 => y | 2 => z | _ => fzero end.

Definition scale_matrix (factor : F) (axis : F * F * F) : matrix :=
  build (fun i j =>
           let d := if i =? j then fone else fzero in
           if (i <? 3) && (j <? 3)
           then d +! (factor -! fone) *! component axis i *! component axis j
           else d).

Definition dot4 (a b : list F) : F :=
  fold_left fadd (map (fun p : F * F => fst p *! snd p) (combine a b)) fzero.

Definition column (m : matrix) (j : nat) : list F :=
  map (fun i => entry m i j) (seq 0 4).

Definition mul (a b : matrix) : matrix :=
  build (fun i j => dot4 (row a i) (column b j)).

Definition apply (m : matrix) (v : F * F * F) : F * F * F :=
  let '(x, y, z) := v in
  let at_row i := dot4 (row m i) [x; y; z; fone] in
  (at_row 0, at_row 1, at_row 2).

Definition translation_of (m : matrix) : F * F * F :=
  (entry m 0 3, entry m 1 3, entry m 2 3).
End Defs.
End SimpleMatrix.

Definition simple_mathutils {F : Type} `{Scalar F} : Mathutils F := {|
  Matrix := SimpleMatrix.matrix;
  Quaternion := (F * F * F) * F;
  Matrix_identity := SimpleMatrix.identity;
  Matrix_Translation := SimpleMatrix.translation_matrix;
  Matrix_Scale := SimpleMatrix.scale_matrix;
  matmul := SimpleMatrix.mul;
  matrix_apply := SimpleMatrix.apply;
  inverted := fun m =>
    Ok (SimpleMatrix.translation_matrix
          (let '(x, y, z) := SimpleMatrix.translation_of m in (-! x, -! y, -! z)));
  decompose := fun m =>
    (SimpleMatrix.translation_of m,
     ((fone, fzero, fzero), fzero),
     (fone, fone, fone));
  to_axis_angle := fun q => q;
  Quaternion_axis_angle := fun axis angle => (axis, angle);
  to_matrix_4x4 := fun _ => SimpleMatrix.identity
|}.

(** ** Small scenes to run the model on

    Scenes over binary64 floats, with [simple_mathutils] for the matrix
    library. *)

Module Samples.
Import node_writer.
Local Open Scope float_scope.

Definition Obj : Type := @Object float simple_mathutils.
Definition Ctx : Type := @Context float simple_mathutils.
Definition MatWriter : Type := @MaterialWriter float simple_mathutils.

Definition material (material_name : string) : Material float :=
  {| material_name := material_name; node_tree := None; shader_name := "ksPerPixel" |}.

Definition grass : Material float := material "grass".
Definition leaves : Material float := material "leaves".

Definition loop_at (vertex_index : nat) : MeshLoop float :=
  {| vertex_index := vertex_index;
     loop_normal := (0, 0, 1);
     loop_tangent := (1, 0, 0) |}.

(** One triangle in the plane [z = height], using slot 0. *)
Definition triangle (height : float) (slots : list (option (Material float)))
  : MeshData float :=
  {| materials := slots;
     mesh_vertices := [(0, 0, height); (1, 0, height); (0, 1, height)];
     mesh_loops := [loop_at 0; loop_at 1; loop_at 2];
     loop_triangles := [{| material_index := 0; loops := [0; 1; 2]%nat |}];
     uv_layers := 0;
     uv_layers_active := None;
     calc_tangents_ok := true |}.

(** Two triangles sharing an edge, using slot 0. *)
Definition quad (slots : list (option (Material float))) : MeshData float :=
  {| materials := slots;
     mesh_vertices := [(0, 0, 0); (1, 0, 0); (1, 1, 0); (0, 1, 0)];
     mesh_loops := [loop_at 0; loop_at 1; loop_at 2;
                    loop_at 0; loop_at 2; loop_at 3];
     loop_triangles := [{| material_index := 0; loops := [0; 1; 2]%nat |};
                        {| material_index := 0; loops := [3; 4; 5]%nat |}];
     uv_layers := 0;
     uv_layers_active := None;
     calc_tangents_ok := true |}.

Definition kn5_defaults : AC_KN5 float :=
  {| lod_in := 0; lod_out := 0; cast_shadows := true; kn5_visible := true;
     kn5_transparent := false; kn5_renderable := true |}.

(** A top-level object, shown, in no collection. *)
Definition object (name type : string) (mesh : MeshData float) : Obj :=
  {| name := name;
     type := type;
     parent := None;
     children := [];
     hide_viewport := false;
     hide_render := false;
     hide_get := false;
     users_collection := [];
     matrix_world := @Matrix_identity float simple_mathutils;
     matrix_local := @Matrix_identity float simple_mathutils;
     dimensions := (1, 1, 0);
     kn5 := kn5_defaults;
     material_slots := materials mesh;
     to_mesh := mesh |}.

Definition scene_collection : Collection :=
  {| collection_name := "Scene Collection"; collection_hide_viewport := false |}.

Definition scene (objects : list Obj) : Ctx :=
  {| blend_data_objects := objects;
     layer_collection := mkLayerCollection scene_collection false [];
     working_dir := "" |}.

(** A material writer that knows [grass] and [leaves] and writes an empty
    material section. *)
Definition mat_writer : MatWriter :=
  {| material_positions := [("grass", 0%nat); ("leaves", 1%nat)];
     materials_write := write_int 0 |}.

(** Two vertices whose positions differ by [2e-6] in one coordinate. *)
Definition near_u : UvVertex float :=
  mkUvVertex (0.000004, 0, 0) (0, 0, 1) (0, 0) (1, 0, 0).
Definition near_v : UvVertex float :=
  mkUvVertex (0.000006, 0, 0) (0, 0, 1) (0, 0) (1, 0, 0).

Definition road : Obj := object "road" "MESH" (quad [Some grass]).

(** A tree: one triangle at [height]. *)
Definition tree (name : string) (height : float)
           (slots : list (option (Material float))) : Obj :=
  object name "MESH" (triangle height slots).

(** Three trees with names of the reserved form, in mixed case. *)
Definition oaks : Ctx :=
  scene [tree "KSTREE_GROUP_OAK_1" 0 [Some leaves];
         tree "kstree_group_Oak_2" 1 [Some leaves];
         tree "KSTREE_GROUP_OAK_3" 2 [Some leaves]].

(** The same trees named with the prefix [GROUP_] alone. *)
Definition plain_oaks : Ctx :=
  scene [tree "GROUP_OAK_1" 0 [Some leaves];
         tree "group_Oak_2" 1 [Some leaves];
         tree "GROUP_OAK_3" 2 [Some leaves]].

(** A tree without materials, one whose only slot is empty and one whose
    material has a hidden name. *)
Definition bare (name : string) : Obj := tree name 1 [].
Definition unassigned (name : string) : Obj := tree name 2 [None].
Definition ignored (name : string) : Obj :=
  tree name 3 [Some (material "__helper")].

(** A mesh object with a material and no geometry. *)
Definition hollow : Obj :=
  object "hollow" "MESH"
         {| materials := [Some grass];
            mesh_vertices := [];
            mesh_loops := [];
            loop_triangles := [];
            uv_layers := 0;
            uv_layers_active := None;
            calc_tangents_ok := true |}.

(** [obj] as a child of the object named [parent_name], with the children
    [children] of its own. *)
Definition child_of (parent_name : string) (obj : Obj) (children : list Obj)
  : Obj :=
  {| name := name obj;
     type := type obj;
     parent := Some {| parent_name := parent_name;
                       parent_matrix_world :=
                         @Matrix_identity float simple_mathutils |};
     children := children;
     hide_viewport := hide_viewport obj;
     hide_render := hide_render obj;
     hide_get := hide_get obj;
     users_collection := users_collection obj;
     matrix_world := matrix_world obj;
     matrix_local := matrix_local obj;
     dimensions := dimensions obj;
     kn5 := kn5 obj;
     material_slots := material_slots obj;
     to_mesh := to_mesh obj |}.

Definition empty (name : string) : Obj := object name "EMPTY" (quad []).

(** An empty with three children: an empty that has a child of its own,
    a mesh, and an empty with a hidden name. *)
Definition pivot : Obj :=
  {| name := "pivot";
     type := "EMPTY";
     parent := None;
     children :=
       [child_of "pivot" (empty "AC_PIT_0")
                 [child_of "AC_PIT_0" (empty "marker") []];
        child_of "pivot" road [];
        child_of "pivot" (empty "__note") []];
     hide_viewport := false;
     hide_render := false;
     hide_get := false;
     users_collection := [];
     matrix_world := @Matrix_identity float simple_mathutils;
     matrix_local := @Matrix_identity float simple_mathutils;
     dimensions := (1, 1, 0);
     kn5 := kn5_defaults;
     material_slots := [];
     to_mesh := quad [] |}.

(** An upright wall in the plane [y = 0], without UV layer: its extent
    along Y is zero. *)
Definition wall : Obj :=
  {| name := "wall";
     type := "MESH";
     parent := None;
     children := [];
     hide_viewport := false;
     hide_render := false;
     hide_get := false;
     users_collection := [];
     matrix_world := @Matrix_identity float simple_mathutils;
     matrix_local := @Matrix_identity float simple_mathutils;
     dimensions := (1, 0, 1);
     kn5 := kn5_defaults;
     material_slots := [Some grass];
     to_mesh :=
       {| materials := [Some grass];
          mesh_vertices := [(0, 0, 0); (1, 0, 0); (0, 0, 1)];
          mesh_loops := [loop_at 0; loop_at 1; loop_at 2];
          loop_triangles := [{| material_index := 0; loops := [0; 1; 2]%nat |}];
          uv_layers := 0;
          uv_layers_active := None;
          calc_tangents_ok := true |} |}.

(** The quad with a UV layer. *)
Definition mapped_quad (slots : list (option (Material float)))
  : MeshData float :=
  {| materials := slots;
     mesh_vertices := [(0, 0, 0); (1, 0, 0); (1, 1, 0); (0, 1, 0)];
     mesh_loops := [loop_at 0; loop_at 1; loop_at 2;
                    loop_at 0; loop_at 2; loop_at 3];
     loop_triangles := [{| material_index := 0; loops := [0; 1; 2]%nat |};
                        {| material_index := 0; loops := [3; 4; 5]%nat |}];
     uv_layers := 1;
     uv_layers_active := Some [(0, 0); (1, 0); (1, 1); (0, 0); (1, 1); (0, 1)];
     calc_tangents_ok := true |}.

Definition lawn : Obj := object "lawn" "MESH" (mapped_quad [Some grass]).

(** A mesh hidden in the viewport. *)
Definition stowed : Obj :=
  {| name := "stowed";
     type := "MESH";
     parent := None;
     children := [];
     hide_viewport := true;
     hide_render := false;
     hide_get := false;
     users_collection := [];
     matrix_world := @Matrix_identity float simple_mathutils;
     matrix_local := @Matrix_identity float simple_mathutils;
     dimensions := (1, 1, 0);
     kn5 := kn5_defaults;
     material_slots := [Some grass];
     to_mesh := quad [Some grass] |}.

(** An empty with two children, an empty and a mesh, and the objects of
    the file it makes: the parent and, after it, its children. *)
Definition pivot_of_two : Obj :=
  {| name := "pivot";
     type := "EMPTY";
     parent := None;
     children := [child_of "pivot" (empty "AC_PIT_0") [];
                  child_of "pivot" (object "sign" "MESH" (quad [Some grass]))
                           []];
     hide_viewport := false;
     hide_render := false;
     hide_get := false;
     users_collection := [];
     matrix_world := @Matrix_identity float simple_mathutils;
     matrix_local := @Matrix_identity float simple_mathutils;
     dimensions := (1, 1, 0);
     kn5 := kn5_defaults;
     material_slots := [];
     to_mesh := quad [] |}.

Definition family : list Obj := pivot_of_two :: children pivot_of_two.

(** *** Textures, files and platforms *)

Definition png_bytes : string := String (ascii_of_nat 137) "PNG pixels".
Definition dds_bytes : string := "DDS blocks".

(** An image packed into the scene file. *)
Definition packed (name data : string) : Image :=
  {| image_name := name; filepath := ""; abspath := "";
     packed_file := Some data; pixels := true; source := "FILE";
     save_png := Raise (RuntimeError "image.save() failed") |}.

Definition texture_node (name : string) (img : Image)
  : ShaderNodeTexImage float :=
  {| node_name := name; image := Some img; show_texture := true;
     texture_mapping := {| scale := (1, 1, 1); translation := (0, 0, 0) |} |}.

(** A machine without the conversion tool, and one where the tool runs
    as [run] says. *)
Definition no_tool : Env :=
  {| texconv_path := "/addon/texconv.exe";
     path_exists := fun _ => false;
     read_bytes := fun p => Raise (OSError p);
     stage_png := fun _ _ => Ok tt;
     run_texconv := fun _ _ => ToolExited None |}.

Definition tool (run : texconv_run) : Env :=
  {| texconv_path := "/addon/texconv.exe";
     path_exists := fun p => String.eqb p "/addon/texconv.exe";
     read_bytes := fun p => Raise (OSError p);
     stage_png := fun _ _ => Ok tt;
     run_texconv := fun _ _ => run |}.

(** A platform on which every operation of [os] goes through, except
    [unlink] when [unlink] is [false]. *)
Definition platform (unlink : bool) : @Platform float simple_mathutils :=
  {| encode := fun tokens => str_nat (List.length tokens);
     now := 100;
     sep := "/";
     can_open_write := fun _ => true;
     can_unlink := fun _ => unlink;
     can_replace := fun _ _ => true;
     can_makedirs := fun _ => true;
     copy2_error := fun _ _ => None;
     format_exc := fun _ => "Traceback (most recent call last): ...";
     get_texconv_path := "/addon/texconv.exe";
     staging := fun _ _ => Ok tt;
     texconv := fun _ _ => ToolExited None |}.

(** A disk with one file, an earlier export. *)
Definition old_export : FileSystem :=
  fs_put (fun _ => None) "track.kn5" ("old bytes", 1%Z).

Definition new_mat_writer (context : Ctx) (mapping : list (string * string))
  : MatWriter := mat_writer.
End Samples.
(* ===================================================================== *)
(** * Part II.  Properties                                               *)
(* ===================================================================== *)

(** ** The builtins agree with CPython on sample values *)

Example tuple_hash_empty : tuple_hash [] = 5740354900026072187%Z.
Proof. vm_compute. reflexivity. Qed.
Example tuple_hash_zeros : tuple_hash (repeat 0%Z 8) = 8326817289769895837%Z.
Proof. vm_compute. reflexivity. Qed.
Example tuple_hash_one : tuple_hash (1%Z :: repeat 0%Z 7) = 223249608404746605%Z.
Proof. vm_compute. reflexivity. Qed.
Example tuple_hash_m1 : tuple_hash ((-1)%Z :: repeat 0%Z 7) = (-2507706397770316277)%Z.
Proof. vm_compute. reflexivity. Qed.
Example tuple_hash_big : tuple_hash [(2^70)%Z; (-5)%Z] = (-4572873811949771300)%Z.
Proof. vm_compute. reflexivity. Qed.
Example range3_ex : range3 3 10 = [3;6;9] /\ range3 3 9 = [3;6] /\ range3 9 9 = [] /\ range3 10 9 = [] /\ range3 0 1 = [0].
Proof. vm_compute. repeat split. Qed.

Example float_literals :
  Float64.dec 1 (-5) = 0x1.4f8b588e368f1p-17%float /\
  Float64.dec 1 5 = 100000%float /\
  Float64.dec 7 (-1) = 0x1.6666666666666p-1%float.
Proof. repeat split. Qed.

Example float_round_samples :
  map Float64.round [0.5; 1.5; 2.5; -0.5; -1.5; 0x1.9999999999999p-2; 123456.75]%float
  = map Ok [0; 2; 2; 0; -2; 0; 123457]%Z.
Proof. vm_compute. reflexivity. Qed.


Example splitext_samples :
  map os_path.splitext ["diffuse.png"; "a/b.c/d"; ".bashrc"; "x.tar.gz"; "dir/.hidden.png"; "noext"; "..a"]
  = [("diffuse", ".png"); ("a/b.c/d", ""); (".bashrc", ""); ("x.tar", ".gz");
     ("dir/.hidden", ".png"); ("noext", ""); ("..a", "")].
Proof. vm_compute. reflexivity. Qed.

Example basename_samples :
  map os_path.basename ["/tex/diffuse.png"; "diffuse.png"; "a/b/"] = ["diffuse.png"; "diffuse.png"; ""].
Proof. vm_compute. reflexivity. Qed.

Example regex_samples :
  map (re_match_anchored (Cat (Lit "AC_START_") (Plus Digit)))
      ["AC_START_0"; "AC_START_12"; "AC_START_"; "AC_START_1a"; "XAC_START_1"]
  = [true; true; false; false; false].
Proof. vm_compute. reflexivity. Qed.

Example set_of_sample : set_of [2; 0; 2; 1; 0] = [0; 1; 2].
Proof. vm_compute. reflexivity. Qed.

Example sorted_by_is_stable :
  sorted_by snd Nat.leb [("a", 2); ("b", 1); ("c", 2); ("d", 1)]
  = [("b", 1); ("d", 1); ("a", 2); ("c", 2)].
Proof. vm_compute. reflexivity. Qed.

Example kstree_group_names :
  map node_writer._get_kstree_group_name
      ["KSTREE_GROUP_OAK_1"; "kstree_group_Oak_2"; "KSTREE_GROUP_OAK_3";
       "GROUP_OAK_1"; "KSTREE_GROUP_A_B_12"; "KSTREE_GROUP__7"; "KSTREE_GROUP_OAK_";
       "KSTREE_GROUP_OAK_1x"; "KSTREE_GROUP_1_2_3"]
  = [Some "OAK"; Some "Oak"; Some "OAK"; None; Some "A_B"; None; None; None; Some "1_2"].
Proof. vm_compute. reflexivity. Qed.

(** ** Lists, sorting and loops *)

Module PyFacts.
Section Sorting.
Variables (A K : Type) (key : A -> K) (le : K -> K -> bool).

Lemma insert_sorted_last (x : A) (l : list A) :
  Forall (fun y => le (key y) (key x) = true) l ->
  insert_sorted key le x l = l ++ [x].
Proof.
  induction 1 as [|y l Hy _ IH]; simpl; [reflexivity|].
  now rewrite Hy, IH.
Qed.

(** Sorting a list whose elements already come in key order changes
    nothing. *)
Lemma sorted_by_presorted (l : list A) :
  (forall pre x post, l = pre ++ x :: post ->
                      Forall (fun y => le (key y) (key x) = true) pre) ->
  sorted_by key le l = l.
Proof.
  intros Hl. unfold sorted_by.
  enough (G : forall done todo, l = done ++ todo ->
            fold_left (fun acc x => insert_sorted key le x acc) todo done = l)
    by (apply (G [] l); reflexivity).
  intros done todo. revert done.
  induction todo as [|x todo IH]; intros done E; simpl.
  - now rewrite app_nil_r in E.
  - rewrite insert_sorted_last by (eapply Hl; eassumption).
    apply IH. now rewrite <- app_assoc.
Qed.

Lemma insert_sorted_perm (x : A) (l : list A) :
  Permutation (insert_sorted key le x l) (x :: l).
Proof.
  induction l as [|y l IH]; simpl; [reflexivity|].
  destruct (le (key y) (key x)); [|reflexivity].
  rewrite IH. apply perm_swap.
Qed.

Lemma sorted_by_perm (l : list A) : Permutation (sorted_by key le l) l.
Proof.
  unfold sorted_by.
  enough (G : forall todo done,
             Permutation (fold_left (fun acc x => insert_sorted key le x acc)
                                    todo done) (done ++ todo))
    by apply (G l []).
  induction todo as [|x todo IH]; intros done; simpl.
  - now rewrite app_nil_r.
  - rewrite IH, insert_sorted_perm. apply Permutation_middle.
Qed.

Lemma sorted_by_length (l : list A) :
  List.length (sorted_by key le l) = List.length l.
Proof. apply Permutation_length, sorted_by_perm. Qed.

Lemma sorted_by_In (l : list A) x : In x (sorted_by key le l) <-> In x l.
Proof.
  split; apply Permutation_in; [|symmetry]; apply sorted_by_perm.
Qed.

(** With a total comparison the result is in order. *)
Hypothesis le_total : forall a b, le a b = true \/ le b a = true.

Definition in_order (a b : A) : Prop := le (key a) (key b) = true.

Lemma insert_sorted_sorted (x : A) (l : list A) :
  Sorted in_order l -> Sorted in_order (insert_sorted key le x l).
Proof.
  induction l as [|y l IH]; intros Hl; simpl.
  - repeat constructor.
  - inversion Hl as [|? ? Hl' Hhd]; subst.
    destruct (le (key y) (key x)) eqn:E.
    + constructor; [now apply IH|].
      destruct l as [|z l]; simpl.
      * now constructor.
      * inversion Hhd; subst.
        destruct (le (key z) (key x)); now constructor.
    + constructor; [assumption|]. constructor.
      destruct (le_total (key x) (key y)); [assumption|congruence].
Qed.

Lemma sorted_by_sorted (l : list A) : Sorted in_order (sorted_by key le l).
Proof.
  unfold sorted_by.
  enough (G : forall todo done, Sorted in_order done ->
             Sorted in_order
               (fold_left (fun acc x => insert_sorted key le x acc) todo done))
    by (apply G; constructor).
  induction todo as [|x todo IH]; intros done Hd; simpl; [assumption|].
  now apply IH, insert_sorted_sorted.
Qed.
End Sorting.

(** A list whose elements carry their own position is in order. *)
Lemma sorted_by_positions {A} (pos : A -> nat) (l : list A) :
  (forall j e, nth_error l j = Some e -> pos e = j) ->
  sorted_by pos Nat.leb l = l.
Proof.
  intros Hl. apply sorted_by_presorted. intros pre x post E.
  assert (Hx : pos x = List.length pre).
  { apply Hl. rewrite E, nth_error_app2, Nat.sub_diag by lia. reflexivity. }
  apply Forall_forall. intros y Hy.
  apply In_nth_error in Hy as [j Hj].
  assert (Hjlt : j < List.length pre)
    by (apply nth_error_Some; now rewrite Hj).
  assert (Hyj : pos y = j).
  { apply Hl. rewrite E, nth_error_app1 by assumption. exact Hj. }
  apply Nat.leb_le. lia.
Qed.

Lemma range3_nil start stop : stop <= start -> range3 start stop = [].
Proof.
  intros Hle. unfold range3.
  replace ((stop - start + 2) / 3) with 0; [reflexivity|].
  symmetry. apply Nat.div_small. lia.
Qed.

Lemma range3_count start stop :
  start < stop ->
  (stop - start + 2) / 3 = S ((stop - (start + 3) + 2) / 3).
Proof.
  intros Hlt. destruct (le_lt_dec (start + 3) stop) as [Hge|Hsmall].
  - replace (stop - start + 2) with ((stop - (start + 3) + 2) + 1 * 3) by lia.
    rewrite Nat.div_add by lia. lia.
  - replace (stop - (start + 3) + 2) with 2 by lia.
    assert (E : stop - start + 2 = 3 \/ stop - start + 2 = 4) by lia.
    destruct E as [-> | ->]; reflexivity.
Qed.

Lemma range3_cons start stop :
  start < stop -> range3 start stop = start :: range3 (start + 3) stop.
Proof.
  intros Hlt. unfold range3. rewrite range3_count by assumption.
  simpl seq. simpl map. f_equal; [lia|].
  rewrite <- seq_shift, map_map. apply map_ext. intros k. lia.
Qed.

Lemma incl_firstn {A} n (L : list A) : incl (firstn n L) L.
Proof.
  intros x Hx. rewrite <- (firstn_skipn n L). apply in_or_app. now left.
Qed.

Lemma incl_skipn {A} n (L : list A) : incl (skipn n L) L.
Proof.
  intros x Hx. rewrite <- (firstn_skipn n L). apply in_or_app. now right.
Qed.

Lemma firstn_add_skipn {A} a b (L : list A) :
  firstn (a + b) L = firstn a L ++ firstn b (skipn a L).
Proof.
  revert L. induction a as [|a IH]; intros [|x L]; simpl; auto.
  - now rewrite firstn_nil.
  - now rewrite IH.
Qed.
(** [set(l)] has the elements of [l]. *)
Lemma set_of_In (l : list nat) x : In x (set_of l) <-> In x l.
Proof.
  unfold set_of. rewrite sorted_by_In. apply nodup_In.
Qed.

End PyFacts.

Module OutcomeFacts.
(** An invariant of the state of a loop whose body can raise. *)
Lemma ofold_invariant {A S} (P : S -> Prop) (f : S -> A -> outcome S) l :
  (forall s x s', P s -> f s x = Ok s' -> P s') ->
  forall s r, P s -> ofold f l s = Ok r -> P r.
Proof.
  intros Hstep. induction l as [|x l IH]; intros s r Hs; simpl.
  - now intros [= <-].
  - destruct (f s x) as [s'|e] eqn:E; simpl; [|discriminate].
    apply IH. eapply Hstep; eassumption.
Qed.

Lemma obind_Ok {A B} (r : outcome A) (k : A -> outcome B) b :
  obind r k = Ok b -> exists a, r = Ok a /\ k a = Ok b.
Proof. destruct r as [a|e]; simpl; [eauto|discriminate]. Qed.
End OutcomeFacts.

(** ** Splitting at the vertex limit *)

Module VertexLimitFacts.
Import PyFacts.
Import node_writer.

(** A mapping whose values are the positions of its entries: what
    [vertex_index_mapping] is at every point of the loop. *)
Definition positional (m : list (nat * nat)) : Prop :=
  forall j e, nth_error m j = Some e -> snd e = j.

Lemma positional_nil : positional [].
Proof. intros [|j] e; discriminate. Qed.

Lemma positional_snoc (m : list (nat * nat)) (k : nat) :
  positional m -> positional (m ++ [(k, List.length m)]).
Proof.
  intros Hm j e Hj.
  destruct (lt_dec j (List.length m)) as [Hlt|Hge].
  - rewrite nth_error_app1 in Hj by assumption. now apply Hm.
  - rewrite nth_error_app2 in Hj by lia.
    destruct (j - List.length m) as [|d] eqn:E; simpl in Hj.
    + injection Hj as <-. simpl. lia.
    + destruct d; discriminate.
Qed.

Lemma positional_lookup (m : list (nat * nat)) e :
  positional m -> In e m -> nth_error m (snd e) = Some e.
Proof.
  intros Hm Hin. apply In_nth_error in Hin as [j Hj].
  now rewrite (Hm _ _ Hj).
Qed.

Lemma dict_get_In (m : list (nat * nat)) k i :
  dict_get Nat.eqb m k = Some i -> In (k, i) m.
Proof.
  induction m as [|[k' v] m IH]; simpl; [discriminate|].
  destruct (Nat.eqb_spec k' k) as [->|_].
  - intros [= ->]. now left.
  - intros Hg. right. now apply IH.
Qed.

(** The entry a key is interned at. *)
Lemma intern_index_spec m k :
  positional m ->
  exists ext,
    fst (intern_index m k) = m ++ ext /\
    List.length ext <= 1 /\
    Forall (fun e => fst e = k) ext /\
    positional (m ++ ext) /\
    nth_error (m ++ ext) (snd (intern_index m k))
    = Some (k, snd (intern_index m k)).
Proof.
  intros Hm. unfold intern_index.
  destruct (dict_get Nat.eqb m k) as [i|] eqn:Hg; simpl.
  - exists []. rewrite app_nil_r. repeat split; auto.
    apply dict_get_In in Hg.
    apply (@positional_lookup m (k, i)); assumption.
  - exists [(k, List.length m)]. repeat split; auto.
    + now apply positional_snoc.
    + rewrite nth_error_app2 by lia. now rewrite Nat.sub_diag.
Qed.

(** [new_indices] against the face indices consumed: each new index
    names the entry of the face index it stands for, and the keys of the
    mapping are among the face indices. *)
Definition tracks (m : list (nat * nat)) (new_indices consumed : list nat) : Prop :=
  positional m /\
  map (fun idx => option_map fst (nth_error m idx)) new_indices
  = map Some consumed /\
  incl (map fst m) consumed /\
  Forall (fun idx => idx < List.length m) new_indices.

Lemma tracks_extend m ext new_indices consumed :
  tracks m new_indices consumed ->
  map (fun idx => option_map fst (nth_error (m ++ ext) idx)) new_indices
  = map Some consumed /\
  Forall (fun idx => idx < List.length (m ++ ext)) new_indices.
Proof.
  intros (_ & Hmap & _ & Hlt). split.
  - rewrite <- Hmap. apply map_ext_in. intros idx Hin.
    rewrite Forall_forall in Hlt. now rewrite nth_error_app1 by auto.
  - rewrite length_app. eapply Forall_impl; [|exact Hlt].
    simpl. intros; lia.
Qed.

Lemma add_face_cons m new_indices k face :
  add_face (m, new_indices) (k :: face)
  = add_face (fst (intern_index m k),
              new_indices ++ [snd (intern_index m k)]) face.
Proof.
  unfold add_face. simpl. now destruct (intern_index m k).
Qed.

Lemma add_face_spec face : forall m new_indices consumed,
  tracks m new_indices consumed ->
  exists ext,
    fst (add_face (m, new_indices) face) = m ++ ext /\
    List.length ext <= List.length face /\
    tracks (m ++ ext) (snd (add_face (m, new_indices) face)) (consumed ++ face).
Proof.
  induction face as [|k face IH]; intros m new_indices consumed Ht.
  - exists []. simpl. rewrite !app_nil_r. auto.
  - rewrite add_face_cons.
    destruct (@intern_index_spec m k (proj1 Ht))
      as (ext1 & E1 & L1 & K1 & P1 & N1).
    rewrite E1 in *.
    set (idx := snd (intern_index m k)) in *.
    destruct (@tracks_extend m ext1 new_indices consumed Ht) as [Hmap Hlt].
    destruct (IH (m ++ ext1) (new_indices ++ [idx]) (consumed ++ [k]))
      as (ext2 & E2 & L2 & T2).
    { split; [exact P1|]. split; [|split].
      - rewrite !map_app, Hmap. simpl. now rewrite N1.
      - destruct Ht as (_ & _ & Hincl & _).
        rewrite map_app. apply incl_app.
        + now apply incl_appl.
        + apply incl_appr. intros x Hx. apply in_map_iff in Hx as (e & <- & He).
          rewrite Forall_forall in K1. rewrite (K1 _ He). now left.
      - apply Forall_app. split; [exact Hlt|].
        constructor; [|constructor].
        apply nth_error_Some. now rewrite N1. }
    exists (ext1 ++ ext2). rewrite app_assoc. split; [exact E2|]. split.
    + rewrite length_app. simpl. lia.
    + rewrite <- (app_assoc consumed [k] face) in T2. exact T2.
Qed.
Section Chunks.
Variables (limit : nat) (l : list nat) (s0 : nat).
Hypothesis limit_ge : 3 <= limit.

(** The state after some faces of the chunk that starts at [s0]. *)
Definition chunk_inv (st : chunk_state) : Prop :=
  s0 <= cs_start_index st /\
  Nat.divide 3 (cs_start_index st - s0) /\
  tracks (cs_mapping st) (cs_new_indices st)
         (firstn (cs_start_index st - s0) (skipn s0 l)).

Lemma chunk_loop_spec range : forall st,
  range = range3 (cs_start_index st) (List.length l) ->
  chunk_inv st ->
  List.length (cs_mapping st) <= limit - 3 ->
  chunk_inv (chunk_loop limit l range st) /\
  List.length (cs_mapping (chunk_loop limit l range st)) <= limit.
Proof.
  induction range as [|i range IH]; intros st E Hinv Hlen; simpl.
  - split; [assumption|lia].
  - destruct (lt_dec (cs_start_index st) (List.length l)) as [Hlt|Hge];
      [|rewrite range3_nil in E by lia; discriminate].
    rewrite range3_cons in E by assumption. injection E as -> ->.
    destruct Hinv as (Hs0 & Hdiv & Ht).
    destruct (add_face_spec (slice3 l (cs_start_index st)) Ht)
      as (ext & E1 & L1 & T1).
    destruct (add_face (cs_mapping st, cs_new_indices st)
                       (slice3 l (cs_start_index st))) as [m' ni'].
    simpl in E1, T1. subst m'.
    assert (Hface : List.length (slice3 l (cs_start_index st)) <= 3)
      by (unfold slice3; rewrite length_firstn; lia).
    assert (Hinv' : chunk_inv
              {| cs_start_index := cs_start_index st + 3;
                 cs_mapping := cs_mapping st ++ ext;
                 cs_new_indices := ni' |}).
    { unfold chunk_inv; simpl. split; [lia|]. split.
      - replace (cs_start_index st + 3 - s0)
          with (cs_start_index st - s0 + 3) by lia.
        apply Nat.divide_add_r; [assumption|apply Nat.divide_refl].
      - replace (cs_start_index st + 3 - s0)
          with (cs_start_index st - s0 + 3) by lia.
        rewrite firstn_add_skipn, skipn_skipn.
        replace (cs_start_index st - s0 + s0) with (cs_start_index st) by lia.
        exact T1. }
    assert (Hlen' : List.length (cs_mapping st ++ ext) <= limit)
      by (rewrite length_app; lia).
    destruct (limit - 3 <=? List.length (cs_mapping st ++ ext)) eqn:Hbreak.
    + split; assumption.
    + apply Nat.leb_gt in Hbreak.
      apply IH; simpl; [reflexivity|assumption|lia].
Qed.
End Chunks.

Section Verts.
Variable V : Type.

Lemma collect_verts (vs : list V) (m : list (nat * nat)) : forall acc,
  Forall (fun e => fst e < List.length vs) m ->
  exists verts,
    ofold (fun verts (entry : nat * nat) =>
             v <~ getitem vs (fst entry);; Ok (verts ++ [v])) m acc
    = Ok (acc ++ verts) /\
    map Some verts = map (fun e => nth_error vs (fst e)) m.
Proof.
  induction m as [|e m IH]; intros acc Hm; simpl.
  - exists []. now rewrite app_nil_r.
  - inversion Hm as [|? ? He Hm']; subst.
    destruct (nth_error vs (fst e)) as [v|] eqn:Ev;
      [|apply nth_error_None in Ev; lia].
    destruct (IH (acc ++ [v]) Hm') as (verts & Ef & Emap).
    exists (v :: verts).
    unfold getitem at 1. rewrite Ev. cbn [obind].
    rewrite Ef, <- app_assoc. simpl. now rewrite Emap.
Qed.

Lemma chunk_verts_spec (vs : list V) m :
  positional m ->
  Forall (fun e => fst e < List.length vs) m ->
  exists verts,
    chunk_verts vs m = Ok verts /\
    map Some verts = map (fun e => nth_error vs (fst e)) m.
Proof.
  intros Hm Hvalid. unfold chunk_verts.
  rewrite sorted_by_positions by assumption.
  destruct (@collect_verts vs m [] Hvalid) as (verts & E & Emap).
  exists verts. now rewrite E.
Qed.

(** The vertices a chunk's indices name are the vertices the face
    indices it consumed name in the mesh. *)
Lemma chunk_corners (vs verts : list V) m new_indices consumed :
  tracks m new_indices consumed ->
  map Some verts = map (fun e => nth_error vs (fst e)) m ->
  map (nth_error verts) new_indices = map (nth_error vs) consumed /\
  Forall (fun idx => idx < List.length verts) new_indices.
Proof.
  intros (Hpos & Hmap & _ & Hlt) Hverts.
  assert (Hlen : List.length verts = List.length m).
  { rewrite <- (length_map Some verts), Hverts. apply length_map. }
  split; [|now rewrite Hlen].
  transitivity (map (fun o : option nat =>
                       match o with Some k => nth_error vs k | None => None end)
                    (map Some consumed)).
  - rewrite <- Hmap, map_map. apply map_ext_in. intros idx Hin.
    rewrite Forall_forall in Hlt. specialize (Hlt _ Hin).
    destruct (nth_error m idx) as [e|] eqn:Ee;
      [|apply nth_error_None in Ee; lia].
    simpl.
    assert (Hn : nth_error (map Some verts) idx = Some (nth_error vs (fst e)))
      by (rewrite Hverts, nth_error_map, Ee; reflexivity).
    rewrite nth_error_map in Hn.
    destruct (nth_error verts idx) as [v|]; simpl in Hn; congruence.
  - now rewrite map_map.
Qed.
End Verts.

(** *** What the claim is about *)
Section Statements.
Variable F : Type.

(** Every index names a vertex of the record. *)
Definition indices_valid (m : Mesh F) : Prop :=
  Forall (fun i => i < List.length (vertices m)) (indices m).

(** The indices come in triangles. *)
Definition triangulated (m : Mesh F) : Prop :=
  Nat.divide 3 (List.length (indices m)).

(** The vertex each index names. *)
Definition corners (m : Mesh F) : list (option (UvVertex F)) :=
  map (nth_error (vertices m)) (indices m).

(** A list cut in triples. *)
Fixpoint triples {A} (l : list A) : list (A * A * A) :=
  match l with
  | a :: b :: c :: l' => (a, b, c) :: triples l'
  | _ => []
  end.

(** The triangles of a record: the three vertices of each. *)
Definition triangles (m : Mesh F) : list (option (UvVertex F) *
                                          option (UvVertex F) *
                                          option (UvVertex F)) :=
  triples (corners m).

Lemma triples_app {A} (a b : list A) :
  Nat.divide 3 (List.length a) -> triples (a ++ b) = triples a ++ triples b.
Proof.
  intros [k Hk]. revert a Hk.
  induction k as [|k IH]; intros a Hk.
  - destruct a; [reflexivity|discriminate].
  - destruct a as [|x [|y [|z a]]]; simpl in Hk; try lia.
    simpl. f_equal. apply IH. lia.
Qed.
End Statements.

Section While.
Variables (F : Type) (limit : nat) (mesh : Mesh F).
Hypothesis limit_ge : 3 <= limit.
Hypothesis mesh_valid : indices_valid mesh.

(** A record made by the loop from the mesh. *)
Definition chunk_ok (c : Mesh F) : Prop :=
  List.length (vertices c) <= limit /\
  material_id c = material_id mesh /\
  indices_valid c /\
  (triangulated mesh -> triangulated c).

Lemma run_chunk_spec start :
  Nat.divide 3 start ->
  start < List.length (indices mesh) ->
  exists verts,
    chunk_verts (vertices mesh)
                (cs_mapping (run_chunk limit (indices mesh) start)) = Ok verts /\
    let c := mkMesh (material_id mesh) verts
                    (cs_new_indices (run_chunk limit (indices mesh) start)) in
    let stop := cs_start_index (run_chunk limit (indices mesh) start) in
    chunk_ok c /\
    Nat.divide 3 stop /\
    corners c ++ skipn stop (corners mesh) = skipn start (corners mesh).
Proof.
  intros Hdiv Hlt. unfold run_chunk.
  set (st0 := {| cs_start_index := start; cs_mapping := [];
                 cs_new_indices := [] |}).
  destruct (@chunk_loop_spec limit (indices mesh) start limit_ge
              (range3 start (List.length (indices mesh))) st0)
    as ((Hs & Hd & Ht) & Hlen).
  { reflexivity. }
  { unfold chunk_inv; simpl. split; [lia|]. rewrite Nat.sub_diag. split.
    - apply Nat.divide_0_r.
    - repeat split; simpl; auto using positional_nil, incl_nil_l. }
  { simpl. lia. }
  set (r := chunk_loop limit (indices mesh)
              (range3 start (List.length (indices mesh))) st0) in *.
  set (consumed := firstn (cs_start_index r - start)
                          (skipn start (indices mesh))) in *.
  assert (Hcons : incl consumed (indices mesh)).
  { intros x Hx. unfold consumed in Hx.
    eapply incl_skipn, incl_firstn, Hx. }
  destruct (@chunk_verts_spec (UvVertex F) (vertices mesh) (cs_mapping r))
    as (verts & Ev & Emap).
  { exact (proj1 Ht). }
  { apply Forall_forall. intros e He.
    destruct Ht as (_ & _ & Hincl & _).
    unfold indices_valid in mesh_valid. rewrite Forall_forall in mesh_valid.
    apply mesh_valid, Hcons, Hincl, in_map, He. }
  exists verts. split; [exact Ev|].
  destruct (@chunk_corners _ (vertices mesh) verts _ _ _ Ht Emap)
    as [Hcorn Hval].
  assert (Hlenv : List.length verts = List.length (cs_mapping r)).
  { rewrite <- (length_map Some verts), Emap. apply length_map. }
  assert (Hni : List.length (cs_new_indices r) = List.length consumed).
  { destruct Ht as (_ & Hm & _).
    rewrite <- (length_map Some consumed), <- Hm. now rewrite length_map. }
  cbv zeta. split; [|split].
  - unfold chunk_ok; simpl. split; [lia|]. split; [reflexivity|].
    split; [exact Hval|].
    unfold triangulated; simpl. intros Hmesh. rewrite Hni.
    unfold consumed. rewrite length_firstn, length_skipn.
    destruct (le_lt_dec (cs_start_index r - start)
                        (List.length (indices mesh) - start)).
    + now rewrite Nat.min_l by assumption.
    + rewrite Nat.min_r by lia. now apply Nat.divide_sub_r.
  - replace (cs_start_index r) with ((cs_start_index r - start) + start) by lia.
    now apply Nat.divide_add_r.
  - unfold corners at 1. simpl. rewrite Hcorn. unfold consumed, corners.
    rewrite !skipn_map, <- map_app. f_equal.
    replace (skipn (cs_start_index r) (indices mesh))
      with (skipn (cs_start_index r - start) (skipn start (indices mesh))).
    + apply firstn_skipn.
    + rewrite skipn_skipn. f_equal. lia.
Qed.

Lemma split_while_spec : forall n start acc,
  List.length (indices mesh) - start <= n ->
  Nat.divide 3 start ->
  exists cs,
    split_while limit mesh start acc = Ok (acc ++ cs) /\
    Forall chunk_ok cs /\
    List.concat (map (@corners F) cs) = skipn start (corners mesh).
Proof.
  induction n as [|n IH]; intros start acc Hn Hdiv;
    rewrite split_while_equation_1;
    destruct (lt_dec start (List.length (indices mesh))) as [Hlt|Hge];
    try lia.
  - rewrite split_while_clause_1_equation_2. exists [].
    rewrite app_nil_r. repeat split; auto.
    simpl. symmetry. apply skipn_all2. unfold corners. rewrite length_map. lia.
  - rewrite split_while_clause_1_equation_1.
    destruct (run_chunk_spec Hdiv Hlt) as (verts & Ev & Hc & Hd & Hcorn).
    rewrite Ev.
    pose proof (@chunk_loop_advances limit (indices mesh)
                  (range3 start (List.length (indices mesh)))
                  {| cs_start_index := start; cs_mapping := [];
                     cs_new_indices := [] |}
                  (range3_length Hlt)) as Hadv.
    fold (run_chunk limit (indices mesh) start) in Hadv. simpl in Hadv.
    edestruct (IH (cs_start_index (run_chunk limit (indices mesh) start)))
      as (cs & Es & Hcs & Hcat); [lia|exact Hd|].
    rewrite Es. eexists (_ :: cs). rewrite <- app_assoc. simpl.
    split; [reflexivity|]. split; [constructor; assumption|].
    rewrite Hcat. exact Hcorn.
  - rewrite split_while_clause_1_equation_2. exists [].
    rewrite app_nil_r. repeat split; auto.
    simpl. symmetry. apply skipn_all2. unfold corners. rewrite length_map. lia.
Qed.
End While.

Section SplitMeshes.
Variables (F : Type) (limit : nat).
Hypothesis limit_ge : 3 <= limit.

Lemma triples_concat {A} (ls : list (list A)) :
  Forall (fun l => Nat.divide 3 (List.length l)) ls ->
  triples (List.concat ls) = List.concat (map triples ls).
Proof.
  induction 1 as [|l ls Hl _ IH]; simpl; [reflexivity|].
  now rewrite triples_app, IH.
Qed.

Lemma split_meshes_at_spec (meshes : list (Mesh F)) : forall acc,
  Forall (@indices_valid F) meshes ->
  exists out,
    ofold (fun new_meshes mesh =>
             if limit <? List.length (vertices mesh)
             then split_while limit mesh 0 new_meshes
             else Ok (new_meshes ++ [mesh])) meshes acc = Ok (acc ++ out) /\
    Forall (fun c => List.length (vertices c) <= limit) out /\
    Forall (@indices_valid F) out /\
    (Forall (@triangulated F) meshes -> Forall (@triangulated F) out) /\
    List.concat (map (@corners F) out) = List.concat (map (@corners F) meshes).
Proof.
  induction meshes as [|mesh meshes IH]; intros acc Hvalid; simpl.
  - exists []. rewrite app_nil_r. repeat split; auto.
  - inversion Hvalid as [|? ? Hmesh Hrest]; subst.
    destruct (limit <? List.length (vertices mesh)) eqn:Hbig.
    + destruct (@split_while_spec F limit mesh limit_ge Hmesh
                  (List.length (indices mesh)) 0 acc)
        as (cs & Es & Hcs & Hcat); [lia|apply Nat.divide_0_r|].
      rewrite Es. cbn [obind].
      destruct (IH (acc ++ cs) Hrest) as (out & Eo & Hlen & Hval & Htri & Hcorn).
      exists (cs ++ out). rewrite Eo, <- app_assoc. split; [reflexivity|].
      rewrite !Forall_app, map_app, concat_app, Hcorn, Hcat. simpl.
      split; [|split; [|split; [|reflexivity]]].
      * split; [|assumption].
        eapply Forall_impl; [|exact Hcs]. now intros c (Hc & _).
      * split; [|assumption].
        eapply Forall_impl; [|exact Hcs]. now intros c (_ & _ & Hc & _).
      * intros Htriang. inversion Htriang as [|? ? Hm Hr]; subst.
        split; [|auto].
        eapply Forall_impl; [|exact Hcs]. intros c (_ & _ & _ & Hc). auto.
    + apply Nat.ltb_ge in Hbig. cbn [obind].
      destruct (IH (acc ++ [mesh]) Hrest)
        as (out & Eo & Hlen & Hval & Htri & Hcorn).
      exists (mesh :: out). rewrite Eo, <- app_assoc. split; [reflexivity|].
      simpl. rewrite Hcorn.
      split; [|split; [|split; [|reflexivity]]].
      * constructor; assumption.
      * constructor; assumption.
      * intros Htriang. inversion Htriang; subst. constructor; auto.
Qed.
End SplitMeshes.
End VertexLimitFacts.

(** ** The records the splitter builds *)

Module GeometryFacts.
Import node_writer OutcomeFacts PyFacts.
Section Dict.
Context {F : Type} `{Scalar F}.

(** The index stored with a vertex is the position of its entry. *)
Definition indexed (d : vertex_dict F) : Prop :=
  forall j e, nth_error d j = Some e -> snd e = j.

Lemma indexed_nil : indexed [].
Proof. intros [|j] e; discriminate. Qed.

Lemma vertex_dict_find_lt d h v index :
  indexed d -> vertex_dict_find d h v = Some index -> index < List.length d.
Proof.
  intros Hd. unfold vertex_dict_find.
  destruct (find _ d) as [[[k hk] i]|] eqn:Ef; [|discriminate].
  intros [= <-]. apply find_some in Ef as [Hin _].
  apply In_nth_error in Hin as [j Hj].
  pose proof (Hd _ _ Hj) as E. simpl in E. subst i.
  apply nth_error_Some. now rewrite Hj.
Qed.

Lemma vertex_dict_intern_spec d v d' index :
  indexed d -> vertex_dict_intern d v = Ok (d', index) ->
  indexed d' /\ index < List.length d' /\ List.length d <= List.length d'.
Proof.
  intros Hd. unfold vertex_dict_intern.
  destruct (__hash__ v) as [h|e]; simpl; [|discriminate].
  destruct (vertex_dict_find d h v) as [i|] eqn:Ef; intros [= <- <-].
  - split; [assumption|]. split; [|lia].
    eapply vertex_dict_find_lt; eassumption.
  - rewrite length_app. simpl. split; [|lia].
    intros j e Hj. destruct (lt_dec j (List.length d)) as [Hlt|Hge].
    + rewrite nth_error_app1 in Hj by assumption. now apply Hd.
    + rewrite nth_error_app2 in Hj by lia.
      destruct (j - List.length d) as [|k] eqn:E; simpl in Hj.
      * injection Hj as <-. simpl. lia.
      * destruct k; discriminate.
Qed.

Lemma vertex_dict_sorted_keys_length (d : vertex_dict F) :
  indexed d -> List.length (vertex_dict_sorted_keys d) = List.length d.
Proof.
  intros Hd. unfold vertex_dict_sorted_keys. rewrite length_map.
  now rewrite PyFacts.sorted_by_positions.
Qed.
End Dict.

Section Split.
Context {F : Type} `{Scalar F} `{Mathutils F}.
Variable material_writer : MaterialWriter F.

(** The state of the triangle loops: a dictionary and the indices made
    so far. *)
Definition faces_inv (st : vertex_dict F * list nat) : Prop :=
  indexed (fst st) /\
  Forall (fun i => i < List.length (fst st)) (snd st) /\
  Nat.divide 3 (List.length (snd st)).

Lemma face_loop_spec vertex_of (triangle : MeshLoopTriangle) d d' face_indices :
  indexed d ->
  face_loop vertex_of d triangle = Ok (d', face_indices) ->
  indexed d' /\ List.length d <= List.length d' /\
  Forall (fun i => i < List.length d') face_indices.
Proof.
  intros Hd Hf. unfold face_loop in Hf.
  apply (@ofold_invariant _ _
           (fun st : vertex_dict F * list nat =>
              indexed (fst st) /\ List.length d <= List.length (fst st) /\
              Forall (fun i => i < List.length (fst st)) (snd st))
           _ (bpy.loops triangle)) in Hf; [exact Hf| |simpl; auto].
  clear. intros [d1 fi] loop_index [d2 fi2] (Hd1 & Hlen & Hfi) Hstep.
  simpl in *.
  apply obind_Ok in Hstep as (vertex & _ & Hstep).
  apply obind_Ok in Hstep as ([d3 idx] & Hi & Hstep).
  injection Hstep as <- <-. simpl.
  destruct (vertex_dict_intern_spec _ Hd1 Hi) as (Hd3 & Hidx & Hle).
  split; [assumption|]. split; [lia|].
  apply Forall_app. split.
  - eapply Forall_impl; [|exact Hfi]. simpl. intros; lia.
  - constructor; auto.
Qed.

Lemma extend3_spec indices face_indices a b c r n :
  Forall (fun i => i < n) indices ->
  Forall (fun i => i < n) face_indices ->
  Nat.divide 3 (List.length indices) ->
  extend3 indices face_indices a b c = Ok r ->
  Forall (fun i => i < n) r /\ Nat.divide 3 (List.length r).
Proof.
  intros Hi Hf Hd He. unfold extend3 in He.
  apply obind_Ok in He as (ia & Ea & He).
  apply obind_Ok in He as (ib & Eb & He).
  apply obind_Ok in He as (ic & Ec & He).
  injection He as <-.
  assert (Hget : forall k x, getitem face_indices k = Ok x -> x < n).
  { intros k x. unfold getitem.
    destruct (nth_error face_indices k) as [y|] eqn:E; [|discriminate].
    intros [= <-]. rewrite Forall_forall in Hf.
    eapply Hf, nth_error_In, E. }
  split.
  - apply Forall_app. split; [assumption|].
    repeat constructor; eauto.
  - rewrite length_app. simpl.
    apply Nat.divide_add_r; [assumption|apply Nat.divide_refl].
Qed.

Lemma faces_inv_nil : faces_inv ([], []).
Proof.
  repeat split; simpl; auto using indexed_nil. apply Nat.divide_0_r.
Qed.

Lemma split_triangle_spec obj mesh_copy has_uvs uv_layer material_index
      st triangle st' :
  faces_inv st ->
  split_triangle obj mesh_copy has_uvs uv_layer material_index st triangle
  = Ok st' ->
  faces_inv st'.
Proof.
  destruct st as [d indices]. intros (Hd & Hi & H3). simpl in Hd, Hi, H3.
  unfold split_triangle.
  destruct (negb (material_index =? bpy.material_index triangle)).
  - intros [= <-]. repeat split; assumption.
  - intros Hs. apply obind_Ok in Hs as ([d' face_indices] & Hf & Hs).
    destruct (face_loop_spec _ _ Hd Hf) as (Hd' & Hle & Hfi).
    apply obind_Ok in Hs as (indices1 & E1 & Hs).
    assert (Hi' : Forall (fun i => i < List.length d') indices)
      by (eapply Forall_impl; [|exact Hi]; simpl; intros; lia).
    destruct (extend3_spec _ _ _ Hi' Hfi H3 E1) as (Hv1 & Ht1).
    destruct (List.length face_indices =? 4).
    + apply obind_Ok in Hs as (indices2 & E2 & Hs). injection Hs as <-.
      destruct (extend3_spec _ _ _ Hv1 Hfi Ht1 E2) as (Hv2 & Ht2).
      repeat split; assumption.
    + injection Hs as <-. repeat split; assumption.
Qed.

(** A record as [_split_object_by_materials] builds them. *)
Definition well_formed (m : Mesh F) : Prop :=
  VertexLimitFacts.indices_valid m /\ VertexLimitFacts.triangulated m.

Lemma split_material_spec obj mesh_copy has_uvs uv_layer meshes
      material_index meshes' :
  Forall well_formed meshes ->
  split_material material_writer obj mesh_copy has_uvs uv_layer meshes
                 material_index = Ok meshes' ->
  Forall well_formed meshes'.
Proof.
  intros Hm Hs. unfold split_material in Hs.
  apply obind_Ok in Hs as (slot & _ & Hs).
  destruct slot as [material|]; [|discriminate].
  destruct (helpers.is_hidden_name (material_name material)); [discriminate|].
  apply obind_Ok in Hs as ([d indices] & Hf & Hs).
  apply (@ofold_invariant _ _ faces_inv _ _
           (split_triangle_spec obj mesh_copy has_uvs uv_layer material_index)
           _ _ faces_inv_nil) in Hf.
  destruct Hf as (Hd & Hi & H3). simpl in Hd, Hi, H3.
  destruct (dict_get String.eqb (material_positions material_writer)
                     (material_name material)); [|discriminate].
  injection Hs as <-. apply Forall_app. split; [assumption|].
  constructor; [|constructor]. split.
  - unfold VertexLimitFacts.indices_valid. simpl.
    now rewrite vertex_dict_sorted_keys_length.
  - exact H3.
Qed.

Lemma _split_object_by_materials_well_formed obj meshes :
  _split_object_by_materials material_writer obj = Ok meshes ->
  Forall well_formed meshes.
Proof.
  unfold _split_object_by_materials.
  destruct (materials (to_mesh obj)); [discriminate|].
  apply (@ofold_invariant _ _ (Forall well_formed)); [|constructor].
  intros s x s'. apply split_material_spec.
Qed.
End Split.
End GeometryFacts.

(** ** The vertex ceiling (claim C1) *)

Module VertexCeiling.
Import node_writer constants VertexLimitFacts GeometryFacts.

Lemma str_max : str_nat MAX_VERTICES_PER_MESH = "65536".
Proof. vm_compute. reflexivity. Qed.

Lemma limit_ge_3 : 3 <= MAX_VERTICES_PER_MESH.
Proof. unfold MAX_VERTICES_PER_MESH. lia. Qed.

Section Records.
Context {F : Type} `{Scalar F} `{Mathutils F}.

Lemma _write_mesh_rejects (obj : Object F) (mesh : Mesh F) node_properties :
  MAX_VERTICES_PER_MESH < List.length (vertices mesh) ->
  result (_write_mesh obj mesh node_properties)
  = Raise (Exception ("Only 65536 vertices per mesh allowed. ('"
                      ++ name obj ++ "')")) /\
  written (_write_mesh obj mesh node_properties)
  = [W_uint 2; W_string (name obj); W_uint 0; W_bool true;
     W_bool (castShadows node_properties);
     W_bool (visible node_properties);
     W_bool (transparent node_properties)].
Proof.
  intros Hbig. apply Nat.ltb_lt in Hbig.
  unfold _write_mesh. rewrite Hbig, str_max. split; reflexivity.
Qed.

(** Limit-splitting of any list of records whose indices name vertices
    and come in triangles. *)
Lemma limit_splitting (divided_meshes : list (Mesh F)) :
  Forall well_formed divided_meshes ->
  exists new_meshes,
    _split_meshes_for_vertex_limit divided_meshes = Ok new_meshes /\
    Forall (fun mesh => List.length (vertices mesh) <= MAX_VERTICES_PER_MESH)
           new_meshes /\
    Forall well_formed new_meshes /\
    List.concat (map (@triangles F) new_meshes)
    = List.concat (map (@triangles F) divided_meshes).
Proof.
  intros Hwf.
  assert (Hvalid : Forall (@indices_valid F) divided_meshes)
    by (eapply Forall_impl; [|exact Hwf]; now intros m [Hm _]).
  assert (Htri : Forall (@triangulated F) divided_meshes)
    by (eapply Forall_impl; [|exact Hwf]; now intros m [_ Hm]).
  destruct (@split_meshes_at_spec F MAX_VERTICES_PER_MESH limit_ge_3
              divided_meshes [] Hvalid)
    as (out & Eo & Hlen & Hval & Ht & Hcorn).
  specialize (Ht Htri).
  exists out. split; [exact Eo|]. split; [exact Hlen|]. split.
  - apply Forall_forall. intros m Hm. rewrite Forall_forall in Hval, Ht.
    split; auto.
  - unfold triangles.
    rewrite <- (map_map (@corners F) triples out),
            <- (map_map (@corners F) triples divided_meshes).
    rewrite <- !triples_concat, Hcorn; [reflexivity| |].
    + apply Forall_map. eapply Forall_impl; [|exact Htri].
      intros m Hm. unfold corners. now rewrite length_map.
    + apply Forall_map. eapply Forall_impl; [|exact Ht].
      intros m Hm. unfold corners. now rewrite length_map.
Qed.

(** C1.  For every object the splitter accepts, limit-splitting
    succeeds and every record it emits has at most 65536 vertices; its
    indices name vertices of its own list and come in whole triangles,
    and the triangles of the emitted records, in order, are the triangles
    of the records that were split, so no triangle is cut between two
    chunks.  [_write_mesh] raises on any record above the limit, before
    it writes a vertex. *)
Theorem vertex_ceiling (material_writer : MaterialWriter F)
        (obj : Object F) (divided_meshes : list (Mesh F)) :
  _split_object_by_materials material_writer obj = Ok divided_meshes ->
  exists new_meshes,
    _split_meshes_for_vertex_limit divided_meshes = Ok new_meshes /\
    Forall (fun mesh => List.length (vertices mesh) <= MAX_VERTICES_PER_MESH)
           new_meshes /\
    Forall (fun mesh => indices_valid mesh /\ triangulated mesh) new_meshes /\
    List.concat (map (@triangles F) new_meshes)
    = List.concat (map (@triangles F) divided_meshes) /\
    forall (o : Object F) (mesh : Mesh F) node_properties,
      MAX_VERTICES_PER_MESH < List.length (vertices mesh) ->
      result (_write_mesh o mesh node_properties)
      = Raise (Exception ("Only 65536 vertices per mesh allowed. ('"
                          ++ name o ++ "')")) /\
      written (_write_mesh o mesh node_properties)
      = [W_uint 2; W_string (name o); W_uint 0; W_bool true;
         W_bool (castShadows node_properties);
         W_bool (visible node_properties);
         W_bool (transparent node_properties)].
Proof.
  intros Hsplit.
  apply _split_object_by_materials_well_formed in Hsplit.
  destruct (limit_splitting Hsplit) as (out & Eo & Hlen & Hwf & Htri).
  exists out. repeat (split; [assumption|]).
  intros o mesh node_properties. apply _write_mesh_rejects.
Qed.
End Records.

Lemma vertex_ceiling_witness :
  exists divided_meshes,
    _split_object_by_materials Samples.mat_writer Samples.road
    = Ok divided_meshes /\
    exists new_meshes,
      _split_meshes_for_vertex_limit divided_meshes = Ok new_meshes /\
      Forall (fun mesh => List.length (vertices mesh) <= MAX_VERTICES_PER_MESH)
             new_meshes.
Proof.
  eexists. split; [vm_compute; reflexivity|].
match goal with
| |- exists new_meshes, _split_meshes_for_vertex_limit ?d = _ /\ _ =>
    assert (Hs : _split_object_by_materials Samples.mat_writer Samples.road = Ok d)
      by (vm_compute; reflexivity);
    destruct (@vertex_ceiling float float_scalar simple_mathutils
                Samples.mat_writer Samples.road d Hs)
      as (new_meshes & E & Hlen & _)
end.
exists new_meshes. split; assumption.
Defined.
End VertexCeiling.

(** ** Vertex equality and hashing (claim C2) *)

Module UvVertexFacts.
Import node_writer.

(** C2.  The code does not have the property: the two vertices
    [near_u] and [near_v] compare equal (their positions differ by
    [2e-6 < 1e-5], the rest is identical), yet they quantize to different
    grid cells ([round(0.4) = 0], [round(0.6) = 1]) and so have different
    hashes; the dictionary of the deduplication keeps both. *)
Theorem equal_vertices_hash_differently :
  __eq__ Samples.near_u Samples.near_v = true /\
  hash_key Samples.near_u = Ok [0; 0; 0; 0; 0; 100000; 0; 0]%Z /\
  hash_key Samples.near_v = Ok [1; 0; 0; 0; 0; 100000; 0; 0]%Z /\
  __hash__ Samples.near_u <> __hash__ Samples.near_v /\
  (d1 <~ vertex_dict_intern [] Samples.near_u;;
   d2 <~ vertex_dict_intern (fst d1) Samples.near_v;;
   Ok (List.length (fst d2), snd d1, snd d2)) = Ok (2, 0, 1).
Proof.
  repeat split; try (vm_compute; reflexivity).
  vm_compute. discriminate.
Qed.

(** Equality ignores the tangent, and so does the hash. *)
Lemma tangent_ignored {F : Type} `{Scalar F} (u : UvVertex F) t :
  let u' := mkUvVertex (co u) (normal u) (uv u) t in
  hash_key u' = hash_key u /\ forall w, __eq__ u' w = __eq__ u w.
Proof. split; reflexivity. Qed.
End UvVertexFacts.

(** ** The coordinate conversions (claim C8) *)

Module CoordinateFacts.
Import coordinates utils.

Lemma float_opp_involutive (x : float) :
  PrimFloat.opp (PrimFloat.opp x) = x.
Proof.
  apply Prim2SF_inj. rewrite !opp_spec.
  destruct (Prim2SF x) as [s|s| |s m e]; simpl;
    try reflexivity; now rewrite negb_involutive.
Qed.

(** C8.  On binary64 floats the two conversions are mutually inverse,
    exactly; [blender_to_ac] is [(x, y, z) -> (x, z, -y)], [ac_to_blender]
    is [(x, y, z) -> (x, -z, y)], and [convert_vector3] of the serializer is
    [blender_to_ac]. *)
Theorem conversions_inverse (x y z : float) :
  (let '(a, b, c) := ac_to_blender x y z in blender_to_ac a b c) = (x, y, z) /\
  (let '(a, b, c) := blender_to_ac x y z in ac_to_blender a b c) = (x, y, z) /\
  blender_to_ac x y z = (x, z, PrimFloat.opp y) /\
  ac_to_blender x y z = (x, PrimFloat.opp z, y) /\
  convert_vector3 (x, y, z) = blender_to_ac x y z.
Proof.
  unfold ac_to_blender, blender_to_ac, convert_vector3. simpl.
  rewrite !float_opp_involutive. repeat split.
Qed.

(** The same over exact arithmetic, and over any arithmetic whose negation
    is an involution. *)
Lemma conversions_inverse_generic {F : Type} `{Scalar F} (x y z : F) :
  (forall a : F, -! -! a = a) ->
  (let '(a, b, c) := ac_to_blender x y z in blender_to_ac a b c) = (x, y, z) /\
  (let '(a, b, c) := blender_to_ac x y z in ac_to_blender a b c) = (x, y, z).
Proof.
  intros Hopp. unfold ac_to_blender, blender_to_ac. now rewrite !Hopp.
Qed.

Lemma xreal_opp_involutive (a : XReal.xreal) : -! -! a = a.
Proof.
  destruct a; simpl; try reflexivity. f_equal. apply Ropp_involutive.
Qed.
End CoordinateFacts.

(** ** Binary64 rounding

    The operations of [PrimFloat] are specified by those of [SpecFloat];
    this module bounds the error of the sums, differences, squares and
    quotients of binary64 against the exact operations on the values, and
    relates the order of the floats to that of their values. *)

Module RoundingFacts.
Local Open Scope R_scope.

(** The order of [SpecFloat]. *)

Lemma SFleb_refl f : f <> S754_nan -> SFleb f f = true.
Proof.
  unfold SFleb. destruct f as [s|s| |s m e]; try destruct s; simpl; try congruence;
    intros _; rewrite Z.compare_refl;
    change (Pos.compare_cont Eq m m) with (Pos.compare m m);
    rewrite Pos.compare_refl; reflexivity.
Qed.

Lemma SFltb_leb a b : SFltb a b = true -> SFleb a b = true.
Proof. unfold SFltb, SFleb. destruct (SFcompare a b) as [[]|]; congruence. Qed.

Ltac order_cases :=
  repeat match goal with
  | H : context [Z.compare ?x ?y] |- _ => destruct (Z.compare_spec x y); simpl in H
  | |- context [Z.compare ?x ?y] => destruct (Z.compare_spec x y); simpl
  | H : context [Pos.compare_cont Eq ?x ?y] |- _ =>
      change (Pos.compare_cont Eq x y) with (Pos.compare x y) in H;
      destruct (Pos.compare_spec x y); simpl in H
  | |- context [Pos.compare_cont Eq ?x ?y] =>
      change (Pos.compare_cont Eq x y) with (Pos.compare x y);
      destruct (Pos.compare_spec x y); simpl
  end.

Lemma SFltb_false_leb a b :
  a <> S754_nan -> b <> S754_nan -> SFltb a b = false -> SFleb b a = true.
Proof.
  unfold SFltb, SFleb.
  destruct a as [sa|sa| |sa ma ea], b as [sb|sb| |sb mb eb];
    try destruct sa; try destruct sb; simpl; try congruence; intros _ _ H;
    order_cases; subst; try reflexivity; try discriminate; try lia.
Qed.

Lemma SFleb_trans a b c :
  SFleb a b = true -> SFleb b c = true -> SFleb a c = true.
Proof.
  unfold SFleb.
  destruct a as [sa|sa| |sa ma ea], b as [sb|sb| |sb mb eb],
           c as [sc|sc| |sc mc ec];
    try destruct sa; try destruct sb; try destruct sc; simpl;
    try congruence; intros H1 H2;
    order_cases; subst; try reflexivity; try discriminate; try lia.
Qed.

(** Powers of two. *)
Definition p2 (e : Z) : R := powerRZ 2 e.

Lemma p2_pos e : 0 < p2 e.
Proof. apply powerRZ_lt. lra. Qed.

Lemma p2_add a b : p2 (a + b) = p2 a * p2 b.
Proof. apply powerRZ_add. lra. Qed.

Lemma p2_succ a : p2 (a + 1) = 2 * p2 a.
Proof. rewrite p2_add. unfold p2 at 2. simpl. lra. Qed.

Lemma p2_pred a : p2 (a - 1) = p2 a / 2.
Proof.
  replace a with ((a - 1) + 1)%Z at 2 by lia. rewrite p2_succ. lra.
Qed.

Lemma p2_0 : p2 0 = 1.
Proof. reflexivity. Qed.

Lemma p2_le a b : (a <= b)%Z -> p2 a <= p2 b.
Proof.
  intros Hab. replace b with (a + (b - a))%Z by lia.
  assert (Hn : (0 <= b - a)%Z) by lia. revert Hn.
  generalize (b - a)%Z. intros n Hn. pattern n.
  apply natlike_ind; [| |exact Hn].
  - rewrite Z.add_0_r. lra.
  - intros k Hk IH. replace (a + Z.succ k)%Z with ((a + k) + 1)%Z by lia.
    rewrite p2_succ. pose proof (p2_pos (a + k)). lra.
Qed.

Lemma p2_lt a b : (a < b)%Z -> 2 * p2 a <= p2 b.
Proof. intros Hab. rewrite <- p2_succ. apply p2_le. lia. Qed.

Lemma p2_IZR n : (0 <= n)%Z -> p2 n = IZR (2 ^ n).
Proof.
  intros Hn. pattern n. apply natlike_ind; [| |exact Hn].
  - reflexivity.
  - intros k Hk IH. rewrite Z.pow_succ_r by assumption. rewrite mult_IZR.
    rewrite <- IH. unfold Z.succ. rewrite p2_succ. reflexivity.
Qed.

Lemma Rabs_le_inv a b : Rabs a <= b -> - b <= a <= b.
Proof. unfold Rabs. destruct (Rcase_abs a); lra. Qed.

(** The format. *)
Lemma fexp_eq e : fexp prec emax e = Z.max (e - 53) (-1074).
Proof. reflexivity. Qed.

Lemma digits_bounds p :
  (2 ^ (Zpos (digits2_pos p) - 1) <= Zpos p < 2 ^ Zpos (digits2_pos p))%Z.
Proof.
  induction p as [p IH|p IH|]; cbn [digits2_pos].
  - rewrite Pos2Z.inj_succ. replace (Z.succ (Zpos (digits2_pos p)) - 1)%Z
      with (Z.succ (Zpos (digits2_pos p) - 1)) by lia.
    rewrite !Z.pow_succ_r by lia. lia.
  - rewrite Pos2Z.inj_succ. replace (Z.succ (Zpos (digits2_pos p)) - 1)%Z
      with (Z.succ (Zpos (digits2_pos p) - 1)) by lia.
    rewrite !Z.pow_succ_r by lia. lia.
  - simpl. lia.
Qed.

(** Where the value [t], counted in units of the last place of the
    mantissa [mx], lies. *)
Definition located (t : R) (mx : Z) (lx : location) : Prop :=
  match lx with
  | loc_Exact => t = IZR mx
  | loc_Inexact Lt => IZR mx < t < IZR mx + / 2
  | loc_Inexact Eq => t = IZR mx + / 2
  | loc_Inexact Gt => IZR mx + / 2 < t < IZR mx + 1
  end.

(** After [k] shifts. *)
Definition shifted (t : R) (mx : Z) (k : Z) (mrs : shr_record) : Prop :=
  shr_m mrs = (mx / 2 ^ k)%Z /\
  exists rho, t = IZR (shr_m mrs) * p2 k + rho /\ 0 <= rho < p2 k /\
    (shr_r mrs = true <-> p2 k <= 2 * rho) /\
    (orb (shr_r mrs) (shr_s mrs) = true <-> 0 < rho) /\
    (shr_r mrs = true -> (shr_s mrs = true <-> p2 k < 2 * rho)).

Lemma shifted_start t mx lx :
  located t mx lx -> shifted t mx 0 (shr_record_of_loc mx lx).
Proof.
  intros Hl. split.
  - destruct lx as [|[]]; simpl; now rewrite Z.div_1_r.
  - exists (t - IZR mx). rewrite p2_0.
    destruct lx as [|[]]; simpl in *; repeat split; intros; try lra;
      try discriminate; try reflexivity; exfalso; lra.
Qed.

Lemma shr_1_div2 m r s : (0 <= m)%Z ->
  exists b : bool,
    shr_1 (Build_shr_record m r s) = Build_shr_record (m / 2) b (orb r s) /\
    m = (2 * (m / 2) + (if b then 1 else 0))%Z.
Proof.
  intros Hm. destruct m as [|[p|p|]|p]; try lia; cbn [shr_1].
  - exists false. split; reflexivity.
  - exists true.
    assert (E : (Zpos p~1 / 2 = Zpos p)%Z)
      by (symmetry; apply Z.div_unique with 1%Z; lia).
    rewrite E. split; [reflexivity|lia].
  - exists false.
    assert (E : (Zpos p~0 / 2 = Zpos p)%Z)
      by (symmetry; apply Z.div_unique with 0%Z; lia).
    rewrite E. split; [reflexivity|lia].
  - exists true. split; reflexivity.
Qed.

Lemma shifted_step t mx k mrs :
  (0 <= mx)%Z -> (0 <= k)%Z ->
  shifted t mx k mrs -> shifted t mx (k + 1) (shr_1 mrs).
Proof.
  intros Hmx Hk [Hm (rho & Ht & Hrho & Hr & Hrs & Hs)].
  destruct mrs as [m r s]. cbn [shr_m shr_r shr_s] in *.
  assert (Hm0 : (0 <= m)%Z).
  { rewrite Hm. apply Z.div_pos; [assumption|]. apply Z.pow_pos_nonneg; lia. }
  destruct (shr_1_div2 r s Hm0) as (b & -> & Eb). cbn [shr_m shr_r shr_s].
  split.
  - assert (0 < 2 ^ k)%Z by (apply Z.pow_pos_nonneg; lia).
    rewrite Hm, Z.pow_add_r, Z.pow_1_r by lia.
    rewrite Z.div_div by lia. reflexivity.
  - exists (rho + (if b then p2 k else 0)). rewrite p2_succ.
    cbn [shr_m shr_r shr_s].
    pose proof (p2_pos k) as Hp.
    assert (Em : IZR m = 2 * IZR (m / 2) + (if b then 1 else 0)).
    { rewrite Eb at 1. rewrite plus_IZR, mult_IZR. now destruct b. }
    split; [rewrite Ht, Em; destruct b; ring|].
    destruct b, r, s; cbn [orb] in *; repeat split; intros; try lra;
      try discriminate; try reflexivity; try (exfalso; lra);
      try (destruct Hrs as [Hrs _]; specialize (Hrs eq_refl); lra);
      try (destruct Hrs as [_ Hrs]; exfalso;
           assert (~ 0 < rho) by (intros Hc; specialize (Hrs Hc); discriminate);
           lra).
Qed.

Lemma shifted_iter t mx : (0 <= mx)%Z -> forall p k mrs,
  (0 <= k)%Z -> shifted t mx k mrs ->
  shifted t mx (k + Zpos p) (SpecFloat.iter_pos shr_1 p mrs).
Proof.
  intros Hmx. induction p as [p IH|p IH|]; intros k mrs Hk H; cbn [SpecFloat.iter_pos].
  - replace (k + Zpos p~1)%Z with (((k + 1) + Zpos p) + Zpos p)%Z by lia.
    apply IH; [lia|]. apply IH; [lia|]. now apply shifted_step.
  - replace (k + Zpos p~0)%Z with ((k + Zpos p) + Zpos p)%Z by lia.
    apply IH; [lia|]. now apply IH.
  - now apply shifted_step.
Qed.
Lemma shr_spec t mx lx e n :
  (0 <= mx)%Z -> located t mx lx ->
  snd (shr (shr_record_of_loc mx lx) e n) = (e + Z.max 0 n)%Z /\
  shifted t mx (Z.max 0 n) (fst (shr (shr_record_of_loc mx lx) e n)).
Proof.
  intros Hmx Hl. pose proof (shifted_start _ _ _ Hl) as H0.
  destruct n as [|p|p]; cbn [shr fst snd].
  - split; [lia|exact H0].
  - split; [lia|]. replace (Z.max 0 (Zpos p)) with (0 + Zpos p)%Z by lia.
    apply shifted_iter; [assumption|lia|exact H0].
  - split; [lia|exact H0].
Qed.

Lemma round_nearest_even_spec t mx k mrs :
  shifted t mx k mrs ->
  let m2 := round_nearest_even (shr_m mrs) (loc_of_shr_record mrs) in
  (shr_m mrs <= m2 <= shr_m mrs + 1)%Z /\
  Rabs (IZR m2 * p2 k - t) <= p2 k / 2 /\
  (t = IZR (shr_m mrs) * p2 k -> m2 = shr_m mrs).
Proof.
  intros [Hm (rho & Ht & Hrho & Hr & Hrs & Hs)]. destruct mrs as [m r s].
  cbn [shr_m shr_r shr_s] in *. pose proof (p2_pos k) as Hp.
  assert (Hup : IZR (m + 1) * p2 k - t = p2 k - rho)
    by (rewrite plus_IZR, Ht; ring).
  assert (Hdn : IZR m * p2 k - t = - rho) by (rewrite Ht; ring).
  destruct r, s; cbn [loc_of_shr_record round_nearest_even orb] in *.
  - rewrite Hup. split; [lia|]. split.
    + destruct Hr as [Hr _]. specialize (Hr eq_refl).
      apply Rabs_le. lra.
    + intros E. exfalso. lra.
  - destruct Hr as [Hr _]. specialize (Hr eq_refl).
    assert (E2 : p2 k = 2 * rho).
    { destruct (Rle_lt_or_eq_dec _ _ Hr) as [Hlt|E]; [|exact E].
      apply (proj2 (Hs eq_refl)) in Hlt. discriminate. }
    destruct (Z.even m).
    + rewrite Hdn. split; [lia|]. split; [apply Rabs_le; lra|reflexivity].
    + rewrite Hup. split; [lia|]. split; [apply Rabs_le; lra|].
      intros E. exfalso. lra.
  - rewrite Hdn. split; [lia|]. split; [|reflexivity].
    assert (~ p2 k <= 2 * rho) by (intros Hc; apply Hr in Hc; discriminate).
    apply Rabs_le. lra.
  - rewrite Hdn. split; [lia|]. split; [|reflexivity].
    assert (~ 0 < rho) by (intros Hc; apply Hrs in Hc; discriminate).
    apply Rabs_le. lra.
Qed.

Lemma Zdigits2_nonneg_bounds m : (0 < m)%Z ->
  (2 ^ (Zdigits2 m - 1) <= m < 2 ^ Zdigits2 m)%Z /\ (0 < Zdigits2 m)%Z.
Proof.
  destruct m as [|p|p]; try lia. intros _. cbn [Zdigits2].
  split; [apply digits_bounds|lia].
Qed.

Lemma pow2_lt_inv a b : (0 <= b)%Z -> (2 ^ a < 2 ^ b)%Z -> (a < b)%Z.
Proof.
  intros Hb H. destruct (Z_lt_le_dec a b) as [|Hge]; [assumption|].
  pose proof (Z.pow_le_mono_r 2 b a ltac:(lia) Hge). lia.
Qed.

(** What [binary_round_aux] returns for the value [t * 2^ex], whose
    integer part in units of [2^ex] is [mx]: the error is at most half
    a unit of the exponent [e1] the mantissa is first shifted to. *)
Lemma binary_round_aux_spec sx mx ex lx t :
  (0 <= mx)%Z -> located t mx lx ->
  let e1 := Z.max ex (fexp prec emax (Zdigits2 mx + ex)) in
  match binary_round_aux prec emax sx mx ex lx with
  | S754_nan => False
  | S754_infinity s => s = sx /\ p2 971 <= t * p2 ex
  | S754_zero s => s = sx /\ Rabs (t * p2 ex) <= p2 (e1 - 1)
  | S754_finite s m e =>
      s = sx /\ (e <= emax - prec)%Z /\
      Rabs (IZR (Zpos m) * p2 e - t * p2 ex) <= p2 (e1 - 1) /\
      (t = IZR mx -> e1 = ex -> IZR (Zpos m) * p2 e = t * p2 ex)
  end.
Proof.
  intros Hmx Hl e1. unfold binary_round_aux, shr_fexp.
  set (n := (fexp prec emax (Zdigits2 mx + ex) - ex)%Z).
  destruct (@shr_spec t mx lx ex n Hmx Hl) as [He' Hsh].
  destruct (shr (shr_record_of_loc mx lx) ex n) as [mrs' e'].
  cbn [fst snd] in He', Hsh.
  set (k := Z.max 0 n) in *.
  assert (Ee1 : e' = e1) by (unfold e1, n in *; lia).
  assert (Hk : (0 <= k)%Z) by lia.
  destruct (round_nearest_even_spec Hsh) as (Hm2 & Herr & Hex).
  set (m2 := round_nearest_even (shr_m mrs') (loc_of_shr_record mrs')) in *.
  destruct Hsh as [Hm _].
  assert (Hmin : (-1074 <= e1)%Z) by (unfold e1; rewrite fexp_eq; lia).
  assert (H2k : (0 < 2 ^ k)%Z) by (apply Z.pow_pos_nonneg; lia).
  assert (Hm0 : (0 <= shr_m mrs')%Z) by (rewrite Hm; apply Z.div_pos; lia).
  assert (Hm53 : (shr_m mrs' < 2 ^ 53)%Z).
  { rewrite Hm. destruct (Z.eq_dec mx 0) as [->|Hne].
    - rewrite Z.div_0_l by lia. lia.
    - destruct (@Zdigits2_nonneg_bounds mx ltac:(lia)) as [[_ Hd] Hd0].
      apply Z.div_lt_upper_bound; [assumption|].
      rewrite <- Z.pow_add_r by lia.
      eapply Z.lt_le_trans; [exact Hd|].
      apply Z.pow_le_mono_r; [lia|]. unfold k, n. rewrite fexp_eq. lia. }
  assert (Escale : p2 e1 = p2 k * p2 ex).
  { rewrite <- p2_add. f_equal. unfold e1, k, n. lia. }
  assert (Hval : forall m, IZR m * p2 e1 - t * p2 ex = (IZR m * p2 k - t) * p2 ex)
    by (intros; rewrite Escale; ring).
  assert (Hhalf : p2 (e1 - 1) = p2 k / 2 * p2 ex)
    by (rewrite p2_pred, Escale; lra).
  pose proof (p2_pos ex) as Hpex.
  assert (Hbound : Rabs (IZR m2 * p2 e1 - t * p2 ex) <= p2 (e1 - 1)).
  { rewrite Hval, Hhalf, Rabs_mult, (Rabs_pos_eq (p2 ex)) by lra.
    apply Rmult_le_compat_r; [lra|exact Herr]. }
  assert (Hexact : t = IZR mx -> e1 = ex -> m2 = mx).
  { intros Et Ee. assert (k = 0%Z) by (unfold e1, k, n in *; lia).
    assert (Em : shr_m mrs' = mx) by (rewrite Hm, H; apply Z.div_1_r).
    transitivity (shr_m mrs'); [|exact Em].
    apply Hex. rewrite Em, H, p2_0. lra. }
  clear He'. subst e'.
  destruct (Z.eq_dec m2 0) as [E0|Hne].
  - (* the rounded mantissa is zero *)
    rewrite E0 in *. cbn [Zdigits2 Z.add].
    assert (En2 : (fexp prec emax e1 - e1 <= 0)%Z) by (rewrite fexp_eq; lia).
    destruct (fexp prec emax e1 - e1)%Z as [|p|p] eqn:E; try lia;
      cbn [shr shr_record_of_loc shr_m]; (split; [reflexivity|]);
      rewrite <- Rabs_Ropp; replace (- (t * p2 ex)) with (0 * p2 e1 - t * p2 ex) by ring;
      exact Hbound.
  - assert (Hpos : (0 < m2)%Z) by lia.
    destruct (@Zdigits2_nonneg_bounds m2 Hpos) as [[Hlo Hhi] Hd0].
    assert (Hd54 : (Zdigits2 m2 <= 54)%Z).
    { assert (Zdigits2 m2 - 1 < 54)%Z; [|lia].
      apply pow2_lt_inv; [lia|]. eapply Z.le_lt_trans; [exact Hlo|].
      change (2 ^ 54)%Z with (2 * 2 ^ 53)%Z. lia. }
    destruct (Z.eq_dec (Zdigits2 m2) 54) as [E54|Hne54].
    + (* the rounding carried into a new digit *)
      assert (Em2 : m2 = (2 ^ 53)%Z).
      { rewrite E54 in Hlo. change (54 - 1)%Z with 53%Z in Hlo. lia. }
      rewrite Em2 in *. clear Hexact.
      replace (fexp prec emax (Zdigits2 (2 ^ 53) + e1) - e1)%Z with 1%Z
        by (rewrite E54, fexp_eq; lia).
      cbn [shr shr_record_of_loc SpecFloat.iter_pos].
      change (shr_1 {| shr_m := 2 ^ 53; shr_r := false; shr_s := false |})
        with {| shr_m := 2 ^ 52; shr_r := false; shr_s := false |}.
      cbn [shr_m]. change (2 ^ 52)%Z with (Zpos (2 ^ 52)).
      cbv beta iota.
      assert (Ev : IZR (Zpos (2 ^ 52)) * p2 (e1 + 1) = IZR (2 ^ 53) * p2 e1).
      { rewrite p2_succ. change (IZR (2 ^ 53)) with (IZR (2 * Zpos (2 ^ 52))).
        rewrite mult_IZR. ring. }
      destruct (e1 + 1 <=? emax - prec)%Z eqn:Ele.
      2:{ apply Z.leb_gt in Ele. change (emax - prec)%Z with 971%Z in Ele.
          split; [reflexivity|].
          apply Rabs_le_inv in Hbound.
          pose proof (@p2_le 971 e1 ltac:(lia)) as H971.
          pose proof (p2_pos e1) as Hpe1. rewrite p2_pred in Hbound.
          assert (1 <= IZR (2 ^ 53)) by (apply IZR_le; lia).
          nra. }
      apply Z.leb_le in Ele. split; [reflexivity|]. split; [exact Ele|].
      rewrite Ev. split; [exact Hbound|].
      intros Et Ee. exfalso.
      assert (k = 0%Z) by (unfold e1, k, n in *; lia).
      assert (Em : shr_m mrs' = mx) by (rewrite Hm, H; apply Z.div_1_r).
      assert (shr_m mrs' = 2 ^ 53)%Z; [|lia].
      symmetry. apply Hex. rewrite Em, H, p2_0. lra.
    + assert (En2 : (fexp prec emax (Zdigits2 m2 + e1) - e1 <= 0)%Z)
        by (rewrite fexp_eq; lia).
      assert (Esh : shr (shr_record_of_loc m2 loc_Exact) e1
                        (fexp prec emax (Zdigits2 m2 + e1) - e1)
                    = (shr_record_of_loc m2 loc_Exact, e1)).
      { destruct (fexp prec emax (Zdigits2 m2 + e1) - e1)%Z; try lia; reflexivity. }
      rewrite Esh. cbn [shr_record_of_loc shr_m].
      destruct m2 as [|q|q] eqn:Eq2; try lia.
      destruct (e1 <=? emax - prec)%Z eqn:Ele.
      2:{ apply Z.leb_gt in Ele. change (emax - prec)%Z with 971%Z in Ele.
          split; [reflexivity|].
          apply Rabs_le_inv in Hbound.
          pose proof (@p2_le 971 (e1 - 1) ltac:(lia)) as H971.
          pose proof (p2_pos e1) as Hpe1. rewrite p2_pred in *.
          assert (1 <= IZR (Zpos q)) by (apply IZR_le; lia).
          nra. }
      apply Z.leb_le in Ele. split; [reflexivity|]. split; [exact Ele|].
      split; [exact Hbound|].
      intros Et Ee. rewrite Ee. rewrite (Hexact Et Ee). now rewrite Et.
Qed.

(** The unit roundoff and half the least positive number. *)
Definition u : R := p2 (-53).
Definition eta : R := p2 (-1075).

Lemma u_pos : 0 < u.
Proof. apply p2_pos. Qed.
Lemma eta_pos : 0 < eta.
Proof. apply p2_pos. Qed.

Lemma IZR_pos_bounds p :
  p2 (Zpos (digits2_pos p) - 1) <= IZR (Zpos p) < p2 (Zpos (digits2_pos p)).
Proof.
  pose proof (digits_bounds p) as [Hlo Hhi].
  assert (H1 : (1 <= Zpos (digits2_pos p))%Z) by lia.
  rewrite !p2_IZR by lia. split; [apply IZR_le|apply IZR_lt]; assumption.
Qed.

(** Rounding an exactly known value. *)
Lemma binary_round_aux_exact sx (mx : positive) ex :
  let x := IZR (Zpos mx) * p2 ex in
  match binary_round_aux prec emax sx (Zpos mx) ex loc_Exact with
  | S754_nan => False
  | S754_infinity s => s = sx /\ p2 971 <= x
  | S754_zero s => s = sx /\ (ex < -1074)%Z /\ x <= eta
  | S754_finite s m e =>
      s = sx /\ (e <= 971)%Z /\
      (Rabs (IZR (Zpos m) * p2 e - x) <= u * x \/
       (ex < -1074)%Z /\ Rabs (IZR (Zpos m) * p2 e - x) <= eta)
  end.
Proof.
  intros x.
  pose proof (@binary_round_aux_spec sx (Zpos mx) ex loc_Exact (IZR (Zpos mx))
                ltac:(lia) eq_refl) as H.
  cbv zeta in H. cbn [Zdigits2] in H. rewrite fexp_eq in H.
  set (d := Zpos (digits2_pos mx)) in *.
  pose proof (IZR_pos_bounds mx) as [Hlo _]. fold d in Hlo.
  pose proof (p2_pos ex) as Hpex.
  assert (Hx : p2 (d - 1 + ex) <= x).
  { rewrite p2_add. unfold x. apply Rmult_le_compat_r; lra. }
  assert (Hcases :
    let e1 := Z.max ex (Z.max (d + ex - 53) (-1074)) in
    e1 = ex \/ p2 (e1 - 1) <= u * x \/ (ex < -1074)%Z /\ p2 (e1 - 1) <= eta).
  { cbv zeta.
    destruct (Z_le_dec (Z.max (d + ex - 53) (-1074)) ex) as [|Hgt];
      [left; lia|right].
    destruct (Z_le_dec (-1074) (d + ex - 53)) as [Hn|Hs].
    - left. replace (Z.max ex (Z.max (d + ex - 53) (-1074)) - 1)%Z
        with (-53 + (d - 1 + ex))%Z by lia.
      rewrite p2_add. fold u. apply Rmult_le_compat_l; [|exact Hx].
      pose proof u_pos. lra.
    - right. split; [lia|].
      replace (Z.max ex (Z.max (d + ex - 53) (-1074)) - 1)%Z with (-1075)%Z by lia.
      unfold eta. lra. }
  cbv zeta in Hcases.
  set (e1 := Z.max ex (Z.max (d + ex - 53) (-1074))) in *.
  destruct (binary_round_aux prec emax sx (Zpos mx) ex loc_Exact)
    as [s|s| |s m e]; try exact H.
  - destruct H as [-> Hz]. split; [reflexivity|].
    fold x in Hz. rewrite Rabs_pos_eq in Hz
      by (unfold x; apply Rmult_le_pos; [apply IZR_le; lia|lra]).
    destruct Hcases as [E|[Hrel|[Hlt Hsub]]].
    + exfalso. rewrite E in Hz.
      assert (p2 (ex - 1) < p2 (d - 1 + ex)); [|lra].
      pose proof (@p2_lt (ex - 1) (d - 1 + ex) ltac:(lia)).
      pose proof (p2_pos (ex - 1)). lra.
    + exfalso. pose proof u_pos.
      assert (u < 1).
      { unfold u. change 1 with (p2 0). pose proof (@p2_lt (-53) 0 ltac:(lia)).
        pose proof (p2_pos (-53)). lra. }
      assert (0 < x) by (pose proof (p2_pos (d - 1 + ex)); lra).
      nra.
    + split; [exact Hlt|lra].
  - destruct H as (-> & Hle & Herr & Hex). split; [reflexivity|].
    split; [exact Hle|]. fold x in Herr, Hex.
    destruct Hcases as [E|[Hrel|[Hlt Hsub]]].
    + left. rewrite (Hex eq_refl E). unfold Rminus. rewrite Rplus_opp_r, Rabs_R0.
      pose proof u_pos. assert (0 < x) by (pose proof (p2_pos (d - 1 + ex)); lra).
      nra.
    + left. lra.
    + right. split; [exact Hlt|lra].
Qed.

(** What [shl_align] and [binary_round] do. *)
Lemma iter_xO m d : Zpos (Pos.iter xO m d) = (Zpos m * 2 ^ Zpos d)%Z.
Proof.
  induction d as [|d IH] using Pos.peano_ind.
  - cbn [Pos.iter]. rewrite Pos2Z.inj_xO. lia.
  - rewrite Pos.iter_succ, Pos2Z.inj_xO, IH, Pos2Z.inj_succ, Z.pow_succ_r by lia.
    ring.
Qed.

Lemma shl_align_spec mx ex ex' :
  let '(m, e) := shl_align mx ex ex' in
  e = Z.min ex ex' /\ IZR (Zpos m) * p2 e = IZR (Zpos mx) * p2 ex /\
  Zpos m = (Zpos mx * 2 ^ (ex - e))%Z.
Proof.
  unfold shl_align. destruct (ex' - ex)%Z as [|d|d] eqn:E.
  - split; [lia|]. split; [reflexivity|]. rewrite Z.sub_diag. lia.
  - split; [lia|]. split; [reflexivity|]. rewrite Z.sub_diag. lia.
  - split; [lia|]. assert (Ed : (ex - ex' = Zpos d)%Z) by lia.
    rewrite Ed. split; [|apply iter_xO].
    rewrite iter_xO, mult_IZR, <- p2_IZR by lia.
    assert (E2 : p2 ex = p2 (Zpos d) * p2 ex')
      by (rewrite <- p2_add; f_equal; lia).
    rewrite E2. ring.
Qed.

Lemma binary_round_spec sx mx ex :
  (-1074 <= ex)%Z ->
  let x := IZR (Zpos mx) * p2 ex in
  match binary_round prec emax sx mx ex with
  | S754_finite s m e =>
      s = sx /\ (e <= 971)%Z /\ Rabs (IZR (Zpos m) * p2 e - x) <= u * x
  | S754_infinity s => s = sx /\ p2 971 <= x
  | _ => False
  end.
Proof.
  intros Hex x. unfold binary_round.
  pose proof (shl_align_spec mx ex (fexp prec emax (Zpos (digits2_pos mx) + ex))) as H.
  destruct (shl_align mx ex (fexp prec emax (Zpos (digits2_pos mx) + ex)))
    as [mz ez].
  destruct H as (Ez & Ev & _). rewrite fexp_eq in Ez.
  pose proof (binary_round_aux_exact sx mz ez) as H. cbv zeta in H.
  rewrite Ev in H. fold x in H.
  destruct (binary_round_aux prec emax sx (Zpos mz) ez loc_Exact)
    as [s|s| |s m e]; try exact H.
  - destruct H as (_ & Hlt & _). lia.
  - destruct H as (-> & Hle & [Hrel|[Hlt _]]); [|lia]. now repeat split.
Qed.

(** The value of a float. *)
Definition SFval (f : spec_float) : R :=
  match f with
  | S754_finite s m e => IZR (cond_Zopp s (Zpos m)) * p2 e
  | _ => 0
  end.

Definition SFfinite (f : spec_float) : bool :=
  match f with
  | S754_zero _ | S754_finite _ _ _ => true
  | _ => false
  end.

(** Zero, positive or plus infinity. *)
Definition SFnonneg (f : spec_float) : bool :=
  match f with
  | S754_zero _ => true
  | S754_infinity s | S754_finite s _ _ => negb s
  | S754_nan => false
  end.

Lemma SFnonneg_val f : SFnonneg f = true -> 0 <= SFval f.
Proof.
  destruct f as [s|s| |[] m e]; simpl; intros H; try discriminate; try lra.
  apply Rmult_le_pos; [apply IZR_le; lia|]. pose proof (p2_pos e). lra.
Qed.

Lemma binary_normalize_spec z ez :
  (-1074 <= ez)%Z ->
  let r := binary_normalize prec emax z ez false in
  match r with
  | S754_nan => False
  | S754_infinity s => s = (z <? 0)%Z /\ p2 971 <= Rabs (IZR z * p2 ez)
  | S754_zero s => z = 0%Z
  | S754_finite s m e =>
      s = (z <? 0)%Z /\
      Rabs (SFval r - IZR z * p2 ez) <= u * Rabs (IZR z * p2 ez)
  end.
Proof.
  intros Hez. cbv zeta. destruct z as [|p|p]; cbn [binary_normalize].
  - reflexivity.
  - pose proof (@binary_round_spec false p ez Hez) as H. cbv zeta in H.
    assert (Hx : 0 <= IZR (Zpos p) * p2 ez).
    { apply Rmult_le_pos; [apply IZR_le; lia|]. pose proof (p2_pos ez). lra. }
    destruct (binary_round prec emax false p ez) as [s|s| |s m e];
      try contradiction.
    + destruct H as [-> H]. split; [reflexivity|]. now rewrite Rabs_pos_eq.
    + destruct H as (-> & _ & H). split; [reflexivity|]. cbn [SFval cond_Zopp].
      rewrite (Rabs_pos_eq (IZR (Zpos p) * p2 ez)); [exact H|exact Hx].
  - pose proof (@binary_round_spec true p ez Hez) as H. cbv zeta in H.
    assert (Hx : 0 <= IZR (Zpos p) * p2 ez).
    { apply Rmult_le_pos; [apply IZR_le; lia|]. pose proof (p2_pos ez). lra. }
    assert (Ez : IZR (Zneg p) * p2 ez = - (IZR (Zpos p) * p2 ez)).
    { change (Zneg p) with (Z.opp (Zpos p)). rewrite opp_IZR. ring. }
    destruct (binary_round prec emax true p ez) as [s|s| |s m e];
      try contradiction.
    + destruct H as [-> H]. split; [reflexivity|].
      now rewrite Ez, Rabs_Ropp, Rabs_pos_eq.
    + destruct H as (-> & _ & H). split; [reflexivity|]. cbn [SFval cond_Zopp].
      rewrite Ez. change (- Zpos m)%Z with (Z.opp (Zpos m)). rewrite opp_IZR.
      replace (- IZR (Zpos m) * p2 e - - (IZR (Zpos p) * p2 ez))
        with (- (IZR (Zpos m) * p2 e - IZR (Zpos p) * p2 ez)) by ring.
      rewrite !Rabs_Ropp.
      rewrite (Rabs_pos_eq (IZR (Zpos p) * p2 ez)); [exact H|exact Hx].
Qed.

(** Well-formed floats. *)
Lemma valid_finite s m e :
  valid_binary (S754_finite s m e) = true ->
  (-1074 <= e <= 971)%Z /\ (Zpos (digits2_pos m) <= 53)%Z /\
  ((-1074 < e)%Z -> Zpos (digits2_pos m) = 53%Z).
Proof.
  intros H. unfold SpecFloat.valid_binary, SpecFloat.bounded, SpecFloat.canonical_mantissa in H.
  rewrite fexp_eq in H. apply andb_prop in H. destruct H as [H1 H2].
  apply Z.eqb_eq in H1. apply Z.leb_le in H2.
  change (emax - prec)%Z with 971%Z in H2. lia.
Qed.

Lemma aligned_sum sx mx ex sy my ey (op : Z -> Z -> Z) (opR : R -> R -> R) :
  (forall a b, IZR (op a b) = opR (IZR a) (IZR b)) ->
  (forall a b c, opR a b * c = opR (a * c) (b * c)) ->
  let ez := Z.min ex ey in
  IZR (op (cond_Zopp sx (Zpos (fst (shl_align mx ex ez))))
          (cond_Zopp sy (Zpos (fst (shl_align my ey ez))))) * p2 ez
  = opR (SFval (S754_finite sx mx ex)) (SFval (S754_finite sy my ey)).
Proof.
  intros Hop Hdist ez. rewrite Hop, Hdist. cbn [SFval].
  pose proof (shl_align_spec mx ex ez) as Hx.
  pose proof (shl_align_spec my ey ez) as Hy.
  destruct (shl_align mx ex ez) as [mx' ex'], (shl_align my ey ez) as [my' ey'].
  cbn [fst]. destruct Hx as (Ex & Hx & _), Hy as (Ey & Hy & _).
  assert (Ex' : ex' = ez) by (unfold ez in *; lia).
  assert (Ey' : ey' = ez) by (unfold ez in *; lia).
  clear Ex Ey. rewrite Ex' in Hx. rewrite Ey' in Hy.
  f_equal.
  - destruct sx; cbn [cond_Zopp]; [|exact Hx].
    change (- Zpos mx')%Z with (Z.opp (Zpos mx')).
    change (- Zpos mx)%Z with (Z.opp (Zpos mx)). rewrite !opp_IZR. lra.
  - destruct sy; cbn [cond_Zopp]; [|exact Hy].
    change (- Zpos my')%Z with (Z.opp (Zpos my')).
    change (- Zpos my)%Z with (Z.opp (Zpos my)). rewrite !opp_IZR. lra.
Qed.

Lemma SFval_finite_sign s m e :
  (0 < SFval (S754_finite s m e) <-> s = false) /\
  (SFval (S754_finite s m e) < 0 <-> s = true).
Proof.
  cbn [SFval]. pose proof (p2_pos e).
  assert (0 < IZR (Zpos m)) by (apply IZR_lt; lia).
  destruct s; cbn [cond_Zopp].
  - change (- Zpos m)%Z with (Z.opp (Zpos m)). rewrite opp_IZR.
    split; split; intros; try discriminate; try reflexivity; try nra.
  - split; split; intros; try discriminate; try reflexivity; try nra.
Qed.

(** Sums and differences of finite floats. *)
Lemma SFadd_finite a b :
  valid_binary a = true -> valid_binary b = true ->
  SFfinite a = true -> SFfinite b = true ->
  let r := SF64add a b in
  r <> S754_nan /\
  (SFnonneg a = true -> SFnonneg b = true -> SFnonneg r = true) /\
  (SFfinite r = true ->
   Rabs (SFval r - (SFval a + SFval b)) <= u * Rabs (SFval a + SFval b)) /\
  (Rabs (SFval a + SFval b) < p2 971 -> SFfinite r = true).
Proof.
  intros Va Vb Fa Fb. cbv zeta. pose proof u_pos as Hu.
  destruct a as [sa|sa| |sa ma ea], b as [sb|sb| |sb mb eb];
    try discriminate; unfold SF64add; cbn [SFadd].
  - split; [destruct sa, sb; discriminate|]. split; [destruct sa, sb; reflexivity|].
    split; [|now destruct sa, sb].
    intros _. destruct sa, sb; cbn [SFval]; rewrite Rplus_0_r, Rminus_0_r, Rabs_R0; lra.
  - split; [discriminate|]. split; [intros _ H; exact H|].
    split; [|reflexivity]. intros _.
    rewrite Rplus_0_l. unfold Rminus. rewrite Rplus_opp_r, Rabs_R0.
    pose proof (Rabs_pos (SFval (S754_finite sb mb eb))). nra.
  - split; [discriminate|]. split; [intros H _; exact H|].
    split; [|reflexivity]. intros _.
    cbn [SFval]. rewrite Rplus_0_r. unfold Rminus. rewrite Rplus_opp_r, Rabs_R0.
    pose proof (Rabs_pos (IZR (cond_Zopp sa (Zpos ma)) * p2 ea)). nra.
  - destruct (valid_finite _ _ _ Va) as [Hea _], (valid_finite _ _ _ Vb) as [Heb _].
    pose proof (@aligned_sum sa ma ea sb mb eb Z.add Rplus plus_IZR
                  ltac:(intros; ring)) as Ev. cbv zeta in Ev.
    set (z := (cond_Zopp sa (Zpos (fst (shl_align ma ea (Z.min ea eb))))
               + cond_Zopp sb (Zpos (fst (shl_align mb eb (Z.min ea eb)))))%Z) in *.
    pose proof (@binary_normalize_spec z (Z.min ea eb) ltac:(lia)) as H.
    cbv zeta in H. rewrite Ev in H.
    destruct (SFval_finite_sign sa ma ea) as [Hpa Hna].
    destruct (SFval_finite_sign sb mb eb) as [Hpb Hnb].
    assert (Hz : (z <? 0)%Z = true ->
                 SFval (S754_finite sa ma ea) + SFval (S754_finite sb mb eb) < 0).
    { intros Hlt. apply Z.ltb_lt in Hlt. rewrite <- Ev.
      pose proof (p2_pos (Z.min ea eb)). apply IZR_lt in Hlt. nra. }
    destruct (binary_normalize prec emax z (Z.min ea eb) false)
      as [s|s| |s m e]; try contradiction.
    + split; [discriminate|]. split; [reflexivity|]. split; [|reflexivity].
      intros _.
      rewrite <- Ev, H. cbn [SFval]. rewrite Rmult_0_l, Rminus_0_r, Rabs_R0. lra.
    + destruct H as [Es H971]. split; [discriminate|].
      split; [|split; [discriminate|intros Hlt; exfalso; lra]].
      cbn [SFnonneg]. intros Ha Hb. destruct sa, sb; try discriminate.
      rewrite Es. destruct (z <? 0)%Z; [|reflexivity].
      specialize (Hz eq_refl). pose proof (proj2 Hpa eq_refl).
      pose proof (proj2 Hpb eq_refl). lra.
    + destruct H as [Es H]. split; [discriminate|].
      split; [|split; [intros _; exact H|reflexivity]].
      cbn [SFnonneg]. intros Ha Hb. destruct sa, sb; try discriminate.
      rewrite Es. destruct (z <? 0)%Z; [|reflexivity].
      specialize (Hz eq_refl). pose proof (proj2 Hpa eq_refl).
      pose proof (proj2 Hpb eq_refl). lra.
Qed.

Lemma SFsub_finite a b :
  valid_binary a = true -> valid_binary b = true ->
  SFfinite a = true -> SFfinite b = true ->
  let r := SF64sub a b in
  r <> S754_nan /\
  (SFfinite r = true ->
   Rabs (SFval r - (SFval a - SFval b)) <= u * Rabs (SFval a - SFval b)) /\
  (Rabs (SFval a - SFval b) < p2 971 -> SFfinite r = true).
Proof.
  intros Va Vb Fa Fb. cbv zeta. pose proof u_pos as Hu.
  destruct a as [sa|sa| |sa ma ea], b as [sb|sb| |sb mb eb];
    try discriminate; unfold SF64sub; cbn [SFsub].
  - split; [destruct sa, sb; discriminate|]. split; [|now destruct sa, sb].
    intros _. destruct sa, sb; cbn [SFval]; rewrite !Rminus_0_r, Rabs_R0; lra.
  - split; [discriminate|]. split; [|reflexivity]. intros _.
    replace (SFval (S754_finite (negb sb) mb eb))
      with (SFval (S754_zero sa) - SFval (S754_finite sb mb eb)).
    + unfold Rminus at 1. rewrite Rplus_opp_r, Rabs_R0.
      pose proof (Rabs_pos (SFval (S754_zero sa) - SFval (S754_finite sb mb eb))).
      nra.
    + cbn [SFval]. destruct sb; cbn [negb cond_Zopp];
        change (- Zpos mb)%Z with (Z.opp (Zpos mb)); rewrite ?opp_IZR; ring.
  - split; [discriminate|]. split; [|reflexivity]. intros _.
    cbn [SFval]. rewrite Rminus_0_r. unfold Rminus. rewrite Rplus_opp_r, Rabs_R0.
    pose proof (Rabs_pos (IZR (cond_Zopp sa (Zpos ma)) * p2 ea)). nra.
  - destruct (valid_finite _ _ _ Va) as [Hea _], (valid_finite _ _ _ Vb) as [Heb _].
    pose proof (@aligned_sum sa ma ea sb mb eb Z.sub Rminus minus_IZR
                  ltac:(intros; ring)) as Ev. cbv zeta in Ev.
    set (z := (cond_Zopp sa (Zpos (fst (shl_align ma ea (Z.min ea eb))))
               - cond_Zopp sb (Zpos (fst (shl_align mb eb (Z.min ea eb)))))%Z) in *.
    pose proof (@binary_normalize_spec z (Z.min ea eb) ltac:(lia)) as H.
    cbv zeta in H. rewrite Ev in H.
    destruct (binary_normalize prec emax z (Z.min ea eb) false)
      as [s|s| |s m e]; try contradiction.
    + split; [discriminate|]. split; [|reflexivity]. intros _.
      rewrite <- Ev, H. cbn [SFval]. rewrite Rmult_0_l, Rminus_0_r, Rabs_R0. lra.
    + destruct H as [_ H971]. split; [discriminate|].
      split; [discriminate|intros Hlt; exfalso; lra].
    + destruct H as [Es H]. split; [discriminate|].
      split; [intros _; exact H|reflexivity].
Qed.

(** Squares. *)
Lemma SFsquare a :
  a <> S754_nan ->
  let r := SF64mul a a in
  SFnonneg r = true /\
  (SFfinite r = true ->
   SFfinite a = true /\
   Rabs (SFval r - SFval a * SFval a) <= u * (SFval a * SFval a) + eta) /\
  (SFfinite a = true -> SFval a * SFval a < p2 971 -> SFfinite r = true).
Proof.
  intros Ha. cbv zeta. pose proof u_pos as Hu. pose proof eta_pos as Heta.
  destruct a as [sa|sa| |sa ma ea]; try congruence; unfold SF64mul; cbn [SFmul].
  - split; [reflexivity|]. split; [|reflexivity]. intros _. split; [reflexivity|].
    cbn [SFval]. rewrite Rmult_0_l, Rminus_0_r, Rabs_R0. lra.
  - split; [now destruct sa|]. split; discriminate.
  - pose proof (binary_round_aux_exact (xorb sa sa) (ma * ma) (ea + ea)) as H.
    cbv zeta in H.
    assert (Ex : IZR (Zpos (ma * ma)) * p2 (ea + ea)
                 = SFval (S754_finite sa ma ea) * SFval (S754_finite sa ma ea)).
    { cbn [SFval]. rewrite Pos2Z.inj_mul, mult_IZR, p2_add.
      destruct sa; cbn [cond_Zopp];
        change (- Zpos ma)%Z with (Z.opp (Zpos ma)); rewrite ?opp_IZR; ring. }
    rewrite Ex in H. rewrite xorb_nilpotent in *.
    assert (0 <= SFval (S754_finite sa ma ea) * SFval (S754_finite sa ma ea))
      by nra.
    destruct (binary_round_aux prec emax false (Zpos (ma * ma)) (ea + ea) loc_Exact)
      as [s|s| |s m e]; try contradiction.
    + split; [reflexivity|]. split; [|reflexivity]. intros _.
      split; [reflexivity|].
      destruct H as (_ & _ & H). change (SFval (S754_zero s)) with 0.
      unfold Rminus. rewrite Rplus_0_l, Rabs_Ropp, Rabs_pos_eq by assumption.
      nra.
    + destruct H as [-> H971]. split; [reflexivity|].
      split; [discriminate|intros _ Hlt; exfalso; lra].
    + destruct H as (-> & _ & H). split; [reflexivity|].
      split; [|reflexivity]. intros _.
      split; [reflexivity|].
      change (SFval (S754_finite false m e)) with (IZR (Zpos m) * p2 e).
      destruct H as [H|[_ H]]; nra.
Qed.

Lemma SFadd_nonneg a b :
  valid_binary a = true -> valid_binary b = true ->
  SFnonneg a = true -> SFnonneg b = true ->
  let r := SF64add a b in
  SFnonneg r = true /\
  (SFfinite r = true ->
   SFfinite a = true /\ SFfinite b = true /\
   Rabs (SFval r - (SFval a + SFval b)) <= u * Rabs (SFval a + SFval b)).
Proof.
  intros Va Vb Na Nb. cbv zeta.
  destruct (SFfinite a) eqn:Fa, (SFfinite b) eqn:Fb.
  - destruct (@SFadd_finite a b Va Vb Fa Fb) as (_ & Hn & Hb & _).
    split; [now apply Hn|]. intros Hf. now repeat split; try apply Hb.
  - destruct a as [sa|sa| |sa ma ea], b as [[]|[]| |sb mb eb]; try discriminate;
      split; try reflexivity; discriminate.
  - destruct a as [[]|[]| |sa ma ea], b as [sb|sb| |sb mb eb]; try discriminate;
      split; try reflexivity; discriminate.
  - destruct a as [[]|[]| |sa ma ea], b as [[]|[]| |sb mb eb]; try discriminate;
      split; try reflexivity; discriminate.
Qed.

Lemma SFsub_from_finite a b :
  valid_binary a = true -> valid_binary b = true ->
  SFfinite a = true -> b <> S754_nan ->
  let r := SF64sub a b in
  r <> S754_nan /\
  (SFfinite r = true ->
   SFfinite b = true /\
   Rabs (SFval r - (SFval a - SFval b)) <= u * Rabs (SFval a - SFval b)).
Proof.
  intros Va Vb Fa Nb. cbv zeta. destruct (SFfinite b) eqn:Fb.
  - destruct (@SFsub_finite a b Va Vb Fa Fb) as (Hn & Hb & _).
    split; [exact Hn|]. intros Hf. split; [reflexivity|now apply Hb].
  - destruct a as [sa|sa| |sa ma ea], b as [sb|sb| |sb mb eb];
      try discriminate; try congruence; split; discriminate.
Qed.

(** The order of the floats is the order of their values. *)
Lemma canonical_lt m1 e1 m2 e2 s1 s2 :
  valid_binary (S754_finite s1 m1 e1) = true ->
  valid_binary (S754_finite s2 m2 e2) = true ->
  (e1 < e2)%Z -> IZR (Zpos m1) * p2 e1 < IZR (Zpos m2) * p2 e2.
Proof.
  intros V1 V2 Hlt.
  destruct (valid_finite _ _ _ V1) as (He1 & Hd1 & _).
  destruct (valid_finite _ _ _ V2) as (He2 & _ & Hd2).
  specialize (Hd2 ltac:(lia)).
  pose proof (IZR_pos_bounds m1) as [_ H1]. pose proof (IZR_pos_bounds m2) as [H2 _].
  rewrite Hd2 in H2. change (53 - 1)%Z with 52%Z in H2.
  pose proof (@p2_le (Zpos (digits2_pos m1)) 53 Hd1) as H3.
  pose proof (p2_pos e1) as Hp1. pose proof (p2_pos e2) as Hp2.
  pose proof (@p2_le (53 + e1) (52 + e2) ltac:(lia)) as H4.
  rewrite !p2_add in H4.
  assert (IZR (Zpos m1) * p2 e1 < p2 53 * p2 e1) by (apply Rmult_lt_compat_r; lra).
  assert (p2 52 * p2 e2 <= IZR (Zpos m2) * p2 e2) by (apply Rmult_le_compat_r; lra).
  lra.
Qed.

Lemma SFleb_val a b :
  valid_binary a = true -> valid_binary b = true ->
  SFfinite a = true -> SFfinite b = true ->
  SFleb a b = true -> SFval a <= SFval b.
Proof.
  intros Va Vb Fa Fb. unfold SFleb.
  destruct a as [sa|sa| |sa ma ea], b as [sb|sb| |sb mb eb]; try discriminate.
  - simpl. lra.
  - destruct (SFval_finite_sign sb mb eb) as [Hp Hn].
    cbn [SFcompare SFval] in *. destruct sb; [discriminate|].
    intros _. pose proof (proj2 Hp eq_refl). lra.
  - destruct (SFval_finite_sign sa ma ea) as [Hp Hn].
    cbn [SFcompare SFval] in *. destruct sa; [|discriminate].
    intros _. pose proof (proj2 Hn eq_refl). lra.
  - destruct (SFval_finite_sign sa ma ea) as [Hpa Hna].
    destruct (SFval_finite_sign sb mb eb) as [Hpb Hnb].
    pose proof (p2_pos ea) as Hea. pose proof (p2_pos eb) as Heb.
    cbn [SFcompare]. destruct sa, sb.
    + destruct (Z.compare_spec ea eb) as [E|Hlt|Hgt].
      * change (Pos.compare_cont Eq ma mb) with (Pos.compare ma mb).
        subst eb. cbn [SFval cond_Zopp].
        change (- Zpos ma)%Z with (Z.opp (Zpos ma)).
        change (- Zpos mb)%Z with (Z.opp (Zpos mb)). rewrite !opp_IZR.
        destruct (Pos.compare_spec ma mb) as [E|H|H]; cbn [CompOpp];
          try discriminate; intros _.
        -- subst. lra.
        -- assert (IZR (Zpos mb) < IZR (Zpos ma)) by (apply IZR_lt; lia). nra.
      * discriminate.
      * intros _. pose proof (@canonical_lt mb eb ma ea true true Vb Va Hgt) as H.
        cbn [SFval cond_Zopp].
        change (- Zpos ma)%Z with (Z.opp (Zpos ma)).
        change (- Zpos mb)%Z with (Z.opp (Zpos mb)). rewrite !opp_IZR. lra.
    + intros _. pose proof (proj2 Hna eq_refl). pose proof (proj2 Hpb eq_refl). lra.
    + discriminate.
    + destruct (Z.compare_spec ea eb) as [E|Hlt|Hgt].
      * change (Pos.compare_cont Eq ma mb) with (Pos.compare ma mb).
        subst eb. cbn [SFval cond_Zopp].
        destruct (Pos.compare_spec ma mb) as [E|H|H]; try discriminate; intros _.
        -- subst. lra.
        -- assert (IZR (Zpos ma) < IZR (Zpos mb)) by (apply IZR_lt; lia). nra.
      * intros _. pose proof (@canonical_lt ma ea mb eb false false Va Vb Hlt) as H.
        cbn [SFval cond_Zopp]. lra.
      * discriminate.
Qed.

(** Quotients. *)
Lemma new_location_located m2 q r :
  (0 <= r < m2)%Z ->
  located (IZR q + IZR r / IZR m2) q (new_location m2 r).
Proof.
  intros Hr. assert (HM : 0 < IZR m2) by (apply IZR_lt; lia).
  set (x := IZR r / IZR m2).
  assert (Ex : x * IZR m2 = IZR r) by (unfold x; field; lra).
  assert (H0 : 0 <= IZR r) by (apply IZR_le; lia).
  assert (H1 : IZR r < IZR m2) by (apply IZR_lt; lia).
  assert (Hx0 : 0 <= x) by (destruct (Rle_dec 0 x); [assumption|exfalso; nra]).
  unfold new_location.
  destruct (Z.even m2) eqn:Ev; unfold new_location_even, new_location_odd;
    (destruct (Z.eqb_spec r 0) as [E0|Hne];
     [assert (x = 0) by (unfold x; rewrite E0; lra); simpl; lra|]).
  - assert (Hr1 : 1 <= IZR r) by (apply IZR_le; lia).
    assert (Hx1 : 0 < x) by nra.
    assert (Hx2 : x < 1) by nra.
    destruct (Z.compare_spec (2 * r) m2) as [E|Hlt|Hgt]; cbn [located].
    + apply (f_equal IZR) in E. rewrite mult_IZR in E.
        assert (x = / 2) by (apply Rmult_eq_reg_r with (IZR m2); lra). lra.
    + apply IZR_lt in Hlt. rewrite mult_IZR in Hlt.
        assert (x < / 2) by nra. lra.
    + apply IZR_lt in Hgt. rewrite mult_IZR in Hgt.
        assert (/ 2 < x) by nra. lra.
  - assert (Hr1 : 1 <= IZR r) by (apply IZR_le; lia).
    assert (Hx1 : 0 < x) by nra.
    assert (Hx2 : x < 1) by nra.
    apply (f_equal negb) in Ev. rewrite Z.negb_even in Ev.
      apply Z.odd_spec in Ev as [j Ej].
      destruct (Z.compare_spec (2 * r + 1) m2) as [E|Hlt|Hgt]; cbn [located].
    + assert (Hlt : (2 * r < m2)%Z) by lia.
        apply IZR_lt in Hlt. rewrite mult_IZR in Hlt.
        assert (x < / 2) by nra. lra.
    + assert (Hlt' : (2 * r < m2)%Z) by lia.
        apply IZR_lt in Hlt'. rewrite mult_IZR in Hlt'.
        assert (x < / 2) by nra. lra.
    + assert (Hgt' : (m2 < 2 * r)%Z) by lia.
        apply IZR_lt in Hgt'. rewrite mult_IZR in Hgt'.
        assert (/ 2 < x) by nra. lra.
Qed.

Lemma SFdiv_core_spec m1 e1 m2 e2 :
  let X := IZR (Zpos m1) * p2 e1 / (IZR (Zpos m2) * p2 e2) in
  let D := (Zpos (digits2_pos m1) + e1 - (Zpos (digits2_pos m2) + e2))%Z in
  exists q e' l t,
    SFdiv_core_binary prec emax (Zpos m1) e1 (Zpos m2) e2 = (q, e', l) /\
    (0 <= q)%Z /\ located t q l /\ IZR q <= t < IZR q + 1 /\
    t * p2 e' = X /\ p2 (D - 1) < X /\ (e' <= Z.max (D - 53) (-1074))%Z.
Proof.
  intros X D. unfold SFdiv_core_binary. cbn [Zdigits2]. fold D.
  rewrite fexp_eq.
  set (e' := Z.min (Z.max (D - 53) (-1074)) (e1 - e2)).
  set (s := (e1 - e2 - e')%Z).
  assert (Hs : (0 <= s)%Z) by (unfold s, e'; lia).
  set (m' := match s with
             | 0%Z => Zpos m1
             | Zpos _ => Z.shiftl (Zpos m1) s
             | Zneg _ => 0%Z
             end).
  assert (Em' : m' = (Zpos m1 * 2 ^ s)%Z).
  { unfold m'. destruct s as [|p|p] eqn:Es; try lia.
    apply Z.shiftl_mul_pow2. lia. }
  pose proof (Z_div_mod m' (Zpos m2) ltac:(lia)) as Hdiv.
  destruct (Z.div_eucl m' (Zpos m2)) as [q r]. destruct Hdiv as [Eq Hr].
  assert (H2s : (0 < 2 ^ s)%Z) by (apply Z.pow_pos_nonneg; lia).
  assert (Hq : (0 <= q)%Z) by nia.
  exists q, e', (new_location (Zpos m2) r), (IZR q + IZR r / IZR (Zpos m2)).
  assert (HM2 : 0 < IZR (Zpos m2)) by (apply IZR_lt; lia).
  assert (HM1 : 0 < IZR (Zpos m1)) by (apply IZR_lt; lia).
  pose proof (p2_pos e1) as Hp1. pose proof (p2_pos e2) as Hp2.
  pose proof (p2_pos e') as Hp'.
  set (x := IZR r / IZR (Zpos m2)).
  assert (Ex : x * IZR (Zpos m2) = IZR r) by (unfold x; field; lra).
  assert (H0 : 0 <= IZR r) by (apply IZR_le; lia).
  assert (H1 : IZR r < IZR (Zpos m2)) by (apply IZR_lt; lia).
  assert (Hx0 : 0 <= x) by (destruct (Rle_dec 0 x); [assumption|exfalso; nra]).
  assert (Hx1 : x < 1) by nra.
  split; [reflexivity|]. split; [exact Hq|].
  split; [apply new_location_located; exact Hr|]. split; [lra|].
  split.
  - unfold X.
    assert (Ep : p2 e1 = p2 s * p2 e' * p2 e2).
    { rewrite <- !p2_add. f_equal. unfold s. lia. }
    assert (Em : IZR (Zpos m1) * p2 s = IZR (Zpos m2) * IZR q + IZR r).
    { rewrite p2_IZR by lia. rewrite <- mult_IZR, <- Em', Eq, plus_IZR, mult_IZR.
      reflexivity. }
    apply Rmult_eq_reg_r with (IZR (Zpos m2) * p2 e2); [|nra].
    replace (IZR (Zpos m1) * p2 e1 / (IZR (Zpos m2) * p2 e2) * (IZR (Zpos m2) * p2 e2))
      with (IZR (Zpos m1) * p2 e1) by (field; lra).
    transitivity ((IZR (Zpos m2) * IZR q + x * IZR (Zpos m2)) * p2 e' * p2 e2);
      [ring|]. rewrite Ex, <- Em, Ep. ring.
  - split; [|unfold e'; lia].
    pose proof (IZR_pos_bounds m1) as [Hlo1 _].
    pose proof (IZR_pos_bounds m2) as [_ Hhi2].
    set (d1 := Zpos (digits2_pos m1)) in *. set (d2 := Zpos (digits2_pos m2)) in *.
    assert (Ed : p2 (d1 - 1 + e1) = p2 (D - 1) * p2 (d2 + e2)).
    { rewrite <- p2_add. f_equal. unfold D. lia. }
    rewrite !p2_add in Ed.
    pose proof (p2_pos (D - 1)) as HpD. pose proof (p2_pos d2) as Hpd2.
    pose proof (p2_pos (d1 - 1)) as Hpd1.
    unfold X. apply Rmult_lt_reg_r with (IZR (Zpos m2) * p2 e2); [nra|].
    replace (IZR (Zpos m1) * p2 e1 / (IZR (Zpos m2) * p2 e2) * (IZR (Zpos m2) * p2 e2))
      with (IZR (Zpos m1) * p2 e1) by (field; lra).
    assert (p2 (D - 1) * (IZR (Zpos m2) * p2 e2) < p2 (D - 1) * (p2 d2 * p2 e2)).
    { apply Rmult_lt_compat_l; [lra|]. apply Rmult_lt_compat_r; lra. }
    assert (p2 (d1 - 1) * p2 e1 <= IZR (Zpos m1) * p2 e1)
      by (apply Rmult_le_compat_r; lra).
    lra.
Qed.

Lemma div_round_bound t q e' D X :
  (0 <= q)%Z -> IZR q <= t < IZR q + 1 -> t * p2 e' = X ->
  p2 (D - 1) < X -> (e' <= Z.max (D - 53) (-1074))%Z ->
  let e1 := Z.max e' (Z.max (Zdigits2 q + e' - 53) (-1074)) in
  p2 (e1 - 1) <= u * X \/ p2 (e1 - 1) <= eta.
Proof.
  intros Hq Ht EX HX He' e1.
  destruct (Z_le_dec e1 (-1074)) as [Hle|Hgt];
    [right; apply p2_le; lia|left].
  pose proof (p2_pos e') as Hpe.
  assert (Hdq : (0 < q)%Z /\ e1 = (Zdigits2 q + e' - 53)%Z).
  { destruct (Z_le_dec e' (-1074)) as [Hs|Hn].
    - assert (53 < Zdigits2 q)%Z by (unfold e1 in *; lia).
      split; [|unfold e1 in *; lia]. destruct q; simpl in *; lia.
    - assert (Hle : (e' + 52 <= D - 1)%Z) by lia.
      apply p2_le in Hle. rewrite p2_add in Hle.
      assert (H52 : p2 52 < t) by nra.
      rewrite p2_IZR in H52 by lia.
      assert (Hq52 : (2 ^ 52 < q + 1)%Z).
      { apply lt_IZR. rewrite plus_IZR. lra. }
      assert (Hq0 : (0 < q)%Z) by lia.
      destruct (@Zdigits2_nonneg_bounds q Hq0) as [[_ Hhi] _].
      assert (52 < Zdigits2 q)%Z.
      { apply pow2_lt_inv; [destruct q; simpl; lia|lia]. }
      split; [exact Hq0|unfold e1 in *; lia]. }
  destruct Hdq as [Hq0 Ee]. rewrite Ee.
  destruct q as [|p|p]; try lia. cbn [Zdigits2] in *.
  pose proof (IZR_pos_bounds p) as [Hlo _].
  replace (Zpos (digits2_pos p) + e' - 53 - 1)%Z
    with (-53 + ((Zpos (digits2_pos p) - 1) + e'))%Z by lia.
  rewrite !p2_add. fold u. rewrite <- EX. pose proof u_pos.
  apply Rmult_le_compat_l; [lra|].
  apply Rmult_le_compat_r; lra.
Qed.

Lemma SFdiv_finite a b :
  valid_binary a = true -> valid_binary b = true ->
  SFfinite a = true -> SFfinite b = true -> SFval b <> 0 ->
  let r := SF64div a b in
  r <> S754_nan /\
  (SFfinite r = true ->
   Rabs (SFval r - SFval a / SFval b) <= u * Rabs (SFval a / SFval b) + eta) /\
  (Rabs (SFval a / SFval b) < p2 971 -> SFfinite r = true).
Proof.
  intros Va Vb Fa Fb Hb. cbv zeta. pose proof u_pos as Hu. pose proof eta_pos as He.
  destruct a as [sa|sa| |sa ma ea], b as [sb|sb| |sb mb eb];
    try discriminate; unfold SF64div; cbn [SFdiv];
    try (exfalso; apply Hb; reflexivity).
  - split; [discriminate|]. split; [|reflexivity]. intros _.
    change (SFval (S754_zero (xorb sa sb))) with 0.
    change (SFval (S754_zero sa)) with 0.
    unfold Rdiv. rewrite Rmult_0_l, Rminus_0_r, Rabs_R0. lra.
  - destruct (SFdiv_core_spec ma ea mb eb)
      as (q & e' & l & t & -> & Hq & Hl & Ht & EX & HX & He').
    pose proof (@binary_round_aux_spec (xorb sa sb) q e' l t Hq Hl) as H.
    pose proof (@div_round_bound t q e' _ _ Hq Ht EX HX He') as Hbound.
    cbv zeta in H, Hbound. rewrite fexp_eq in H. rewrite EX in H.
    set (X := IZR (Zpos ma) * p2 ea / (IZR (Zpos mb) * p2 eb)) in *.
    assert (HX0 : 0 < X).
    { pose proof (p2_pos (Zpos (digits2_pos ma) + ea
                          - (Zpos (digits2_pos mb) + eb) - 1)). lra. }
    assert (Equo : SFval (S754_finite sa ma ea) / SFval (S754_finite sb mb eb)
                   = IZR (cond_Zopp (xorb sa sb) 1) * X).
    { cbn [SFval]. unfold X. pose proof (p2_pos eb).
      assert (0 < IZR (Zpos mb)) by (apply IZR_lt; lia).
      destruct sa, sb; cbn [cond_Zopp xorb];
        change (- Zpos ma)%Z with (Z.opp (Zpos ma));
        change (- Zpos mb)%Z with (Z.opp (Zpos mb));
        change (- (1))%Z with (Z.opp 1); rewrite ?opp_IZR; field; lra. }
    rewrite Equo.
    assert (Eabs : Rabs (IZR (cond_Zopp (xorb sa sb) 1) * X) = X).
    { destruct (xorb sa sb); cbn [cond_Zopp].
      - change (- (1))%Z with (Z.opp 1). rewrite opp_IZR.
        replace (- (1) * X) with (- X) by ring.
        rewrite Rabs_Ropp. apply Rabs_pos_eq. lra.
      - rewrite Rmult_1_l. apply Rabs_pos_eq. lra. }
    rewrite Eabs.
    destruct (binary_round_aux prec emax (xorb sa sb) q e' l)
      as [s|s| |s m e]; try contradiction.
    + split; [discriminate|]. split; [|reflexivity]. intros _.
      destruct H as [_ H].
      rewrite Rabs_pos_eq in H by lra.
      change (SFval (S754_zero s)) with 0. unfold Rminus. rewrite Rplus_0_l.
      rewrite Rabs_Ropp, Eabs. nra.
    + destruct H as [_ H971]. split; [discriminate|].
      split; [discriminate|intros Hlt; exfalso; lra].
    + split; [discriminate|]. split; [|reflexivity]. intros _.
      destruct H as (-> & _ & H & _).
      cbn [SFval].
      replace (IZR (cond_Zopp (xorb sa sb) (Zpos m)) * p2 e
               - IZR (cond_Zopp (xorb sa sb) 1) * X)
        with (IZR (cond_Zopp (xorb sa sb) 1) * (IZR (Zpos m) * p2 e - X)).
      * rewrite Rabs_mult.
        replace (Rabs (IZR (cond_Zopp (xorb sa sb) 1))) with 1.
        -- rewrite Rmult_1_l. nra.
        -- destruct (xorb sa sb); cbn [cond_Zopp].
           ++ change (- (1))%Z with (Z.opp 1). rewrite opp_IZR, Rabs_Ropp.
              symmetry. apply Rabs_pos_eq. lra.
           ++ symmetry. apply Rabs_pos_eq. lra.
      * destruct (xorb sa sb); cbn [cond_Zopp].
        -- change (- (1))%Z with (Z.opp 1).
           change (- Zpos m)%Z with (Z.opp (Zpos m)). rewrite !opp_IZR. ring.
        -- ring.
Qed.

Lemma SFadd_from_finite a b :
  valid_binary a = true -> valid_binary b = true ->
  SFfinite a = true -> b <> S754_nan ->
  let r := SF64add a b in
  r <> S754_nan /\
  (SFfinite r = true ->
   SFfinite b = true /\
   Rabs (SFval r - (SFval a + SFval b)) <= u * Rabs (SFval a + SFval b)).
Proof.
  intros Va Vb Fa Nb. cbv zeta. destruct (SFfinite b) eqn:Fb.
  - destruct (@SFadd_finite a b Va Vb Fa Fb) as (Hn & _ & Hb & _).
    split; [exact Hn|]. intros Hf. split; [reflexivity|now apply Hb].
  - destruct a as [sa|sa| |sa ma ea], b as [sb|sb| |sb mb eb];
      try discriminate; try congruence; split; discriminate.
Qed.

Lemma SFdiv_by_finite a b :
  valid_binary a = true -> valid_binary b = true ->
  a <> S754_nan -> SFfinite b = true -> SFval b <> 0 ->
  let r := SF64div a b in
  r <> S754_nan /\
  (SFfinite r = true ->
   SFfinite a = true /\
   Rabs (SFval r - SFval a / SFval b) <= u * Rabs (SFval a / SFval b) + eta).
Proof.
  intros Va Vb Na Fb Hb. cbv zeta. destruct (SFfinite a) eqn:Fa.
  - destruct (@SFdiv_finite a b Va Vb Fa Fb Hb) as (Hn & Hr & _).
    split; [exact Hn|]. intros Hf. split; [reflexivity|now apply Hr].
  - destruct a as [sa|sa| |sa ma ea], b as [sb|sb| |sb mb eb];
      try discriminate; try congruence; try (exfalso; apply Hb; reflexivity);
      split; discriminate.
Qed.

Lemma SFeqb_refl f : f <> S754_nan -> SFeqb f f = true.
Proof.
  intros Hf. pose proof (@SFleb_refl f Hf) as H. unfold SFleb, SFeqb in *.
  destruct f as [s|s| |s m e]; try congruence; try (now destruct s).
  cbn [SFcompare] in *. rewrite Z.compare_refl.
  change (Pos.compare_cont Eq m m) with (Pos.compare m m).
  rewrite Pos.compare_refl. now destruct s.
Qed.
End RoundingFacts.

(** ** The bounding sphere (claim C7)

    In binary64, as CPython computes it.  The power [** 0.5] of the second
    loop is that of the platform, a parameter [pow] of which only
    [faithful_root] is assumed, on the sums the loop forms. *)

Module BoundingSphereFacts.
Import node_writer RoundingFacts.
Local Open Scope R_scope.

(** The real number a float stands for. *)
Definition val (x : float) : R := SFval (Prim2SF x).

(** Not a NaN. *)
Definition number (x : float) : Prop := Prim2SF x <> S754_nan.

Lemma is_finite_SF x : PrimFloat.is_finite x = SFfinite (Prim2SF x).
Proof.
  unfold is_finite, is_nan, is_infinity. rewrite !eqb_spec, abs_spec.
  change (Prim2SF infinity) with (S754_infinity false).
  destruct (Prim2SF x) as [s|s| |s m e] eqn:E; try reflexivity.
  - now destruct s.
  - rewrite SFeqb_refl by discriminate. reflexivity.
Qed.

Lemma finite_number x : PrimFloat.is_finite x = true -> number x.
Proof. rewrite is_finite_SF. unfold number. now destruct (Prim2SF x). Qed.

Lemma ltb_leb a b : PrimFloat.ltb a b = true -> PrimFloat.leb a b = true.
Proof. rewrite ltb_spec, leb_spec. apply SFltb_leb. Qed.

Lemma not_ltb_leb a b :
  number a -> number b -> PrimFloat.ltb a b = false -> PrimFloat.leb b a = true.
Proof. rewrite ltb_spec, leb_spec. apply SFltb_false_leb. Qed.

Lemma leb_refl a : number a -> PrimFloat.leb a a = true.
Proof. rewrite leb_spec. apply SFleb_refl. Qed.

Lemma leb_trans a b c :
  PrimFloat.leb a b = true -> PrimFloat.leb b c = true -> PrimFloat.leb a c = true.
Proof. rewrite !leb_spec. apply SFleb_trans. Qed.

Lemma leb_val a b :
  PrimFloat.is_finite a = true -> PrimFloat.is_finite b = true ->
  PrimFloat.leb a b = true -> val a <= val b.
Proof.
  rewrite !is_finite_SF, leb_spec. intros Fa Fb.
  apply SFleb_val; try assumption; apply Prim2SF_valid.
Qed.

(** The running maximum and minimum of the loops. *)
Definition highest (m x : float) : float := if PrimFloat.ltb m x then x else m.
Definition lowest (m x : float) : float := if PrimFloat.ltb x m then x else m.

Lemma fold_highest xs : forall m0,
  Forall number xs -> number m0 ->
  let m := fold_left highest xs m0 in
  number m /\ (m = m0 \/ In m xs) /\ PrimFloat.leb m0 m = true /\
  forall x, In x xs -> PrimFloat.leb x m = true.
Proof.
  induction xs as [|x xs IH]; intros m0 Hxs Hm0; cbn [fold_left].
  - split; [exact Hm0|]. split; [now left|]. split; [now apply leb_refl|].
    intros x [].
  - inversion Hxs as [|? ? Hx Hxs']; subst.
    assert (H1 : number (highest m0 x) /\
                 (highest m0 x = m0 \/ highest m0 x = x) /\
                 PrimFloat.leb m0 (highest m0 x) = true /\
                 PrimFloat.leb x (highest m0 x) = true).
    { unfold highest. destruct (PrimFloat.ltb m0 x) eqn:E.
      - split; [exact Hx|]. split; [now right|].
        split; [now apply ltb_leb|now apply leb_refl].
      - split; [exact Hm0|]. split; [now left|].
        split; [now apply leb_refl|now apply not_ltb_leb]. }
    destruct H1 as (N1 & E1 & L0 & Lx).
    destruct (IH (highest m0 x) Hxs' N1) as (N & Hin & L1 & Hall).
    split; [exact N|]. split; [|split].
    + destruct Hin as [->|Hin]; [|right; now right].
      destruct E1 as [->| ->]; [now left|right; now left].
    + eapply leb_trans; eassumption.
    + intros y [<-|Hy]; [eapply leb_trans; eassumption|now apply Hall].
Qed.

Lemma fold_lowest xs : forall m0,
  Forall number xs -> number m0 ->
  let m := fold_left lowest xs m0 in
  number m /\ (m = m0 \/ In m xs) /\ PrimFloat.leb m m0 = true /\
  forall x, In x xs -> PrimFloat.leb m x = true.
Proof.
  induction xs as [|x xs IH]; intros m0 Hxs Hm0; cbn [fold_left].
  - split; [exact Hm0|]. split; [now left|]. split; [now apply leb_refl|].
    intros x [].
  - inversion Hxs as [|? ? Hx Hxs']; subst.
    assert (H1 : number (lowest m0 x) /\
                 (lowest m0 x = m0 \/ lowest m0 x = x) /\
                 PrimFloat.leb (lowest m0 x) m0 = true /\
                 PrimFloat.leb (lowest m0 x) x = true).
    { unfold lowest. destruct (PrimFloat.ltb x m0) eqn:E.
      - split; [exact Hx|]. split; [now right|].
        split; [now apply ltb_leb|now apply leb_refl].
      - split; [exact Hm0|]. split; [now left|].
        split; [now apply leb_refl|now apply not_ltb_leb]. }
    destruct H1 as (N1 & E1 & L0 & Lx).
    destruct (IH (lowest m0 x) Hxs' N1) as (N & Hin & L1 & Hall).
    split; [exact N|]. split; [|split].
    + destruct Hin as [->|Hin]; [|right; now right].
      destruct E1 as [->| ->]; [now left|right; now left].
    + eapply leb_trans; eassumption.
    + intros y [<-|Hy]; [eapply leb_trans; eassumption|now apply Hall].
Qed.

(** The operations, on floats. *)
Lemma sub_facts a c :
  PrimFloat.is_finite a = true -> number c ->
  number (a - c)%float /\
  (PrimFloat.is_finite (a - c)%float = true ->
   PrimFloat.is_finite c = true /\
   Rabs (val (a - c)%float - (val a - val c)) <= u * Rabs (val a - val c)).
Proof.
  unfold number, val. rewrite !is_finite_SF, sub_spec. intros Fa Nc.
  apply SFsub_from_finite; try assumption; apply Prim2SF_valid.
Qed.

Lemma add_facts a b :
  PrimFloat.is_finite a = true -> number b ->
  number (a + b)%float /\
  (PrimFloat.is_finite (a + b)%float = true ->
   PrimFloat.is_finite b = true /\
   Rabs (val (a + b)%float - (val a + val b)) <= u * Rabs (val a + val b)).
Proof.
  unfold number, val. rewrite !is_finite_SF, add_spec. intros Fa Nb.
  apply SFadd_from_finite; try assumption; apply Prim2SF_valid.
Qed.

Lemma add_nonneg_facts a b :
  SFnonneg (Prim2SF a) = true -> SFnonneg (Prim2SF b) = true ->
  SFnonneg (Prim2SF (a + b)%float) = true /\
  (PrimFloat.is_finite (a + b)%float = true ->
   PrimFloat.is_finite a = true /\ PrimFloat.is_finite b = true /\
   Rabs (val (a + b)%float - (val a + val b)) <= u * Rabs (val a + val b)).
Proof.
  unfold val. rewrite !is_finite_SF, add_spec. intros Na Nb.
  apply SFadd_nonneg; try assumption; apply Prim2SF_valid.
Qed.

Lemma square_facts d :
  number d ->
  SFnonneg (Prim2SF (d * d)%float) = true /\
  (PrimFloat.is_finite (d * d)%float = true ->
   PrimFloat.is_finite d = true /\
   Rabs (val (d * d)%float - val d * val d) <= u * (val d * val d) + eta).
Proof.
  unfold number, val. rewrite !is_finite_SF, mul_spec. intros Nd.
  destruct (@SFsquare (Prim2SF d) Nd) as (Hn & Hb & _). now split.
Qed.

(** No overflow below [2^971]. *)
Lemma sub_small a c :
  PrimFloat.is_finite a = true -> PrimFloat.is_finite c = true ->
  Rabs (val a - val c) < p2 971 -> PrimFloat.is_finite (a - c)%float = true.
Proof.
  unfold val. rewrite !is_finite_SF, sub_spec. intros Fa Fc.
  apply SFsub_finite; try assumption; apply Prim2SF_valid.
Qed.

Lemma add_small a b :
  PrimFloat.is_finite a = true -> PrimFloat.is_finite b = true ->
  Rabs (val a + val b) < p2 971 -> PrimFloat.is_finite (a + b)%float = true.
Proof.
  unfold val. rewrite !is_finite_SF, add_spec. intros Fa Fb.
  apply SFadd_finite; try assumption; apply Prim2SF_valid.
Qed.

Lemma square_small d :
  PrimFloat.is_finite d = true -> val d * val d < p2 971 ->
  PrimFloat.is_finite (d * d)%float = true.
Proof.
  unfold val. rewrite !is_finite_SF, mul_spec. intros Fd.
  apply SFsquare; [|exact Fd]. intros E. now rewrite E in Fd.
Qed.

Lemma half_facts a :
  number a ->
  number (a / 2)%float /\
  (PrimFloat.is_finite (a / 2)%float = true ->
   PrimFloat.is_finite a = true /\
   Rabs (val (a / 2)%float - val a / 2) <= u * Rabs (val a / 2) + eta).
Proof.
  unfold number, val. rewrite !is_finite_SF, div_spec. intros Na.
  assert (E2 : SFval (Prim2SF 2) = 2).
  { change (Prim2SF 2) with (S754_finite false 4503599627370496 (-51)).
    cbn [SFval cond_Zopp].
    change 4503599627370496%Z with (2 ^ 52)%Z. rewrite <- p2_IZR by lia.
    rewrite <- p2_add. change (52 + -51)%Z with (0 + 1)%Z.
    rewrite p2_succ, p2_0. lra. }
  rewrite <- E2 at 1 2.
  apply SFdiv_by_finite; try assumption; try apply Prim2SF_valid;
    [reflexivity|rewrite E2; lra].
Qed.

Lemma half_small a :
  PrimFloat.is_finite a = true -> Rabs (val a / 2) < p2 971 ->
  PrimFloat.is_finite (a / 2)%float = true.
Proof.
  unfold val. rewrite !is_finite_SF, div_spec. intros Fa.
  assert (E2 : SFval (Prim2SF 2) = 2).
  { change (Prim2SF 2) with (S754_finite false 4503599627370496 (-51)).
    cbn [SFval cond_Zopp].
    change 4503599627370496%Z with (2 ^ 52)%Z. rewrite <- p2_IZR by lia.
    rewrite <- p2_add. change (52 + -51)%Z with (0 + 1)%Z.
    rewrite p2_succ, p2_0. lra. }
  rewrite <- E2 at 1.
  apply SFdiv_finite; try assumption; try apply Prim2SF_valid;
    [reflexivity|rewrite E2; lra].
Qed.

Lemma nonneg_number x : SFnonneg (Prim2SF x) = true -> number x.
Proof. unfold number. now destruct (Prim2SF x). Qed.

Lemma nonneg_val x : SFnonneg (Prim2SF x) = true -> 0 <= val x.
Proof. apply SFnonneg_val. Qed.

(** Numerals for the constants. *)
Lemma p2_neg n : (0 <= n)%Z -> p2 (- n) = / IZR (2 ^ n).
Proof.
  intros Hn. rewrite <- p2_IZR by assumption.
  apply Rmult_eq_reg_r with (p2 n); [|pose proof (p2_pos n); lra].
  rewrite <- p2_add, Rinv_l by (pose proof (p2_pos n); lra).
  replace (- n + n)%Z with 0%Z by lia. reflexivity.
Qed.

Lemma u_eq : u = / 9007199254740992.
Proof.
  unfold u. change (p2 (-53)) with (p2 (Z.opp 53)).
  now rewrite p2_neg by lia.
Qed.

Lemma p2_m50 : p2 (-50) = / 1125899906842624.
Proof. change (-50)%Z with (Z.opp 50). now rewrite p2_neg by lia. Qed.

Lemma p2_m49 : p2 (-49) = / 562949953421312.
Proof. change (-49)%Z with (Z.opp 49). now rewrite p2_neg by lia. Qed.

Lemma p2_m52 : p2 (-52) = / 4503599627370496.
Proof. change (-52)%Z with (Z.opp 52). now rewrite p2_neg by lia. Qed.

Lemma p2_m1074 : p2 (-1074) = 2 * eta.
Proof. unfold eta. rewrite <- p2_succ. reflexivity. Qed.

Lemma p2_m536 : p2 (-536) * p2 (-536) = 8 * eta.
Proof.
  rewrite <- p2_add. unfold eta.
  replace (-536 + -536)%Z with (((-1075 + 1) + 1) + 1)%Z by lia.
  rewrite !p2_succ. ring.
Qed.

(** The midpoint, as it is computed. *)
Definition middle (lo hi : float) : float := (lo + (hi - lo) / 2)%float.

Lemma middle_facts lo hi :
  PrimFloat.is_finite lo = true -> PrimFloat.is_finite hi = true ->
  number (middle lo hi) /\
  (PrimFloat.is_finite (middle lo hi) = true ->
   Rabs (val (middle lo hi) - (val lo + val hi) / 2)
   <= p2 (-52) * (Rabs (val lo) + Rabs (val hi)) + p2 (-1074)).
Proof.
  intros Flo Fhi. unfold middle.
  destruct (@sub_facts hi lo Fhi (@finite_number lo Flo)) as [N0 H0].
  destruct (@half_facts _ N0) as [N1 H1].
  destruct (@add_facts lo _ Flo N1) as [N2 H2].
  split; [exact N2|]. intros F2.
  destruct (H2 F2) as [F1 B2]. destruct (H1 F1) as [F0 B1].
  destruct (H0 F0) as [_ B0].
  rewrite p2_m52, p2_m1074. rewrite u_eq in *. pose proof eta_pos.
  set (w0 := val (hi - lo)%float) in *. set (w := val ((hi - lo) / 2)%float) in *.
  set (c := val (lo + (hi - lo) / 2)%float) in *.
  set (l := val lo) in *. set (h := val hi) in *.
  clearbody w0 w c l h. clear - B0 B1 B2 H.
  unfold Rabs in *.
  repeat match goal with
         | H : context [Rcase_abs ?x] |- _ => destruct (Rcase_abs x)
         | |- context [Rcase_abs ?x] => destruct (Rcase_abs x)
         end; lra.
Qed.

(** The sum [dx * dx + dy * dy + dz * dz] of the second loop. *)
Definition sum_of_squares (c : float * float * float) (v : UvVertex float)
  : float :=
  let '(c0, c1, c2) := c in
  let '(co0, co1, co2) := co v in
  let dx := (co0 - c0)%float in
  let dy := (co1 - c1)%float in
  let dz := (co2 - c2)%float in
  (dx * dx + dy * dy + dz * dz)%float.

Definition finite3 (p : float * float * float) : bool :=
  let '(x, y, z) := p in
  PrimFloat.is_finite x && PrimFloat.is_finite y && PrimFloat.is_finite z.

(** Points of space, and the distance between them. *)
Definition point : Type := (R * R * R)%type.

Definition position (p : float * float * float) : point :=
  let '(x, y, z) := p in (val x, val y, val z).

Definition sq_distance (p c : point) : R :=
  let '(x, y, z) := p in
  let '(a, b, c) := c in
  (x - a) * (x - a) + (y - b) * (y - b) + (z - c) * (z - c).

Definition distance (p c : point) : R := sqrt (sq_distance p c).

Lemma sq_distance_nonneg p c : 0 <= sq_distance p c.
Proof.
  destruct p as [[x y] z], c as [[a b] c]. unfold sq_distance.
  pose proof (Rle_0_sqr (x - a)). pose proof (Rle_0_sqr (y - b)).
  pose proof (Rle_0_sqr (z - c)). unfold Rsqr in *. lra.
Qed.

Lemma near_square d D :
  Rabs (d - D) <= u * Rabs D ->
  (1 - u) * (1 - u) * (D * D) <= d * d <= (1 + u) * (1 + u) * (D * D).
Proof.
  intros H. pose proof u_pos as Hu.
  assert (Hu1 : u < 1) by (rewrite u_eq; lra).
  unfold Rabs in H. destruct (Rcase_abs (d - D)), (Rcase_abs D).
  - assert (0 <= (D * (1 - u) - d) * (- d - D * (1 - u)))
      by (apply Rmult_le_pos; nra).
    assert (0 <= (d - D * (1 + u)) * (- d - D * (1 + u)))
      by (apply Rmult_le_pos; nra).
    split; nra.
  - assert (0 <= (d - D * (1 - u)) * (d + D * (1 - u)))
      by (apply Rmult_le_pos; nra).
    assert (0 <= (D * (1 + u) - d) * (d + D * (1 + u)))
      by (apply Rmult_le_pos; nra).
    split; nra.
  - assert (0 <= (D * (1 - u) - d) * (- d - D * (1 - u)))
      by (apply Rmult_le_pos; nra).
    assert (0 <= (d - D * (1 + u)) * (- d - D * (1 + u)))
      by (apply Rmult_le_pos; nra).
    split; nra.
  - assert (0 <= (d - D * (1 - u)) * (d + D * (1 - u)))
      by (apply Rmult_le_pos; nra).
    assert (0 <= (D * (1 + u) - d) * (d + D * (1 + u)))
      by (apply Rmult_le_pos; nra).
    split; nra.
Qed.

(** One term of the sum. *)
Lemma square_of_difference a c :
  PrimFloat.is_finite a = true -> number c ->
  let q := ((a - c) * (a - c))%float in
  let A := (val a - val c) * (val a - val c) in
  SFnonneg (Prim2SF q) = true /\
  (PrimFloat.is_finite q = true ->
   PrimFloat.is_finite c = true /\
   (1 - p2 (-50) / 2) * A - eta <= val q <= (1 + p2 (-50) / 2) * A + eta).
Proof.
  intros Fa Nc q A.
  destruct (@sub_facts a c Fa Nc) as [Nd Hd].
  destruct (@square_facts _ Nd) as [Nq Hq].
  split; [exact Nq|]. intros Fq.
  destruct (Hq Fq) as [Fd Bq]. destruct (Hd Fd) as [Fc Bd].
  split; [exact Fc|].
  apply near_square in Bd. fold A in Bd. fold q in Bq.
  assert (HA : 0 <= A) by (exact (Rle_0_sqr _)).
  set (d2 := val (a - c)%float * val (a - c)%float) in *.
  assert (Hd2 : 0 <= d2) by (exact (Rle_0_sqr _)).
  rewrite p2_m50. rewrite u_eq in *. pose proof eta_pos.
  clearbody d2 A. unfold Rabs in Bq. destruct (Rcase_abs (val q - d2)); lra.
Qed.

Lemma sum_of_squares_facts c v :
  finite3 (co v) = true ->
  (let '(c0, c1, c2) := c in number c0 /\ number c1 /\ number c2) ->
  let s := sum_of_squares c v in
  let A := sq_distance (position (co v)) (position c) in
  SFnonneg (Prim2SF s) = true /\
  (PrimFloat.is_finite s = true ->
   finite3 c = true /\
   (1 - p2 (-50)) * A - 4 * eta <= val s <= (1 + p2 (-50)) * A + 4 * eta).
Proof.
  unfold sum_of_squares, finite3, position, sq_distance.
  destruct c as [[c0 c1] c2], (co v) as [[x y] z].
  intros Hco (N0 & N1 & N2). cbv zeta.
  apply andb_prop in Hco as [Hco Fz]. apply andb_prop in Hco as [Fx Fy].
  destruct (@square_of_difference x c0 Fx N0) as [Nqx Hqx].
  destruct (@square_of_difference y c1 Fy N1) as [Nqy Hqy].
  destruct (@square_of_difference z c2 Fz N2) as [Nqz Hqz].
  cbv zeta in Hqx, Hqy, Hqz.
  destruct (@add_nonneg_facts _ _ Nqx Nqy) as [Nt Ht].
  destruct (@add_nonneg_facts _ _ Nt Nqz) as [Ns Hs].
  split; [exact Ns|]. intros Fs.
  destruct (Hs Fs) as (Ft & Fqz & Bs). destruct (Ht Ft) as (Fqx & Fqy & Bt).
  destruct (Hqx Fqx) as [F0 Bx]. destruct (Hqy Fqy) as [F1 By].
  destruct (Hqz Fqz) as [F2 Bz].
  split; [now rewrite F0, F1, F2|].
  pose proof (nonneg_val _ Nqx) as Px. pose proof (nonneg_val _ Nqy) as Py.
  pose proof (nonneg_val _ Nqz) as Pz. pose proof (nonneg_val _ Nt) as Pt.
  set (Ax := (val x - val c0) * (val x - val c0)) in *.
  set (Ay := (val y - val c1) * (val y - val c1)) in *.
  set (Az := (val z - val c2) * (val z - val c2)) in *.
  assert (0 <= Ax) by (exact (Rle_0_sqr _)).
  assert (0 <= Ay) by (exact (Rle_0_sqr _)).
  assert (0 <= Az) by (exact (Rle_0_sqr _)).
  set (qx := val ((x - c0) * (x - c0))%float) in *.
  set (qy := val ((y - c1) * (y - c1))%float) in *.
  set (qz := val ((z - c2) * (z - c2))%float) in *.
  set (t := val ((x - c0) * (x - c0) + (y - c1) * (y - c1))%float) in *.
  set (s := val ((x - c0) * (x - c0) + (y - c1) * (y - c1)
                 + (z - c2) * (z - c2))%float) in *.
  rewrite p2_m50 in *. rewrite u_eq in *. pose proof eta_pos.
  clearbody Ax Ay Az qx qy qz t s.
  rewrite (Rabs_pos_eq (qx + qy)) in Bt by lra.
  rewrite (Rabs_pos_eq (t + qz)) in Bs by lra.
  unfold Rabs in Bt, Bs.
  destruct (Rcase_abs (t - (qx + qy))), (Rcase_abs (s - (t + qz))); lra.
Qed.

(** What the power [0.5] of the platform has to satisfy on a sum [s]:
    the root of plus infinity is plus infinity; that of a finite sum is
    finite and not negative, and its square is within a relative
    [2^-50] of the sum, as it is when the root is accurate to one unit
    in the last place. *)
Definition faithful_root (pow : float -> float -> float) (s : float) : Prop :=
  let r := pow s 0.5%float in
  match Prim2SF s with
  | S754_infinity false => Prim2SF r = S754_infinity false
  | S754_zero _ | S754_finite false _ _ =>
      PrimFloat.is_finite r = true /\ SFnonneg (Prim2SF r) = true /\
      (1 - p2 (-50)) * val s <= val r * val r <= (1 + p2 (-50)) * val s
  | _ => True
  end.

Lemma p2_m48 : p2 (-48) = / 281474976710656.
Proof. change (-48)%Z with (Z.opp 48). now rewrite p2_neg by lia. Qed.

Lemma nonneg_cases x :
  SFnonneg (Prim2SF x) = true ->
  PrimFloat.is_finite x = true \/ Prim2SF x = S754_infinity false.
Proof.
  rewrite is_finite_SF. destruct (Prim2SF x) as [s|[]| |s m e]; simpl;
    intros H; try discriminate; auto.
Qed.

Lemma leb_zero_nonneg r :
  PrimFloat.leb 0 r = true -> SFnonneg (Prim2SF r) = true.
Proof.
  rewrite leb_spec. change (Prim2SF 0) with (S754_zero false).
  unfold SFleb. destruct (Prim2SF r) as [s|[]| |[] m e]; simpl;
    intros H; try discriminate; reflexivity.
Qed.

Lemma leb_finite d r :
  SFnonneg (Prim2SF d) = true -> PrimFloat.is_finite r = true ->
  PrimFloat.leb d r = true -> PrimFloat.is_finite d = true.
Proof.
  rewrite !is_finite_SF, leb_spec. unfold SFleb.
  destruct (Prim2SF d) as [s|[]| |s m e], (Prim2SF r) as [s'|s'| |s' m' e'];
    simpl; intros; try discriminate; reflexivity.
Qed.

(** The distance the second loop computes for a vertex. *)
Lemma dist_facts pow c v :
  finite3 (co v) = true ->
  (let '(c0, c1, c2) := c in number c0 /\ number c1 /\ number c2) ->
  faithful_root pow (sum_of_squares c v) ->
  let d := pow (sum_of_squares c v) 0.5%float in
  let A := sq_distance (position (co v)) (position c) in
  SFnonneg (Prim2SF d) = true /\
  (PrimFloat.is_finite d = true ->
   finite3 c = true /\
   A <= (1 + p2 (-48)) * (val d * val d) + 8 * eta /\
   val d * val d <= (1 + p2 (-48)) * A + 8 * eta).
Proof.
  intros Hco Hc Hroot d A.
  destruct (@sum_of_squares_facts c v Hco Hc) as [Ns Hs]. cbv zeta in Hs.
  fold A in Hs. unfold faithful_root in Hroot. cbv zeta in Hroot. fold d in Hroot.
  pose proof (sq_distance_nonneg (position (co v)) (position c)) as HA.
  fold A in HA.
  assert (Hcases :
    Prim2SF d = S754_infinity false \/
    PrimFloat.is_finite (sum_of_squares c v) = true /\
    PrimFloat.is_finite d = true /\ SFnonneg (Prim2SF d) = true /\
    (1 - p2 (-50)) * val (sum_of_squares c v) <= val d * val d
      <= (1 + p2 (-50)) * val (sum_of_squares c v)).
  { rewrite (is_finite_SF (sum_of_squares c v)).
    destruct (Prim2SF (sum_of_squares c v)) as [s|[]| |[] m e];
      try discriminate; auto. }
  destruct Hcases as [E|(Fs & Fd & Nd & Bd)].
  - split; [now rewrite E|]. rewrite is_finite_SF, E. discriminate.
  - split; [exact Nd|]. intros _. destruct (Hs Fs) as [Fc Bs].
    split; [exact Fc|].
    rewrite p2_m50 in *. rewrite p2_m48. pose proof eta_pos.
    set (s := val (sum_of_squares c v)) in *. set (d2 := val d * val d) in *.
    clearbody s d2 A. split; lra.
Qed.

Lemma root_bound x y :
  0 <= x -> 0 <= y ->
  x * x <= (1 + p2 (-48)) * (y * y) + 8 * eta ->
  x <= y * (1 + p2 (-49)) + p2 (-536).
Proof.
  intros Hx Hy H. pose proof p2_m536 as E. pose proof (p2_pos (-536)) as Hp.
  rewrite p2_m48 in H. rewrite p2_m49.
  set (p := p2 (-536)) in *. clearbody p.
  set (z := y * (1 + / 562949953421312) + p).
  assert (Hz : 0 <= z) by (unfold z; nra).
  assert (Hzz : (1 + / 281474976710656) * (y * y) + 8 * eta <= z * z).
  { unfold z. rewrite <- E. nra. }
  destruct (Rle_dec x z) as [|Hgt]; [assumption|exfalso].
  assert (z < x) by lra. nra.
Qed.

(** The coordinates. *)
Definition cx (v : UvVertex float) : float := fst (fst (co v)).
Definition cy (v : UvVertex float) : float := snd (fst (co v)).
Definition cz (v : UvVertex float) : float := snd (co v).

(** The least and the greatest of a list of floats. *)
Definition least (m : float) (xs : list float) : Prop :=
  In m xs /\ forall x, In x xs -> val m <= val x.
Definition greatest (m : float) (xs : list float) : Prop :=
  In m xs /\ forall x, In x xs -> val x <= val m.

Lemma finite_numbers xs :
  Forall (fun x => PrimFloat.is_finite x = true) xs -> Forall number xs.
Proof. apply Forall_impl. intros x. apply finite_number. Qed.

Lemma highest_greatest xs :
  xs <> [] -> Forall (fun x => PrimFloat.is_finite x = true) xs ->
  greatest (fold_left highest xs neg_infinity) xs.
Proof.
  intros Hne Hfin. destruct xs as [|x xs]; [congruence|].
  inversion Hfin as [|? ? Fx Fxs]; subst. cbn [fold_left].
  assert (E : highest neg_infinity x = x).
  { unfold highest. rewrite ltb_spec. rewrite is_finite_SF in Fx.
    change (Prim2SF neg_infinity) with (S754_infinity true).
    now destruct (Prim2SF x). }
  rewrite E.
  destruct (@fold_highest xs x (finite_numbers Fxs) (@finite_number x Fx))
    as (_ & Hin & L0 & Hall). cbv zeta in *.
  set (m := fold_left highest xs x) in *.
  assert (Fm : PrimFloat.is_finite m = true).
  { destruct Hin as [->|Hin]; [exact Fx|].
    rewrite Forall_forall in Fxs. now apply Fxs. }
  split.
  - destruct Hin as [->|Hin]; [now left|now right].
  - intros y [<-|Hy]; apply leb_val; try assumption.
    + rewrite Forall_forall in Fxs. now apply Fxs.
    + now apply Hall.
Qed.

Lemma lowest_least xs :
  xs <> [] -> Forall (fun x => PrimFloat.is_finite x = true) xs ->
  least (fold_left lowest xs infinity) xs.
Proof.
  intros Hne Hfin. destruct xs as [|x xs]; [congruence|].
  inversion Hfin as [|? ? Fx Fxs]; subst. cbn [fold_left].
  assert (E : lowest infinity x = x).
  { unfold lowest. rewrite ltb_spec. rewrite is_finite_SF in Fx.
    change (Prim2SF infinity) with (S754_infinity false).
    now destruct (Prim2SF x) as [|[]| |]. }
  rewrite E.
  destruct (@fold_lowest xs x (finite_numbers Fxs) (@finite_number x Fx))
    as (_ & Hin & L0 & Hall). cbv zeta in *.
  set (m := fold_left lowest xs x) in *.
  assert (Fm : PrimFloat.is_finite m = true).
  { destruct Hin as [->|Hin]; [exact Fx|].
    rewrite Forall_forall in Fxs. now apply Fxs. }
  split.
  - destruct Hin as [->|Hin]; [now left|now right].
  - intros y [<-|Hy]; apply leb_val; try assumption.
    + rewrite Forall_forall in Fxs. now apply Fxs.
    + now apply Hall.
Qed.

Lemma greatest_finite m xs :
  greatest m xs -> Forall (fun x => PrimFloat.is_finite x = true) xs ->
  PrimFloat.is_finite m = true.
Proof. intros [Hin _] H. rewrite Forall_forall in H. now apply H. Qed.

Lemma least_finite m xs :
  least m xs -> Forall (fun x => PrimFloat.is_finite x = true) xs ->
  PrimFloat.is_finite m = true.
Proof. intros [Hin _] H. rewrite Forall_forall in H. now apply H. Qed.

(** The loops of [_write_bounding_sphere], coordinate by coordinate. *)
Section Platform.
Variable pow : float -> float -> float.
Let platform : Scalar float := float_scalar_with pow.

Lemma bounds_fold vs : forall hx hy hz lx ly lz,
  fold_left (@bounds_step float platform) vs (hx, hy, hz, lx, ly, lz)
  = (fold_left highest (map cx vs) hx, fold_left highest (map cy vs) hy,
     fold_left highest (map cz vs) hz, fold_left lowest (map cx vs) lx,
     fold_left lowest (map cy vs) ly, fold_left lowest (map cz vs) lz).
Proof.
  induction vs as [|v vs IH]; intros; cbn [fold_left map]; [reflexivity|].
  rewrite <- IH. f_equal. unfold bounds_step, cx, cy, cz.
  destruct (co v) as [[x y] z]. reflexivity.
Qed.

Lemma sphere_center_of_eq vs :
  @sphere_center_of float platform vs
  = (middle (fold_left lowest (map cx vs) infinity)
            (fold_left highest (map cx vs) neg_infinity),
     middle (fold_left lowest (map cy vs) infinity)
            (fold_left highest (map cy vs) neg_infinity),
     middle (fold_left lowest (map cz vs) infinity)
            (fold_left highest (map cz vs) neg_infinity)).
Proof.
  unfold sphere_center_of, bounds.
  change (@fopp float platform (@finf float platform)) with neg_infinity.
  change (@finf float platform) with infinity.
  rewrite bounds_fold. reflexivity.
Qed.

Lemma dist_to_eq c v :
  @dist_to float platform c v = pow (sum_of_squares c v) 0.5%float.
Proof.
  unfold dist_to, sum_of_squares. destruct c as [[c0 c1] c2].
  destruct (co v) as [[x y] z]. reflexivity.
Qed.

Lemma sphere_radius_of_eq c vs :
  @sphere_radius_of float platform c vs
  = fold_left highest (map (fun v => pow (sum_of_squares c v) 0.5%float) vs)
              0%float.
Proof.
  unfold sphere_radius_of. change (@fzero float platform) with 0%float.
  generalize 0%float. induction vs as [|v vs IH]; intros r; cbn [fold_left map];
    [reflexivity|].
  rewrite IH, dist_to_eq. reflexivity.
Qed.
End Platform.

(** Coordinates of at most [2^400] in absolute value: nothing overflows. *)
Definition moderate (x : float) : Prop := Rabs (val x) <= p2 400.

Definition moderate3 (p : float * float * float) : Prop :=
  let '(x, y, z) := p in moderate x /\ moderate y /\ moderate z.

Lemma moderate_facts :
  1 <= p2 400 /\ p2 400 <= p2 400 * p2 400 /\
  1024 * (p2 400 * p2 400) <= p2 971 /\ eta <= 1.
Proof.
  pose proof (@p2_le 0 400 ltac:(lia)) as H1. rewrite p2_0 in H1.
  pose proof (@p2_le (10 + 800) 971 ltac:(lia)) as H2.
  replace (10 + 800)%Z with (10 + (400 + 400))%Z in H2 by lia.
  rewrite !p2_add in H2.
  assert (E7 : p2 10 = 1024) by (unfold p2; simpl; lra). rewrite E7 in H2.
  pose proof (@p2_le (-1075) 0 ltac:(lia)) as H3. rewrite p2_0 in H3.
  fold eta in H3. repeat split; try assumption; nra.
Qed.

Lemma middle_moderate lo hi :
  PrimFloat.is_finite lo = true -> PrimFloat.is_finite hi = true ->
  moderate lo -> moderate hi ->
  PrimFloat.is_finite (middle lo hi) = true /\
  Rabs (val (middle lo hi)) <= 5 * p2 400.
Proof.
  unfold moderate, middle. intros Flo Fhi Mlo Mhi.
  destruct moderate_facts as (K1 & K2 & K971 & Heta).
  pose proof eta_pos as He. set (K := p2 400) in *.
  apply Rabs_le_inv in Mlo, Mhi.
  assert (F0 : PrimFloat.is_finite (hi - lo)%float = true).
  { apply sub_small; try assumption. apply Rabs_def1; nra. }
  destruct (@sub_facts hi lo Fhi (@finite_number lo Flo)) as [N0 H0].
  destruct (H0 F0) as [_ B0].
  assert (B0' : Rabs (val (hi - lo)%float) <= 3 * K).
  { rewrite u_eq in B0. unfold Rabs in *.
    repeat match goal with
           | H : context [Rcase_abs ?x] |- _ => destruct (Rcase_abs x)
           | |- context [Rcase_abs ?x] => destruct (Rcase_abs x)
           end; lra. }
  apply Rabs_le_inv in B0'.
  assert (F1 : PrimFloat.is_finite ((hi - lo) / 2)%float = true).
  { apply half_small; [exact F0|]. apply Rabs_def1; nra. }
  destruct (@half_facts _ N0) as [N1 H1]. destruct (H1 F1) as [_ B1].
  assert (B1' : Rabs (val ((hi - lo) / 2)%float) <= 3 * K).
  { rewrite u_eq in B1. unfold Rabs in *.
    repeat match goal with
           | H : context [Rcase_abs ?x] |- _ => destruct (Rcase_abs x)
           | |- context [Rcase_abs ?x] => destruct (Rcase_abs x)
           end; lra. }
  apply Rabs_le_inv in B1'.
  assert (F2 : PrimFloat.is_finite (lo + (hi - lo) / 2)%float = true).
  { apply add_small; [exact Flo|exact F1|]. apply Rabs_def1; nra. }
  split; [exact F2|].
  destruct (@add_facts lo _ Flo N1) as [N2 H2]. destruct (H2 F2) as [_ B2].
  rewrite u_eq in *.
  set (w0 := val (hi - lo)%float) in *. set (w := val ((hi - lo) / 2)%float) in *.
  set (c := val (lo + (hi - lo) / 2)%float) in *.
  set (l := val lo) in *. set (h := val hi) in *.
  clearbody w0 w c l h K. clear - B0 B1 B2 He Heta K1 Mlo Mhi.
  unfold Rabs in *.
  repeat match goal with
         | H : context [Rcase_abs ?x] |- _ => destruct (Rcase_abs x)
         | |- context [Rcase_abs ?x] => destruct (Rcase_abs x)
         end; lra.
Qed.

Lemma square_of_difference_moderate a c :
  PrimFloat.is_finite a = true -> PrimFloat.is_finite c = true ->
  moderate a -> Rabs (val c) <= 5 * p2 400 ->
  let q := ((a - c) * (a - c))%float in
  PrimFloat.is_finite q = true /\ val q <= 51 * (p2 400 * p2 400).
Proof.
  intros Fa Fc Ma Mc q. unfold moderate in Ma.
  destruct moderate_facts as (K1 & K2 & K971 & Heta).
  pose proof eta_pos as He. set (K := p2 400) in *.
  apply Rabs_le_inv in Ma, Mc.
  assert (Fd : PrimFloat.is_finite (a - c)%float = true).
  { apply sub_small; try assumption. apply Rabs_def1; nra. }
  destruct (@sub_facts a c Fa (@finite_number c Fc)) as [Nd Hd].
  destruct (Hd Fd) as [_ Bd].
  assert (Bd' : Rabs (val (a - c)%float) <= 7 * K).
  { rewrite u_eq in Bd. unfold Rabs in *.
    repeat match goal with
           | H : context [Rcase_abs ?x] |- _ => destruct (Rcase_abs x)
           | |- context [Rcase_abs ?x] => destruct (Rcase_abs x)
           end; lra. }
  apply Rabs_le_inv in Bd'.
  assert (Hd2 : val (a - c)%float * val (a - c)%float <= 49 * (K * K)) by nra.
  assert (Fq : PrimFloat.is_finite q = true).
  { apply square_small; [exact Fd|]. lra. }
  split; [exact Fq|].
  destruct (@square_facts _ Nd) as [_ Hq]. destruct (Hq Fq) as [_ Bq].
  fold q in Bq. rewrite u_eq in Bq.
  assert (0 <= val (a - c)%float * val (a - c)%float) by (exact (Rle_0_sqr _)).
  set (d2 := val (a - c)%float * val (a - c)%float) in *. clearbody d2.
  unfold Rabs in Bq. destruct (Rcase_abs (val q - d2)); nra.
Qed.

Lemma sum_of_squares_moderate c v :
  finite3 (co v) = true -> moderate3 (co v) ->
  finite3 c = true ->
  (let '(c0, c1, c2) := c in
   Rabs (val c0) <= 5 * p2 400 /\ Rabs (val c1) <= 5 * p2 400 /\
   Rabs (val c2) <= 5 * p2 400) ->
  PrimFloat.is_finite (sum_of_squares c v) = true.
Proof.
  unfold sum_of_squares, finite3, moderate3.
  destruct c as [[c0 c1] c2], (co v) as [[x y] z].
  intros Hco (Mx & My & Mz) Hc (B0 & B1 & B2). cbv zeta.
  apply andb_prop in Hco as [Hco Fz]. apply andb_prop in Hco as [Fx Fy].
  apply andb_prop in Hc as [Hc F2]. apply andb_prop in Hc as [F0 F1].
  destruct (@square_of_difference_moderate x c0 Fx F0 Mx B0) as [Fqx Bx].
  destruct (@square_of_difference_moderate y c1 Fy F1 My B1) as [Fqy By].
  destruct (@square_of_difference_moderate z c2 Fz F2 Mz B2) as [Fqz Bz].
  cbv zeta in *.
  destruct moderate_facts as (K1 & K2 & K971 & Heta). set (K := p2 400) in *.
  destruct (@square_facts (x - c0)%float
              (proj1 (@sub_facts x c0 Fx (@finite_number c0 F0)))) as [Nqx _].
  destruct (@square_facts (y - c1)%float
              (proj1 (@sub_facts y c1 Fy (@finite_number c1 F1)))) as [Nqy _].
  destruct (@square_facts (z - c2)%float
              (proj1 (@sub_facts z c2 Fz (@finite_number c2 F2)))) as [Nqz _].
  pose proof (nonneg_val _ Nqx) as Px. pose proof (nonneg_val _ Nqy) as Py.
  pose proof (nonneg_val _ Nqz) as Pz.
  assert (Ft : PrimFloat.is_finite ((x - c0) * (x - c0) + (y - c1) * (y - c1))%float
               = true).
  { apply add_small; try assumption. rewrite Rabs_pos_eq by lra. lra. }
  destruct (@add_nonneg_facts _ _ Nqx Nqy) as [Nt Ht].
  destruct (Ht Ft) as (_ & _ & Bt). pose proof (nonneg_val _ Nt) as Pt.
  apply add_small; try assumption.
  rewrite u_eq in Bt.
  rewrite (Rabs_pos_eq (val ((x - c0) * (x - c0))%float
                        + val ((y - c1) * (y - c1))%float)) in Bt by lra.
  apply Rabs_le_inv in Bt. rewrite Rabs_pos_eq by lra. lra.
Qed.

(** How far the centre written is from the midpoint of [lo] and [hi]. *)
Definition near_middle (c lo hi : float) : Prop :=
  Rabs (val c - (val lo + val hi) / 2)
  <= p2 (-52) * (Rabs (val lo) + Rabs (val hi)) + p2 (-1074).

Lemma coordinates_moderate (vertices : list (UvVertex float)) :
  Forall (fun v => moderate3 (co v)) vertices ->
  Forall moderate (map cx vertices) /\ Forall moderate (map cy vertices) /\
  Forall moderate (map cz vertices).
Proof.
  intros H. repeat split; rewrite Forall_map; revert H; apply Forall_impl;
    intros v; unfold moderate3, cx, cy, cz; destruct (co v) as [[x y] z];
    cbn [fst snd]; tauto.
Qed.

Lemma faithful_root_finite pow s :
  faithful_root pow s -> SFnonneg (Prim2SF s) = true ->
  PrimFloat.is_finite s = true ->
  PrimFloat.is_finite (pow s 0.5%float) = true.
Proof.
  unfold faithful_root. cbv zeta. rewrite (is_finite_SF s).
  destruct (Prim2SF s) as [sg|sg| |[] m e]; try discriminate; tauto.
Qed.

Lemma coordinates_finite (vertices : list (UvVertex float)) :
  Forall (fun v => finite3 (co v) = true) vertices ->
  Forall (fun x => PrimFloat.is_finite x = true) (map cx vertices) /\
  Forall (fun x => PrimFloat.is_finite x = true) (map cy vertices) /\
  Forall (fun x => PrimFloat.is_finite x = true) (map cz vertices).
Proof.
  intros H. repeat split; rewrite Forall_map; revert H; apply Forall_impl;
    intros v; unfold finite3, cx, cy, cz; destruct (co v) as [[x y] z];
    cbn [fst snd]; intros Hv; apply andb_prop in Hv as [Hv Hz];
    apply andb_prop in Hv as [Hx Hy]; assumption.
Qed.

(** C7.  In binary64, for a record with at least one vertex, all at finite
    coordinates, on a platform whose power [0.5] is faithful on the sums
    of squares the second loop forms: the sphere written has for centre,
    coordinate by coordinate, [lo + (hi - lo) / 2] computed in floats,
    where [lo] and [hi] are the least and the greatest coordinate of the
    vertices, that is the corners of the axis-aligned bounding box; its
    radius is zero or one of the distances computed, and no distance
    computed is greater; it is finite when no coordinate exceeds [2^400]
    in absolute value.  Either the radius is plus infinity, or centre
    and radius are finite, the centre is within rounding of the midpoint
    of the box, every vertex is within [radius * (1 + 2^-49) + 2^-536] of
    the centre in exact arithmetic, and the radius is within the same
    margin of the exact distance to some vertex. *)
Theorem bounding_sphere `{MU : Mathutils float}
        (pow : float -> float -> float) (vertices : list (UvVertex float)) :
  vertices <> [] ->
  Forall (fun v => finite3 (co v) = true) vertices ->
  Forall (fun v =>
            faithful_root pow
              (sum_of_squares
                 (@sphere_center_of float (float_scalar_with pow) vertices) v))
         vertices ->
  exists lo_x lo_y lo_z hi_x hi_y hi_z center radius,
    written (@_write_bounding_sphere float (float_scalar_with pow) MU vertices)
    = [W_vector3 center; W_float radius] /\
    (least lo_x (map cx vertices) /\ greatest hi_x (map cx vertices) /\
     least lo_y (map cy vertices) /\ greatest hi_y (map cy vertices) /\
     least lo_z (map cz vertices) /\ greatest hi_z (map cz vertices)) /\
    center = (middle lo_x hi_x, middle lo_y hi_y, middle lo_z hi_z) /\
    (radius = 0%float \/
     In radius (map (fun v => pow (sum_of_squares center v) 0.5%float) vertices)) /\
    (forall v, In v vertices ->
               PrimFloat.leb (pow (sum_of_squares center v) 0.5%float) radius
               = true) /\
    (Forall (fun v => moderate3 (co v)) vertices ->
     PrimFloat.is_finite radius = true) /\
    (Prim2SF radius = S754_infinity false \/
     finite3 center = true /\ PrimFloat.is_finite radius = true /\
     (near_middle (middle lo_x hi_x) lo_x hi_x /\
      near_middle (middle lo_y hi_y) lo_y hi_y /\
      near_middle (middle lo_z hi_z) lo_z hi_z) /\
     (forall v, In v vertices ->
        distance (position (co v)) (position center)
        <= val radius * (1 + p2 (-49)) + p2 (-536)) /\
     (exists v, In v vertices /\
        val radius
        <= distance (position (co v)) (position center) * (1 + p2 (-49))
           + p2 (-536))).
Proof.
  intros Hne Hfin Hroot.
  destruct (coordinates_finite Hfin) as (Fx & Fy & Fz).
  assert (Nx : map cx vertices <> []) by (destruct vertices; [congruence|discriminate]).
  assert (Ny : map cy vertices <> []) by (destruct vertices; [congruence|discriminate]).
  assert (Nz : map cz vertices <> []) by (destruct vertices; [congruence|discriminate]).
  pose proof (lowest_least Nx Fx) as Lx. pose proof (highest_greatest Nx Fx) as Gx.
  pose proof (lowest_least Ny Fy) as Ly. pose proof (highest_greatest Ny Fy) as Gy.
  pose proof (lowest_least Nz Fz) as Lz. pose proof (highest_greatest Nz Fz) as Gz.
  rewrite sphere_center_of_eq in Hroot.
  set (lo_x := fold_left lowest (map cx vertices) infinity) in *.
  set (lo_y := fold_left lowest (map cy vertices) infinity) in *.
  set (lo_z := fold_left lowest (map cz vertices) infinity) in *.
  set (hi_x := fold_left highest (map cx vertices) neg_infinity) in *.
  set (hi_y := fold_left highest (map cy vertices) neg_infinity) in *.
  set (hi_z := fold_left highest (map cz vertices) neg_infinity) in *.
  set (center := (middle lo_x hi_x, middle lo_y hi_y, middle lo_z hi_z)) in *.
  destruct (@middle_facts lo_x hi_x (least_finite Lx Fx) (greatest_finite Gx Fx))
    as [Ncx Mx].
  destruct (@middle_facts lo_y hi_y (least_finite Ly Fy) (greatest_finite Gy Fy))
    as [Ncy My].
  destruct (@middle_facts lo_z hi_z (least_finite Lz Fz) (greatest_finite Gz Fz))
    as [Ncz Mz].
  assert (Nc : let '(c0, c1, c2) := center in number c0 /\ number c1 /\ number c2)
    by (unfold center; auto).
  set (dist := fun v => pow (sum_of_squares center v) 0.5%float).
  assert (Hd : forall v, In v vertices ->
             SFnonneg (Prim2SF (dist v)) = true /\
             (PrimFloat.is_finite (dist v) = true ->
              finite3 center = true /\
              sq_distance (position (co v)) (position center)
              <= (1 + p2 (-48)) * (val (dist v) * val (dist v)) + 8 * eta /\
              val (dist v) * val (dist v)
              <= (1 + p2 (-48)) * sq_distance (position (co v)) (position center)
                 + 8 * eta)).
  { intros v Hv. rewrite Forall_forall in Hfin, Hroot.
    exact (@dist_facts pow center v (Hfin v Hv) Nc (Hroot v Hv)). }
  assert (Ndists : Forall number (map dist vertices)).
  { rewrite Forall_map, Forall_forall. intros v Hv.
    apply nonneg_number. now apply Hd. }
  destruct (@fold_highest (map dist vertices) 0%float Ndists ltac:(discriminate))
    as (Nr & Hin & L0 & Hall). cbv zeta in *.
  set (radius := fold_left highest (map dist vertices) 0%float) in *.
  exists lo_x, lo_y, lo_z, hi_x, hi_y, hi_z, center, radius.
  split.
  { unfold _write_bounding_sphere. rewrite sphere_center_of_eq, sphere_radius_of_eq.
    reflexivity. }
  split; [tauto|]. split; [reflexivity|]. split; [exact Hin|].
  assert (Hle : forall v, In v vertices -> PrimFloat.leb (dist v) radius = true).
  { intros v Hv. apply Hall. now apply in_map. }
  split; [exact Hle|].
  split.
  { intros Hmod. destruct (coordinates_moderate Hmod) as (Mx' & My' & Mz').
    rewrite Forall_forall in Mx', My', Mz'.
    destruct (@middle_moderate lo_x hi_x (least_finite Lx Fx)
                (greatest_finite Gx Fx) (Mx' _ (proj1 Lx)) (Mx' _ (proj1 Gx)))
      as [Fcx Bcx].
    destruct (@middle_moderate lo_y hi_y (least_finite Ly Fy)
                (greatest_finite Gy Fy) (My' _ (proj1 Ly)) (My' _ (proj1 Gy)))
      as [Fcy Bcy].
    destruct (@middle_moderate lo_z hi_z (least_finite Lz Fz)
                (greatest_finite Gz Fz) (Mz' _ (proj1 Lz)) (Mz' _ (proj1 Gz)))
      as [Fcz Bcz].
    destruct Hin as [->|Hin]; [reflexivity|].
    apply in_map_iff in Hin as (v & <- & Hv).
    rewrite Forall_forall in Hfin, Hroot, Hmod. unfold dist.
    apply faithful_root_finite; [now apply Hroot| |].
    - now apply sum_of_squares_facts; [apply Hfin|].
    - apply sum_of_squares_moderate; [now apply Hfin|now apply Hmod| |].
      + unfold center, finite3. now rewrite Fcx, Fcy, Fcz.
      + unfold center. auto. }
  destruct (@nonneg_cases radius (leb_zero_nonneg L0)) as [Fr|Er]; [right|now left].
  assert (Hdv : forall v, In v vertices ->
            PrimFloat.is_finite (dist v) = true /\ 0 <= val (dist v) <= val radius).
  { intros v Hv. destruct (Hd v Hv) as [Nd _].
    pose proof (@leb_finite _ _ Nd Fr (Hle v Hv)) as Fd.
    split; [exact Fd|]. split; [now apply nonneg_val|].
    apply leb_val; auto. }
  destruct vertices as [|v0 rest] eqn:Ev; [congruence|]. rewrite <- Ev in *.
  assert (Hv0 : In v0 vertices) by (rewrite Ev; now left).
  assert (Fc : finite3 center = true).
  { destruct (Hdv v0 Hv0) as [Fd _]. now apply (Hd v0 Hv0). }
  split; [exact Fc|]. split; [exact Fr|].
  assert (Hr0 : 0 <= val radius) by (apply nonneg_val, leb_zero_nonneg, L0).
  split; [|split].
  - unfold center, finite3 in Fc. apply andb_prop in Fc as [Fc Fcz].
    apply andb_prop in Fc as [Fcx Fcy]. unfold near_middle. auto.
  - intros v Hv. destruct (Hdv v Hv) as [Fd [Hd0 Hdr]].
    destruct (Hd v Hv) as [_ Hb]. destruct (Hb Fd) as (_ & Hb1 & _).
    pose proof (sq_distance_nonneg (position (co v)) (position center)) as HA.
    unfold distance. apply root_bound; [apply sqrt_pos|exact Hr0|].
    rewrite sqrt_sqrt by exact HA.
    assert (val (dist v) * val (dist v) <= val radius * val radius) by nra.
    rewrite p2_m48 in *. lra.
  - destruct Hin as [E0|Hin].
    + exists v0. split; [exact Hv0|].
      assert (val radius = 0).
      { unfold val. rewrite E0. reflexivity. }
      pose proof (sqrt_pos (sq_distance (position (co v0)) (position center))).
      pose proof (p2_pos (-536)). pose proof (p2_pos (-49)).
      unfold distance. nra.
    + apply in_map_iff in Hin as (v & Ev' & Hv). exists v. split; [exact Hv|].
      destruct (Hdv v Hv) as [Fd _]. destruct (Hd v Hv) as [_ Hb].
      destruct (Hb Fd) as (_ & _ & Hb2). fold (dist v) in Ev'. rewrite Ev' in Hb2.
      pose proof (sq_distance_nonneg (position (co v)) (position center)) as HA.
      unfold distance. apply root_bound; [exact Hr0|apply sqrt_pos|].
      rewrite sqrt_sqrt by exact HA. exact Hb2.
Qed.

Lemma val_finite x s m e :
  Prim2SF x = S754_finite s m e -> val x = IZR (cond_Zopp s (Zpos m)) * p2 e.
Proof. unfold val. now intros ->. Qed.

(** The margin cannot be dropped: for the vertices [(0, 0, 0)] and
    [(2, 2^-29, 0)] the centre is [(1, 2^-30, 0)] and the sum of squares
    [1 + 2^-60] rounds to [1], so the radius written, [1], is below the
    distance of both vertices to the centre. *)
Lemma radius_below_distance :
  let vertices :=
    [mkUvVertex (0, 0, 0)%float (0, 1, 0)%float (0, 0)%float (1, 0, 0)%float;
     mkUvVertex (2, 0x1p-29, 0)%float (0, 1, 0)%float (0, 0)%float
                (1, 0, 0)%float] in
  written (@_write_bounding_sphere float (float_scalar_with Float64.pow)
             simple_mathutils vertices)
  = [W_vector3 (1, 0x1p-30, 0)%float; W_float 1%float] /\
  forall v, In v vertices ->
    val 1%float < distance (position (co v)) (position (1, 0x1p-30, 0)%float).
Proof.
  cbv zeta. split; [vm_compute; reflexivity|].
  assert (E0 : val 0%float = 0) by reflexivity.
  assert (E1 : val 1%float = 1).
  { rewrite (@val_finite 1%float false 4503599627370496 (-52) eq_refl).
    cbn [cond_Zopp]. change 4503599627370496%Z with (2 ^ 52)%Z.
    rewrite <- p2_IZR, <- p2_add by lia. reflexivity. }
  assert (E2 : val 2%float = 2).
  { rewrite (@val_finite 2%float false 4503599627370496 (-51) eq_refl).
    cbn [cond_Zopp]. change 4503599627370496%Z with (2 ^ 52)%Z.
    rewrite <- p2_IZR, <- p2_add by lia. change (52 + -51)%Z with (0 + 1)%Z.
    rewrite p2_succ, p2_0. lra. }
  assert (Ea : val 0x1p-29%float = 2 * val 0x1p-30%float).
  { rewrite (@val_finite 0x1p-29%float false 4503599627370496 (-81) eq_refl).
    rewrite (@val_finite 0x1p-30%float false 4503599627370496 (-82) eq_refl).
    change (-81)%Z with (-82 + 1)%Z. rewrite p2_succ. ring. }
  assert (Eb : 0 < val 0x1p-30%float).
  { rewrite (@val_finite 0x1p-30%float false 4503599627370496 (-82) eq_refl).
    apply Rmult_lt_0_compat; [apply IZR_lt; reflexivity|apply p2_pos]. }
  intros v [<-|[<-|[]]]; unfold distance, position, sq_distance; cbn [co];
    rewrite ?E0, ?E1, ?E2, ?Ea; rewrite <- sqrt_1 at 1;
    apply sqrt_lt_1_alt; nra.
Qed.
Lemma faithful_root_of_finite pow s m e m' e' :
  Prim2SF s = S754_finite false m e ->
  Prim2SF (pow s 0.5%float) = S754_finite false m' e' ->
  (1 - p2 (-50)) * (IZR (Zpos m) * p2 e)
  <= IZR (Zpos m') * p2 e' * (IZR (Zpos m') * p2 e')
  <= (1 + p2 (-50)) * (IZR (Zpos m) * p2 e) ->
  faithful_root pow s.
Proof.
  intros Es Er H. unfold faithful_root. cbv zeta. rewrite Es.
  rewrite is_finite_SF. unfold val. rewrite Er, Es.
  split; [reflexivity|]. split; [reflexivity|exact H].
Qed.

Lemma bounding_sphere_witness :
  let vertices :=
    [mkUvVertex (0, 0, 0)%float (0, 1, 0)%float (0, 0)%float (1, 0, 0)%float;
     mkUvVertex (2, 0, 0)%float (0, 1, 0)%float (0, 0)%float (1, 0, 0)%float] in
  vertices <> [] /\
  Forall (fun v => finite3 (co v) = true) vertices /\
  Forall (fun v =>
            faithful_root Float64.pow
              (sum_of_squares
                 (@sphere_center_of float (float_scalar_with Float64.pow) vertices)
                 v))
         vertices /\
  exists center radius,
    written (@_write_bounding_sphere float (float_scalar_with Float64.pow)
               simple_mathutils vertices)
    = [W_vector3 center; W_float radius] /\
    PrimFloat.is_finite radius = true /\
    forall v, In v vertices ->
      distance (position (co v)) (position center)
      <= val radius * (1 + p2 (-49)) + p2 (-536).
Proof.
  cbv zeta.
  assert (H1 : [mkUvVertex (0, 0, 0)%float (0, 1, 0)%float (0, 0)%float (1, 0, 0)%float;
                mkUvVertex (2, 0, 0)%float (0, 1, 0)%float (0, 0)%float (1, 0, 0)%float]
               <> []) by discriminate.
  assert (H2 : Forall (fun v => finite3 (co v) = true)
                 [mkUvVertex (0, 0, 0)%float (0, 1, 0)%float (0, 0)%float (1, 0, 0)%float;
                  mkUvVertex (2, 0, 0)%float (0, 1, 0)%float (0, 0)%float (1, 0, 0)%float])
    by (apply Forall_cons; [|apply Forall_cons; [|apply Forall_nil]];
        reflexivity).
  assert (H3 : Forall (fun v =>
            faithful_root Float64.pow
              (sum_of_squares
                 (@sphere_center_of float (float_scalar_with Float64.pow)
                    [mkUvVertex (0, 0, 0)%float (0, 1, 0)%float (0, 0)%float (1, 0, 0)%float;
                     mkUvVertex (2, 0, 0)%float (0, 1, 0)%float (0, 0)%float (1, 0, 0)%float])
                 v))
         [mkUvVertex (0, 0, 0)%float (0, 1, 0)%float (0, 0)%float (1, 0, 0)%float;
          mkUvVertex (2, 0, 0)%float (0, 1, 0)%float (0, 0)%float (1, 0, 0)%float]).
  { apply Forall_cons; [|apply Forall_cons; [|apply Forall_nil]];
      apply faithful_root_of_finite
        with (m := 4503599627370496%positive) (e := (-52)%Z)
             (m' := 4503599627370496%positive) (e' := (-52)%Z);
      try (vm_compute; reflexivity);
      rewrite p2_m52, p2_m50; lra. }
  split; [exact H1|]. split; [exact H2|]. split; [exact H3|].
  destruct (@bounding_sphere simple_mathutils Float64.pow _ H1 H2 H3)
    as (lo_x & lo_y & lo_z & hi_x & hi_y & hi_z & center & radius
        & Hw & _ & _ & _ & _ & _ & [Hinf|(_ & Fr & _ & Hall & _)]);
    exists center, radius; (split; [exact Hw|]).
  - exfalso. vm_compute in Hw. injection Hw as _ Er.
    rewrite <- Er in Hinf. discriminate.
  - split; [exact Fr|exact Hall].
Defined.
End BoundingSphereFacts.

(** ** The writer monad *)

Module WriterFacts.

Section Laws.
Context {T : Type}.

Lemma written_bind {A B} (m : M T A) (k : A -> M T B) :
  written (bind m k)
  = written m ++ match result m with
                 | Ok a => written (k a)
                 | Raise _ => []
                 end.
Proof.
  unfold bind. destruct (result m); simpl; [reflexivity|].
  now rewrite app_nil_r.
Qed.

Lemma warned_bind {A B} (m : M T A) (k : A -> M T B) :
  warned (bind m k)
  = warned m ++ match result m with
                | Ok a => warned (k a)
                | Raise _ => []
                end.
Proof.
  unfold bind. destruct (result m); simpl; [reflexivity|].
  now rewrite app_nil_r.
Qed.

Lemma result_bind {A B} (m : M T A) (k : A -> M T B) :
  result (bind m k)
  = match result m with
    | Ok a => result (k a)
    | Raise e => Raise e
    end.
Proof. unfold bind. now destruct (result m). Qed.

Lemma bind_ret {A B} (a : A) (k : A -> M T B) : bind (ret a) k = k a.
Proof. unfold bind. simpl. now destruct (k a). Qed.

Lemma bind_lift_Ok {A B} (a : A) (k : A -> M T B) : bind (lift (Ok a)) k = k a.
Proof. exact (bind_ret a k). Qed.

Lemma bind_lift_Raise {A B} e (k : A -> M T B) :
  bind (lift (Raise e)) k = raise e.
Proof. reflexivity. Qed.

(** A computation that ends in an exception. *)
Definition raises {A} (m : M T A) : Prop := exists e, result m = Raise e.

Lemma raises_bind_l {A B} (m : M T A) (k : A -> M T B) :
  raises m -> raises (bind m k).
Proof. intros [e He]. exists e. now rewrite result_bind, He. Qed.

Lemma raises_bind_r {A B} (m : M T A) (k : A -> M T B) :
  (forall a, raises (k a)) -> raises (bind m k).
Proof.
  intros Hk. unfold raises. rewrite result_bind.
  destruct (result m) as [a|e]; [apply Hk|eauto].
Qed.

(** A loop raises as soon as the body raises on one element. *)
Lemma for_each_raises {A} (body : A -> M T unit) (l : list A) x :
  In x l -> raises (body x) -> raises (for_each body l).
Proof.
  induction l as [|y l IH]; intros Hin Hx; [destruct Hin|].
  simpl. destruct Hin as [->|Hin].
  - now apply raises_bind_l.
  - apply raises_bind_r. intros _. now apply IH.
Qed.

Lemma for_each_ok {A} (body : A -> M T unit) (l : list A) :
  Forall (fun x => result (body x) = Ok tt) l ->
  result (for_each body l) = Ok tt /\
  written (for_each body l) = List.concat (map (fun x => written (body x)) l) /\
  warned (for_each body l) = List.concat (map (fun x => warned (body x)) l).
Proof.
  induction 1 as [|x l Hx _ (IHr & IHw & IHn)]; simpl; [auto|].
  rewrite result_bind, written_bind, warned_bind, Hx, IHr, IHw, IHn. auto.
Qed.

Lemma for_each_ext {A} (f g : A -> M T unit) (l : list A) :
  (forall x, In x l -> f x = g x) -> for_each f l = for_each g l.
Proof.
  induction l as [|x l IH]; intros Hfg; simpl; [reflexivity|].
  rewrite (Hfg x (or_introl eq_refl)). f_equal.
  rewrite IH; [reflexivity|]. intros y Hy. apply Hfg. now right.
Qed.
End Laws.
End WriterFacts.

(** ** Dictionaries with string keys *)

Module DictFacts.
Section StringKeys.
Variable V : Type.
Implicit Types (d : list (string * V)) (k : string) (v : V).

Lemma dict_get_set_same d k v :
  dict_get String.eqb (dict_set String.eqb d k v) k = Some v.
Proof.
  induction d as [|[k' v'] d IH]; simpl.
  - now rewrite String.eqb_refl.
  - destruct (String.eqb k' k) eqn:E; simpl; rewrite E; [reflexivity|exact IH].
Qed.

Lemma dict_get_set_other d k v k' :
  k' <> k ->
  dict_get String.eqb (dict_set String.eqb d k v) k' = dict_get String.eqb d k'.
Proof.
  intros Hne. induction d as [|[k0 v0] d IH]; simpl.
  - destruct (String.eqb_spec k k'); [congruence|reflexivity].
  - destruct (String.eqb_spec k0 k) as [->|Hk]; simpl.
    + destruct (String.eqb_spec k k'); [congruence|reflexivity].
    + destruct (String.eqb k0 k'); [reflexivity|exact IH].
Qed.

Lemma dict_get_None d k :
  dict_get String.eqb d k = None <-> ~ In k (map fst d).
Proof.
  induction d as [|[k' v'] d IH]; simpl; [tauto|].
  destruct (String.eqb_spec k' k) as [->|Hk].
  - split; [discriminate|]. intros Hn. exfalso. apply Hn. now left.
  - rewrite IH. tauto.
Qed.

Lemma dict_set_keys d k v :
  map fst (dict_set String.eqb d k v)
  = if dict_mem String.eqb d k then map fst d else map fst d ++ [k].
Proof.
  unfold dict_mem. induction d as [|[k' v'] d IH]; simpl; [reflexivity|].
  destruct (String.eqb k' k); simpl; [reflexivity|].
  rewrite IH. now destruct (dict_get String.eqb d k).
Qed.

Lemma dict_set_NoDup d k v :
  NoDup (map fst d) -> NoDup (map fst (dict_set String.eqb d k v)).
Proof.
  intros Hd. rewrite dict_set_keys. unfold dict_mem.
  destruct (dict_get String.eqb d k) eqn:E; [assumption|].
  apply dict_get_None in E.
  apply NoDup_app; [assumption|repeat constructor; intros []|].
  intros x Hx [<-|[]]. contradiction.
Qed.

Lemma dict_get_In_keys d k v : dict_get String.eqb d k = Some v -> In k (map fst d).
Proof.
  intros Hg. destruct (in_dec string_dec k (map fst d)) as [Hin|Hn]; [assumption|].
  apply dict_get_None in Hn. congruence.
Qed.
End StringKeys.

Lemma dict_get_map {V W} (f : V -> W) (d : list (string * V)) k :
  dict_get String.eqb (map (fun e => (fst e, f (snd e))) d) k
  = option_map f (dict_get String.eqb d k).
Proof.
  induction d as [|[k' v'] d IH]; simpl; [reflexivity|].
  now destruct (String.eqb k' k).
Qed.
End DictFacts.


(** ** Top-level objects and instance groups (claim C6) *)

Module GroupingFacts.
Import node_writer DictFacts.

Section Grouping.
Context {F : Type} `{Scalar F} `{Mathutils F}.
Variable context : Context F.

(** The name of the instance group an object belongs to by its name. *)
Definition group_name_of (obj : Object F) : option string :=
  match _get_kstree_group_name (name obj) with
  | Some (String c g) => Some (String c g)
  | _ => None
  end.

(** [obj] is written as a member of the group of key [k]. *)
Definition in_group (k : string) (obj : Object F) : bool :=
  is_top_level_exported context obj &&
  match group_name_of obj with
  | Some g => String.eqb (lower g) k
  | None => false
  end.

(** [obj] is written as an ordinary top-level object. *)
Definition is_regular (obj : Object F) : bool :=
  is_top_level_exported context obj &&
  match group_name_of obj with Some _ => false | None => true end.

Definition members (k : string) (objs : list (Object F)) : list (Object F) :=
  filter (in_group k) objs.

(** The entry of the group of key [k]: the group name as the first member
    spells it, and the members in scene order. *)
Definition group_entry (k : string) (objs : list (Object F))
  : option (string * list (Object F)) :=
  match members k objs with
  | [] => None
  | first :: _ =>
      Some (match group_name_of first with Some g => g | None => "" end,
            members k objs)
  end.

Definition table_of (done : list (Object F))
           (st : list (Object F) * list (string * (string * list (Object F))))
  : Prop :=
  fst st = filter is_regular done /\
  NoDup (map fst (snd st)) /\
  forall k, dict_get String.eqb (snd st) k = group_entry k done.

Lemma members_snoc k done obj :
  members k (done ++ [obj])
  = members k done ++ (if in_group k obj then [obj] else []).
Proof. unfold members. now rewrite filter_app. Qed.

Lemma group_entry_skip k done obj :
  in_group k obj = false -> group_entry k (done ++ [obj]) = group_entry k done.
Proof.
  intros Hk. unfold group_entry. rewrite members_snoc, Hk.
  now rewrite app_nil_r.
Qed.

Lemma collect_object_spec done st obj :
  table_of done st -> table_of (done ++ [obj]) (collect_object context st obj).
Proof.
  destruct st as [regular groups]. intros (Hreg & Hnd & Hget). simpl in *.
  unfold collect_object.
  destruct (is_top_level_exported context obj) eqn:Htop; simpl.
  2:{ split; [|split]; simpl.
      - rewrite filter_app. simpl. unfold is_regular at 2. rewrite Htop. simpl.
        now rewrite app_nil_r.
      - assumption.
      - intros k. rewrite group_entry_skip; [apply Hget|].
        unfold in_group. now rewrite Htop. }
  destruct (_get_kstree_group_name (name obj)) as [[|c g]|] eqn:Hname.
  - split; [|split]; simpl.
    + rewrite filter_app. simpl. unfold is_regular at 2, group_name_of.
      rewrite Htop, Hname. simpl. now rewrite Hreg.
    + assumption.
    + intros k. rewrite group_entry_skip; [apply Hget|].
      unfold in_group, group_name_of. rewrite Htop, Hname. reflexivity.
  - assert (Hin : forall k', in_group k' obj = String.eqb (lower (String c g)) k').
    { intros k'. unfold in_group, group_name_of. now rewrite Htop, Hname. }
    assert (Hnot : is_regular obj = false).
    { unfold is_regular, group_name_of. now rewrite Htop, Hname. }
    remember (lower (String c g)) as key eqn:Ekey.
    split; [|split]; cbn [fst snd].
    + rewrite filter_app. cbn [filter]. rewrite Hnot. now rewrite app_nil_r.
    + now apply dict_set_NoDup.
    + intros k.
      destruct (String.eqb_spec key k) as [<-|Hk].
      * rewrite dict_get_set_same, Hget.
        unfold group_entry. rewrite members_snoc, Hin, String.eqb_refl.
        destruct (members key done) as [|first rest].
        -- cbn [app fst snd]. unfold group_name_of. now rewrite Hname.
        -- reflexivity.
      * rewrite dict_get_set_other by congruence.
        rewrite group_entry_skip; [apply Hget|].
        rewrite Hin. now apply String.eqb_neq.
  - split; [|split]; simpl.
    + rewrite filter_app. simpl. unfold is_regular at 2, group_name_of.
      rewrite Htop, Hname. simpl. now rewrite Hreg.
    + assumption.
    + intros k. rewrite group_entry_skip; [apply Hget|].
      unfold in_group, group_name_of. rewrite Htop, Hname. reflexivity.
Qed.

Lemma collect_fold objs : forall done st,
  table_of done st ->
  table_of (done ++ objs) (fold_left (collect_object context) objs st).
Proof.
  induction objs as [|obj objs IH]; intros done st Hst; simpl.
  - now rewrite app_nil_r.
  - replace (done ++ obj :: objs) with ((done ++ [obj]) ++ objs)
      by (now rewrite <- app_assoc).
    apply IH. now apply collect_object_spec.
Qed.

Lemma members_nonempty k objs :
  members k objs <> [] <-> exists obj, In obj objs /\ in_group k obj = true.
Proof.
  unfold members. split.
  - destruct (filter (in_group k) objs) as [|obj rest] eqn:E; [congruence|].
    intros _. exists obj. apply filter_In. rewrite E. now left.
  - intros (obj & Hin & Hk) E.
    assert (Hf : In obj (filter (in_group k) objs)) by (apply filter_In; auto).
    now rewrite E in Hf.
Qed.

(** What [_collect_and_group_objects] returns, in terms of the scene. *)
Lemma _collect_and_group_objects_spec :
  let objs := blend_data_objects context in
  let collected := _collect_and_group_objects context in
  fst collected
  = sorted_by (fun k => List.length (children k)) Nat.leb (filter is_regular objs) /\
  NoDup (map fst (snd collected)) /\
  (forall k,
      dict_get String.eqb (snd collected) k
      = option_map (fun e => (fst e, sorted_by (@name F _) String.leb (snd e)))
                   (group_entry k objs)) /\
  (forall k, In k (map fst (snd collected))
             <-> exists obj, In obj objs /\ in_group k obj = true).
Proof.
  cbv zeta. unfold _collect_and_group_objects.
  pose proof (@collect_fold (blend_data_objects context) [] ([], [])) as Hfold.
  destruct (fold_left (collect_object context) (blend_data_objects context) ([], []))
    as [regular groups].
  destruct Hfold as (Hreg & Hnd & Hget).
  { split; [reflexivity|]. split; [constructor|]. reflexivity. }
  cbn [fst snd app] in *.
  pose (f := fun v : string * list (Object F) =>
               (fst v, sorted_by (@name F _) String.leb (snd v))).
  assert (Emap : map (fun entry : string * (string * list (Object F)) =>
                        let '(group_key, (original_case, objects)) := entry in
                        (group_key,
                         (original_case, sorted_by (@name F _) String.leb objects)))
                     groups
                 = map (fun e => (fst e, f (snd e))) groups).
  { apply map_ext. now intros [k [nm objs]]. }
  rewrite Emap.
  assert (Ekeys : map fst (map (fun e : string * (string * list (Object F)) =>
                                 (fst e, f (snd e))) groups)
                  = map fst groups).
  { rewrite map_map. now apply map_ext. }
  rewrite Ekeys.
  split; [now rewrite Hreg|]. split; [assumption|]. split.
  - intros k. now rewrite dict_get_map, Hget.
  - intros k. rewrite <- members_nonempty.
    specialize (Hget k). unfold group_entry in Hget. split.
    + intros Hin E. rewrite E in Hget.
      apply dict_get_None in Hget. contradiction.
    + intros Hne. destruct (members k (blend_data_objects context)) eqn:E;
        [congruence|].
      eapply dict_get_In_keys. exact Hget.
Qed.
End Grouping.
End GroupingFacts.

Module RootNodeFacts.
Import node_writer DictFacts GroupingFacts WriterFacts PyFacts.

Section Root.
Context {F : Type} `{Scalar F} `{Mathutils F}.
Variable context : Context F.
Variable material_writer : MaterialWriter F.
Variable node_settings : list (NodeSettings F).

(** A group without a mesh object writes nothing. *)
Lemma group_without_mesh_objects group_name (objects : list (Object F)) :
  filter (fun obj => String.eqb (type obj) "MESH") objects = [] ->
  _write_kstree_group material_writer group_name objects = ret tt.
Proof. intros E. unfold _write_kstree_group. now rewrite E. Qed.

Lemma passes_without_data {S} (pass : Object F -> S -> list (list (UvVertex F) * list nat * nat) -> S)
      (objs : list (Object F)) (st : S) :
  (forall obj st, pass obj st [] = st) ->
  Forall (fun obj => _extract_tree_mesh_data material_writer obj = Ok []) objs ->
  ofold (fun st obj =>
           mesh_data <~ _extract_tree_mesh_data material_writer obj;;
           Ok (pass obj st mesh_data)) objs st = Ok st.
Proof.
  intros Hpass. induction 1 as [|obj objs Hobj _ IH]; simpl; [reflexivity|].
  rewrite Hobj. simpl. now rewrite Hpass.
Qed.

(** A group whose mesh objects yield no geometry writes nothing. *)
Lemma group_without_vertices group_name (objects : list (Object F)) :
  Forall (fun obj => _extract_tree_mesh_data material_writer obj = Ok [])
         (filter (fun obj => String.eqb (type obj) "MESH") objects) ->
  _write_kstree_group material_writer group_name objects = ret tt.
Proof.
  intros Hall. unfold _write_kstree_group.
  destruct (filter (fun obj => String.eqb (type obj) "MESH") objects)
    as [|obj0 rest] eqn:E; [reflexivity|].
  rewrite (@passes_without_data _ (fun obj st data => first_pass obj st data))
    by (auto || reflexivity).
  cbn [lift bind result written warned].
  rewrite (@passes_without_data _ (fun _ st data => second_pass _ st data))
    by (auto || reflexivity).
  reflexivity.
Qed.

Lemma _write_base_node_data_runs (nd : node_data) :
  written (_write_base_node_data nd)
  = [W_uint 1; W_string (nd_name nd); W_uint (childCount nd);
     W_bool (active nd); W_matrix (transform nd)] /\
  warned (_write_base_node_data nd) = [] /\
  result (_write_base_node_data nd) = Ok tt.
Proof. repeat split. Qed.

(** The node of the group of key [k]. *)
Definition group_node (k : string) : W F unit :=
  match group_entry context k (blend_data_objects context) with
  | Some (original_name, objects) =>
      _write_kstree_group material_writer original_name
                          (sorted_by (@name F _) String.leb objects)
  | None => raise (KeyError k)
  end.

(** C6.  [write] always begins with the root, a plain node (class 1)
    named "BlenderFile" with the identity transform, whose child count is
    the number of ordinary top-level objects (no parent, not hidden, not
    excluded, no group name) plus the number of distinct group keys.  The
    nodes of the groups follow, in ascending order of the lower-cased group
    name, then the ordinary objects.  A group is counted whatever it
    writes: one without mesh objects, or whose mesh objects yield no
    geometry, writes nothing. *)
Theorem root_node :
  let objs := blend_data_objects context in
  let regular_objects := fst (_collect_and_group_objects context) in
  let group_keys :=
    sorted_by (fun k : string => k) String.leb
              (map fst (snd (_collect_and_group_objects context))) in
  let group_nodes := for_each group_node group_keys in
  let object_nodes :=
    for_each (_write_object context material_writer node_settings) regular_objects in
  Permutation regular_objects (filter (is_regular context) objs) /\
  NoDup group_keys /\
  (forall k, In k group_keys
             <-> exists obj, In obj objs /\ in_group context k obj = true) /\
  Sorted (fun a b => String.leb a b = true) group_keys /\
  written (write context material_writer node_settings)
  = [W_uint 1; W_string "BlenderFile";
     W_uint (List.length (filter (is_regular context) objs)
             + List.length group_keys);
     W_bool true; W_matrix Matrix_identity]
    ++ written group_nodes
    ++ match result group_nodes with
       | Ok _ => written object_nodes
       | Raise _ => []
       end /\
  (forall group_name objects,
      filter (fun obj => String.eqb (type obj) "MESH") objects = [] ->
      _write_kstree_group material_writer group_name objects = ret tt) /\
  (forall group_name objects,
      Forall (fun obj => _extract_tree_mesh_data material_writer obj = Ok [])
             (filter (fun obj => String.eqb (type obj) "MESH") objects) ->
      _write_kstree_group material_writer group_name objects = ret tt).
Proof.
  cbv zeta.
  destruct (_collect_and_group_objects_spec context) as (Hreg & Hnd & Hget & Hkeys).
  unfold write.
  destruct (_collect_and_group_objects context) as [regular groups].
  cbn [fst snd] in *.
  split; [rewrite Hreg; apply sorted_by_perm|].
  split; [eapply Permutation_NoDup; [symmetry; apply sorted_by_perm|exact Hnd]|].
  split; [intros k; rewrite sorted_by_In; apply Hkeys|].
  split; [apply (sorted_by_sorted (fun k : string => k) String.leb String.leb_total)|].
  split; [|split; [apply group_without_mesh_objects|apply group_without_vertices]].
  rewrite written_bind.
  destruct (_write_base_node_data_runs
              {| nd_name := "BlenderFile";
                 childCount := List.length regular + List.length groups;
                 active := true;
                 transform := Matrix_identity |}) as (Ew & _ & Er).
  rewrite Ew, Er, written_bind. cbn [nd_name childCount active transform].
  rewrite Hreg at 1. rewrite !sorted_by_length.
  assert (Eloop : for_each
                    (fun group_key =>
                       match dict_get String.eqb groups group_key with
                       | Some (original_name, objects) =>
                           _write_kstree_group material_writer original_name objects
                       | None => raise (KeyError group_key)
                       end)
                    (sorted_by (fun k : string => k) String.leb (map fst groups))
                  = for_each group_node
                      (sorted_by (fun k : string => k) String.leb (map fst groups))).
  { apply for_each_ext. intros k _. unfold group_node. rewrite Hget.
    now destruct (group_entry context k (blend_data_objects context)) as [[nm ms]|]. }
  rewrite Eloop, length_map. reflexivity.
Qed.
End Root.

(** A group made of an object that is not a mesh: the root announces one
    child and no node follows. *)
Example empty_group_is_counted :
  written (write (Samples.scene
                    [Samples.object "KSTREE_GROUP_OAK_1" "EMPTY"
                                    (Samples.triangle 0 [])])
                 Samples.mat_writer [])
  = [W_uint 1; W_string "BlenderFile"; W_uint 1; W_bool true;
     W_matrix (@Matrix_identity float simple_mathutils)].
Proof. vm_compute. reflexivity. Qed.
End RootNodeFacts.

(** ** Merging the instance groups (claims C5 and C10) *)

Module InstanceGroupFacts.
Import node_writer constants helpers utils WriterFacts GroupingFacts RootNodeFacts PyFacts.

Section Tokens.
Context {F : Type} `{Mathutils F}.

(** The strings of a token stream: each node writes exactly one, its name. *)
Definition node_names (tokens : list (token F)) : list string :=
  flat_map (fun t => match t with W_string s => [s] | _ => [] end) tokens.

Lemma node_names_app (a b : list (token F)) :
  node_names (a ++ b) = node_names a ++ node_names b.
Proof. apply flat_map_app. Qed.

Lemma node_names_none (l : list (token F)) :
  Forall (fun t => match t with W_string _ => False | _ => True end) l ->
  node_names l = [].
Proof.
  induction 1 as [|t l Ht _ IH]; [reflexivity|].
  simpl. rewrite IH. now destruct t.
Qed.
End Tokens.

Section Merge.
Context {F : Type} `{Scalar F} `{Mathutils F}.
Variable material_writer : MaterialWriter F.

Local Abbreviation mesh_data := (list (list (UvVertex F) * list nat * nat)).

(** The number of vertices of the data extracted from one object. *)
Definition vertex_count (data : mesh_data) : nat :=
  list_sum (map (fun entry => List.length (fst (fst entry))) data).

Lemma vertex_count_app (a b : mesh_data) :
  vertex_count (a ++ b) = vertex_count a + vertex_count b.
Proof. unfold vertex_count. now rewrite map_app, list_sum_app. Qed.

Lemma second_pass_app c st (a b : mesh_data) :
  second_pass c st (a ++ b) = second_pass c (second_pass c st a) b.
Proof. apply fold_left_app. Qed.

Lemma second_pass_length c (data : mesh_data) st :
  List.length (fst (second_pass c st data))
  = List.length (fst st) + vertex_count data.
Proof.
  revert st. induction data as [|[[verts indices] mat_id] data IH]; intros [vs is_].
  - unfold vertex_count. simpl. lia.
  - unfold second_pass in *. cbn [fold_left]. rewrite IH. cbn [fst].
    rewrite length_app, length_map. unfold vertex_count. simpl. lia.
Qed.

(** The extraction succeeds on each object of [objs], with the data [ds]. *)
Definition extracted (objs : list (Object F)) (ds : list mesh_data) : Prop :=
  Forall2 (fun obj d => _extract_tree_mesh_data material_writer obj = Ok d)
          objs ds.

Lemma pass_fold {S} (pass : Object F -> S -> mesh_data -> S) objs ds :
  extracted objs ds ->
  forall st,
    ofold (fun st obj =>
             mesh_data <~ _extract_tree_mesh_data material_writer obj;;
             Ok (pass obj st mesh_data)) objs st
    = Ok (fold_left (fun st od => pass (fst od) st (snd od)) (combine objs ds) st).
Proof.
  induction 1 as [|obj d objs ds Hd _ IH]; intros st; [reflexivity|].
  cbn [ofold combine fold_left fst snd]. rewrite Hd. cbn [obind]. apply IH.
Qed.

Lemma second_pass_fold c (objs : list (Object F)) (ds : list mesh_data) :
  List.length objs = List.length ds ->
  forall st,
    fold_left (fun st od => second_pass c st (snd od)) (combine objs ds) st
    = second_pass c st (List.concat ds).
Proof.
  revert ds. induction objs as [|obj objs IH]; intros [|d ds] Hlen st;
    try discriminate; [reflexivity|].
  cbn [combine fold_left snd List.concat]. rewrite second_pass_app.
  apply IH. simpl in Hlen. lia.
Qed.

(** The first pass has found a material and the properties of the node. *)
Definition started (st : option nat * option (NodeProperties F) * list F) : Prop :=
  match st with
  | (Some _, Some _, _) => True
  | _ => False
  end.

Definition fresh (st : option nat * option (NodeProperties F) * list F) : Prop :=
  match st with
  | (None, None, _) => True
  | _ => False
  end.

Lemma first_pass_started obj st (data : mesh_data) :
  started st -> started (first_pass obj st data).
Proof.
  revert st. induction data as [|[[verts indices] mat_id] data IH]; intros st Hst;
    [exact Hst|].
  unfold first_pass in *. cbn [fold_left]. apply IH.
  destruct st as [[[m|] [np|]] ys]; simpl in *; tauto.
Qed.

Lemma first_pass_fresh obj st (data : mesh_data) :
  fresh st ->
  match data with
  | [] => fresh (first_pass obj st data)
  | _ :: _ => started (first_pass obj st data)
  end.
Proof.
  intros Hst. destruct data as [|[[verts indices] mat_id] data]; [exact Hst|].
  unfold first_pass. cbn [fold_left].
  apply (@first_pass_started obj _ data).
  destruct st as [[[m|] [np|]] ys]; simpl in *; tauto.
Qed.

Lemma first_pass_fold (objs : list (Object F)) (ds : list mesh_data) :
  List.length objs = List.length ds ->
  forall st,
    let st' := fold_left (fun st od => first_pass (fst od) st (snd od))
                         (combine objs ds) st in
    (started st -> started st') /\
    (fresh st -> match List.concat ds with
                 | [] => fresh st'
                 | _ :: _ => started st'
                 end).
Proof.
  revert ds. induction objs as [|obj objs IH]; intros [|d ds] Hlen st;
    try discriminate; cbn [combine fold_left fst snd List.concat].
  - cbv zeta. tauto.
  - simpl in Hlen. injection Hlen as Hlen.
    specialize (IH ds Hlen (first_pass obj st d)). cbv zeta in *.
    destruct IH as [IHs IHf]. split.
    + intros Hst. apply IHs. now apply first_pass_started.
    + intros Hst. pose proof (@first_pass_fresh obj st d Hst) as Hd.
      destruct d as [|e d]; cbn [app]; [now apply IHf|].
      now apply IHs.
Qed.

Definition vertex_tokens (vertex : UvVertex F) : list (token F) :=
  [W_vector3 (co vertex); W_vector3 (normal vertex); W_vector2 (uv vertex);
   W_vector3 (tangent vertex)].

Lemma write_vertices_runs (vertices : list (UvVertex F)) :
  result (for_each write_vertex vertices) = Ok tt /\
  written (for_each write_vertex vertices)
  = List.concat (map vertex_tokens vertices) /\
  warned (for_each write_vertex vertices) = [].
Proof.
  destruct (@for_each_ok (token F) _ write_vertex vertices) as (Er & Ew & En).
  { apply Forall_forall. reflexivity. }
  repeat split; [exact Er|exact Ew|].
  rewrite En. clear. induction vertices; [reflexivity|exact IHvertices].
Qed.

Lemma write_indices_runs (indices : list nat) :
  result (for_each (@write_ushort F _) indices) = Ok tt /\
  written (for_each (@write_ushort F _) indices) = map W_ushort indices /\
  warned (for_each (@write_ushort F _) indices) = [].
Proof.
  induction indices as [|i indices (Er & Ew & En)]; [repeat split|].
  cbn [for_each]. rewrite result_bind, written_bind, warned_bind, Er, Ew, En.
  repeat split.
Qed.

(** The tokens of a mesh node after its name: what [_write_kstree_group]
    writes for the merged geometry. *)
Definition merged_node (group_name : string) (material_id : nat)
           (node_properties : NodeProperties F)
           (all_vertices : list (UvVertex F)) (all_indices : list nat)
  : list (token F) :=
  [W_uint 2; W_string group_name; W_uint 0; W_bool true;
   W_bool (castShadows node_properties); W_bool (visible node_properties);
   W_bool (transparent node_properties);
   W_uint (List.length all_vertices)]
  ++ List.concat (map vertex_tokens all_vertices)
  ++ [W_uint (List.length all_indices)]
  ++ map W_ushort all_indices
  ++ [W_uint material_id; W_uint (layer node_properties);
      W_float (lodIn node_properties); W_float (lodOut node_properties);
      W_vector3 (sphere_center_of all_vertices);
      W_float (sphere_radius_of (sphere_center_of all_vertices) all_vertices);
      W_bool (renderable node_properties)].

Lemma node_names_merged_node g mid np vs idx :
  node_names (merged_node g mid np vs idx) = [g].
Proof.
  unfold merged_node. rewrite !node_names_app.
  rewrite (@node_names_none _ _ (List.concat _)).
  2:{ apply Forall_forall. intros t Ht. apply in_concat in Ht.
      destruct Ht as (l & Hl & Ht). apply in_map_iff in Hl.
      destruct Hl as (v & <- & _). simpl in Ht.
      repeat (destruct Ht as [<-|Ht]; [exact I|]). destruct Ht. }
  rewrite (@node_names_none _ _ (map _ _)).
  2:{ apply Forall_forall. intros t Ht. apply in_map_iff in Ht.
      now destruct Ht as (i & <- & _). }
  reflexivity.
Qed.

(** The group node, when the members have at least one vertex between
    them. *)
Lemma _write_kstree_group_merges group_name (objects : list (Object F))
      (ds : list mesh_data) :
  extracted (filter (fun obj => String.eqb (type obj) "MESH") objects) ds ->
  0 < vertex_count (List.concat ds) ->
  exists material_id node_properties mesh_center_y,
    let merged := second_pass mesh_center_y ([], []) (List.concat ds) in
    result (_write_kstree_group material_writer group_name objects) = Ok tt /\
    written (_write_kstree_group material_writer group_name objects)
    = merged_node group_name material_id node_properties (fst merged) (snd merged) /\
    List.length (fst merged) = vertex_count (List.concat ds) /\
    warned (_write_kstree_group material_writer group_name objects)
    = if MAX_VERTICES_PER_MESH <? vertex_count (List.concat ds)
      then ["KSTREE group '" ++ group_name ++ "' has "
            ++ str_nat (vertex_count (List.concat ds)) ++ " vertices, "
            ++ "exceeding limit of " ++ str_nat MAX_VERTICES_PER_MESH
            ++ ". Consider splitting into multiple groups."]%string
      else [].
Proof.
  intros Hex Hpos. unfold _write_kstree_group.
  pose proof (Forall2_length Hex) as Hlen.
  destruct (filter (fun obj => String.eqb (type obj) "MESH") objects)
    as [|obj0 rest] eqn:E.
  { inversion Hex; subst. unfold vertex_count in Hpos. simpl in Hpos. lia. }
  rewrite (pass_fold (fun obj st data => first_pass obj st data) Hex).
  destruct (first_pass_fold _ _ Hlen (None, None, [])) as [_ Hfresh].
  specialize (Hfresh I). cbv zeta in Hfresh.
  destruct (List.concat ds) as [|e data] eqn:Ec; [unfold vertex_count in Hpos; simpl in Hpos; lia|].
  rewrite <- Ec in *. clear e data Ec.
  destruct (fold_left _ (combine (obj0 :: rest) ds) (None, None, []))
    as [[[material_id|] [node_properties|]] all_positions_y];
    try (destruct Hfresh; fail).
  rewrite bind_lift_Ok.
  set (mesh_center_y := match all_positions_y with [] => fzero | _ :: _ => _ end).
  rewrite (pass_fold (fun _ st data => second_pass mesh_center_y st data) Hex).
  cbn [fst snd]. rewrite (second_pass_fold mesh_center_y _ _ Hlen).
  rewrite bind_lift_Ok.
  exists material_id, node_properties, mesh_center_y. cbv zeta.
  pose proof (second_pass_length mesh_center_y (List.concat ds) ([], [])) as Hl.
  cbn [fst List.length] in Hl.
  destruct (second_pass mesh_center_y ([], []) (List.concat ds))
    as [all_vertices all_indices].
  cbn [fst snd] in *.
  destruct all_vertices as [|v vs]; [simpl in Hl; lia|].
  destruct (write_vertices_runs (v :: vs)) as (Evr & Evw & Evn).
  destruct (write_indices_runs all_indices) as (Eir & Eiw & Ein).
  change (List.length (v :: vs) = vertex_count (List.concat ds)) in Hl.
  split; [|split; [|split; [exact Hl|]]].
  - repeat (rewrite result_bind; cbn [result ret emit warn write_uint write_bool
                                      write_string write_float write_vector3
                                      _write_node_class _write_bounding_sphere]).
    destruct (MAX_VERTICES_PER_MESH <? List.length (v :: vs));
      cbn [result ret warn]; rewrite Evr, Eir; reflexivity.
  - unfold merged_node.
    repeat (rewrite written_bind; cbn [result written ret emit warn write_uint
                                       write_bool write_string write_float
                                       write_vector3 _write_node_class
                                       _write_bounding_sphere]).
    destruct (MAX_VERTICES_PER_MESH <? List.length (v :: vs));
      cbn [result written ret warn]; rewrite ?Evr, ?Eir, ?Evw, ?Eiw;
      cbn [result written ret warn app]; reflexivity.
  - rewrite <- Hl.
    repeat (rewrite warned_bind; cbn [result warned ret emit warn write_uint
                                      write_bool write_string write_float
                                      write_vector3 _write_node_class
                                      _write_bounding_sphere]).
    destruct (MAX_VERTICES_PER_MESH <? List.length (v :: vs));
      cbn [result warned ret warn]; rewrite ?Evr, ?Eir, ?Evn, ?Ein;
      cbn [result warned ret warn app]; reflexivity.
Qed.

(** A group whose members have no vertex between them writes nothing. *)
Lemma _write_kstree_group_empty group_name (objects : list (Object F))
      (ds : list mesh_data) :
  extracted (filter (fun obj => String.eqb (type obj) "MESH") objects) ds ->
  vertex_count (List.concat ds) = 0 ->
  _write_kstree_group material_writer group_name objects = ret tt.
Proof.
  intros Hex Hz. unfold _write_kstree_group.
  pose proof (Forall2_length Hex) as Hlen.
  destruct (filter (fun obj => String.eqb (type obj) "MESH") objects)
    as [|obj0 rest] eqn:E; [reflexivity|].
  rewrite (pass_fold (fun obj st data => first_pass obj st data) Hex).
  rewrite bind_lift_Ok.
  destruct (fold_left _ (combine (obj0 :: rest) ds) (None, None, []))
    as [[material_id node_properties] all_positions_y].
  set (mesh_center_y := match all_positions_y with [] => fzero | _ :: _ => _ end).
  rewrite (pass_fold (fun _ st data => second_pass mesh_center_y st data) Hex).
  cbn [fst snd]. rewrite (second_pass_fold mesh_center_y _ _ Hlen).
  rewrite bind_lift_Ok.
  pose proof (second_pass_length mesh_center_y (List.concat ds) ([], [])) as Hl.
  cbn [fst List.length] in Hl.
  destruct (second_pass mesh_center_y ([], []) (List.concat ds))
    as [[|v vs] all_indices]; [reflexivity|].
  simpl in Hl. lia.
Qed.

(** A group whose members can all be extracted is written without an
    exception, and without a warning below the vertex limit. *)
Lemma _write_kstree_group_succeeds group_name (objects : list (Object F))
      (ds : list mesh_data) :
  extracted (filter (fun obj => String.eqb (type obj) "MESH") objects) ds ->
  result (_write_kstree_group material_writer group_name objects) = Ok tt /\
  (vertex_count (List.concat ds) <= MAX_VERTICES_PER_MESH ->
   warned (_write_kstree_group material_writer group_name objects) = []).
Proof.
  intros Hex.
  destruct (Nat.eq_dec (vertex_count (List.concat ds)) 0) as [Hz|Hnz].
  - rewrite (_write_kstree_group_empty group_name _ Hex Hz). split; reflexivity.
  - destruct (@_write_kstree_group_merges group_name objects ds Hex)
      as (material_id & node_properties & mesh_center_y & Er & _ & _ & En);
      [lia|].
    split; [exact Er|]. intros Hle. rewrite En.
    destruct (MAX_VERTICES_PER_MESH <? vertex_count (List.concat ds)) eqn:E;
      [|reflexivity].
    apply Nat.ltb_lt in E. lia.
Qed.

(** An object without extracted data leaves a pass over the members as
    it is. *)
Lemma pass_skips {S} (pass : Object F -> S -> mesh_data -> S) obj l1 l2 :
  _extract_tree_mesh_data material_writer obj = Ok [] ->
  (forall st, pass obj st [] = st) ->
  forall st,
    ofold (fun st obj =>
             mesh_data <~ _extract_tree_mesh_data material_writer obj;;
             Ok (pass obj st mesh_data)) (l1 ++ obj :: l2) st
    = ofold (fun st obj =>
               mesh_data <~ _extract_tree_mesh_data material_writer obj;;
               Ok (pass obj st mesh_data)) (l1 ++ l2) st.
Proof.
  intros Hobj Hpass. induction l1 as [|x l1 IH]; intros st.
  - cbn [app ofold]. rewrite Hobj. cbn [obind]. now rewrite Hpass.
  - cbn [app ofold].
    destruct (_extract_tree_mesh_data material_writer x) as [d|e];
      cbn [obind]; [apply IH|reflexivity].
Qed.

(** The group node depends on the members through the two passes over
    the mesh objects only. *)
Lemma _write_kstree_group_ext group_name (objs objs' : list (Object F)) :
  (filter (fun o => String.eqb (type o) "MESH") objs = [] <->
   filter (fun o => String.eqb (type o) "MESH") objs' = []) ->
  (forall st,
      ofold (fun st obj =>
               mesh_data <~ _extract_tree_mesh_data material_writer obj;;
               Ok (first_pass obj st mesh_data))
            (filter (fun o => String.eqb (type o) "MESH") objs) st
      = ofold (fun st obj =>
                 mesh_data <~ _extract_tree_mesh_data material_writer obj;;
                 Ok (first_pass obj st mesh_data))
              (filter (fun o => String.eqb (type o) "MESH") objs') st) ->
  (forall mesh_center_y st,
      ofold (fun st obj =>
               mesh_data <~ _extract_tree_mesh_data material_writer obj;;
               Ok (second_pass mesh_center_y st mesh_data))
            (filter (fun o => String.eqb (type o) "MESH") objs) st
      = ofold (fun st obj =>
                 mesh_data <~ _extract_tree_mesh_data material_writer obj;;
                 Ok (second_pass mesh_center_y st mesh_data))
              (filter (fun o => String.eqb (type o) "MESH") objs') st) ->
  _write_kstree_group material_writer group_name objs
  = _write_kstree_group material_writer group_name objs'.
Proof.
  intros Hnil Hfirst Hsecond. unfold _write_kstree_group.
  destruct (filter (fun o => String.eqb (type o) "MESH") objs) as [|o l];
    destruct (filter (fun o => String.eqb (type o) "MESH") objs') as [|o' l'].
  - reflexivity.
  - destruct Hnil as [Hn _]. discriminate (Hn eq_refl).
  - destruct Hnil as [_ Hn]. discriminate (Hn eq_refl).
  - rewrite (Hfirst (None, None, [])).
    destruct (ofold _ (o' :: l') (None, None, []))
      as [[[material_id node_properties] all_positions_y]|e]; [|reflexivity].
    rewrite !bind_lift_Ok.
    set (mesh_center_y := match all_positions_y with [] => fzero | _ :: _ => _ end).
    rewrite (Hsecond mesh_center_y ([], [])).
    reflexivity.
Qed.

(** A member without extracted data contributes nothing: the group is
    written as it is without that member. *)
Lemma _write_kstree_group_skips group_name obj (l1 l2 : list (Object F)) :
  _extract_tree_mesh_data material_writer obj = Ok [] ->
  _write_kstree_group material_writer group_name (l1 ++ obj :: l2)
  = _write_kstree_group material_writer group_name (l1 ++ l2).
Proof.
  intros Hobj.
  destruct (String.eqb (type obj) "MESH") eqn:Hmesh.
  2:{ unfold _write_kstree_group. rewrite !filter_app.
      cbn [filter]. now rewrite Hmesh. }
  destruct (filter (fun o => String.eqb (type o) "MESH") (l1 ++ l2))
    as [|x rest] eqn:E.
  - etransitivity;
      [|symmetry; exact (group_without_mesh_objects material_writer group_name _ E)].
    apply group_without_vertices.
    rewrite filter_app in *. cbn [filter]. rewrite Hmesh.
    apply app_eq_nil in E. destruct E as [-> ->]. now constructor.
  - apply _write_kstree_group_ext.
    + rewrite E, filter_app. cbn [filter]. rewrite Hmesh.
      split; intros Habs; [|discriminate].
      apply app_eq_nil in Habs. destruct Habs; discriminate.
    + intros st. rewrite !filter_app. cbn [filter]. rewrite Hmesh.
      exact (@pass_skips _ (fun obj st data => first_pass obj st data) obj
               _ _ Hobj (fun st => eq_refl) st).
    + intros mesh_center_y st. rewrite !filter_app. cbn [filter]. rewrite Hmesh.
      exact (@pass_skips _ (fun _ st data => second_pass mesh_center_y st data) obj
               _ _ Hobj (fun st => eq_refl) st).
Qed.

(** A slot that the group path passes over. *)
Definition skipped_slot (slot : option (Material F)) : Prop :=
  match slot with
  | None => True
  | Some material => is_hidden_name (material_name material) = true
  end.

Lemma extract_material_skips obj has_uvs uv_layer result material_index slot :
  getitem (materials (to_mesh obj)) material_index = Ok slot ->
  skipped_slot slot ->
  extract_material material_writer obj (to_mesh obj) has_uvs uv_layer
                   result material_index = Ok result.
Proof.
  intros Hslot Hskip. unfold extract_material. rewrite Hslot. cbn [obind].
  destruct slot as [material|]; [|reflexivity].
  simpl in Hskip. now rewrite Hskip.
Qed.

(** An object all of whose used slots are passed over yields no data. *)
Lemma _extract_tree_mesh_data_skips obj :
  Forall (fun material_index =>
            exists slot,
              getitem (materials (to_mesh obj)) material_index = Ok slot /\
              skipped_slot slot)
         (set_of (map (@material_index) (loop_triangles (to_mesh obj)))) ->
  _extract_tree_mesh_data material_writer obj = Ok [].
Proof.
  intros Hall.
  assert (Hfold : forall has_uvs uv_layer,
             ofold (extract_material material_writer obj (to_mesh obj)
                                     has_uvs uv_layer)
                   (set_of (map (@material_index) (loop_triangles (to_mesh obj))))
                   [] = Ok []).
  { intros has_uvs uv_layer.
    induction Hall as [|i used (slot & Hslot & Hskip) _ IH]; [reflexivity|].
    cbn [ofold].
    rewrite (@extract_material_skips obj has_uvs uv_layer [] i slot Hslot Hskip).
    exact IH. }
  unfold _extract_tree_mesh_data.
  destruct (materials (to_mesh obj)); [reflexivity|apply Hfold].
Qed.
(** C10.  In the group path ([_extract_tree_mesh_data], which returns
    data and records no warning), an object without materials yields no
    data, and a used slot that is empty or holds a material with a hidden
    name is passed over, where the per-object path
    ([_split_object_by_materials]) raises.  An object all of whose used
    slots are passed over yields no data; a member without data leaves the
    group node as it is without that member; and a group whose members
    are all extracted is written without an exception, and without a
    warning below the vertex limit. *)
Theorem group_path_skips_silently (obj : Object F) :
  (materials (to_mesh obj) = [] ->
   _extract_tree_mesh_data material_writer obj = Ok [] /\
   _split_object_by_materials material_writer obj
   = Raise (Exception ("Object '" ++ name obj ++ "' has no material assigned"))) /\
  (forall has_uvs uv_layer result meshes material_index,
      getitem (materials (to_mesh obj)) material_index = Ok None ->
      extract_material material_writer obj (to_mesh obj) has_uvs uv_layer
                       result material_index = Ok result /\
      split_material material_writer obj (to_mesh obj) has_uvs uv_layer
                     meshes material_index
      = Raise (Exception ("Material slot " ++ str_nat material_index
                          ++ " for object '" ++ name obj
                          ++ "' has no material assigned"))) /\
  (forall has_uvs uv_layer result meshes material_index material,
      getitem (materials (to_mesh obj)) material_index = Ok (Some material) ->
      is_hidden_name (material_name material) = true ->
      extract_material material_writer obj (to_mesh obj) has_uvs uv_layer
                       result material_index = Ok result /\
      split_material material_writer obj (to_mesh obj) has_uvs uv_layer
                     meshes material_index
      = Raise (Exception ("Material '" ++ material_name material
                          ++ "' is ignored but is used by object '"
                          ++ name obj ++ "'"))) /\
  (Forall (fun material_index =>
             exists slot,
               getitem (materials (to_mesh obj)) material_index = Ok slot /\
               skipped_slot slot)
          (set_of (map (@material_index) (loop_triangles (to_mesh obj)))) ->
   _extract_tree_mesh_data material_writer obj = Ok []) /\
  (forall group_name l1 l2,
      _extract_tree_mesh_data material_writer obj = Ok [] ->
      _write_kstree_group material_writer group_name (l1 ++ obj :: l2)
      = _write_kstree_group material_writer group_name (l1 ++ l2)) /\
  (forall group_name objects ds,
      extracted (filter (fun o => String.eqb (type o) "MESH") objects) ds ->
      result (_write_kstree_group material_writer group_name objects) = Ok tt /\
      (vertex_count (List.concat ds) <= MAX_VERTICES_PER_MESH ->
       warned (_write_kstree_group material_writer group_name objects) = [])).
Proof.
  split; [|split; [|split; [|split; [|split]]]].
  - intros Hm. unfold _extract_tree_mesh_data, _split_object_by_materials.
    now rewrite Hm.
  - intros has_uvs uv_layer result meshes material_index Hslot. split.
    + now apply (@extract_material_skips obj has_uvs uv_layer result
                   material_index None Hslot).
    + unfold split_material. now rewrite Hslot.
  - intros has_uvs uv_layer result meshes material_index material Hslot Hhid.
    split.
    + now apply (@extract_material_skips obj has_uvs uv_layer result
                   material_index (Some material) Hslot).
    + unfold split_material. rewrite Hslot. cbn [obind]. now rewrite Hhid.
  - apply _extract_tree_mesh_data_skips.
  - intros group_name l1 l2. apply _write_kstree_group_skips.
  - intros group_name objects ds. apply _write_kstree_group_succeeds.
Qed.
End Merge.

Section Scene.
Context {F : Type} `{Scalar F} `{Mathutils F}.
Variable context : Context F.
Variable material_writer : MaterialWriter F.
Variable node_settings : list (NodeSettings F).

Lemma group_names_of_the_three :
  _get_kstree_group_name "KSTREE_GROUP_OAK_1" = Some "OAK" /\
  _get_kstree_group_name "kstree_group_Oak_2" = Some "Oak" /\
  _get_kstree_group_name "KSTREE_GROUP_OAK_3" = Some "OAK" /\
  _get_kstree_group_name "GROUP_OAK_1" = None /\
  _get_kstree_group_name "group_Oak_2" = None /\
  _get_kstree_group_name "GROUP_OAK_3" = None.
Proof. vm_compute. repeat split. Qed.

(** C5, as the code has it.  The reserved pattern is
    [KSTREE_GROUP_<name>_<number>].  Three top-level mesh objects named
    [KSTREE_GROUP_OAK_1], [kstree_group_Oak_2] and [KSTREE_GROUP_OAK_3],
    alone in the scene in this order, form one group of key [oak], named
    [OAK] after the first of them, with the members sorted by name.  When
    the members have a vertex between them, [write] gives the root with
    one child and one mesh node (class 2) named [OAK], whose vertex count
    is the sum of the numbers of vertices extracted, after deduplication,
    from the three objects; no other node is written. *)
Theorem kstree_group_merge_count (o1 o2 o3 : Object F) d1 d2 d3 :
  blend_data_objects context = [o1; o2; o3] ->
  name o1 = "KSTREE_GROUP_OAK_1" ->
  name o2 = "kstree_group_Oak_2" ->
  name o3 = "KSTREE_GROUP_OAK_3" ->
  Forall (fun obj => is_top_level_exported context obj = true /\ type obj = "MESH")
         [o1; o2; o3] ->
  _extract_tree_mesh_data material_writer o1 = Ok d1 ->
  _extract_tree_mesh_data material_writer o2 = Ok d2 ->
  _extract_tree_mesh_data material_writer o3 = Ok d3 ->
  0 < vertex_count d1 + vertex_count d2 + vertex_count d3 ->
  _collect_and_group_objects context = ([], [("oak", ("OAK", [o1; o3; o2]))]) /\
  result (write context material_writer node_settings) = Ok tt /\
  node_names (written (write context material_writer node_settings))
  = ["BlenderFile"; "OAK"] /\
  exists material_id node_properties all_vertices all_indices,
    written (write context material_writer node_settings)
    = [W_uint 1; W_string "BlenderFile"; W_uint 1; W_bool true;
       W_matrix Matrix_identity]
      ++ merged_node "OAK" material_id node_properties all_vertices all_indices /\
    List.length all_vertices
    = vertex_count d1 + vertex_count d2 + vertex_count d3.
Proof.
  intros Hobjs Hn1 Hn2 Hn3 Hall Hd1 Hd2 Hd3 Hpos.
  destruct group_names_of_the_three as (G1 & G2 & G3 & _).
  inversion Hall as [|? ? [Ht1 Hm1] Hall']; subst.
  inversion Hall' as [|? ? [Ht2 Hm2] Hall'']; subst.
  inversion Hall'' as [|? ? [Ht3 Hm3] _]; subst. clear Hall Hall' Hall''.
  assert (Hgroups : _collect_and_group_objects context
                    = ([], [("oak", ("OAK", [o1; o3; o2]))])).
  { unfold _collect_and_group_objects. rewrite Hobjs. cbn [fold_left].
    unfold collect_object. rewrite Ht1, Ht2, Ht3, Hn1, Hn2, Hn3, G1, G2, G3.
    cbn [negb]. vm_compute lower. cbn.
    unfold sorted_by. cbn [fold_left insert_sorted].
    rewrite Hn1, Hn2.
    change (String.leb "KSTREE_GROUP_OAK_1" "kstree_group_Oak_2") with true.
    cbn [insert_sorted]. rewrite Hn1, Hn2, Hn3.
    change (String.leb "KSTREE_GROUP_OAK_1" "KSTREE_GROUP_OAK_3") with true.
    change (String.leb "kstree_group_Oak_2" "KSTREE_GROUP_OAK_3") with false.
    reflexivity. }
  split; [exact Hgroups|].
  destruct (@_write_kstree_group_merges _ _ _ material_writer "OAK" [o1; o3; o2]
              [d1; d3; d2])
    as (material_id & node_properties & mesh_center_y & Er & Ew & El & _).
  { cbn [filter]. rewrite Hm1, Hm2, Hm3. cbn.
    repeat constructor; assumption. }
  { cbn [List.concat]. rewrite !vertex_count_app. unfold vertex_count at 4.
    simpl. lia. }
  cbv zeta in *.
  assert (Ewrite : write context material_writer node_settings
                   = (_write_base_node_data
                        {| nd_name := "BlenderFile"; childCount := 1;
                           active := true; transform := Matrix_identity |};;
                      (_write_kstree_group material_writer "OAK" [o1; o3; o2];;
                       ret tt);;
                      ret tt)).
  { unfold write. rewrite Hgroups. reflexivity. }
  rewrite Ewrite.
  rewrite !result_bind, !written_bind, !result_bind, Er, Ew.
  destruct (_write_base_node_data_runs
              {| nd_name := "BlenderFile"; childCount := 1;
                 active := true; transform := Matrix_identity |}) as (Bw & _ & Br).
  rewrite Br, Bw. cbn [nd_name childCount active transform written result ret].
  rewrite !app_nil_r.
  split; [reflexivity|]. split.
  - rewrite node_names_app, node_names_merged_node. reflexivity.
  - eexists _, _, _, _. split; [reflexivity|].
    rewrite El. cbn [List.concat]. rewrite !vertex_count_app.
    unfold vertex_count at 4. simpl. lia.
Qed.
End Scene.

(** On the sample trees: the names of the reserved form give one node of
    nine vertices. *)
Lemma kstree_group_merge_count_witness :
  node_names (written (write Samples.oaks Samples.mat_writer []))
  = ["BlenderFile"; "OAK"] /\
  exists material_id node_properties all_vertices all_indices,
    written (write Samples.oaks Samples.mat_writer [])
    = [W_uint 1; W_string "BlenderFile"; W_uint 1; W_bool true;
       W_matrix (@Matrix_identity float simple_mathutils)]
      ++ merged_node "OAK" material_id node_properties all_vertices all_indices /\
    List.length all_vertices = 9.
Proof.
  pose (data := fun slot : nat =>
          match nth_error (blend_data_objects Samples.oaks) slot with
          | Some obj =>
              match _extract_tree_mesh_data Samples.mat_writer obj with
              | Ok d => d
              | Raise _ => []
              end
          | None => []
          end).
  destruct (@kstree_group_merge_count float float_scalar simple_mathutils
              Samples.oaks Samples.mat_writer []
              (Samples.tree "KSTREE_GROUP_OAK_1" 0 [Some Samples.leaves])
              (Samples.tree "kstree_group_Oak_2" 1 [Some Samples.leaves])
              (Samples.tree "KSTREE_GROUP_OAK_3" 2 [Some Samples.leaves])
              (data 0) (data 1) (data 2))
    as (_ & _ & Hnames & material_id & node_properties & all_vertices
        & all_indices & Hw & Hl);
    [reflexivity|reflexivity|reflexivity|reflexivity|repeat constructor
    |vm_compute; reflexivity|vm_compute; reflexivity|vm_compute; reflexivity
    |vm_compute; lia|].
  split; [exact Hnames|].
  exists material_id, node_properties, all_vertices, all_indices.
  split; [exact Hw|]. rewrite Hl. vm_compute. reflexivity.
Defined.

(** C5, as stated.  Three top-level mesh objects named [GROUP_OAK_1],
    [group_Oak_2] and [GROUP_OAK_3] are not merged: none of the names has
    a group name, no group is formed, and [write] gives a root with three
    children and one node for each object, under the name of the object. *)
Lemma group_prefix_alone_is_not_merged :
  map (fun obj => _get_kstree_group_name (name obj))
      (blend_data_objects Samples.plain_oaks) = [None; None; None] /\
  snd (_collect_and_group_objects Samples.plain_oaks) = [] /\
  result (write Samples.plain_oaks Samples.mat_writer []) = Ok tt /\
  firstn 5 (written (write Samples.plain_oaks Samples.mat_writer []))
  = [W_uint 1; W_string "BlenderFile"; W_uint 3; W_bool true;
     W_matrix (@Matrix_identity float simple_mathutils)] /\
  node_names (written (write Samples.plain_oaks Samples.mat_writer []))
  = ["BlenderFile"; "GROUP_OAK_1"; "group_Oak_2"; "GROUP_OAK_3"].
Proof. vm_compute. repeat split. Qed.

(** On the sample trees: a tree without materials is passed over in the
    group path and refused in the per-object path. *)
Lemma group_path_skips_silently_witness :
  _extract_tree_mesh_data Samples.mat_writer (Samples.bare "KSTREE_GROUP_OAK_2")
  = Ok [] /\
  _split_object_by_materials Samples.mat_writer (Samples.bare "KSTREE_GROUP_OAK_2")
  = Raise (Exception "Object 'KSTREE_GROUP_OAK_2' has no material assigned").
Proof.
  apply (proj1 (@group_path_skips_silently float float_scalar simple_mathutils
                  Samples.mat_writer (Samples.bare "KSTREE_GROUP_OAK_2"))).
  reflexivity.
Defined.

(** A group of a good tree and three trees that the group path passes
    over: the export of the nodes succeeds without a warning, and the
    node has the three vertices of the good tree. *)
Example group_with_skipped_members :
  let trees :=
    Samples.scene [Samples.tree "KSTREE_GROUP_OAK_1" 0 [Some Samples.leaves];
                   Samples.bare "KSTREE_GROUP_OAK_2";
                   Samples.unassigned "KSTREE_GROUP_OAK_3";
                   Samples.ignored "KSTREE_GROUP_OAK_4"] in
  result (write trees Samples.mat_writer []) = Ok tt /\
  warned (write trees Samples.mat_writer []) = [] /\
  firstn 8 (skipn 5 (written (write trees Samples.mat_writer [])))
  = [W_uint 2; W_string "OAK"; W_uint 0; W_bool true; W_bool true;
     W_bool true; W_bool false; W_uint 3].
Proof. vm_compute. repeat split. Qed.

(** The same trees as ordinary objects: each of the three stops the
    writing of the nodes. *)
Example regular_path_refuses :
  result (write (Samples.scene [Samples.bare "oak_2"]) Samples.mat_writer [])
  = Raise (Exception "Object 'oak_2' has no material assigned") /\
  result (write (Samples.scene [Samples.unassigned "oak_3"]) Samples.mat_writer [])
  = Raise (Exception "Material slot 0 for object 'oak_3' has no material assigned") /\
  result (write (Samples.scene [Samples.ignored "oak_4"]) Samples.mat_writer [])
  = Raise (Exception "Material '__helper' is ignored but is used by object 'oak_4'").
Proof. vm_compute. repeat split. Qed.
End InstanceGroupFacts.

(** ** The export as a whole: [export_kn5] and the texture copy *)

Module ExportFacts.
Import exporter WriterFacts.

Lemma length_append (a b : string) :
  String.length (a ++ b) = String.length a + String.length b.
Proof. induction a as [|c a IH]; simpl; [reflexivity|now rewrite IH]. Qed.

(** The temporary path is never the destination. *)
Lemma temp_is_not_target (filepath : string) :
  (filepath ++ ".tmp")%string <> filepath.
Proof.
  intros E. apply (f_equal String.length) in E.
  rewrite length_append in E. simpl in E. lia.
Qed.

Section ExportKn5.
Context {F : Type} `{Scalar F} `{Mathutils F}.
Variable pf : Platform F.
Variable new_material_writer :
  Context F -> list (string * string) -> MaterialWriter F.

(** What the exporter writes once the temporary file is open. *)
Definition run_of (fs : FileSystem) (filepath : string) (context : Context F)
  : W F unit :=
  KN5Exporter_write pf new_material_writer
    (fs_put fs (filepath ++ ".tmp") (encode pf [], now pf)) context.

Lemma export_failed_spec fs temp_filepath warnings0 e :
  let r := export_failed pf fs temp_filepath warnings0 e in
  status (fst r) = "error" /\
  warnings (fst r)
  = warnings0 ++ [("Export failed: " ++ str_exn e)%string; format_exc pf e] /\
  (forall p, p <> temp_filepath -> snd r p = fs p) /\
  (can_unlink pf temp_filepath = true -> snd r temp_filepath = None) /\
  (can_unlink pf temp_filepath = false -> snd r = fs).
Proof.
  unfold export_failed. cbn [fst snd status warnings].
  repeat split.
  - intros p Hp. destruct (can_unlink pf temp_filepath); [|reflexivity].
    unfold fs_remove. apply String.eqb_neq in Hp. now rewrite Hp.
  - intros ->. unfold fs_remove. now rewrite String.eqb_refl.
  - now intros ->.
Qed.

Lemma fs_put_other (fs : FileSystem) p f q : q <> p -> fs_put fs p f q = fs q.
Proof. intros Hq. unfold fs_put. apply String.eqb_neq in Hq. now rewrite Hq. Qed.

Lemma fs_put_same (fs : FileSystem) p f : fs_put fs p f p = Some f.
Proof. unfold fs_put. now rewrite String.eqb_refl. Qed.

(** X1.  When the writing of the file raises, [export_kn5] returns the
    status "error"; the warnings are those recorded while writing, then
    "Export failed: <message>" and the traceback; every file but the
    temporary one is as before, the destination among them; the temporary
    file is gone when it can be unlinked and otherwise keeps what was
    written before the exception. *)
Theorem export_kn5_failed_write fs filepath context copy_textures e :
  can_open_write pf (filepath ++ ".tmp") = true ->
  result (run_of fs filepath context) = Raise e ->
  let temp_filepath := (filepath ++ ".tmp")%string in
  let r := export_kn5 pf new_material_writer fs filepath context copy_textures in
  status (fst r) = "error" /\
  warnings (fst r)
  = warned (run_of fs filepath context)
    ++ [("Export failed: " ++ str_exn e)%string; format_exc pf e] /\
  (forall p, p <> temp_filepath -> snd r p = fs p) /\
  snd r filepath = fs filepath /\
  (can_unlink pf temp_filepath = true -> snd r temp_filepath = None) /\
  (can_unlink pf temp_filepath = false ->
   snd r temp_filepath
   = Some (encode pf (written (run_of fs filepath context)), now pf)).
Proof.
  intros Hopen Hrun. cbv zeta. unfold export_kn5. rewrite Hopen. cbn [negb].
  fold (run_of fs filepath context). rewrite Hrun.
  match goal with
  | |- context [export_failed pf ?fs1 ?t ?w ?e1] =>
      destruct (export_failed_spec fs1 t w e1) as (Hs & Hw & Hother & Hgone & Hkept)
  end.
  cbv zeta in *.
  assert (Hfiles : forall p, p <> (filepath ++ ".tmp")%string ->
                             snd (export_failed pf
                                    (fs_put
                                       (fs_put fs (filepath ++ ".tmp")
                                               (encode pf [], now pf))
                                       (filepath ++ ".tmp")
                                       (encode pf (written (run_of fs filepath context)),
                                        now pf))
                                    (filepath ++ ".tmp")
                                    (warned (run_of fs filepath context)) e) p
                             = fs p).
  { intros p Hp. rewrite (Hother p Hp). now rewrite !fs_put_other. }
  split; [exact Hs|]. split; [exact Hw|]. split; [exact Hfiles|].
  split; [apply Hfiles; intros E; symmetry in E; now apply temp_is_not_target in E|].
  split; [exact Hgone|].
  intros Hno. rewrite (Hkept Hno). apply fs_put_same.
Qed.

(** X2.  Without the texture copy, [export_kn5] succeeds exactly when the
    writing ends without exception and the temporary file can be moved
    over the destination.  Then the warnings are those recorded while
    writing, the destination holds the bytes written, the temporary file
    is gone and the other files are as before.  Otherwise every file but
    the temporary one is as before. *)
Theorem export_kn5_without_copy fs filepath context :
  can_open_write pf (filepath ++ ".tmp") = true ->
  let temp_filepath := (filepath ++ ".tmp")%string in
  let run := run_of fs filepath context in
  let r := export_kn5 pf new_material_writer fs filepath context false in
  (status (fst r) = "success" <->
   result run = Ok tt /\ can_replace pf temp_filepath filepath = true) /\
  (status (fst r) = "success" ->
   warnings (fst r) = warned run /\
   snd r filepath = Some (encode pf (written run), now pf) /\
   snd r temp_filepath = None /\
   forall p, p <> temp_filepath -> p <> filepath -> snd r p = fs p) /\
  (status (fst r) <> "success" ->
   status (fst r) = "error" /\
   forall p, p <> temp_filepath -> snd r p = fs p).
Proof.
  intros Hopen. cbv zeta. unfold export_kn5. rewrite Hopen. cbn [negb].
  fold (run_of fs filepath context).
  pose proof (@temp_is_not_target filepath) as Htemp.
  assert (Hfailed : forall fs1 w e,
             (forall p, p <> (filepath ++ ".tmp")%string -> fs1 p = fs p) ->
             let r := export_failed pf fs1 (filepath ++ ".tmp") w e in
             status (fst r) = "error" /\
             forall p, p <> (filepath ++ ".tmp")%string -> snd r p = fs p).
  { intros fs1 w e Hfs1. cbv zeta.
    destruct (export_failed_spec fs1 (filepath ++ ".tmp") w e)
      as (Hs & _ & Hother & _).
    split; [exact Hs|]. intros p Hp. rewrite (Hother p Hp). now apply Hfs1. }
  assert (Hput : forall f1 f2 p,
             p <> (filepath ++ ".tmp")%string ->
             fs_put (fs_put fs (filepath ++ ".tmp") f1) (filepath ++ ".tmp") f2 p
             = fs p).
  { intros f1 f2 p Hp. now rewrite !fs_put_other. }
  destruct (result (run_of fs filepath context)) as [[]|e] eqn:Hrun.
  - rewrite app_nil_r.
    destruct (can_replace pf (filepath ++ ".tmp") filepath) eqn:Hrep; cbn [negb].
    + rewrite fs_put_same. cbn [fst snd status warnings].
      split; [split; auto|]. split; [|intros Habs; now destruct Habs].
      intros _. split; [reflexivity|]. split; [apply fs_put_same|].
      split.
      * rewrite fs_put_other by exact Htemp.
        unfold fs_remove. now rewrite String.eqb_refl.
      * intros p Hp Hq. rewrite fs_put_other by exact Hq.
        unfold fs_remove. apply String.eqb_neq in Hp as Hp'. rewrite Hp'.
        now apply Hput.
    + destruct (Hfailed _ (warned (run_of fs filepath context))
                  (OSError ("Cannot replace '" ++ filepath ++ "'"))
                  (Hput (encode pf [], now pf)
                        (encode pf (written (run_of fs filepath context)), now pf)))
        as (Hs & Hfiles).
      split; [|split].
      * rewrite Hs. split; [discriminate|]. intros [_ Habs]. discriminate.
      * rewrite Hs. discriminate.
      * intros _. split; assumption.
  - destruct (Hfailed _ (warned (run_of fs filepath context)) e
                (Hput (encode pf [], now pf)
                      (encode pf (written (run_of fs filepath context)), now pf)))
      as (Hs & Hfiles).
    split; [|split].
    + rewrite Hs. split; [discriminate|]. intros [Habs _]. discriminate.
    + rewrite Hs. discriminate.
    + intros _. split; assumption.
Qed.

(** *** The texture copy *)

(** Every file of [fs] is still there in [fs'], as it was or replaced by
    a strictly newer one. *)
Definition kept (fs fs' : FileSystem) : Prop :=
  forall p data mtime,
    fs p = Some (data, mtime) ->
    fs' p = Some (data, mtime) \/
    exists data' mtime', fs' p = Some (data', mtime') /\ (mtime < mtime')%Z.

(** The file [copy_textures_to_working_directory] copies the texture of
    [img] to: [os.path.join(texture_dir, dest_filename)], the image name
    with the extension of the source when it has none of its own. *)
Definition dest_path_of (texture_dir : string) (img : Image) : string :=
  let dest_filename := image_name img in
  let dest_filename :=
    if String.eqb (snd (os_path.splitext dest_filename)) ""
    then (dest_filename ++ snd (os_path.splitext (abspath img)))%string
    else dest_filename in
  join pf texture_dir dest_filename.

(** [p] is the destination of a texture node of [texture_nodes] whose
    name is not hidden and that has an image. *)
Definition destination (texture_nodes : list (ShaderNodeTexImage F))
           (texture_dir p : string) : Prop :=
  exists texture_node img,
    In texture_node texture_nodes /\
    helpers.is_hidden_name (node_name texture_node) = false /\
    image texture_node = Some img /\
    p = dest_path_of texture_dir img.

(** The files that differ are among the paths [paths]. *)
Definition written_to (paths : string -> Prop) (fs fs' : FileSystem) : Prop :=
  forall p, fs' p <> fs p -> paths p.

Lemma kept_refl fs : kept fs fs.
Proof. intros p data mtime Hp. now left. Qed.

Lemma kept_trans fs1 fs2 fs3 : kept fs1 fs2 -> kept fs2 fs3 -> kept fs1 fs3.
Proof.
  intros H12 H23 p data mtime Hp.
  destruct (H12 p data mtime Hp) as [H2|(d2 & t2 & H2 & Hlt)].
  - exact (H23 p data mtime H2).
  - right. destruct (H23 p d2 t2 H2) as [H3|(d3 & t3 & H3 & Hlt')].
    + now exists d2, t2.
    + exists d3, t3. split; [exact H3|lia].
Qed.

Lemma written_to_refl paths fs : written_to paths fs fs.
Proof. intros p Hp. now destruct Hp. Qed.

Lemma file_eq_dec (a b : option (string * Z)) : {a = b} + {a <> b}.
Proof.
  decide equality. decide equality; [apply Z.eq_dec|apply string_dec].
Qed.

Lemma written_to_trans paths fs1 fs2 fs3 :
  written_to paths fs1 fs2 -> written_to paths fs2 fs3 ->
  written_to paths fs1 fs3.
Proof.
  intros H12 H23 p Hp.
  destruct (file_eq_dec (fs3 p) (fs2 p)) as [E|N]; [|exact (H23 p N)].
  apply H12. now rewrite <- E.
Qed.

Lemma copy_one_spec texture_nodes texture_dir st texture_node :
  In texture_node texture_nodes ->
  let st' := copy_one pf texture_dir st texture_node in
  kept (fst (fst (fst st))) (fst (fst (fst st'))) /\
  written_to (destination texture_nodes texture_dir)
             (fst (fst (fst st))) (fst (fst (fst st'))).
Proof.
  intros Hin. destruct st as [[[fs ws] copied] skipped]. cbv zeta.
  unfold copy_one. cbn [fst].
  assert (Hsame : kept fs fs /\
                  written_to (destination texture_nodes texture_dir) fs fs)
    by (split; [apply kept_refl|apply written_to_refl]).
  destruct (helpers.is_hidden_name (node_name texture_node)) eqn:Hname;
    [exact Hsame|].
  destruct (image texture_node) as [img|] eqn:Himg; [|exact Hsame].
  destruct (_ && _); [exact Hsame|].
  destruct (fs (abspath img)) as [[source_data source_mtime]|] eqn:Hsrc;
    [|exact Hsame].
  fold (dest_path_of texture_dir img).
  assert (Hcopy : forall old,
             fs (dest_path_of texture_dir img) = old ->
             match old with
             | Some (_, dest_mtime) => (dest_mtime < source_mtime)%Z
             | None => True
             end ->
             let st' :=
               match copy2_error pf (abspath img)
                                 (dest_path_of texture_dir img) with
               | Some e =>
                   (fs, ws ++ [("Failed to copy texture " ++ image_name img
                                ++ ": " ++ e)%string], copied, skipped + 1)
               | None =>
                   (fs_put fs (dest_path_of texture_dir img)
                           (source_data, source_mtime), ws,
                    copied + 1, skipped)
               end in
             kept fs (fst (fst (fst st'))) /\
             written_to (destination texture_nodes texture_dir)
                        fs (fst (fst (fst st')))).
  { intros old Hold Hnewer. cbv zeta.
    destruct (copy2_error pf (abspath img) (dest_path_of texture_dir img));
      [exact Hsame|].
    cbn [fst]. split.
    - intros p data mtime Hp. unfold fs_put.
      destruct (String.eqb p (dest_path_of texture_dir img)) eqn:E;
        [|now left].
      apply String.eqb_eq in E. subst p. rewrite Hp in Hold. subst old.
      right. now exists source_data, source_mtime.
    - intros p Hp. unfold fs_put in Hp.
      destruct (String.eqb p (dest_path_of texture_dir img)) eqn:E;
        [|now destruct Hp].
      apply String.eqb_eq in E. subst p.
      exists texture_node, img. repeat split; assumption. }
  destruct (fs (dest_path_of texture_dir img))
    as [[dest_data dest_mtime]|] eqn:Hdest.
  - destruct (dest_mtime <? source_mtime)%Z eqn:Hlt; [|exact Hsame].
    apply (Hcopy _ eq_refl). now apply Z.ltb_lt.
  - now apply (Hcopy _ eq_refl).
Qed.

Lemma copy_fold all_nodes texture_dir texture_nodes : forall st,
  incl texture_nodes all_nodes ->
  let st' := fold_left (copy_one pf texture_dir) texture_nodes st in
  kept (fst (fst (fst st))) (fst (fst (fst st'))) /\
  written_to (destination all_nodes texture_dir)
             (fst (fst (fst st))) (fst (fst (fst st'))).
Proof.
  induction texture_nodes as [|n ns IH]; intros st Hincl; cbv zeta.
  - split; [apply kept_refl|apply written_to_refl].
  - cbn [fold_left].
    destruct (@copy_one_spec all_nodes texture_dir st n) as [Hk Hw];
      [apply Hincl; now left|].
    destruct (IH (copy_one pf texture_dir st n)) as [Hk' Hw'];
      [intros x Hx; apply Hincl; now right|].
    split; [eapply kept_trans; eassumption
           |eapply written_to_trans; eassumption].
Qed.

(** What the copy leaves of the files, and where it writes. *)
Lemma copy_textures_spec (context : Context F) (fs fs' : FileSystem) :
  snd (copy_textures_to_working_directory pf context fs) = Ok fs' ->
  kept fs fs' /\
  written_to
    (destination (utils.get_all_texture_nodes context)
       (join pf (join pf (working_dir context) "content") "textures"))
    fs fs'.
Proof.
  unfold copy_textures_to_working_directory.
  destruct (String.eqb (working_dir context) "").
  { cbn [snd]. intros E. injection E as <-.
    split; [apply kept_refl|apply written_to_refl]. }
  destruct (can_makedirs pf _); cbn [negb snd]; [|discriminate].
  match goal with
  | |- context [fold_left (copy_one pf ?d) ?ns ?st] =>
      destruct (@copy_fold ns d ns st (incl_refl ns)) as [Hk Hw];
      destruct (fold_left (copy_one pf d) ns st) as [[[fs1 ws] copied] skipped]
  end.
  cbn [fst snd] in *. intros E. injection E as <-. split; assumption.
Qed.


Lemma kept_exists fs fs' p :
  kept fs fs' -> fs_exists fs p = true -> fs_exists fs' p = true.
Proof.
  intros Hk. unfold fs_exists.
  destruct (fs p) as [[data mtime]|] eqn:Hp; [|discriminate]. intros _.
  destruct (Hk p data mtime Hp) as [->|(d & t & -> & _)]; reflexivity.
Qed.

(** X4.  Whatever [copy_textures] is, the warnings recorded while
    writing come first in the warnings returned, in their order; the
    status is "success" or "error"; no file other than the temporary one
    is deleted; and after a success the temporary file is gone and the
    destination exists. *)
Theorem export_kn5_keeps_files fs filepath context copy_textures :
  can_open_write pf (filepath ++ ".tmp") = true ->
  let temp_filepath := (filepath ++ ".tmp")%string in
  let r := export_kn5 pf new_material_writer fs filepath context copy_textures in
  (exists rest,
      warnings (fst r) = warned (run_of fs filepath context) ++ rest) /\
  (status (fst r) = "success" \/ status (fst r) = "error") /\
  (forall p, p <> temp_filepath ->
             fs_exists fs p = true -> fs_exists (snd r) p = true) /\
  (status (fst r) = "success" ->
   snd r temp_filepath = None /\ fs_exists (snd r) filepath = true).
Proof.
  intros Hopen. cbv zeta. unfold export_kn5. rewrite Hopen. cbn [negb].
  fold (run_of fs filepath context).
  pose proof (@temp_is_not_target filepath) as Htemp.
  set (fs1 := fs_put (fs_put fs (filepath ++ ".tmp") (encode pf [], now pf))
                     (filepath ++ ".tmp")
                     (encode pf (written (run_of fs filepath context)), now pf)).
  assert (H1 : forall p, p <> (filepath ++ ".tmp")%string ->
                         fs_exists fs p = true -> fs_exists fs1 p = true).
  { intros p Hp. unfold fs_exists, fs1. now rewrite !fs_put_other. }
  assert (Hfailed : forall fs2 w rest e,
             w = warned (run_of fs filepath context) ++ rest ->
             (forall p, p <> (filepath ++ ".tmp")%string ->
                        fs_exists fs p = true -> fs_exists fs2 p = true) ->
             let r := export_failed pf fs2 (filepath ++ ".tmp") w e in
             (exists rest,
                 warnings (fst r) = warned (run_of fs filepath context) ++ rest) /\
             (status (fst r) = "success" \/ status (fst r) = "error") /\
             (forall p, p <> (filepath ++ ".tmp")%string ->
                        fs_exists fs p = true -> fs_exists (snd r) p = true) /\
             (status (fst r) = "success" ->
              snd r (filepath ++ ".tmp")%string = None /\
              fs_exists (snd r) filepath = true)).
  { intros fs2 w rest e -> H2. cbv zeta.
    destruct (export_failed_spec fs2 (filepath ++ ".tmp")
                (warned (run_of fs filepath context) ++ rest) e)
      as (Hs & Hw & Hother & _).
    cbv zeta in *. split; [|split; [|split]].
    - rewrite Hw, <- app_assoc. eauto.
    - now right.
    - intros p Hp Hex. unfold fs_exists. rewrite (Hother p Hp).
      now apply H2.
    - rewrite Hs. discriminate. }
  destruct (result (run_of fs filepath context)) as [[]|e].
  2:{ apply (Hfailed fs1 _ [] e); [now rewrite app_nil_r|exact H1]. }
  destruct (if copy_textures
            then copy_textures_to_working_directory pf context fs1
            else ([], Ok fs1)) as [copy_warnings copied] eqn:Hcopy.
  assert (H2 : forall fs2, copied = Ok fs2 ->
                           forall p, p <> (filepath ++ ".tmp")%string ->
                                     fs_exists fs p = true ->
                                     fs_exists fs2 p = true).
  { intros fs2 -> p Hp Hex. destruct copy_textures.
    - destruct (@copy_textures_spec context fs1 fs2) as [Hkept _];
        [now rewrite Hcopy|].
      apply (kept_exists p Hkept). now apply H1.
    - injection Hcopy as _ <-. now apply H1. }
  destruct copied as [fs2|e]; [|now apply (Hfailed fs1 _ copy_warnings e)].
  specialize (H2 fs2 eq_refl).
  destruct (can_replace pf (filepath ++ ".tmp") filepath); cbn [negb];
    [|now apply (Hfailed fs2 _ copy_warnings)].
  destruct (fs2 (filepath ++ ".tmp")%string) as [f|];
    [|now apply (Hfailed fs2 _ copy_warnings)].
  cbn [fst snd status warnings]. split; [eauto|]. split; [now left|]. split.
  - intros p Hp Hex. unfold fs_exists, fs_put.
    destruct (String.eqb p filepath); [reflexivity|].
    unfold fs_remove. apply String.eqb_neq in Hp as Hp'. rewrite Hp'.
    now apply H2.
  - intros _. split.
    + rewrite fs_put_other by exact Htemp.
      unfold fs_remove. now rewrite String.eqb_refl.
    + unfold fs_exists. now rewrite fs_put_same.
Qed.
End ExportKn5.

(** A mesh without materials stops the export: the earlier export is
    still on the disk, and on a platform that cannot unlink the temporary
    file stays. *)
Lemma export_kn5_failed_write_witness :
  let r := export_kn5 (Samples.platform false) Samples.new_mat_writer
                      Samples.old_export "track.kn5"
                      (Samples.scene [Samples.bare "oak_2"]) true in
  status (fst r) = "error" /\
  snd r "track.kn5" = Some ("old bytes", 1%Z) /\
  snd r "track.kn5.tmp" <> None.
Proof.
  cbv zeta.
  assert (Hrun : result (run_of (Samples.platform false) Samples.new_mat_writer
                                Samples.old_export "track.kn5"
                                (Samples.scene [Samples.bare "oak_2"]))
                 = Raise (Exception "Object 'oak_2' has no material assigned"))
    by (vm_compute; reflexivity).
  destruct (@export_kn5_failed_write float float_scalar simple_mathutils
              (Samples.platform false) Samples.new_mat_writer
              Samples.old_export "track.kn5"
              (Samples.scene [Samples.bare "oak_2"]) true _ eq_refl Hrun)
    as (Hs & _ & _ & Hd & _ & Hkept).
  split; [exact Hs|]. split; [exact Hd|].
  change ("track.kn5.tmp") with ("track.kn5" ++ ".tmp")%string.
  rewrite (Hkept eq_refl). discriminate.
Defined.

(** The road is exported over the earlier export. *)
Lemma export_kn5_without_copy_witness :
  let r := export_kn5 (Samples.platform true) Samples.new_mat_writer
                      Samples.old_export "track.kn5"
                      (Samples.scene [Samples.road]) false in
  status (fst r) = "success" /\
  snd r "track.kn5.tmp" = None /\
  exists bytes, snd r "track.kn5" = Some (bytes, 100%Z).
Proof.
  cbv zeta.
  destruct (@export_kn5_without_copy float float_scalar simple_mathutils
              (Samples.platform true) Samples.new_mat_writer
              Samples.old_export "track.kn5"
              (Samples.scene [Samples.road]) eq_refl)
    as (Hiff & Hsucc & _).
  assert (Hs : status (fst (export_kn5 (Samples.platform true)
                                       Samples.new_mat_writer
                                       Samples.old_export "track.kn5"
                                       (Samples.scene [Samples.road]) false))
               = "success")
    by (apply Hiff; split; vm_compute; reflexivity).
  destruct (Hsucc Hs) as (_ & Hd & Ht & _).
  split; [exact Hs|]. split; [exact Ht|]. eexists. exact Hd.
Defined.

Lemma export_kn5_keeps_files_witness :
  let r := export_kn5 (Samples.platform true) Samples.new_mat_writer
                      Samples.old_export "track.kn5"
                      (Samples.scene [Samples.road]) true in
  fs_exists (snd r) "track.kn5" = true.
Proof.
  cbv zeta.
  destruct (@export_kn5_keeps_files float float_scalar simple_mathutils
              (Samples.platform true) Samples.new_mat_writer
              Samples.old_export "track.kn5"
              (Samples.scene [Samples.road]) true eq_refl)
    as (_ & _ & Hkeep & _).
  apply Hkeep; [discriminate|reflexivity].
Defined.
End ExportFacts.

(** ** The texture section: [texture_writer.py] *)

Module TextureFacts.
Import texture_writer WriterFacts DictFacts PyFacts.

(** The two magic numbers exclude each other. *)
Lemma dds_is_not_png (image_data : string) :
  is_dds_data image_data = true -> is_png_data image_data = false.
Proof.
  unfold is_dds_data, is_png_data, DDS_HEADER_BYTES, PNG_HEADER_BYTES.
  destruct image_data as [|c0 rest]; [discriminate|].
  cbn [substring String.eqb].
  destruct (Ascii.eqb_spec c0 "D") as [->|]; [|discriminate].
  intros _. reflexivity.
Qed.

Section Textures.
Context {F : Type} `{Scalar F} `{Mathutils F}.
Variable env : Env.

(** The conversion writes nothing to the file and returns a result
    unless the staging of the PNG raises. *)
Lemma convert_png_to_dds_writes_nothing png_data image_name :
  written (@convert_png_to_dds F _ env png_data image_name) = [].
Proof.
  unfold convert_png_to_dds.
  destruct (path_exists env (texconv_path env)); cbn [negb]; [|reflexivity].
  rewrite written_bind. cbn [lift written result].
  destruct (stage_png env _ png_data); [|reflexivity].
  destruct (run_texconv env _ png_data) as [[dds|]|stderr|message]; reflexivity.
Qed.

(** The conversion does not happen. *)
Definition conversion_fails (real_name image_data : string) : Prop :=
  path_exists env (texconv_path env) = false \/
  exists png_filename,
    png_filename = (fst (os_path.splitext real_name) ++ ".png")%string /\
    stage_png env png_filename image_data = Ok tt /\
    forall dds_data,
      run_texconv env png_filename image_data <> ToolExited (Some dds_data).

Lemma convert_png_to_dds_fails image_data real_name :
  conversion_fails real_name image_data ->
  exists reason,
    @convert_png_to_dds F _ env image_data real_name
    = mkM [] [reason] (Ok None) /\
    (path_exists env (texconv_path env) = false ->
     reason = ("texconv.exe not found at " ++ texconv_path env
               ++ " - PNG will not be converted")%string).
Proof.
  unfold conversion_fails, convert_png_to_dds.
  intros [Habsent|(png_filename & -> & Hstage & Hrun)].
  - rewrite Habsent. cbn [negb]. eexists. split; [reflexivity|auto].
  - destruct (path_exists env (texconv_path env)); cbn [negb].
    + rewrite Hstage.
      destruct (run_texconv env _ image_data) as [[dds|]|stderr|message] eqn:E.
      * now destruct (Hrun dds).
      * eexists. split; [reflexivity|discriminate].
      * eexists. split; [reflexivity|discriminate].
      * eexists. split; [reflexivity|discriminate].
    + eexists. split; [reflexivity|auto].
Qed.

(** X5.  A texture whose bytes start with the DDS magic number, or do
    not start with the PNG one, is passed through under its real name:
    the bytes are returned as they are, whatever the conversion tool would
    do, and no warning is recorded.  No data is both DDS and PNG. *)
Theorem _process_texture_passes_through texture_node img image_data :
  image texture_node = Some img ->
  _get_raw_image_data env img = Ok image_data ->
  is_dds_data image_data = true \/ is_png_data image_data = false ->
  _process_texture env texture_node
  = ret (get_real_texture_name img, image_data) /\
  (is_dds_data image_data = true -> is_png_data image_data = false).
Proof.
  intros Himg Hdata Hkind. split; [|apply dds_is_not_png].
  unfold _process_texture. rewrite Himg, Hdata, bind_lift_Ok.
  destruct (is_dds_data image_data); [reflexivity|].
  destruct Hkind as [Habs| ->]; [discriminate|reflexivity].
Qed.

(** X6.  A PNG texture that is not converted - the tool is absent, or
    it runs and leaves no output, exits with an error or cannot be run -
    is written as it is: the original bytes under the real name, after
    the warning that says why and the warning "Using original PNG for
    '<name>' (conversion failed)".  No exception is raised. *)
Theorem _process_texture_falls_back texture_node img image_data :
  image texture_node = Some img ->
  _get_raw_image_data env img = Ok image_data ->
  is_dds_data image_data = false ->
  is_png_data image_data = true ->
  conversion_fails (get_real_texture_name img) image_data ->
  let real_name := get_real_texture_name img in
  exists reason,
    _process_texture env texture_node
    = mkM [] [reason;
              ("Using original PNG for '" ++ real_name
               ++ "' (conversion failed)")%string]
          (Ok (real_name, image_data)) /\
    (path_exists env (texconv_path env) = false ->
     reason = ("texconv.exe not found at " ++ texconv_path env
               ++ " - PNG will not be converted")%string).
Proof.
  intros Himg Hdata Hdds Hpng Hfails. cbv zeta.
  destruct (convert_png_to_dds_fails Hfails) as (reason & Hconv & Hreason).
  exists reason. split; [|exact Hreason].
  unfold _process_texture. rewrite Himg, Hdata, bind_lift_Ok, Hdds, Hpng, Hconv.
  reflexivity.
Qed.

(** X7.  A PNG texture that the tool converts is written as the DDS
    bytes the tool made, under the real name with the extension replaced
    by [.dds], with the one warning that reports the conversion. *)
Theorem _process_texture_converts texture_node img image_data dds_data :
  image texture_node = Some img ->
  _get_raw_image_data env img = Ok image_data ->
  is_dds_data image_data = false ->
  is_png_data image_data = true ->
  path_exists env (texconv_path env) = true ->
  let real_name := get_real_texture_name img in
  let png_filename := (fst (os_path.splitext real_name) ++ ".png")%string in
  stage_png env png_filename image_data = Ok tt ->
  run_texconv env png_filename image_data = ToolExited (Some dds_data) ->
  _process_texture env texture_node
  = mkM [] [("Converted '" ++ real_name ++ "' to DDS ("
             ++ str_nat (String.length image_data) ++ " â†’ "
             ++ str_nat (String.length dds_data) ++ " bytes)")%string]
        (Ok ((fst (os_path.splitext real_name) ++ ".dds")%string, dds_data)).
Proof.
  intros Himg Hdata Hdds Hpng Htool. cbv zeta. intros Hstage Hrun.
  unfold _process_texture.
  rewrite Himg, Hdata, bind_lift_Ok, Hdds, Hpng.
  unfold convert_png_to_dds. rewrite Htool. cbn [negb].
  rewrite Hstage, Hrun. reflexivity.
Qed.

(** *** The section as a whole *)

(** The processing of the textures writes nothing to the file. *)
Lemma _process_texture_writes_nothing (texture_node : ShaderNodeTexImage F) :
  written (_process_texture env texture_node) = [].
Proof.
  unfold _process_texture. destruct (image texture_node) as [img|]; [|reflexivity].
  rewrite written_bind. cbn [lift written result].
  destruct (_get_raw_image_data env img) as [image_data|]; [|reflexivity].
  destruct (is_dds_data image_data); [reflexivity|].
  destruct (is_png_data image_data); [|reflexivity].
  rewrite written_bind, convert_png_to_dds_writes_nothing.
  destruct (result _) as [[[dds_data new_name]|]|]; reflexivity.
Qed.

(** The loop of [_process_all_textures], from a state [st]. *)
Definition process_loop (entries : list (string * ShaderNodeTexImage F))
           (st : list (string * (string * string)) * list (string * string))
  : W F (list (string * (string * string)) * list (string * string)) :=
  fold_m
    (fun (st : list (string * (string * string)) * list (string * string))
         (entry : string * ShaderNodeTexImage F) =>
       let '(processed, mapping) := st in
       let '(blender_name, texture_node) := entry in
       out <- _process_texture env texture_node;;
       let '(output_name, image_data) := out in
       let processed :=
         dict_set String.eqb processed blender_name (output_name, image_data) in
       ret (processed,
            if negb (String.eqb output_name blender_name)
            then dict_set String.eqb mapping blender_name output_name
            else mapping))
    entries st.

(** The entries [_process_all_textures] adds for the textures [done],
    each with what [_process_texture] returned for it. *)
Definition processed_of
           (done : list ((string * ShaderNodeTexImage F) * (string * string)))
  : list (string * (string * string)) :=
  map (fun eo => (fst (fst eo), snd eo)) done.

Definition renamed_of
           (done : list ((string * ShaderNodeTexImage F) * (string * string)))
  : list (string * string) :=
  flat_map (fun eo => if negb (String.eqb (fst (snd eo)) (fst (fst eo)))
                      then [(fst (fst eo), fst (snd eo))] else []) done.

Lemma dict_set_fresh {V} (d : list (string * V)) k v :
  ~ In k (map fst d) -> dict_set String.eqb d k v = d ++ [(k, v)].
Proof.
  induction d as [|[k' v'] d IH]; intros Hk; [reflexivity|].
  simpl in *. destruct (String.eqb_spec k' k) as [->|_]; [tauto|].
  rewrite IH by tauto. reflexivity.
Qed.

Lemma process_loop_spec entries : forall processed mapping,
  written (process_loop entries (processed, mapping)) = [] /\
  forall st',
    result (process_loop entries (processed, mapping)) = Ok st' ->
    NoDup (map fst processed ++ map fst entries) ->
    incl (map fst mapping) (map fst processed) ->
    exists outs,
      Forall2 (fun entry out =>
                 result (_process_texture env (snd entry)) = Ok out)
              entries outs /\
      fst st' = processed ++ processed_of (combine entries outs) /\
      snd st' = mapping ++ renamed_of (combine entries outs).
Proof.
  induction entries as [|[blender_name texture_node] entries IH];
    intros processed mapping.
  - unfold process_loop. cbn [fold_m ret result written].
    split; [reflexivity|]. intros st' E _ _.
    assert (st' = (processed, mapping)) as -> by congruence.
    exists []. cbn. rewrite !app_nil_r. repeat split. constructor.
  - unfold process_loop in *. cbn [fold_m].
    rewrite !written_bind, !result_bind, _process_texture_writes_nothing.
    destruct (result (_process_texture env texture_node))
      as [[output_name image_data]|e] eqn:Hout;
      cbn [ret result written app];
      [|split; [reflexivity|intros st' E; discriminate E]].
    match goal with
    | |- context [fold_m _ entries (?p1, ?m1)] =>
        destruct (IH p1 m1) as [IHw IHr]
    end.
    split; [exact IHw|].
    intros st' Hst'. cbn [fst snd map]. intros Hnd Hincl.
    assert (Hfresh : ~ In blender_name (map fst processed)).
    { apply NoDup_remove_2 in Hnd. intros Hin. apply Hnd.
      apply in_or_app. now left. }
    rewrite (@dict_set_fresh _ processed blender_name
               (output_name, image_data) Hfresh) in *.
    assert (Hmap : (if negb (String.eqb output_name blender_name)
                    then dict_set String.eqb mapping blender_name output_name
                    else mapping)
                   = mapping ++ renamed_of [((blender_name, texture_node),
                                             (output_name, image_data))]).
    { unfold renamed_of. cbn [flat_map fst snd]. rewrite app_nil_r.
      destruct (negb (String.eqb output_name blender_name));
        [|now rewrite app_nil_r].
      apply (@dict_set_fresh _ mapping). intros Hin. apply Hfresh. now apply Hincl. }
    rewrite Hmap in *.
    destruct (IHr st' Hst') as (outs & Houts & Hp & Hm).
    { rewrite map_app. cbn [map fst]. rewrite <- app_assoc. exact Hnd. }
    { intros k Hk. rewrite map_app in *. apply in_app_or in Hk.
      apply in_or_app. destruct Hk as [Hk|Hk]; [left; now apply Hincl|].
      right. unfold renamed_of in Hk. cbn [flat_map fst snd] in Hk.
      destruct (negb (String.eqb output_name blender_name)); [exact Hk|].
      destruct Hk. }
    exists ((output_name, image_data) :: outs).
    split; [constructor; [exact Hout|exact Houts]|].
    cbn [combine processed_of renamed_of map flat_map fst snd] in *.
    rewrite Hp, Hm, <- !app_assoc. split; reflexivity.
Qed.


(** A loop whose body neither raises nor writes keeps an invariant. *)
Lemma fold_m_silent {A S} (P : S -> Prop) (body : S -> A -> W F S) l :
  (forall st x, P st ->
                exists st', result (body st x) = Ok st' /\
                            written (body st x) = [] /\ P st') ->
  forall st, P st ->
             exists st', result (fold_m body l st) = Ok st' /\
                         written (fold_m body l st) = [] /\ P st'.
Proof.
  intros Hbody. induction l as [|x l IH]; intros st Hst.
  - exists st. repeat split. exact Hst.
  - cbn [fold_m]. rewrite result_bind, written_bind.
    destruct (Hbody st x Hst) as (st1 & -> & -> & H1).
    destruct (IH st1 H1) as (st2 & -> & -> & H2).
    exists st2. repeat split. exact H2.
Qed.

(** The writer as [TextureWriter(file, context, warnings)] leaves it:
    the two dictionaries have the same keys, in the same order. *)
Lemma TextureWriter_init_spec (context : Context F) :
  exists self,
    result (TextureWriter_init context) = Ok self /\
    written (TextureWriter_init context) = [] /\
    map fst (available_textures self) = map fst (texture_positions self) /\
    NoDup (map fst (available_textures self)).
Proof.
  unfold TextureWriter_init, _fill_available_image_textures.
  match goal with
  | |- context [fold_m ?body ?l ?init] =>
      destruct (@fold_m_silent _ _
                  (fun st : list (string * ShaderNodeTexImage F)
                            * list (string * nat) * nat =>
                     map fst (fst (fst st)) = map fst (snd (fst st)) /\
                     NoDup (map fst (fst (fst st))))
                  body l) with (st := init) as (st' & Hr & Hw & Hk & Hnd)
  end.
  - intros [[available positions] position] texture_node [Hk Hnd].
    cbn [fst snd] in *.
    destruct (negb (helpers.is_hidden_name (node_name texture_node)));
      [|eexists; repeat split; assumption].
    destruct (image texture_node) as [img|];
      [|eexists; repeat split; assumption].
    destruct (negb (pixels img)); [eexists; repeat split; assumption|].
    eexists. split; [reflexivity|]. split; [reflexivity|]. cbn [fst snd].
    split; [|now apply dict_set_NoDup].
    rewrite !dict_set_keys. unfold dict_mem.
    destruct (dict_get String.eqb available (image_name img)) eqn:Ea;
      destruct (dict_get String.eqb positions (image_name img)) eqn:Ep;
      try (now rewrite Hk).
    + apply dict_get_In_keys in Ea. apply dict_get_None in Ep.
      rewrite Hk in Ea. contradiction.
    + apply dict_get_In_keys in Ep. apply dict_get_None in Ea.
      rewrite Hk in Ea. contradiction.
  - cbn. split; [reflexivity|constructor].
  - repeat (progress (rewrite ?result_bind, ?written_bind, ?Hr, ?Hw;
                      cbn [ret result written app])).
    eexists. split; [reflexivity|]. split; [reflexivity|].
    cbn [available_textures texture_positions]. split; assumption.
Qed.

(** The tokens of one texture. *)
Definition texture_record (record : string * string) : list (token F) :=
  [W_int 1; W_string (fst record); W_blob (snd record)].

Lemma processed_of_keys entries outs :
  List.length entries = List.length outs ->
  map fst (processed_of (combine entries outs)) = map fst entries.
Proof.
  revert outs. induction entries as [|e entries IH]; intros [|o outs] Hl;
    try discriminate; [reflexivity|].
  cbn. f_equal. apply IH. simpl in Hl. lia.
Qed.

Lemma processed_of_get entries outs name texture_node :
  Forall2 (fun entry out =>
             result (_process_texture env (snd entry)) = Ok out) entries outs ->
  dict_get String.eqb entries name = Some texture_node ->
  exists out,
    result (_process_texture env texture_node) = Ok out /\
    dict_get String.eqb (processed_of (combine entries outs)) name = Some out.
Proof.
  induction 1 as [|[k n] out entries outs Hout _ IH]; [discriminate|].
  cbn [dict_get combine processed_of map fst snd].
  destruct (String.eqb k name).
  - intros E. injection E as <-. now exists out.
  - exact IH.
Qed.

Lemma records_exist (processed : list (string * (string * string)))
      (entries : list (string * nat)) :
  incl (map fst entries) (map fst processed) ->
  exists records,
    Forall2 (fun entry record =>
               dict_get String.eqb processed (fst entry) = Some record)
            entries records.
Proof.
  induction entries as [|[name position] entries IH]; intros Hincl.
  - exists []. constructor.
  - destruct IH as (records & Hrecords).
    { intros k Hk. apply Hincl. now right. }
    destruct (dict_get String.eqb processed name) as [record|] eqn:E.
    + exists (record :: records). now constructor.
    + apply dict_get_None in E. destruct E. apply Hincl. now left.
Qed.

(** X8.  The texture section is consistent.  The writer starts with the
    same names in [available_textures] and [texture_positions].  When a
    texture cannot be processed, [write] raises before anything is
    written.  Otherwise it writes the number of textures and then exactly
    that many records - the flag 1, the output name, the bytes - in the
    order of the positions, each being what [_process_texture] returned
    for the texture of that name. *)
Theorem texture_section_is_consistent (context : Context F) :
  exists self,
    result (TextureWriter_init context) = Ok self /\
    written (TextureWriter_init context) = [] /\
    map fst (available_textures self) = map fst (texture_positions self) /\
    match result (write env self) with
    | Raise _ => written (write env self) = []
    | Ok self' =>
        exists records,
          written (write env self)
          = W_int (List.length records) :: flat_map texture_record records /\
          List.length records = List.length (texture_positions self) /\
          Forall2 (fun entry record =>
                     dict_get String.eqb (_processed_textures self') (fst entry)
                     = Some record)
                  (sorted_by snd Nat.leb (texture_positions self)) records /\
          forall name texture_node,
            dict_get String.eqb (available_textures self) name
            = Some texture_node ->
            exists out,
              result (_process_texture env texture_node) = Ok out /\
              dict_get String.eqb (_processed_textures self') name = Some out
    end.
Proof.
  destruct (TextureWriter_init_spec context) as (self & Hr & Hw & Hk & Hnd).
  exists self. split; [exact Hr|]. split; [exact Hw|]. split; [exact Hk|].
  unfold write, _process_all_textures.
  fold (process_loop (available_textures self) ([], [])).
  destruct (process_loop_spec (available_textures self) [] []) as [Pw Pr].
  destruct (result (process_loop (available_textures self) ([], [])))
    as [st'|e] eqn:Hloop.
  2:{ repeat (progress (rewrite ?result_bind, ?written_bind, ?Pw, ?Hloop;
                        cbn [ret result written app])).
      reflexivity. }
  destruct (Pr st' eq_refl) as (outs & Houts & Hp & _);
    [exact Hnd|intros k []|].
  cbn [app] in Hp.
  repeat (progress (rewrite ?result_bind, ?written_bind, ?Pw, ?Hloop;
                    cbn [ret result written app _processed_textures
                         texture_positions write_int emit])).
  pose proof (Forall2_length Houts) as Hlen.
  assert (Hkeys : map fst (fst st') = map fst (texture_positions self))
    by (rewrite Hp, processed_of_keys, Hk; auto).
  destruct (@records_exist (fst st')
              (sorted_by snd Nat.leb (texture_positions self)))
    as (records & Hrecords).
  { intros k Hin. rewrite Hkeys. apply in_map_iff in Hin.
    destruct Hin as (entry & <- & Hin). apply in_map.
    now apply sorted_by_In in Hin. }
  match goal with
  | |- context [for_each ?body ?l] =>
      destruct (@for_each_ok (token F) _ body l) as (Er & Ew & _)
  end.
  { clear -Hrecords. induction Hrecords as [|entry [o d] l rs E _ IH];
      constructor; [|exact IH].
    now rewrite E. }
  rewrite ?Er, ?Ew. cbn [ret result written app].
  exists records. split; [|split; [|split]].
  - rewrite ?app_nil_r. f_equal.
    + apply (f_equal (@List.length _)) in Hkeys. rewrite !length_map in Hkeys.
      rewrite Hkeys, <- (Forall2_length Hrecords). now rewrite sorted_by_length.
    + clear -Hrecords. induction Hrecords as [|entry [o d] l rs E _ IH];
        [reflexivity|].
      cbn [map List.concat flat_map]. rewrite E, IH. reflexivity.
  - rewrite <- (Forall2_length Hrecords). apply sorted_by_length.
  - exact Hrecords.
  - intros name texture_node Hget. rewrite Hp.
    now apply processed_of_get.
Qed.
End Textures.

Lemma _process_texture_passes_through_witness :
  @_process_texture float simple_mathutils
    (Samples.tool (ToolError "cannot run"))
    (Samples.texture_node "diffuse" (Samples.packed "road.dds" Samples.dds_bytes))
  = ret ("road.dds", Samples.dds_bytes).
Proof.
  apply (proj1 (@_process_texture_passes_through float
                  simple_mathutils (Samples.tool (ToolError "cannot run"))
                  (Samples.texture_node "diffuse"
                     (Samples.packed "road.dds" Samples.dds_bytes))
                  (Samples.packed "road.dds" Samples.dds_bytes)
                  Samples.dds_bytes eq_refl eq_refl (or_introl eq_refl))).
Defined.

Lemma _process_texture_falls_back_witness :
  exists reason,
    @_process_texture float simple_mathutils Samples.no_tool
      (Samples.texture_node "diffuse"
         (Samples.packed "grass.png" Samples.png_bytes))
    = mkM [] [reason; "Using original PNG for 'grass.png' (conversion failed)"]
          (Ok ("grass.png", Samples.png_bytes)).
Proof.
  destruct (@_process_texture_falls_back float simple_mathutils
              Samples.no_tool
              (Samples.texture_node "diffuse"
                 (Samples.packed "grass.png" Samples.png_bytes))
              (Samples.packed "grass.png" Samples.png_bytes)
              Samples.png_bytes eq_refl eq_refl eq_refl eq_refl
              (or_introl eq_refl))
    as (reason & E & _).
  exists reason. exact E.
Defined.

Lemma _process_texture_converts_witness :
  result (@_process_texture float simple_mathutils
            (Samples.tool (ToolExited (Some Samples.dds_bytes)))
            (Samples.texture_node "diffuse"
               (Samples.packed "grass.png" Samples.png_bytes)))
  = Ok ("grass.dds", Samples.dds_bytes).
Proof.
  rewrite (@_process_texture_converts float simple_mathutils
             (Samples.tool (ToolExited (Some Samples.dds_bytes)))
             (Samples.texture_node "diffuse"
                (Samples.packed "grass.png" Samples.png_bytes))
             (Samples.packed "grass.png" Samples.png_bytes)
             Samples.png_bytes Samples.dds_bytes
             eq_refl eq_refl eq_refl eq_refl eq_refl eq_refl eq_refl).
  reflexivity.
Defined.
End TextureFacts.

(** ** Regular expressions: what the matcher accepts *)

Module RegexFacts.

Lemma append_nil_r (s : string) : (s ++ "")%string = s.
Proof. induction s as [|c s IH]; simpl; [reflexivity|now rewrite IH]. Qed.

Lemma append_assoc (a b c : string) :
  ((a ++ b) ++ c)%string = (a ++ b ++ c)%string.
Proof. induction a as [|x a IH]; simpl; [reflexivity|now rewrite IH]. Qed.

Lemma append_eq_nil (a b : string) :
  (a ++ b)%string = "" -> a = "" /\ b = "".
Proof. destruct a; simpl; [auto|discriminate]. Qed.

(** The language of a regular expression. *)
Inductive lang : regex -> string -> Prop :=
| lang_eps : lang Eps ""
| lang_chr p c : p c = true -> lang (Chr p) (String c "")
| lang_cat r s a b : lang r a -> lang s b -> lang (Cat r s) (a ++ b)
| lang_alt_l r s a : lang r a -> lang (Alt r s) a
| lang_alt_r r s a : lang s a -> lang (Alt r s) a
| lang_star_nil r : lang (Star r) ""
| lang_star_cons r a b :
    lang r a -> lang (Star r) b -> lang (Star r) (a ++ b).

Lemma nullable_spec r : nullable r = true <-> lang r "".
Proof.
  split.
  - induction r; simpl; intros Hn; try discriminate.
    + constructor.
    + apply andb_prop in Hn. destruct Hn.
      change "" with ("" ++ "")%string. constructor; auto.
    + apply orb_prop in Hn. destruct Hn; [apply lang_alt_l|apply lang_alt_r]; auto.
    + constructor.
  - intros Hl. remember "" as w eqn:Ew. induction Hl; simpl; try discriminate;
      try reflexivity.
    + apply append_eq_nil in Ew. destruct Ew as [-> ->].
      now rewrite IHHl1, IHHl2.
    + now rewrite IHHl.
    + rewrite IHHl by assumption. apply orb_true_r.
Qed.

Lemma lang_cat_inv r s w :
  lang (Cat r s) w -> exists a b, w = (a ++ b)%string /\ lang r a /\ lang s b.
Proof. intros Hl. inversion Hl; subst. eauto. Qed.

Lemma lang_star_cons_inv r c w :
  lang (Star r) (String c w) ->
  exists a b, w = (a ++ b)%string /\ lang r (String c a) /\ lang (Star r) b.
Proof.
  intros Hl. remember (Star r) as R eqn:ER. remember (String c w) as v eqn:Ev.
  revert w Ev. induction Hl; intros w Ev; try discriminate.
  injection ER as ->. destruct a as [|x a]; simpl in Ev.
  - now apply IHHl2.
  - injection Ev as -> <-. eauto.
Qed.

Lemma deriv_spec c r : forall w, lang (deriv c r) w <-> lang r (String c w).
Proof.
  induction r as [| |p|r IHr s IHs|r IHr s IHs|r IHr]; intros w; simpl.
  - split; intros Hl; inversion Hl.
  - split; intros Hl; inversion Hl.
  - destruct (p c) eqn:Hp; split; intros Hl; inversion Hl; subst.
    + now constructor.
    + constructor.
    + congruence.
  - assert (Hcat : lang (Cat (deriv c r) s) w <->
                   exists a b, w = (a ++ b)%string /\ lang r (String c a) /\ lang s b).
    { split.
      - intros Hl. apply lang_cat_inv in Hl. destruct Hl as (a & b & -> & Ha & Hb).
        apply IHr in Ha. eauto.
      - intros (a & b & -> & Ha & Hb). constructor; [now apply IHr|assumption]. }
    assert (Hfull : lang (Cat r s) (String c w) <->
                    (lang r "" /\ lang s (String c w)) \/
                    exists a b, w = (a ++ b)%string /\ lang r (String c a) /\ lang s b).
    { split.
      - intros Hl. apply lang_cat_inv in Hl. destruct Hl as (a & b & E & Ha & Hb).
        destruct a as [|x a]; simpl in E.
        + subst b. now left.
        + injection E as -> ->. right. eauto.
      - intros [[Ha Hb]|(a & b & -> & Ha & Hb)].
        + change (String c w) with ("" ++ String c w)%string. now constructor.
        + change (String c (a ++ b)) with (String c a ++ b)%string.
          now constructor. }
    rewrite Hfull. destruct (nullable r) eqn:Hn.
    + apply nullable_spec in Hn. split.
      * intros Hl. inversion Hl; subst.
        -- right. now apply Hcat.
        -- left. split; [assumption|now apply IHs].
      * intros [[_ Hb]|Hex].
        -- apply lang_alt_r. now apply IHs.
        -- apply lang_alt_l. now apply Hcat.
    + rewrite Hcat. split; [now right|].
      intros [[Ha _]|Hex]; [|assumption].
      apply nullable_spec in Ha. congruence.
  - split; intros Hl; inversion Hl; subst.
    + apply lang_alt_l. now apply IHr.
    + apply lang_alt_r. now apply IHs.
    + apply lang_alt_l. now apply IHr.
    + apply lang_alt_r. now apply IHs.
  - split.
    + intros Hl. apply lang_cat_inv in Hl. destruct Hl as (a & b & -> & Ha & Hb).
      change (String c (a ++ b)) with (String c a ++ b)%string.
      constructor; [now apply IHr|assumption].
    + intros Hl. apply lang_star_cons_inv in Hl.
      destruct Hl as (a & b & -> & Ha & Hb).
      constructor; [now apply IHr|assumption].
Qed.

(** The matcher decides the language. *)
Lemma accepts_spec w : forall r, accepts r w = true <-> lang r w.
Proof.
  induction w as [|c w IH]; intros r; simpl.
  - apply nullable_spec.
  - rewrite IH. apply deriv_spec.
Qed.

(** Every character of [s] satisfies [p]. *)
Fixpoint all_chars (p : ascii -> bool) (s : string) : bool :=
  match s with
  | EmptyString => true
  | String c s' => p c && all_chars p s'
  end.

Lemma all_chars_app p a b :
  all_chars p (a ++ b) = all_chars p a && all_chars p b.
Proof.
  induction a as [|c a IH]; simpl; [reflexivity|].
  now rewrite IH, andb_assoc.
Qed.

Lemma lang_chr_inv p w :
  lang (Chr p) w <-> exists c, w = String c "" /\ p c = true.
Proof.
  split.
  - intros Hl. inversion Hl; subst. eauto.
  - intros (c & -> & Hc). now constructor.
Qed.

Lemma lang_star_chr p w : lang (Star (Chr p)) w <-> all_chars p w = true.
Proof.
  split.
  - intros Hl. remember (Star (Chr p)) as R eqn:ER.
    induction Hl; try discriminate; [reflexivity|].
    injection ER as ->. apply lang_chr_inv in Hl1.
    destruct Hl1 as (c & -> & Hc). simpl.
    rewrite IHHl2 by reflexivity. now rewrite Hc.
  - induction w as [|c w IH]; simpl; intros Hw; [constructor|].
    apply andb_prop in Hw. destruct Hw as [Hc Hw].
    change (String c w) with (String c "" ++ w)%string.
    constructor; [now constructor|auto].
Qed.

Lemma lang_plus_chr p w :
  lang (Plus (Chr p)) w <-> w <> "" /\ all_chars p w = true.
Proof.
  unfold Plus. split.
  - intros Hl. apply lang_cat_inv in Hl. destruct Hl as (a & b & -> & Ha & Hb).
    apply lang_chr_inv in Ha. destruct Ha as (c & -> & Hc).
    apply lang_star_chr in Hb. simpl. split; [discriminate|].
    now rewrite Hc, Hb.
  - intros [Hne Hw]. destruct w as [|c w]; [congruence|].
    simpl in Hw. apply andb_prop in Hw. destruct Hw as [Hc Hw].
    change (String c w) with (String c "" ++ w)%string.
    constructor; [now constructor|now apply lang_star_chr].
Qed.

Lemma lang_lit s w : lang (Lit s) w <-> w = s.
Proof.
  revert w. induction s as [|c s IH]; intros w; simpl.
  - split; [intros Hl; now inversion Hl|intros ->; constructor].
  - split.
    + intros Hl. apply lang_cat_inv in Hl. destruct Hl as (a & b & -> & Ha & Hb).
      apply lang_chr_inv in Ha. destruct Ha as (x & -> & Hx).
      apply Ascii.eqb_eq in Hx. subst x. apply IH in Hb. now subst b.
    + intros ->. change (String c s) with (String c "" ++ s)%string.
      constructor; [constructor; apply Ascii.eqb_refl|now apply IH].
Qed.

Definition newline : string := String (ascii_of_nat 10) "".

(** [^r$]: the string is in the language of [r], possibly followed by
    one newline. *)
Lemma re_match_anchored_spec r w :
  re_match_anchored r w = true <->
  exists base ending,
    w = (base ++ ending)%string /\ lang r base /\
    (ending = "" \/ ending = newline).
Proof.
  unfold re_match_anchored. rewrite orb_true_iff, !accepts_spec. split.
  - intros [Hl|Hl].
    + exists w, "". rewrite append_nil_r. auto.
    + apply lang_cat_inv in Hl. destruct Hl as (a & b & -> & Ha & Hb).
      apply lang_chr_inv in Hb. destruct Hb as (c & -> & Hc).
      unfold is_newline in Hc. apply Ascii.eqb_eq in Hc. subst c.
      exists a, newline. auto.
  - intros (base & ending & -> & Hl & [->| ->]).
    + left. now rewrite append_nil_r.
    + right. constructor; [assumption|].
      constructor. apply Ascii.eqb_refl.
Qed.
End RegexFacts.

(** ** The names the node writer treats specially *)

Module NameFacts.
Import node_writer RegexFacts.

Lemma all_chars_suffix p a b :
  all_chars p (a ++ b) = true -> all_chars p b = true.
Proof.
  rewrite all_chars_app. intros Hab. apply andb_prop in Hab. tauto.
Qed.

Section Greedy.
Variables (cls : ascii -> bool) (rest : string -> bool).

Lemma greedy_plus_sound s g :
  greedy_plus cls rest s = Some g ->
  exists tail, s = (g ++ tail)%string /\ g <> "" /\
               all_chars cls g = true /\ rest tail = true.
Proof.
  revert g. induction s as [|c s IH]; intros g; simpl; [discriminate|].
  destruct (cls c) eqn:Hc; [|discriminate].
  destruct (greedy_plus cls rest s) as [g0|] eqn:E.
  - intros [= <-]. destruct (IH g0 eq_refl) as (tail & -> & _ & Hg & Hr).
    exists tail. simpl. rewrite Hc, Hg. repeat split; [discriminate|assumption].
  - destruct (rest s) eqn:Hr; [|discriminate]. intros [= <-].
    exists s. simpl. rewrite Hc. repeat split; [discriminate|assumption].
Qed.

Lemma greedy_plus_none s :
  (forall g tail, s = (g ++ tail)%string -> g <> "" ->
                  all_chars cls g = true -> rest tail = false) ->
  greedy_plus cls rest s = None.
Proof.
  induction s as [|c s IH]; intros Hno; simpl; [reflexivity|].
  destruct (cls c) eqn:Hc; [|reflexivity].
  rewrite IH.
  - rewrite (Hno (String c "") s); [reflexivity|reflexivity|discriminate|].
    simpl. now rewrite Hc.
  - intros g tail -> Hg Hall.
    apply (Hno (String c g) tail); [reflexivity|discriminate|].
    simpl. now rewrite Hc, Hall.
Qed.

(** The run returned is the longest one after which [rest] accepts. *)
Lemma greedy_plus_longest g : forall tail,
  g <> "" -> all_chars cls g = true -> rest tail = true ->
  (forall g' tail', tail = (g' ++ tail')%string -> g' <> "" ->
                    all_chars cls g' = true -> rest tail' = false) ->
  greedy_plus cls rest (g ++ tail) = Some g.
Proof.
  induction g as [|c g IH]; intros tail Hne Hall Hrest Hmax; [congruence|].
  simpl in *. apply andb_prop in Hall. destruct Hall as [Hc Hall].
  rewrite Hc. destruct g as [|c' g].
  - simpl. rewrite (greedy_plus_none Hmax), Hrest. reflexivity.
  - rewrite (IH tail); [reflexivity|discriminate|assumption..].
Qed.
End Greedy.

Lemma lower_app a b : lower (a ++ b) = (lower a ++ lower b)%string.
Proof. induction a as [|c a IH]; simpl; [reflexivity|now rewrite IH]. Qed.

Lemma strip_prefix_ignorecase_spec p : forall s t,
  strip_prefix_ignorecase p s = Some t <->
  exists pre, s = (pre ++ t)%string /\ lower pre = lower p.
Proof.
  induction p as [|a p IH]; intros s t; simpl.
  - split.
    + intros [= ->]. now exists "".
    + intros (pre & -> & Hpre). destruct pre; [reflexivity|discriminate].
  - destruct s as [|b s].
    + split; [discriminate|]. intros (pre & E & Hpre).
      destruct pre; simpl in *; discriminate.
    + destruct (Ascii.eqb_spec (lower_ascii a) (lower_ascii b)) as [Hab|Hab].
      * rewrite IH. split.
        -- intros (pre & -> & Hpre). exists (String b pre). simpl.
           now rewrite Hpre, Hab.
        -- intros (pre & E & Hpre). destruct pre as [|x pre]; [discriminate|].
           simpl in *. injection E as -> ->. injection Hpre as _ Hpre.
           now exists pre.
      * split; [discriminate|]. intros (pre & E & Hpre).
        destruct pre as [|x pre]; [discriminate|]. simpl in *.
        injection E as -> ->. injection Hpre as Hx _. congruence.
Qed.

(** What follows the group name: an underscore, digits, and possibly a
    newline that ends the name. *)
Definition number_tail (tail : string) : Prop :=
  exists number ending,
    tail = ("_" ++ number ++ ending)%string /\
    number <> "" /\ all_chars is_digit number = true /\
    (ending = "" \/ ending = newline).

Lemma rest_spec (tail : string) :
  match tail with
  | String "_" number => re_match_anchored (Plus Digit) number
  | _ => false
  end = true <-> number_tail tail.
Proof.
  unfold number_tail. split.
  - destruct tail as [|c tail]; [discriminate|].
    destruct (Ascii.eqb_spec c "_") as [->|Hc].
    + intros Hm. apply re_match_anchored_spec in Hm.
      destruct Hm as (number & ending & -> & Hl & He).
      apply lang_plus_chr in Hl. destruct Hl as [Hne Hd].
      now exists number, ending.
    + intros Hm. exfalso. revert Hm.
      destruct c as [[] [] [] [] [] [] [] []]; try discriminate.
      now destruct Hc.
  - intros (number & ending & -> & Hne & Hd & He). simpl.
    apply re_match_anchored_spec. exists number, ending.
    split; [reflexivity|]. split; [|assumption].
    now apply lang_plus_chr.
Qed.

Definition not_underscore (c : ascii) : bool := negb (Ascii.eqb c "_").

Lemma digits_not_underscore number :
  all_chars is_digit number = true -> all_chars not_underscore number = true.
Proof.
  induction number as [|c number IH]; simpl; [reflexivity|].
  intros Hd. apply andb_prop in Hd. destruct Hd as [Hc Hd].
  rewrite IH by assumption. rewrite andb_true_r.
  unfold not_underscore. destruct (Ascii.eqb_spec c "_") as [->|]; [|reflexivity].
  discriminate.
Qed.

(** X9.  On ASCII names, [_get_kstree_group_name] returns [g] exactly
    for the names made of a prefix that is KSTREE_GROUP_ up to case, the
    group name [g] - one or more letters, digits or underscores, returned
    in the case it is written in -, an underscore and one or more digits
    (a newline may end the name, as [$] allows).  The group name is the
    longest possible: it ends at the last underscore. *)
Theorem _get_kstree_group_name_spec (obj_name g : string) :
  _get_kstree_group_name obj_name = Some g <->
  exists prefix number ending,
    obj_name = (prefix ++ g ++ "_" ++ number ++ ending)%string /\
    lower prefix = "kstree_group_" /\
    g <> "" /\ all_chars is_group_char g = true /\
    number <> "" /\ all_chars is_digit number = true /\
    (ending = "" \/ ending = newline).
Proof.
  unfold _get_kstree_group_name, KSTREE_GROUP_PATTERN_match. split.
  - destruct (strip_prefix_ignorecase "KSTREE_GROUP_" obj_name) as [s|] eqn:Hp;
      [|discriminate].
    apply strip_prefix_ignorecase_spec in Hp. destruct Hp as (prefix & -> & Hpre).
    intros Hg. apply greedy_plus_sound in Hg.
    destruct Hg as (tail & -> & Hne & Hall & Hrest).
    apply rest_spec in Hrest.
    destruct Hrest as (number & ending & -> & Hn & Hd & He).
    exists prefix, number, ending. repeat split; assumption.
  - intros (prefix & number & ending & -> & Hpre & Hne & Hall & Hn & Hd & He).
    assert (Hp : strip_prefix_ignorecase "KSTREE_GROUP_"
                   (prefix ++ g ++ "_" ++ number ++ ending)
                 = Some (g ++ "_" ++ number ++ ending)%string).
    { apply strip_prefix_ignorecase_spec. now exists prefix. }
    rewrite Hp. apply greedy_plus_longest; [assumption..| |].
    + apply rest_spec. now exists number, ending.
    + intros g' tail' E Hg' _.
      destruct g' as [|c g']; [congruence|]. simpl in E. injection E as _ E.
      assert (Hnu : all_chars not_underscore tail' = true).
      { apply (@all_chars_suffix not_underscore g'). rewrite <- E.
        rewrite all_chars_app, (digits_not_underscore _ Hd).
        destruct He as [-> | ->]; reflexivity. }
      destruct tail' as [|x tail']; [reflexivity|].
      simpl in Hnu. apply andb_prop in Hnu. destruct Hnu as [Hx _].
      unfold not_underscore in Hx.
      destruct (Ascii.eqb_spec x "_") as [->|Hx']; [discriminate|].
      destruct x as [[] [] [] [] [] [] [] []]; try reflexivity.
      now destruct Hx'.
Qed.

Lemma lang_cat_lit p r w :
  lang (Cat (Lit p) r) w <-> exists t, w = (p ++ t)%string /\ lang r t.
Proof.
  split.
  - intros Hl. apply lang_cat_inv in Hl. destruct Hl as (a & b & -> & Ha & Hb).
    apply lang_lit in Ha. subst a. eauto.
  - intros (t & -> & Ht). constructor; [now apply lang_lit|assumption].
Qed.

(** One or more digits. *)
Definition digits (n : string) : Prop :=
  n <> "" /\ all_chars is_digit n = true.

(** The names of the objects Assetto Corsa knows. *)
Definition ac_name (base : string) : Prop :=
  (exists n, digits n /\
             (base = ("AC_START_" ++ n)%string \/
              base = ("AC_PIT_" ++ n)%string \/
              base = ("AC_TIME_" ++ n ++ "_L")%string \/
              base = ("AC_TIME_" ++ n ++ "_R")%string \/
              base = ("AC_HOTLAP_START_" ++ n)%string \/
              base = ("AC_CREW_" ++ n)%string)) \/
  In base ["AC_OPEN_FINISH_R"; "AC_OPEN_FINISH_L";
           "AC_OPEN_START_L"; "AC_OPEN_START_R"] \/
  (exists t, t <> "" /\
             all_chars (fun c => negb (is_newline c)) t = true /\
             base = ("AC_AUDIO_" ++ t)%string).

Lemma ac_name_spec base :
  ac_name base <-> exists r, In r ASSETTO_CORSA_OBJECTS /\ lang r base.
Proof.
  unfold ac_name, digits, ASSETTO_CORSA_OBJECTS. split.
  - intros [(n & Hn & Hb)|[Hb|(t & Ht & Hall & ->)]].
    + apply lang_plus_chr in Hn.
      destruct Hb as [->|[->|[->|[->|[->| ->]]]]].
      * exists (Cat (Lit "AC_START_") (Plus Digit)). split; [simpl; tauto|].
        apply lang_cat_lit. now exists n.
      * exists (Cat (Lit "AC_PIT_") (Plus Digit)). split; [simpl; tauto|].
        apply lang_cat_lit. now exists n.
      * exists (Cat (Lit "AC_TIME_") (Cat (Plus Digit) (Lit "_L"))).
        split; [simpl; tauto|]. apply lang_cat_lit. exists (n ++ "_L")%string.
        split; [reflexivity|]. constructor; [exact Hn|now apply lang_lit].
      * exists (Cat (Lit "AC_TIME_") (Cat (Plus Digit) (Lit "_R"))).
        split; [simpl; tauto|]. apply lang_cat_lit. exists (n ++ "_R")%string.
        split; [reflexivity|]. constructor; [exact Hn|now apply lang_lit].
      * exists (Cat (Lit "AC_HOTLAP_START_") (Plus Digit)).
        split; [simpl; tauto|]. apply lang_cat_lit. now exists n.
      * exists (Cat (Lit "AC_CREW_") (Plus Digit)). split; [simpl; tauto|].
        apply lang_cat_lit. now exists n.
    + simpl in Hb.
      destruct Hb as [<-|[<-|[<-|[<-|[]]]]].
      * exists (Lit "AC_OPEN_FINISH_R"). split; [simpl; tauto|now apply lang_lit].
      * exists (Lit "AC_OPEN_FINISH_L"). split; [simpl; tauto|now apply lang_lit].
      * exists (Lit "AC_OPEN_START_L"). split; [simpl; tauto|now apply lang_lit].
      * exists (Lit "AC_OPEN_START_R"). split; [simpl; tauto|now apply lang_lit].
    + exists (Cat (Lit "AC_AUDIO_") (Plus AnyChar)). split; [simpl; tauto|].
      apply lang_cat_lit. exists t. split; [reflexivity|].
      now apply lang_plus_chr.
  - intros (r & Hin & Hl). cbn [In] in Hin.
    repeat (destruct Hin as [<-|Hin]); try (now destruct Hin).
    + apply lang_cat_lit in Hl. destruct Hl as (n & -> & Hn).
      apply lang_plus_chr in Hn. left. exists n. tauto.
    + apply lang_cat_lit in Hl. destruct Hl as (n & -> & Hn).
      apply lang_plus_chr in Hn. left. exists n. tauto.
    + apply lang_cat_lit in Hl. destruct Hl as (t & -> & Ht).
      apply lang_cat_inv in Ht. destruct Ht as (n & e & -> & Hn & He).
      apply lang_plus_chr in Hn. apply lang_lit in He. subst e.
      left. exists n. tauto.
    + apply lang_cat_lit in Hl. destruct Hl as (t & -> & Ht).
      apply lang_cat_inv in Ht. destruct Ht as (n & e & -> & Hn & He).
      apply lang_plus_chr in Hn. apply lang_lit in He. subst e.
      left. exists n. tauto.
    + apply lang_cat_lit in Hl. destruct Hl as (n & -> & Hn).
      apply lang_plus_chr in Hn. left. exists n. tauto.
    + apply lang_lit in Hl. subst. right. left. simpl. tauto.
    + apply lang_lit in Hl. subst. right. left. simpl. tauto.
    + apply lang_lit in Hl. subst. right. left. simpl. tauto.
    + apply lang_lit in Hl. subst. right. left. simpl. tauto.
    + apply lang_cat_lit in Hl. destruct Hl as (t & -> & Ht).
      apply lang_plus_chr in Ht. right. right. exists t. tauto.
    + apply lang_cat_lit in Hl. destruct Hl as (n & -> & Hn).
      apply lang_plus_chr in Hn. left. exists n. tauto.
Qed.

(** A name of ASCII characters only: on such names a character of the
    Python string is a byte of the model's, and the digits of [\d] are
    [0] to [9]. *)
Definition ascii_only (name : string) : bool :=
  all_chars (fun c => Nat.ltb (nat_of_ascii c) 128) name.

(** X10.  On ASCII names, [_is_ac_object] accepts exactly the names of
    Assetto Corsa's objects, written in upper case: AC_START_, AC_PIT_,
    AC_HOTLAP_START_ or AC_CREW_ followed by digits, AC_TIME_<digits>_L or
    _R, the four AC_OPEN_ names, and AC_AUDIO_ followed by at least one
    character (a newline may end the name, as [$] allows). *)
Theorem _is_ac_object_spec (name : string) :
  ascii_only name = true ->
  (_is_ac_object name = true <->
   exists base ending,
     name = (base ++ ending)%string /\ ac_name base /\
     (ending = "" \/ ending = newline)).
Proof.
  intros _. unfold _is_ac_object. rewrite existsb_exists. split.
  - intros (r & Hin & Hm). apply re_match_anchored_spec in Hm.
    destruct Hm as (base & ending & -> & Hl & He).
    exists base, ending. split; [reflexivity|]. split; [|assumption].
    apply ac_name_spec. eauto.
  - intros (base & ending & -> & Hac & He). apply ac_name_spec in Hac.
    destruct Hac as (r & Hin & Hl). exists r. split; [assumption|].
    apply re_match_anchored_spec. eauto.
Qed.

Lemma _is_ac_object_spec_witness :
  ascii_only "AC_PIT_12" = true /\
  exists base ending,
    "AC_PIT_12" = (base ++ ending)%string /\ ac_name base /\
    (ending = "" \/ ending = newline).
Proof.
  assert (Hascii : ascii_only "AC_PIT_12" = true) by reflexivity.
  split; [exact Hascii|].
  apply (proj1 (_is_ac_object_spec "AC_PIT_12" Hascii)).
  vm_compute. reflexivity.
Defined.
End NameFacts.

(** ** Mesh nodes of ordinary objects *)

Module MeshNodeFacts.
Import node_writer constants helpers utils WriterFacts PyFacts GeometryFacts
       VertexLimitFacts GroupingFacts InstanceGroupFacts.

Section MeshNodes.
Context {F : Type} `{Scalar F} `{Mathutils F}.
Variable context : Context F.
Variable material_writer : MaterialWriter F.
Variable node_settings : list (NodeSettings F).

Lemma split_meshes_at_within limit (meshes : list (Mesh F)) : forall acc,
  Forall (fun mesh => List.length (vertices mesh) <= limit) meshes ->
  ofold (fun new_meshes mesh =>
           if limit <? List.length (vertices mesh)
           then split_while limit mesh 0 new_meshes
           else Ok (new_meshes ++ [mesh]))
        meshes acc = Ok (acc ++ meshes).
Proof.
  induction meshes as [|mesh meshes IH]; intros acc Hall; cbn [ofold].
  - now rewrite app_nil_r.
  - inversion Hall as [|? ? Hm Hrest]; subst.
    apply Nat.ltb_ge in Hm. rewrite Hm. cbn [obind].
    rewrite IH by assumption. now rewrite <- app_assoc.
Qed.

(** X11.  Limit-splitting returns the records as they are when none has
    more than 65536 vertices. *)
Theorem _split_meshes_for_vertex_limit_within (divided_meshes : list (Mesh F)) :
  Forall (fun mesh => List.length (vertices mesh) <= MAX_VERTICES_PER_MESH)
         divided_meshes ->
  _split_meshes_for_vertex_limit divided_meshes = Ok divided_meshes.
Proof.
  intros Hall. unfold _split_meshes_for_vertex_limit, split_meshes_at.
  now rewrite split_meshes_at_within.
Qed.

(** The tokens of the mesh node of [obj] for one record. *)
Definition mesh_node (obj : Object F) (node_properties : NodeProperties F)
           (mesh : Mesh F) : list (token F) :=
  merged_node (name obj)
              (match material_id mesh with
               | Some material_id => material_id
               | None => DEFAULT_MATERIAL_ID
               end)
              node_properties (vertices mesh) (indices mesh).

Lemma _write_mesh_runs (obj : Object F) (mesh : Mesh F) node_properties :
  List.length (vertices mesh) <= MAX_VERTICES_PER_MESH ->
  result (_write_mesh obj mesh node_properties) = Ok tt /\
  written (_write_mesh obj mesh node_properties)
  = mesh_node obj node_properties mesh /\
  warned (_write_mesh obj mesh node_properties)
  = match material_id mesh with
    | Some _ => []
    | None => [("No material to mesh '" ++ name obj ++ "' assigned")%string]
    end.
Proof.
  intros Hle. apply Nat.ltb_ge in Hle. unfold _write_mesh, mesh_node, merged_node.
  destruct (write_vertices_runs (vertices mesh)) as (Evr & Evw & Evn).
  destruct (write_indices_runs (F:=F) (indices mesh)) as (Eir & Eiw & Ein).
  rewrite Hle.
  split; [|split].
  - repeat (progress (rewrite ?result_bind, ?Evr, ?Eir;
                      cbn [result ret emit warn write_uint write_bool
                           write_string write_float write_vector3
                           _write_node_class _write_bounding_sphere])).
    destruct (material_id mesh); reflexivity.
  - repeat (progress (rewrite ?written_bind, ?result_bind, ?Evr, ?Eir, ?Evw, ?Eiw;
                      cbn [result written ret emit warn write_uint write_bool
                           write_string write_float write_vector3
                           _write_node_class _write_bounding_sphere app])).
    destruct (material_id mesh); reflexivity.
  - repeat (progress (rewrite ?warned_bind, ?result_bind, ?Evr, ?Eir, ?Evn, ?Ein;
                      cbn [result warned ret emit warn write_uint write_bool
                           write_string write_float write_vector3
                           _write_node_class _write_bounding_sphere app])).
    destruct (material_id mesh); reflexivity.
Qed.

(** The properties of the node of [obj], the settings applied. *)
Definition properties_of (obj : Object F) : NodeProperties F :=
  fold_left (fun node_properties node_setting =>
               apply_settings_to_node node_setting node_properties)
            node_settings (NodeProperties_init obj).

(** The node that holds the mesh nodes of [obj], when there is one. *)
Definition wrapper_node (obj : Object F) (transform : Matrix)
           (new_meshes : list (Mesh F)) : list (token F) :=
  [W_uint 1; W_string (name obj); W_uint (List.length new_meshes);
   W_bool true; W_matrix transform].

Lemma _write_meshes_run (obj : Object F) node_properties
      (new_meshes : list (Mesh F)) :
  Forall (fun mesh => List.length (vertices mesh) <= MAX_VERTICES_PER_MESH)
         new_meshes ->
  result (for_each (fun mesh => _write_mesh obj mesh node_properties) new_meshes)
  = Ok tt /\
  written (for_each (fun mesh => _write_mesh obj mesh node_properties) new_meshes)
  = flat_map (mesh_node obj node_properties) new_meshes.
Proof.
  intros Hall.
  destruct (@for_each_ok (token F) _
              (fun mesh => _write_mesh obj mesh node_properties) new_meshes)
    as (Er & Ew & _).
  { eapply Forall_impl; [|exact Hall]. intros mesh Hm.
    now destruct (_write_mesh_runs obj mesh node_properties Hm). }
  split; [exact Er|]. rewrite Ew, flat_map_concat_map. f_equal.
  apply map_ext_in. intros mesh Hin. rewrite Forall_forall in Hall.
  now destruct (_write_mesh_runs obj mesh node_properties (Hall mesh Hin))
    as (_ & E & _).
Qed.

(** X12.  [_write_mesh_node] raises nothing once the split by
    materials has succeeded (and, for a child, the world matrix of its
    parent can be inverted): the vertex-limit exception of [_write_mesh]
    cannot occur after limit-splitting.  It writes the mesh nodes of the
    records, each complete; they are preceded by a plain node named after
    the object, whose child count is their number, exactly when the object
    has a parent or there is more than one record. *)
Theorem _write_mesh_node_runs (obj : Object F) (divided_meshes : list (Mesh F))
        (transform : Matrix) :
  _split_object_by_materials material_writer obj = Ok divided_meshes ->
  match parent obj with
  | Some p => exists inverse, inverted (parent_matrix_world p) = Ok inverse /\
                              transform = convert_matrix inverse
  | None => transform = Matrix_identity
  end ->
  exists new_meshes,
    _split_meshes_for_vertex_limit divided_meshes = Ok new_meshes /\
    Forall (fun mesh => List.length (vertices mesh) <= MAX_VERTICES_PER_MESH)
           new_meshes /\
    result (_write_mesh_node material_writer node_settings obj) = Ok tt /\
    written (_write_mesh_node material_writer node_settings obj)
    = (match parent obj, 1 <? List.length new_meshes with
       | None, false => []
       | _, _ => wrapper_node obj transform new_meshes
       end)
      ++ flat_map (mesh_node obj (properties_of obj)) new_meshes.
Proof.
  intros Hsplit Hparent.
  destruct (VertexCeiling.limit_splitting
              (_split_object_by_materials_well_formed _ _ Hsplit))
    as (new_meshes & Hlimit & Hlen & _).
  exists new_meshes. split; [exact Hlimit|]. split; [exact Hlen|].
  destruct (_write_meshes_run obj (properties_of obj) Hlen) as (Er & Ew).
  unfold _write_mesh_node. rewrite Hsplit, bind_lift_Ok, Hlimit, bind_lift_Ok.
  fold (properties_of obj).
  rewrite result_bind, written_bind, Er, Ew.
  destruct (parent obj) as [p|].
  - destruct Hparent as (inverse & Hinv & ->). rewrite Hinv.
    rewrite !bind_lift_Ok, bind_ret. split; reflexivity.
  - subst transform. destruct (1 <? List.length new_meshes).
    + rewrite bind_ret. split; reflexivity.
    + split; reflexivity.
Qed.

(** [_write_object], one level unfolded. *)
Lemma _write_object_unfold (obj : Object F) :
  _write_object context material_writer node_settings obj
  = if negb (is_hidden_name (name obj)) then
      (if String.eqb (type obj) "MESH" then
         match children obj with
         | _ :: _ =>
             raise (Exception ("A mesh cannot contain children ('"
                               ++ name obj ++ "')"))
         | [] => _write_mesh_node material_writer node_settings obj
         end
       else _write_base_node context (Some obj) (name obj));;
      for_each (fun child =>
                  if negb (is_object_excluded_by_collection child context)
                  then _write_object context material_writer node_settings child
                  else ret tt)
               (children obj)
    else ret tt.
Proof.
  destruct obj as [nm ty pa ch hv hr hg uc mw ml di kn ms tm].
  cbn [_write_object bpy.name bpy.type bpy.children].
  destruct (negb (is_hidden_name nm)); [|reflexivity].
  f_equal. clear. induction ch as [|child ch IH]; [reflexivity|].
  cbn [for_each]. now rewrite <- IH.
Qed.

(** X13.  A mesh object with materials and no triangle yields no
    record: without a parent it writes nothing at all, neither a node nor a
    warning.  Alone in the scene, as an ordinary top-level object, it is
    still counted: [write] gives a root that announces one child, and no
    node follows. *)
Theorem _write_mesh_node_without_triangles (obj : Object F) :
  loop_triangles (to_mesh obj) = [] ->
  materials (to_mesh obj) <> [] ->
  parent obj = None ->
  type obj = "MESH" ->
  children obj = [] ->
  _split_object_by_materials material_writer obj = Ok [] /\
  _write_mesh_node material_writer node_settings obj = ret tt /\
  _write_object context material_writer node_settings obj = ret tt /\
  (blend_data_objects context = [obj] ->
   is_regular context obj = true ->
   write context material_writer node_settings
   = mkM [W_uint 1; W_string "BlenderFile"; W_uint 1; W_bool true;
          W_matrix Matrix_identity] [] (Ok tt)).
Proof.
  intros Htri Hmat Hparent Hmesh Hch.
  assert (Hsplit : _split_object_by_materials material_writer obj = Ok []).
  { unfold _split_object_by_materials. rewrite Htri.
    destruct (materials (to_mesh obj)); [congruence|reflexivity]. }
  assert (Hnode : _write_mesh_node material_writer node_settings obj = ret tt).
  { unfold _write_mesh_node. rewrite Hsplit, Hparent. reflexivity. }
  assert (Hobj : _write_object context material_writer node_settings obj = ret tt).
  { rewrite _write_object_unfold, Hmesh, Hch, Hnode. cbn [for_each].
    now destruct (negb (is_hidden_name (name obj))). }
  split; [exact Hsplit|]. split; [exact Hnode|]. split; [exact Hobj|].
  intros Hobjs Hreg. unfold is_regular, group_name_of in Hreg.
  apply andb_prop in Hreg. destruct Hreg as [Htop Hgroup].
  unfold write, _collect_and_group_objects. rewrite Hobjs.
  cbn [fold_left]. unfold collect_object. rewrite Htop. cbn [negb].
  destruct (_get_kstree_group_name (name obj)) as [[|c g]|];
    try discriminate; cbn; rewrite Hobj; reflexivity.
Qed.
End MeshNodes.

Lemma _split_meshes_for_vertex_limit_within_witness :
  _split_meshes_for_vertex_limit
    [mkMesh (Some 0) [Samples.near_u; Samples.near_v] [0; 1; 0]]
  = Ok [mkMesh (Some 0) [Samples.near_u; Samples.near_v] [0; 1; 0]].
Proof.
  apply _split_meshes_for_vertex_limit_within.
  constructor; [|constructor].
  cbn [vertices List.length]. unfold MAX_VERTICES_PER_MESH. lia.
Defined.

Lemma _write_mesh_node_runs_witness :
  result (_write_mesh_node Samples.mat_writer [] Samples.road) = Ok tt.
Proof.
  assert (Hs : exists divided_meshes,
             _split_object_by_materials Samples.mat_writer Samples.road
             = Ok divided_meshes)
    by (eexists; vm_compute; reflexivity).
  destruct Hs as [divided_meshes Hs].
  destruct (@_write_mesh_node_runs float float_scalar simple_mathutils
              Samples.mat_writer [] Samples.road divided_meshes
              (@Matrix_identity float simple_mathutils) Hs eq_refl)
    as (new_meshes & _ & _ & Hr & _).
  exact Hr.
Defined.

Lemma _write_mesh_node_without_triangles_witness :
  write (Samples.scene [Samples.hollow]) Samples.mat_writer []
  = mkM [W_uint 1; W_string "BlenderFile"; W_uint 1; W_bool true;
         W_matrix (@Matrix_identity float simple_mathutils)] [] (Ok tt).
Proof.
  destruct (@_write_mesh_node_without_triangles float float_scalar
              simple_mathutils (Samples.scene [Samples.hollow])
              Samples.mat_writer [] Samples.hollow
              eq_refl ltac:(discriminate) eq_refl eq_refl eq_refl)
    as (_ & _ & _ & Hw).
  apply Hw; reflexivity.
Defined.
End MeshNodeFacts.

(** ** What stops an export *)

Module RefusalFacts.
Import node_writer constants helpers utils exporter WriterFacts PyFacts
       GroupingFacts InstanceGroupFacts MeshNodeFacts ExportFacts.

Section Refusals.
Context {F : Type} `{Scalar F} `{Mathutils F}.
Variable pf : Platform F.
Variable new_material_writer :
  Context F -> list (string * string) -> MaterialWriter F.

(** The slots the triangles of [obj] use. *)
Definition used_materials (obj : Object F) : list nat :=
  set_of (map (@material_index) (loop_triangles (to_mesh obj))).

(** What the per-object path does not accept of a mesh object: children,
    no material at all, or a used slot that is empty or holds a material
    with a hidden name. *)
Definition refused (obj : Object F) : Prop :=
  children obj <> [] \/
  materials (to_mesh obj) = [] \/
  exists material_index slot,
    In material_index (used_materials obj) /\
    getitem (materials (to_mesh obj)) material_index = Ok slot /\
    skipped_slot slot.

Lemma ofold_raises {A S} (f : S -> A -> outcome S) (l : list A) x :
  In x l -> (forall s, exists e, f s x = Raise e) ->
  forall s, exists e, ofold f l s = Raise e.
Proof.
  induction l as [|y l IH]; intros Hin Hx s; [destruct Hin|].
  cbn [ofold]. destruct Hin as [->|Hin].
  - destruct (Hx s) as [e ->]. now exists e.
  - destruct (f s y) as [s'|e]; cbn [obind]; [now apply IH|now exists e].
Qed.

Lemma _split_object_by_materials_raises material_writer (obj : Object F) :
  materials (to_mesh obj) = [] \/
  (exists material_index slot,
      In material_index (used_materials obj) /\
      getitem (materials (to_mesh obj)) material_index = Ok slot /\
      skipped_slot slot) ->
  exists e, _split_object_by_materials material_writer obj = Raise e.
Proof.
  unfold _split_object_by_materials.
  intros [Hm|(material_index & slot & Hin & Hslot & Hskip)].
  - rewrite Hm. eauto.
  - destruct (materials (to_mesh obj)) as [|slot0 slots] eqn:Em; [eauto|].
    rewrite <- Em in *. clear Em.
    apply (ofold_raises _ _ _ Hin). intros meshes.
    unfold split_material. rewrite Hslot. cbn [obind].
    destruct slot as [material|]; [|eauto].
    simpl in Hskip. rewrite Hskip. eauto.
Qed.

Lemma _write_object_raises context material_writer node_settings
      (obj : Object F) :
  is_hidden_name (name obj) = false -> type obj = "MESH" -> refused obj ->
  raises (_write_object context material_writer node_settings obj).
Proof.
  intros Hhid Hmesh Href. rewrite _write_object_unfold, Hhid, Hmesh.
  cbn [negb String.eqb Ascii.eqb Bool.eqb]. apply raises_bind_l.
  destruct Href as [Hch|Hsplit].
  - destruct (children obj); [congruence|]. eexists. reflexivity.
  - destruct (children obj); [|eexists; reflexivity].
    destruct (_split_object_by_materials_raises material_writer obj Hsplit)
      as [e He].
    exists e. unfold _write_mesh_node. now rewrite He.
Qed.

Lemma write_raises context material_writer node_settings (obj : Object F) :
  In obj (blend_data_objects context) ->
  is_regular context obj = true -> type obj = "MESH" -> refused obj ->
  raises (write context material_writer node_settings).
Proof.
  intros Hin Hreg Hmesh Href.
  destruct (_collect_and_group_objects_spec context) as (Hregular & _).
  unfold write.
  destruct (_collect_and_group_objects context) as [regular groups].
  cbn [fst] in Hregular.
  apply raises_bind_r. intros _. apply raises_bind_r. intros _.
  apply for_each_raises with (x := obj).
  - rewrite Hregular. apply sorted_by_In. apply filter_In. now split.
  - apply _write_object_raises; [|assumption..].
    unfold is_regular in Hreg. apply andb_prop in Hreg. destruct Hreg as [Htop _].
    unfold is_top_level_exported in Htop.
    destruct (parent obj); [discriminate|].
    now destruct (is_hidden_name (name obj)).
Qed.

(** X14.  An ordinary top-level mesh object that has children, no
    material at all, or a used material slot that is empty or holds a
    material with a hidden name stops the export: the writing of the nodes
    raises, [export_kn5] returns the status "error" with an "Export
    failed: ..." warning, and the destination is as it was. *)
Theorem export_kn5_refuses fs filepath (context : Context F) copy_textures obj :
  In obj (blend_data_objects context) ->
  is_regular context obj = true ->
  type obj = "MESH" ->
  refused obj ->
  let r := export_kn5 pf new_material_writer fs filepath context copy_textures in
  (forall material_writer node_settings,
      raises (write context material_writer node_settings)) /\
  status (fst r) = "error" /\
  (exists e, In ("Export failed: " ++ str_exn e)%string (warnings (fst r))) /\
  snd r filepath = fs filepath.
Proof.
  intros Hin Hreg Hmesh Href. cbv zeta.
  assert (Hwrite : forall material_writer node_settings,
             raises (write context material_writer node_settings))
    by (intros; now apply write_raises with (obj := obj)).
  split; [exact Hwrite|].
  pose proof (@temp_is_not_target filepath) as Htemp.
  assert (Hfailed : forall fs1 w e,
             fs1 filepath = fs filepath ->
             let r := export_failed pf fs1 (filepath ++ ".tmp") w e in
             status (fst r) = "error" /\
             (exists e, In ("Export failed: " ++ str_exn e)%string
                           (warnings (fst r))) /\
             snd r filepath = fs filepath).
  { intros fs1 w e Hfs1. cbv zeta.
    destruct (export_failed_spec pf fs1 (filepath ++ ".tmp") w e)
      as (Hs & Hw & Hother & _).
    split; [exact Hs|]. split.
    - exists e. rewrite Hw. apply in_or_app. right. now left.
    - rewrite Hother; [exact Hfs1|]. intros E. now apply Htemp. }
  unfold export_kn5.
  destruct (can_open_write pf (filepath ++ ".tmp")); cbn [negb];
    [|now apply Hfailed].
  match goal with
  | |- context [result ?run] =>
      assert (Hrun : raises run)
  end.
  { unfold KN5Exporter_write, _write_content.
    repeat (apply raises_bind_r; intros ?). apply Hwrite. }
  destruct Hrun as [e He]. rewrite He.
  apply Hfailed. rewrite !fs_put_other; [reflexivity|..];
    intros E; now apply Htemp.
Qed.
End Refusals.

Lemma export_kn5_refuses_witness :
  let r := export_kn5 (Samples.platform true) Samples.new_mat_writer
                      Samples.old_export "track.kn5"
                      (Samples.scene [Samples.road; Samples.bare "oak_2"])
                      true in
  status (fst r) = "error" /\
  snd r "track.kn5" = Some ("old bytes", 1%Z).
Proof.
  cbv zeta.
  assert (Hreg : is_regular (Samples.scene [Samples.road; Samples.bare "oak_2"])
                            (Samples.bare "oak_2") = true)
    by (vm_compute; reflexivity).
  destruct (@export_kn5_refuses float float_scalar simple_mathutils
              (Samples.platform true) Samples.new_mat_writer
              Samples.old_export "track.kn5"
              (Samples.scene [Samples.road; Samples.bare "oak_2"]) true
              (Samples.bare "oak_2")
              (or_intror (or_introl eq_refl)) Hreg eq_refl
              (or_intror (or_introl eq_refl)))
    as (_ & Hs & _ & Hd).
  split; [exact Hs|exact Hd].
Defined.
End RefusalFacts.

(** ** The records of the two extraction paths *)

Module RecordFacts.
Import node_writer constants helpers utils WriterFacts PyFacts OutcomeFacts
       GeometryFacts VertexLimitFacts InstanceGroupFacts MeshNodeFacts
       RefusalFacts.

Lemma ofold_appends {A B} (R : A -> B -> Prop)
      (f : list B -> A -> outcome (list B)) :
  (forall acc x acc', f acc x = Ok acc' ->
                      exists y, acc' = acc ++ [y] /\ R x y) ->
  forall l acc out,
    ofold f l acc = Ok out -> exists ys, out = acc ++ ys /\ Forall2 R l ys.
Proof.
  intros Hf. induction l as [|x l IH]; intros acc out; cbn [ofold].
  - intros [= <-]. exists []. rewrite app_nil_r. split; [reflexivity|constructor].
  - destruct (f acc x) as [acc'|e] eqn:E; cbn [obind]; [|discriminate].
    intros Hout. destruct (Hf _ _ _ E) as (y & -> & Hy).
    destruct (IH _ _ Hout) as (ys & -> & Hys).
    exists (y :: ys). rewrite <- app_assoc. split; [reflexivity|].
    now constructor.
Qed.

(** Limit-splitting keeps the material of each record. *)
Lemma split_meshes_at_materials {F} limit (P : option nat -> Prop)
      (meshes : list (Mesh F)) :
  3 <= limit ->
  forall acc out,
    Forall (@indices_valid F) meshes ->
    Forall (fun mesh => P (material_id mesh)) acc ->
    Forall (fun mesh => P (material_id mesh)) meshes ->
    ofold (fun new_meshes mesh =>
             if limit <? List.length (vertices mesh)
             then split_while limit mesh 0 new_meshes
             else Ok (new_meshes ++ [mesh])) meshes acc = Ok out ->
    Forall (fun mesh => P (material_id mesh)) out.
Proof.
  intros Hlimit. induction meshes as [|mesh meshes IH];
    intros acc out Hvalid Hacc Hall; cbn [ofold].
  - now intros [= <-].
  - inversion Hvalid as [|? ? Hmesh Hrest]; subst.
    inversion Hall as [|? ? Hm Hms]; subst.
    destruct (limit <? List.length (vertices mesh)).
    + destruct (@split_while_spec F limit mesh Hlimit Hmesh
                  (List.length (indices mesh)) 0 acc)
        as (cs & Es & Hcs & _); [lia|apply Nat.divide_0_r|].
      rewrite Es. cbn [obind]. apply IH; [assumption| |assumption].
      apply Forall_app. split; [assumption|].
      eapply Forall_impl; [|exact Hcs]. intros c (_ & E & _). now rewrite E.
    + cbn [obind]. apply IH; [assumption| |assumption].
      apply Forall_app. split; [assumption|now constructor].
Qed.

Section Records.
Context {F : Type} `{Scalar F} `{Mathutils F}.
Variable material_writer : MaterialWriter F.

(** The record of the slot [material_index] of [obj]: the slot holds a
    material that is not hidden, and the record has its id. *)
Definition record_of (obj : Object F) (material_index : nat) (mesh : Mesh F)
  : Prop :=
  exists material id,
    getitem (materials (to_mesh obj)) material_index = Ok (Some material) /\
    is_hidden_name (material_name material) = false /\
    dict_get String.eqb (material_positions material_writer)
             (material_name material) = Some id /\
    material_id mesh = Some id.

Lemma split_material_appends obj has_uvs uv_layer meshes material_index meshes' :
  split_material material_writer obj (to_mesh obj) has_uvs uv_layer meshes
                 material_index = Ok meshes' ->
  exists mesh, meshes' = meshes ++ [mesh] /\ record_of obj material_index mesh.
Proof.
  unfold split_material, record_of. intros Hs.
  apply obind_Ok in Hs as (slot & Hslot & Hs).
  destruct slot as [material|]; [|discriminate].
  destruct (is_hidden_name (material_name material)) eqn:Hhid; [discriminate|].
  apply obind_Ok in Hs as ([d indices] & _ & Hs).
  destruct (dict_get String.eqb (material_positions material_writer)
                     (material_name material)) as [id|] eqn:Hid;
    [|discriminate].
  injection Hs as <-. eexists. split; [reflexivity|].
  exists material, id. repeat split; assumption.
Qed.

(** X15.  When [_split_object_by_materials] returns, it returns one
    record for each material slot the triangles use, each slot once, in
    the order the set of the slots is iterated, whatever that order is;
    the slot holds a material that is not hidden and the record carries
    the id the material writer gave it; its indices name vertices of its
    own list and come in threes.  So a record always has a material:
    [_write_mesh_node] never records a warning. *)
Theorem _split_object_by_materials_records (obj : Object F)
        (divided_meshes : list (Mesh F)) node_settings :
  _split_object_by_materials material_writer obj = Ok divided_meshes ->
  (exists slots,
      NoDup slots /\
      (forall material_index,
          In material_index slots <->
          exists triangle, In triangle (loop_triangles (to_mesh obj)) /\
                           bpy.material_index triangle = material_index) /\
      Forall2 (record_of obj) slots divided_meshes) /\
  Forall (fun mesh => indices_valid mesh /\ triangulated mesh) divided_meshes /\
  warned (_write_mesh_node material_writer node_settings obj) = [].
Proof.
  intros Hsplit.
  assert (Hrecords : Forall2 (record_of obj) (used_materials obj) divided_meshes).
  { unfold _split_object_by_materials in Hsplit.
    destruct (materials (to_mesh obj)); [discriminate|].
    apply (@ofold_appends _ _ (record_of obj)) in Hsplit.
    - destruct Hsplit as (ys & -> & Hys). exact Hys.
    - intros acc x acc'. apply split_material_appends. }
  split.
  { exists (used_materials obj). split; [|split; [|exact Hrecords]].
    - unfold used_materials, set_of.
      eapply Permutation_NoDup; [symmetry; apply sorted_by_perm|].
      apply NoDup_nodup.
    - intros material_index. unfold used_materials.
      rewrite set_of_In, in_map_iff. split.
      + intros (triangle & E & Hin). eauto.
      + intros (triangle & Hin & E). eauto. }
  pose proof (_split_object_by_materials_well_formed _ _ Hsplit) as Hwf.
  split; [exact Hwf|].
  assert (Hids : Forall (fun mesh => material_id mesh <> None) divided_meshes).
  { clear -Hrecords. induction Hrecords as [|i m l ms (mat & id & _ & _ & _ & E) _ IH];
      constructor; [congruence|exact IH]. }
  destruct (VertexCeiling.limit_splitting Hwf) as (new_meshes & Hlimit & Hlen & _).
  assert (Hids' : Forall (fun mesh => material_id mesh <> None) new_meshes).
  { apply (@split_meshes_at_materials F MAX_VERTICES_PER_MESH
             (fun id => id <> None) divided_meshes VertexCeiling.limit_ge_3
             [] new_meshes); [|constructor|exact Hids|exact Hlimit].
    eapply Forall_impl; [|exact Hwf]. now intros m [Hm _]. }
  unfold _write_mesh_node.
  rewrite Hsplit, bind_lift_Ok, Hlimit, bind_lift_Ok, warned_bind.
  assert (Hwrapper :
            forall w : W F unit,
              w = (transform_matrix <-
                     match parent obj with
                     | Some p =>
                         inverse <- lift (inverted (parent_matrix_world p));;
                         ret (convert_matrix inverse)
                     | None => ret Matrix_identity
                     end;;
                   _write_base_node_data
                     {| nd_name := name obj;
                        childCount := List.length new_meshes;
                        active := true;
                        transform := transform_matrix |}) ->
              warned w = []).
  { intros w ->. rewrite warned_bind. destruct (parent obj) as [p|].
    - rewrite warned_bind, result_bind. cbn [lift warned result app].
      destruct (inverted (parent_matrix_world p)); reflexivity.
    - reflexivity. }
  match goal with
  | |- warned ?w ++ _ = [] =>
      assert (Ew : warned w = [])
        by (destruct (parent obj) as [p|];
            [apply Hwrapper; reflexivity
            |destruct (1 <? List.length new_meshes);
             [apply Hwrapper; reflexivity|reflexivity]]);
      rewrite Ew; cbn [app]; destruct (result w); [|reflexivity]
  end.
  match goal with
  | |- warned (for_each ?body ?l) = [] =>
      destruct (@for_each_ok (token F) _ body l) as (_ & _ & En)
  end.
  - rewrite Forall_forall in *. intros mesh Hin.
    now destruct (_write_mesh_runs obj mesh
                    (fold_left (fun node_properties node_setting =>
                                  apply_settings_to_node node_setting
                                                         node_properties)
                               node_settings (NodeProperties_init obj))
                    (Hlen mesh Hin)).
  - rewrite En. clear -Hids' Hlen. rewrite Forall_forall in *.
    induction new_meshes as [|mesh ms IH]; [reflexivity|].
    cbn [map List.concat].
    destruct (_write_mesh_runs obj mesh
                (fold_left (fun node_properties node_setting =>
                              apply_settings_to_node node_setting
                                                     node_properties)
                           node_settings (NodeProperties_init obj))
                (Hlen mesh (or_introl eq_refl))) as (_ & _ & ->).
    pose proof (Hids' mesh (or_introl eq_refl)) as Hid.
    destruct (material_id mesh); [|congruence]. cbn [app].
    apply IH; intros m Hm; [apply Hlen|apply Hids']; now right.
Qed.

(** *** The group path *)

(** An entry of the data extracted from a tree: its indices name
    vertices of the entry and come in threes. *)
Definition entry_ok (entry : list (UvVertex F) * list nat * nat) : Prop :=
  Forall (fun i => i < List.length (fst (fst entry))) (snd (fst entry)) /\
  Nat.divide 3 (List.length (snd (fst entry))).

Lemma extract_triangle_spec obj mesh_copy has_uvs uv_layer material_index
      st triangle st' :
  faces_inv st ->
  extract_triangle obj mesh_copy has_uvs uv_layer material_index st triangle
  = Ok st' ->
  faces_inv st'.
Proof.
  destruct st as [d indices]. intros (Hd & Hi & H3). simpl in Hd, Hi, H3.
  unfold extract_triangle.
  destruct (negb (material_index =? bpy.material_index triangle)).
  - intros [= <-]. repeat split; assumption.
  - intros Hs. apply obind_Ok in Hs as ([d' face_indices] & Hf & Hs).
    destruct (face_loop_spec _ _ Hd Hf) as (Hd' & Hle & Hfi).
    apply obind_Ok in Hs as (indices1 & E1 & Hs).
    assert (Hi' : Forall (fun i => i < List.length d') indices)
      by (eapply Forall_impl; [|exact Hi]; simpl; intros; lia).
    destruct (extend3_spec _ _ _ Hi' Hfi H3 E1) as (Hv1 & Ht1).
    injection Hs as <-. repeat split; assumption.
Qed.

Lemma extract_material_spec obj mesh_copy has_uvs uv_layer result
      material_index result' :
  Forall entry_ok result ->
  extract_material material_writer obj mesh_copy has_uvs uv_layer result
                   material_index = Ok result' ->
  Forall entry_ok result'.
Proof.
  intros Hr Hs. unfold extract_material in Hs.
  apply obind_Ok in Hs as (slot & _ & Hs).
  destruct slot as [material|]; [|now injection Hs as <-].
  destruct (is_hidden_name (material_name material)); [now injection Hs as <-|].
  apply obind_Ok in Hs as ([d indices] & Hf & Hs).
  apply (@ofold_invariant _ _ faces_inv _ _
           (extract_triangle_spec obj mesh_copy has_uvs uv_layer material_index)
           _ _ faces_inv_nil) in Hf.
  destruct Hf as (Hd & Hi & H3). simpl in Hd, Hi, H3.
  destruct (dict_get String.eqb (material_positions material_writer)
                     (material_name material)); [|now injection Hs as <-].
  injection Hs as <-. apply Forall_app. split; [assumption|].
  constructor; [|constructor]. split; cbn [fst snd].
  - now rewrite vertex_dict_sorted_keys_length.
  - exact H3.
Qed.

Lemma _extract_tree_mesh_data_well_formed obj data :
  _extract_tree_mesh_data material_writer obj = Ok data ->
  Forall entry_ok data.
Proof.
  unfold _extract_tree_mesh_data.
  destruct (materials (to_mesh obj)); [intros [= <-]; constructor|].
  apply (@ofold_invariant _ _ (Forall entry_ok)); [|constructor].
  intros s x s'. apply extract_material_spec.
Qed.

Lemma second_pass_valid c (data : list (list (UvVertex F) * list nat * nat)) :
  forall st,
    Forall (fun i => i < List.length (fst st)) (snd st) ->
    Nat.divide 3 (List.length (snd st)) ->
    Forall entry_ok data ->
    Forall (fun i => i < List.length (fst (second_pass c st data)))
           (snd (second_pass c st data)) /\
    Nat.divide 3 (List.length (snd (second_pass c st data))).
Proof.
  unfold second_pass.
  induction data as [|[[verts indices] mat_id] data IH];
    intros [all_vertices all_indices] Hv H3 Hdata; [now split|].
  inversion Hdata as [|? ? [Hi Ht] Hrest]; subst. cbn [fst snd] in *.
  cbn [fold_left]. apply IH; [| |assumption]; cbn [fst snd].
  - rewrite length_app, length_map. apply Forall_app. split.
    + eapply Forall_impl; [|exact Hv]. simpl. intros; lia.
    + apply Forall_map. eapply Forall_impl; [|exact Hi]. simpl. intros; lia.
  - rewrite length_app, length_map. now apply Nat.divide_add_r.
Qed.

(** The indices of the records, each record's shifted by the number of
    vertices of the records before it, [index_offset] counting those
    before the first. *)
Fixpoint shifted_indices (index_offset : nat)
         (data : list (list (UvVertex F) * list nat * nat)) : list nat :=
  match data with
  | [] => []
  | (verts, indices, _) :: data' =>
      map (fun idx => idx + index_offset) indices
      ++ shifted_indices (index_offset + List.length verts) data'
  end.

Lemma second_pass_indices c (data : list (list (UvVertex F) * list nat * nat)) :
  forall st,
    snd (second_pass c st data)
    = snd st ++ shifted_indices (List.length (fst st)) data.
Proof.
  unfold second_pass.
  induction data as [|[[verts indices] mat_id] data IH];
    intros [all_vertices all_indices]; cbn [fold_left shifted_indices fst snd].
  - now rewrite app_nil_r.
  - rewrite IH. cbn [fst snd]. now rewrite length_app, length_map, <- app_assoc.
Qed.

(** X16.  The node of an instance group is complete.  When the members
    are extracted and have a vertex between them, [_write_kstree_group]
    writes one mesh node under the group name whose vertices are those of
    the members, in their order, and whose indices, shifted by the number
    of vertices before each member, all name a vertex of the node and come
    in threes. *)
Theorem _write_kstree_group_indices group_name (objects : list (Object F))
        (ds : list (list (list (UvVertex F) * list nat * nat))) :
  extracted material_writer
            (filter (fun obj => String.eqb (type obj) "MESH") objects) ds ->
  0 < vertex_count (List.concat ds) ->
  exists material_id node_properties all_vertices all_indices,
    result (_write_kstree_group material_writer group_name objects) = Ok tt /\
    written (_write_kstree_group material_writer group_name objects)
    = merged_node group_name material_id node_properties
                  all_vertices all_indices /\
    List.length all_vertices = vertex_count (List.concat ds) /\
    map (@co F) all_vertices
    = flat_map (fun entry => map (@co F) (fst (fst entry))) (List.concat ds) /\
    all_indices = shifted_indices 0 (List.concat ds) /\
    Forall (fun i => i < List.length all_vertices) all_indices /\
    Nat.divide 3 (List.length all_indices).
Proof.
  intros Hex Hpos.
  destruct (_write_kstree_group_merges group_name objects Hex Hpos)
    as (material_id & node_properties & mesh_center_y & Er & Ew & El & _).
  cbv zeta in *.
  exists material_id, node_properties,
         (fst (second_pass mesh_center_y ([], []) (List.concat ds))),
         (snd (second_pass mesh_center_y ([], []) (List.concat ds))).
  split; [exact Er|]. split; [exact Ew|]. split; [exact El|].
  assert (Hdata : Forall entry_ok (List.concat ds)).
  { clear -Hex. unfold extracted in Hex.
    induction Hex as [|obj d objs ds Hd _ IH]; [constructor|].
    cbn [List.concat]. apply Forall_app. split; [|exact IH].
    now apply _extract_tree_mesh_data_well_formed with (obj := obj). }
  split.
  - clear. generalize (List.concat ds) as data.
    assert (Hgen : forall data st,
               map (@co F) (fst (second_pass mesh_center_y st data))
               = map (@co F) (fst st)
                 ++ flat_map (fun entry => map (@co F) (fst (fst entry))) data).
    { unfold second_pass.
      induction data as [|[[verts indices] mat_id] data IH];
        intros [vs idx]; cbn [fold_left flat_map fst snd].
      - now rewrite app_nil_r.
      - rewrite IH. cbn [fst]. rewrite map_app, map_map, <- app_assoc.
        reflexivity. }
    intros data. now rewrite Hgen.
  - split; [now rewrite second_pass_indices|].
    apply second_pass_valid; [constructor|apply Nat.divide_0_r|exact Hdata].
Qed.
End Records.

Lemma _split_object_by_materials_records_witness :
  warned (_write_mesh_node Samples.mat_writer [] Samples.road) = [].
Proof.
  assert (Hs : exists divided_meshes,
             _split_object_by_materials Samples.mat_writer Samples.road
             = Ok divided_meshes)
    by (eexists; vm_compute; reflexivity).
  destruct Hs as [divided_meshes Hs].
  exact (proj2 (proj2 (@_split_object_by_materials_records
                         float float_scalar simple_mathutils
                         Samples.mat_writer Samples.road divided_meshes [] Hs))).
Defined.

Lemma _write_kstree_group_indices_witness :
  result (_write_kstree_group Samples.mat_writer "OAK"
            [Samples.tree "KSTREE_GROUP_OAK_1" 0 [Some Samples.leaves]])
  = Ok tt.
Proof.
  assert (Hs : exists data,
             _extract_tree_mesh_data Samples.mat_writer
               (Samples.tree "KSTREE_GROUP_OAK_1" 0 [Some Samples.leaves])
             = Ok data /\ 0 < vertex_count data)
    by (eexists; split; [vm_compute; reflexivity|vm_compute; lia]).
  destruct Hs as (data & Hd & Hpos).
  destruct (@_write_kstree_group_indices float float_scalar simple_mathutils
              Samples.mat_writer "OAK"
              [Samples.tree "KSTREE_GROUP_OAK_1" 0 [Some Samples.leaves]]
              [data])
    as (material_id & node_properties & all_vertices & all_indices & Hr & _).
  - constructor; [exact Hd|constructor].
  - cbn [List.concat]. rewrite app_nil_r. exact Hpos.
  - exact Hr.
Defined.
End RecordFacts.

(** ** Vertices over binary64 floats *)

Module FloatVertexFacts.
Import node_writer GeometryFacts.

Section Spec.
Variables prec emax : Z.

Lemma SFabs_binary_round_aux s s' mx ex lx :
  SFabs (binary_round_aux prec emax s mx ex lx)
  = SFabs (binary_round_aux prec emax s' mx ex lx).
Proof.
  unfold binary_round_aux.
  destruct (shr_fexp prec emax mx ex lx) as [mrs e].
  destruct (shr_fexp prec emax _ e loc_Exact) as [mrs' e'].
  destruct (shr_m mrs'); [reflexivity| |reflexivity].
  destruct (e' <=? emax - prec)%Z; reflexivity.
Qed.

Lemma SFabs_binary_normalize_opp m e s s' :
  SFabs (binary_normalize prec emax (- m) e s)
  = SFabs (binary_normalize prec emax m e s').
Proof.
  destruct m as [|p|p]; simpl; [reflexivity| |];
    unfold binary_round; destruct (shl_align p e _);
    apply SFabs_binary_round_aux.
Qed.

(** The magnitude of a difference does not depend on the order. *)
Lemma SFabs_SFsub_sym x y :
  SFabs (SFsub prec emax x y) = SFabs (SFsub prec emax y x).
Proof.
  destruct x as [sx|sx| |sx mx ex], y as [sy|sy| |sy my ey]; simpl;
    try reflexivity;
    try (destruct sx, sy; reflexivity).
  replace (IntDef.Z.min ey ex) with (IntDef.Z.min ex ey) by apply Z.min_comm.
  match goal with
  | |- SFabs (binary_normalize _ _ (?a - ?b) _ _) = _ =>
      replace (a - b)%Z with (- (b - a))%Z by lia
  end.
  apply SFabs_binary_normalize_opp.
Qed.

Lemma SFsub_self_finite x :
  match x with S754_zero _ | S754_finite _ _ _ => True | _ => False end ->
  SFabs (SFsub prec emax x x) = S754_zero false.
Proof.
  destruct x as [s|s| |s m e]; simpl; try tauto; intros _.
  - now destruct s.
  - now rewrite Z.sub_diag.
Qed.
End Spec.

(** A float that is a number: neither NaN nor an infinity. *)
Definition is_number (x : float) : Prop :=
  match Prim2SF x with
  | S754_zero _ | S754_finite _ _ _ => True
  | _ => False
  end.

Lemma _approx_equal_sym (a b : float) : _approx_equal a b = _approx_equal b a.
Proof.
  unfold _approx_equal. cbn [fltb fabs fsub float_scalar].
  rewrite !ltb_spec, !abs_spec, !sub_spec. unfold SF64sub.
  now rewrite SFabs_SFsub_sym.
Qed.

Lemma _approx_equal_refl (a : float) : is_number a -> _approx_equal a a = true.
Proof.
  intros Ha. unfold _approx_equal. cbn [fltb fabs fsub float_scalar].
  rewrite ltb_spec, abs_spec, sub_spec. unfold SF64sub.
  rewrite SFsub_self_finite by exact Ha. vm_compute. reflexivity.
Qed.

Lemma _quantize_number (x : float) q : _quantize x = Ok q -> is_number x.
Proof.
  unfold _quantize, is_number. cbn [fround fmul float_scalar].
  unfold Float64.round. rewrite mul_spec. unfold SF64mul.
  replace (Prim2SF QUANT) with (S754_finite false 6871947673600000 (-36))
    by (vm_compute; reflexivity).
  destruct (Prim2SF x) as [s|s| |s m e]; simpl; try tauto; discriminate.
Qed.

Lemma __hash___numbers (v : UvVertex float) h :
  __hash__ v = Ok h ->
  let '(c0, c1, c2) := co v in
  let '(n0, n1, n2) := normal v in
  let '(u0, u1) := uv v in
  is_number c0 /\ is_number c1 /\ is_number c2 /\
  is_number n0 /\ is_number n1 /\ is_number n2 /\
  is_number u0 /\ is_number u1.
Proof.
  unfold __hash__, hash_key.
  destruct (co v) as [[c0 c1] c2], (normal v) as [[n0 n1] n2], (uv v) as [u0 u1].
  intros Hh.
  repeat match type of Hh with
         | context [_quantize ?x] =>
             let E := fresh "E" in
             destruct (_quantize x) eqn:E; cbn [obind] in Hh;
             [apply _quantize_number in E|discriminate Hh]
         end.
  tauto.
Qed.

Lemma __eq___refl (u : UvVertex float) h :
  __hash__ u = Ok h -> __eq__ u u = true.
Proof.
  intros Hh. apply __hash___numbers in Hh. unfold __eq__.
  destruct (co u) as [[c0 c1] c2], (normal u) as [[n0 n1] n2],
           (uv u) as [u0 u1].
  destruct Hh as (H0 & H1 & H2 & H3 & H4 & H5 & H6 & H7).
  now rewrite !_approx_equal_refl.
Qed.

Lemma find_snoc {A} (f : A -> bool) (l : list A) (x : A) :
  find f l = None -> f x = true -> find f (l ++ [x]) = Some x.
Proof.
  induction l as [|y l IH]; cbn [app find]; intros Hl Hx.
  - now rewrite Hx.
  - destruct (f y); [discriminate|auto].
Qed.

(** X17.  On binary64 floats, [UvVertex.__eq__] is symmetric; a vertex
    that can be hashed - all its coordinates are numbers - equals itself;
    and the tangents play no part. *)
Theorem __eq___symmetric (u v : UvVertex float) :
  __eq__ u v = __eq__ v u /\
  (forall h, __hash__ u = Ok h -> __eq__ u u = true) /\
  (forall t t',
      __eq__ (mkUvVertex (co u) (normal u) (uv u) t)
             (mkUvVertex (co v) (normal v) (uv v) t') = __eq__ u v).
Proof.
  split; [|split].
  - unfold __eq__.
    destruct (co u) as [[c0 c1] c2], (normal u) as [[n0 n1] n2],
             (uv u) as [u0 u1], (co v) as [[d0 d1] d2],
             (normal v) as [[m0 m1] m2], (uv v) as [v0 v1].
    now rewrite (_approx_equal_sym c0), (_approx_equal_sym c1),
      (_approx_equal_sym c2), (_approx_equal_sym n0), (_approx_equal_sym n1),
      (_approx_equal_sym n2), (_approx_equal_sym u0), (_approx_equal_sym u1).
  - intros h. apply __eq___refl.
  - intros t t'. destruct u, v. reflexivity.
Qed.

Lemma __eq___symmetric_witness :
  exists h, __hash__ Samples.near_u = Ok h /\
            __eq__ Samples.near_u Samples.near_u = true.
Proof.
  eexists. split; [vm_compute; reflexivity|].
  refine (proj1 (proj2 (@__eq___symmetric Samples.near_u Samples.near_u)) _ _).
  vm_compute; reflexivity.
Defined.

(** X18.  Interning a vertex is idempotent on binary64 floats.  When
    [vertex_dict_intern] returns the dictionary [d'] and the index [i]:
    [d'] is [d], or [d] with one entry more, for the vertex; the entry of
    index [i] has the hash of the vertex and a key that [__eq__]s it; and
    interning the vertex again returns [d'] and [i]. *)
Theorem vertex_dict_intern_idempotent (d : vertex_dict float)
        (v : UvVertex float) d' i :
  indexed d ->
  vertex_dict_intern d v = Ok (d', i) ->
  (exists h,
      __hash__ v = Ok h /\
      (d' = d \/ d' = d ++ [(v, h, List.length d)]) /\
      exists k, nth_error d' i = Some (k, h, i) /\ __eq__ k v = true) /\
  vertex_dict_intern d' v = Ok (d', i).
Proof.
  intros Hd. unfold vertex_dict_intern.
  destruct (__hash__ v) as [h|e] eqn:Hh; cbn [obind]; [|discriminate].
  unfold vertex_dict_find.
  destruct (find _ d) as [[[k hk] j]|] eqn:Ef.
  - intros [= <- <-]. rewrite Ef. split; [|reflexivity].
    exists h. split; [reflexivity|]. split; [now left|].
    apply find_some in Ef as [Hin Hk]. apply andb_prop in Hk as [Hhk Hk].
    apply Z.eqb_eq in Hhk. subst hk.
    apply In_nth_error in Hin as [n Hn].
    pose proof (Hd _ _ Hn) as E. cbn [snd] in E. subst n.
    now exists k.
  - intros [= <- <-].
    assert (Hvv : __eq__ v v = true) by (eapply __eq___refl; eassumption).
    assert (Hfind : find (fun e : UvVertex float * Z * nat =>
                            let '(k, hk, _) := e in (hk =? h)%Z && __eq__ k v)
                         (d ++ [(v, h, List.length d)])
                    = Some (v, h, List.length d)).
    { apply find_snoc; [exact Ef|]. now rewrite Z.eqb_refl, Hvv. }
    rewrite Hfind. split; [|reflexivity].
    exists h. split; [reflexivity|]. split; [now right|].
    exists v. split; [|exact Hvv].
    rewrite nth_error_app2 by lia. now rewrite Nat.sub_diag.
Qed.

Lemma vertex_dict_intern_idempotent_witness :
  exists d',
    vertex_dict_intern [] Samples.near_u = Ok (d', 0) /\
    vertex_dict_intern d' Samples.near_u = Ok (d', 0).
Proof.
  eexists. split; [vm_compute; reflexivity|].
  match goal with
  | |- vertex_dict_intern ?d' _ = _ =>
      assert (Hi : vertex_dict_intern [] Samples.near_u = Ok (d', 0))
        by (vm_compute; reflexivity);
      exact (proj2 (@vertex_dict_intern_idempotent [] Samples.near_u d' 0
                      (@indexed_nil float) Hi))
  end.
Defined.
End FloatVertexFacts.

(** ** The tree of nodes an object is written as *)

Module NodeTreeFacts.
Import node_writer constants helpers utils WriterFacts PyFacts GeometryFacts
       VertexLimitFacts GroupingFacts InstanceGroupFacts MeshNodeFacts.

Section NodeTrees.
Context {F : Type} `{Scalar F} `{Mathutils F}.
Variable context : Context F.
Variable material_writer : MaterialWriter F.
Variable node_settings : list (NodeSettings F).

(** The tokens of one node with everything below it: a plain node
    announces [n] children and is followed by [n] nodes; a mesh node has
    none. *)
Inductive node_tree : list (token F) -> Prop :=
| plain_node node_name n transform below :
    forest n below ->
    node_tree ([W_uint 1; W_string node_name; W_uint n; W_bool true;
                W_matrix transform] ++ below)
| mesh_leaf node_name material_id node_properties vertices indices :
    node_tree (merged_node node_name material_id node_properties
                           vertices indices)
with forest : nat -> list (token F) -> Prop :=
| forest_nil : forest 0 []
| forest_cons n node nodes :
    node_tree node -> forest n nodes -> forest (S n) (node ++ nodes).

(** Every object below [obj] has a parent. *)
Fixpoint parented (obj : Object F) : bool :=
  (fix all (cs : list (Object F)) : bool :=
     match cs with
     | [] => true
     | child :: cs' =>
         match parent child with
         | Some _ => parented child
         | None => false
         end && all cs'
     end) (children obj).

(** Neither [obj] nor an object below it is a mesh. *)
Fixpoint meshless (obj : Object F) : bool :=
  negb (String.eqb (type obj) "MESH")
  && (fix all (cs : list (Object F)) : bool :=
        match cs with
        | [] => true
        | child :: cs' => meshless child && all cs'
        end) (children obj).

Section Induction.
Variable P : Object F -> Prop.
Hypothesis step : forall obj, Forall P (children obj) -> P obj.

Fixpoint Object_children_ind (obj : Object F) : P obj :=
  step obj
       ((fix all (cs : list (Object F)) : Forall P cs :=
           match cs with
           | [] => Forall_nil P
           | child :: cs' =>
               Forall_cons child (Object_children_ind child) (all cs')
           end) (children obj)).
End Induction.

Lemma parented_unfold (obj : Object F) :
  parented obj
  = forallb (fun child => match parent child with
                          | Some _ => parented child
                          | None => false
                          end) (children obj).
Proof.
  destruct obj as [nm ty pa ch hv hr hg uc mw ml di kn ms tm].
  reflexivity.
Qed.

Lemma meshless_unfold (obj : Object F) :
  meshless obj
  = negb (String.eqb (type obj) "MESH") && forallb meshless (children obj).
Proof.
  destruct obj as [nm ty pa ch hv hr hg uc mw ml di kn ms tm].
  reflexivity.
Qed.

Lemma result_bind_Ok {T A B} (m : M T A) (k : A -> M T B) b :
  result (bind m k) = Ok b ->
  exists a, result m = Ok a /\ result (k a) = Ok b.
Proof.
  rewrite result_bind. destruct (result m) as [a|e]; [eauto|discriminate].
Qed.

Lemma forest_mesh_nodes (obj : Object F) node_properties
      (new_meshes : list (Mesh F)) :
  forest (List.length new_meshes)
         (flat_map (mesh_node obj node_properties) new_meshes).
Proof.
  induction new_meshes as [|mesh new_meshes IH]; [constructor|].
  cbn [flat_map List.length]. constructor; [|exact IH].
  unfold mesh_node. constructor.
Qed.

(** The node of a mesh that has a parent. *)
Lemma _write_mesh_node_parented (obj : Object F) p :
  parent obj = Some p ->
  result (_write_mesh_node material_writer node_settings obj) = Ok tt ->
  node_tree (written (_write_mesh_node material_writer node_settings obj)).
Proof.
  intros Hp. unfold _write_mesh_node.
  destruct (_split_object_by_materials material_writer obj)
    as [divided_meshes|e] eqn:Hsplit; [|discriminate].
  destruct (VertexCeiling.limit_splitting
              (_split_object_by_materials_well_formed _ _ Hsplit))
    as (new_meshes & Hlimit & Hlen & _).
  rewrite bind_lift_Ok, Hlimit, bind_lift_Ok, Hp.
  fold (properties_of node_settings obj).
  destruct (_write_meshes_run obj (properties_of node_settings obj) Hlen)
    as (Er & Ew).
  destruct (inverted (parent_matrix_world p)) as [inverse|e] eqn:Hinv;
    [|discriminate].
  rewrite !bind_lift_Ok, bind_ret. intros _.
  rewrite written_bind. cbn [result written _write_base_node_data
    _write_node_class write_uint write_string write_bool write_matrix
    emit bind app NODE_TYPES nd_name childCount active transform].
  rewrite Ew. apply (plain_node (name obj) (convert_matrix inverse)).
  apply forest_mesh_nodes.
Qed.

Lemma _write_base_node_runs (obj : Object F) :
  result (_write_base_node context (Some obj) (name obj)) = Ok tt /\
  written (_write_base_node context (Some obj) (name obj))
  = [W_uint 1; W_string (name obj);
     W_uint (List.length (filter (counts_as_child context) (children obj)));
     W_bool true; W_matrix (convert_matrix (matrix_local obj))].
Proof.
  unfold _write_base_node.
  destruct (negb (_is_ac_object (name obj)) && negb (_any_child_is_mesh obj));
    split; reflexivity.
Qed.

Local Abbreviation write_child :=
  (fun child : Object F =>
     if negb (is_object_excluded_by_collection child context)
     then _write_object context material_writer node_settings child
     else ret tt).

(** What [_write_object] writes for [obj] when it returns. *)
Definition one_node (obj : Object F) : Prop :=
  result (_write_object context material_writer node_settings obj) = Ok tt ->
  if is_hidden_name (name obj)
  then written (_write_object context material_writer node_settings obj) = []
  else node_tree
         (written (_write_object context material_writer node_settings obj)).

(** The loop over the children writes as many nodes as
    [_write_base_node] has counted. *)
Lemma children_forest (cs : list (Object F)) :
  Forall one_node cs ->
  result (for_each write_child cs) = Ok tt ->
  forest (List.length (filter (counts_as_child context) cs))
         (written (for_each write_child cs)).
Proof.
  induction 1 as [|child cs Hchild _ IH]; intros Hrun; [constructor|].
  cbn [for_each] in *. apply result_bind_Ok in Hrun.
  destruct Hrun as ([] & Hfirst & Hrest).
  rewrite written_bind, Hfirst. cbn [filter]. unfold counts_as_child at 1.
  destruct (is_object_excluded_by_collection child context);
    cbn [negb andb] in *.
  - rewrite andb_false_r. cbn [written ret app]. now apply IH.
  - rewrite andb_true_r. specialize (Hchild Hfirst).
    destruct (is_hidden_name (name child)); cbn [negb List.length].
    + rewrite Hchild. cbn [app]. now apply IH.
    + constructor; [exact Hchild|now apply IH].
Qed.

Lemma _write_object_one_node (obj : Object F) :
  parented obj = true ->
  (type obj = "MESH" -> parent obj <> None) ->
  one_node obj.
Proof.
  induction obj as [obj IH] using Object_children_ind.
  intros Hpar Hmesh. unfold one_node.
  rewrite _write_object_unfold.
  destruct (is_hidden_name (name obj)); cbn [negb]; [reflexivity|].
  intros Hrun. apply result_bind_Ok in Hrun.
  destruct Hrun as ([] & Hfirst & Hrest).
  rewrite written_bind, Hfirst.
  assert (Hchildren : Forall one_node (children obj)).
  { rewrite parented_unfold, forallb_forall in Hpar.
    rewrite Forall_forall in IH |- *. intros child Hin.
    specialize (Hpar child Hin).
    destruct (parent child) as [p|] eqn:Hp; [|discriminate].
    apply IH; [exact Hin|exact Hpar|]. intros _. congruence. }
  destruct (String.eqb (type obj) "MESH") eqn:Hty.
  - apply String.eqb_eq in Hty.
    destruct (children obj) as [|child cs]; [|discriminate].
    cbn [for_each written ret]. rewrite app_nil_r.
    destruct (parent obj) as [p|] eqn:Hp; [|now destruct (Hmesh Hty)].
    exact (_write_mesh_node_parented obj Hp Hfirst).
  - destruct (_write_base_node_runs obj) as [_ Ew]. rewrite Ew.
    apply (plain_node (name obj) (convert_matrix (matrix_local obj))).
    now apply children_forest.
Qed.

Lemma _write_object_meshless (obj : Object F) :
  meshless obj = true ->
  result (_write_object context material_writer node_settings obj) = Ok tt.
Proof.
  induction obj as [obj IH] using Object_children_ind.
  rewrite meshless_unfold. intros Hless.
  apply andb_prop in Hless. destruct Hless as [Hty Hless].
  apply negb_true_iff in Hty.
  rewrite _write_object_unfold, Hty.
  destruct (is_hidden_name (name obj)); cbn [negb]; [reflexivity|].
  destruct (_write_base_node_runs obj) as [Er _].
  rewrite result_bind, Er.
  apply for_each_ok. rewrite forallb_forall in Hless.
  rewrite Forall_forall in IH |- *. intros child Hin.
  destruct (is_object_excluded_by_collection child context); cbn [negb];
    [reflexivity|].
  apply IH; [exact Hin|]. now apply Hless.
Qed.

(** X20.  An object that is not a mesh without a parent, and below which
    every object has a parent, is written as one well-formed node
    whenever [_write_object] returns: each plain node is followed by
    exactly as many nodes as the child count it announces, children with a
    hidden name or excluded being left out of both; and [_write_object]
    does return when the object and all objects below it are no meshes. *)
Theorem _write_object_writes_one_node (obj : Object F) :
  parented obj = true ->
  is_hidden_name (name obj) = false ->
  (type obj = "MESH" -> parent obj <> None) ->
  (meshless obj = true ->
   result (_write_object context material_writer node_settings obj) = Ok tt) /\
  (result (_write_object context material_writer node_settings obj) = Ok tt ->
   node_tree
     (written (_write_object context material_writer node_settings obj))).
Proof.
  intros Hpar Hname Hmesh. split; [apply _write_object_meshless|].
  intros Hrun.
  pose proof (_write_object_one_node obj Hpar Hmesh Hrun) as Hnode.
  now rewrite Hname in Hnode.
Qed.
End NodeTrees.

Lemma _write_object_writes_one_node_witness :
  result (_write_object (Samples.scene [Samples.pivot]) Samples.mat_writer []
                        Samples.pivot) = Ok tt /\
  node_tree (written (_write_object (Samples.scene [Samples.pivot])
                                    Samples.mat_writer [] Samples.pivot)).
Proof.
  assert (Hrun : result (_write_object (Samples.scene [Samples.pivot])
                                       Samples.mat_writer [] Samples.pivot)
                 = Ok tt) by (vm_compute; reflexivity).
  assert (Hpar : parented Samples.pivot = true) by (vm_compute; reflexivity).
  assert (Hname : is_hidden_name (name Samples.pivot) = false)
    by (vm_compute; reflexivity).
  assert (Hmesh : type Samples.pivot = "MESH" -> parent Samples.pivot <> None)
    by (intros Hty; vm_compute in Hty; discriminate).
  split; [exact Hrun|].
  exact (proj2 (@_write_object_writes_one_node float float_scalar
                  simple_mathutils (Samples.scene [Samples.pivot])
                  Samples.mat_writer [] Samples.pivot Hpar Hname Hmesh) Hrun).
Defined.
End NodeTreeFacts.

(** ** Whose material and properties an instance group takes *)

Module GroupNodeFacts.
Import node_writer constants helpers utils WriterFacts GroupingFacts
       RootNodeFacts PyFacts InstanceGroupFacts.

Section GroupNode.
Context {F : Type} `{Scalar F} `{Mathutils F}.
Variable material_writer : MaterialWriter F.

Local Abbreviation mesh_data := (list (list (UvVertex F) * list nat * nat)).

(** The heights of the vertices of the records, in order. *)
Definition heights (data : mesh_data) : list F :=
  flat_map (fun entry => map (fun v : UvVertex F => snd (fst (co v)))
                             (fst (fst entry))) data.

(** The vertices of the records, in order. *)
Definition all_vertices_of (data : mesh_data) : list (UvVertex F) :=
  flat_map (fun entry => fst (fst entry)) data.

(** The first record of the members, with the member it comes from. *)
Fixpoint first_record (members : list (Object F * mesh_data))
  : option (Object F * nat) :=
  match members with
  | [] => None
  | (obj, []) :: members' => first_record members'
  | (obj, (_, _, mat_id) :: _) :: _ => Some (obj, mat_id)
  end.

(** A vertex of a tree, its normal replaced. *)
Definition tree_vertex (mesh_center_y : F) (v : UvVertex F) : UvVertex F :=
  mkUvVertex (co v) (_calculate_tree_normal (co v) (normal v) mesh_center_y)
             (uv v) (tangent v).

Definition or_first {A} (old new : option A) : option A :=
  match old with Some _ => old | None => new end.

Lemma first_pass_spec obj (data : mesh_data) : forall m np ys,
  first_pass obj (m, np, ys) data
  = (or_first m (match data with
                 | [] => None
                 | (_, _, mat_id) :: _ => Some mat_id
                 end),
     or_first np (match data with
                  | [] => None
                  | _ :: _ => Some (NodeProperties_init obj)
                  end),
     ys ++ heights data).
Proof.
  unfold first_pass.
  induction data as [|[[verts indices] mat_id] data IH]; intros m np ys.
  - cbn [fold_left heights flat_map]. rewrite app_nil_r.
    now destruct m, np.
  - cbn [fold_left]. rewrite IH. cbn [heights flat_map fst].
    rewrite <- app_assoc. destruct m, np, data as [|[[? ?] ?] ?]; reflexivity.
Qed.

Lemma first_pass_fold_spec (members : list (Object F * mesh_data)) :
  forall m np ys,
    fold_left (fun st od => first_pass (fst od) st (snd od)) members (m, np, ys)
    = (or_first m (option_map snd (first_record members)),
       or_first np (option_map (fun r => NodeProperties_init (fst r))
                               (first_record members)),
       ys ++ heights (List.concat (map snd members))).
Proof.
  induction members as [|[obj data] members IH]; intros m np ys.
  - cbn [fold_left first_record option_map map List.concat heights flat_map].
    rewrite app_nil_r. now destruct m, np.
  - cbn [fold_left fst snd map List.concat]. rewrite first_pass_spec, IH.
    unfold heights. rewrite flat_map_app, <- app_assoc.
    destruct data as [|[[verts indices] mat_id] data];
      cbn [first_record option_map fst snd]; destruct m, np; reflexivity.
Qed.

Lemma map_snd_combine {A B} (l : list A) (l' : list B) :
  List.length l = List.length l' -> map snd (combine l l') = l'.
Proof.
  revert l'. induction l as [|a l IH]; intros [|b l'] Hlen; try discriminate;
    [reflexivity|].
  cbn [combine map snd]. f_equal. apply IH. simpl in Hlen. lia.
Qed.

Lemma heights_length (data : mesh_data) :
  List.length (heights data) = vertex_count data.
Proof.
  unfold heights, vertex_count.
  induction data as [|entry data IH]; [reflexivity|].
  cbn [flat_map map list_sum]. now rewrite length_app, length_map, IH.
Qed.

Lemma second_pass_vertices c (data : mesh_data) : forall st,
  fst (second_pass c st data)
  = fst st ++ map (tree_vertex c) (all_vertices_of data).
Proof.
  unfold second_pass, all_vertices_of.
  induction data as [|[[verts indices] mat_id] data IH]; intros [vs idx];
    cbn [fold_left flat_map fst snd].
  - now rewrite app_nil_r.
  - rewrite IH. cbn [fst]. now rewrite map_app, <- app_assoc.
Qed.

(** X21.  The node of an instance group takes its material and its
    properties from the first record of the first member that has one; the
    other members give their geometry only, and no node settings are
    applied.  Its vertices are those of the members with the normals
    replaced by the tree normals, computed against the mean of the heights
    of all the vertices. *)
Theorem _write_kstree_group_first_member group_name
        (objects : list (Object F)) (ds : list mesh_data) obj mat_id :
  extracted material_writer
            (filter (fun obj => String.eqb (type obj) "MESH") objects) ds ->
  first_record
    (combine (filter (fun obj => String.eqb (type obj) "MESH") objects) ds)
  = Some (obj, mat_id) ->
  0 < vertex_count (List.concat ds) ->
  let ys := heights (List.concat ds) in
  let mesh_center_y := py_sum ys /! of_len (List.length ys) in
  let merged := second_pass mesh_center_y ([], []) (List.concat ds) in
  result (_write_kstree_group material_writer group_name objects) = Ok tt /\
  written (_write_kstree_group material_writer group_name objects)
  = merged_node group_name mat_id (NodeProperties_init obj)
                (fst merged) (snd merged) /\
  fst merged = map (tree_vertex mesh_center_y)
                   (all_vertices_of (List.concat ds)).
Proof.
  intros Hex Hfirst Hpos. cbv zeta.
  pose proof (heights_length (List.concat ds)) as Hys.
  set (ys := heights (List.concat ds)) in *.
  set (mesh_center_y := py_sum ys /! of_len (List.length ys)).
  split; [|split]; [| |now rewrite second_pass_vertices].
  - now destruct (_write_kstree_group_succeeds group_name objects Hex).
  - unfold _write_kstree_group.
    pose proof (Forall2_length Hex) as Hlen.
    destruct (filter (fun obj => String.eqb (type obj) "MESH") objects)
      as [|obj0 rest] eqn:E; [discriminate|].
    rewrite (pass_fold (fun obj st data => first_pass obj st data) Hex).
    rewrite first_pass_fold_spec, Hfirst, (map_snd_combine _ _ Hlen).
    cbn [or_first option_map fst snd app]. fold ys.
    rewrite bind_lift_Ok.
    assert (Hc : match ys with
                 | [] => fzero
                 | _ :: _ => py_sum ys /! of_len (List.length ys)
                 end = mesh_center_y)
      by (destruct ys; [simpl in Hys; lia|reflexivity]).
    rewrite Hc.
    rewrite (pass_fold (fun _ st data => second_pass mesh_center_y st data) Hex).
    cbn [fst snd]. rewrite (second_pass_fold mesh_center_y _ _ Hlen).
    rewrite bind_lift_Ok.
    pose proof (second_pass_length mesh_center_y (List.concat ds) ([], []))
      as Hl.
    cbn [fst List.length] in Hl.
    destruct (second_pass mesh_center_y ([], []) (List.concat ds))
      as [all_vertices all_indices].
    cbn [fst snd] in *.
    destruct all_vertices as [|v vs]; [simpl in Hl; lia|].
    destruct (write_vertices_runs (v :: vs)) as (Evr & Evw & Evn).
    destruct (write_indices_runs (F:=F) all_indices) as (Eir & Eiw & Ein).
    unfold merged_node.
    repeat (rewrite written_bind; cbn [result written ret emit warn write_uint
                                       write_bool write_string write_float
                                       write_vector3 _write_node_class
                                       _write_bounding_sphere]).
    destruct (MAX_VERTICES_PER_MESH <? List.length (v :: vs));
      cbn [result written ret warn]; rewrite ?Evr, ?Eir, ?Evw, ?Eiw;
      cbn [result written ret warn app]; reflexivity.
Qed.
End GroupNode.

Lemma _write_kstree_group_first_member_witness :
  exists all_vertices all_indices,
    written (_write_kstree_group Samples.mat_writer "OAK"
               [Samples.tree "KSTREE_GROUP_OAK_1" 0 [Some Samples.leaves];
                Samples.tree "KSTREE_GROUP_OAK_2" 1 [Some Samples.grass]])
    = merged_node "OAK" 1
        (NodeProperties_init
           (Samples.tree "KSTREE_GROUP_OAK_1" 0 [Some Samples.leaves]))
        all_vertices all_indices.
Proof.
  set (oak1 := Samples.tree "KSTREE_GROUP_OAK_1" 0 [Some Samples.leaves]).
  set (oak2 := Samples.tree "KSTREE_GROUP_OAK_2" 1 [Some Samples.grass]).
  assert (Hs : exists d1 d2,
             _extract_tree_mesh_data Samples.mat_writer oak1 = Ok d1 /\
             _extract_tree_mesh_data Samples.mat_writer oak2 = Ok d2 /\
             first_record [(oak1, d1); (oak2, d2)] = Some (oak1, 1) /\
             0 < vertex_count (d1 ++ d2 ++ []))
    by (eexists; eexists; split; [vm_compute; reflexivity|];
        split; [vm_compute; reflexivity|];
        split; [vm_compute; reflexivity|vm_compute; lia]).
  destruct Hs as (d1 & d2 & Hd1 & Hd2 & Hfirst & Hpos).
  destruct (@_write_kstree_group_first_member float float_scalar
              simple_mathutils Samples.mat_writer "OAK" [oak1; oak2]
              [d1; d2] oak1 1)
    as (_ & Hw & _).
  - constructor; [exact Hd1|]. constructor; [exact Hd2|constructor].
  - exact Hfirst.
  - exact Hpos.
  - eexists _, _. exact Hw.
Defined.
End GroupNodeFacts.

(** ** Meshes without extent along an axis *)

Module FlatMeshFacts.
Import node_writer constants helpers utils WriterFacts PyFacts GroupingFacts
       MeshNodeFacts RefusalFacts.

Section FlatMeshes.
Context {F : Type} `{Scalar F} `{Mathutils F}.
Variable material_writer : MaterialWriter F.

Lemma _calculate_uvs_raises (obj : Object F) mesh material_id co :
  feqb (fst (fst (dimensions obj))) fzero
  || feqb (snd (fst (dimensions obj))) fzero = true ->
  exists e, _calculate_uvs obj mesh material_id co = Raise e.
Proof.
  unfold _calculate_uvs, py_div.
  destruct (dimensions obj) as [[size0 size1] size2], co as [[co0 co1] co2].
  cbn [fst snd]. intros Hz.
  destruct (feqb size0 fzero); cbn [obind]; [eauto|].
  cbn [orb] in Hz. rewrite Hz. cbn [obind]. eauto.
Qed.

Lemma loop_vertex_raises (obj : Object F) mesh has_uvs material_index
      loop_index :
  feqb (fst (fst (dimensions obj))) fzero
  || feqb (snd (fst (dimensions obj))) fzero = true ->
  exists e,
    loop_vertex obj mesh has_uvs None
                (_calculate_uvs obj mesh material_index) loop_index = Raise e.
Proof.
  intros Hz. unfold loop_vertex.
  destruct (getitem (mesh_loops mesh) loop_index) as [loop|e]; cbn [obind];
    [|eauto].
  destruct (getitem (mesh_vertices mesh) (vertex_index loop)) as [vertex_co|e];
    cbn [obind]; [|eauto].
  destruct (_calculate_uvs_raises obj mesh material_index
              (matrix_apply (matrix_world obj) vertex_co) Hz) as [e ->].
  cbn [obind]. eauto.
Qed.

Lemma split_triangle_raises (obj : Object F) mesh has_uvs triangle st :
  feqb (fst (fst (dimensions obj))) fzero
  || feqb (snd (fst (dimensions obj))) fzero = true ->
  exists e,
    split_triangle obj mesh has_uvs None (bpy.material_index triangle)
                   st triangle = Raise e.
Proof.
  intros Hz. unfold split_triangle. destruct st as [vertices indices].
  rewrite Nat.eqb_refl. cbn [negb]. unfold face_loop.
  destruct (loops triangle) as [|loop_index rest].
  - cbn [ofold obind]. unfold extend3. cbn. eauto.
  - cbn [ofold].
    destruct (loop_vertex_raises obj mesh has_uvs
                (bpy.material_index triangle) loop_index Hz) as [e ->].
    cbn [obind]. eauto.
Qed.

(** X22.  A mesh that has a triangle and no usable UV layer cannot be
    exported as an ordinary object when its extent along X or along Y is
    zero: the UV of its first vertex is a division by that extent, so
    [_split_object_by_materials] raises, and with it the writing of the
    nodes of a scene in which the object is an ordinary top-level mesh. *)
Theorem _split_object_by_materials_flat (obj : Object F) :
  (if has_uvs_of (to_mesh obj) then uv_layers_active (to_mesh obj) else None)
  = None ->
  loop_triangles (to_mesh obj) <> [] ->
  feqb (fst (fst (dimensions obj))) fzero
  || feqb (snd (fst (dimensions obj))) fzero = true ->
  (exists e, _split_object_by_materials material_writer obj = Raise e) /\
  (forall context node_settings,
      In obj (blend_data_objects context) ->
      is_regular context obj = true ->
      type obj = "MESH" ->
      raises (write context material_writer node_settings)).
Proof.
  intros Huv Htri Hz.
  assert (Hsplit : exists e,
             _split_object_by_materials material_writer obj = Raise e).
  { unfold _split_object_by_materials. rewrite Huv.
    destruct (materials (to_mesh obj)) as [|slot0 slots] eqn:Em; [eauto|].
    clear Em.
    destruct (loop_triangles (to_mesh obj)) as [|triangle rest] eqn:Et;
      [congruence|].
    rewrite <- Et.
    assert (Hin : In triangle (loop_triangles (to_mesh obj)))
      by (rewrite Et; now left).
    apply ofold_raises with (x := bpy.material_index triangle).
    { apply (proj2 (set_of_In _ _)). now apply in_map. }
    intros meshes. unfold split_material.
    destruct (getitem (materials (to_mesh obj)) (bpy.material_index triangle))
      as [[material|]|e]; cbn [obind]; [|eauto..].
    destruct (is_hidden_name (bpy.material_name material)); [eauto|].
    match goal with
    | |- context [ofold ?f ?l ?s] =>
        destruct (ofold_raises f l _ Hin
                    (fun st => split_triangle_raises obj (to_mesh obj)
                                 (has_uvs_of (to_mesh obj)) triangle st Hz)
                    s) as [e ->]
    end.
    cbn [obind]. eauto. }
  split; [exact Hsplit|].
  intros context node_settings Hin Hreg Hmesh.
  destruct (_collect_and_group_objects_spec context) as (Hregular & _).
  unfold write.
  destruct (_collect_and_group_objects context) as [regular groups].
  cbn [fst] in Hregular.
  apply raises_bind_r. intros _. apply raises_bind_r. intros _.
  apply for_each_raises with (x := obj).
  - rewrite Hregular. apply sorted_by_In. apply filter_In. now split.
  - rewrite _write_object_unfold, Hmesh.
    unfold is_regular in Hreg. apply andb_prop in Hreg.
    destruct Hreg as [Htop _]. unfold is_top_level_exported in Htop.
    destruct (parent obj); [discriminate|].
    destruct (is_hidden_name (name obj)); [discriminate|].
    cbn [negb String.eqb Ascii.eqb Bool.eqb]. apply raises_bind_l.
    destruct (children obj); [|eexists; reflexivity].
    destruct Hsplit as [e He]. exists e. unfold _write_mesh_node.
    now rewrite He.
Qed.
End FlatMeshes.

Lemma _split_object_by_materials_flat_witness :
  _split_object_by_materials Samples.mat_writer Samples.wall
  = Raise ZeroDivisionError /\
  raises (write (Samples.scene [Samples.road; Samples.wall])
                Samples.mat_writer []).
Proof.
  split; [vm_compute; reflexivity|].
  assert (Huv : (if has_uvs_of (to_mesh Samples.wall)
                 then uv_layers_active (to_mesh Samples.wall) else None) = None)
    by (vm_compute; reflexivity).
  assert (Htri : loop_triangles (to_mesh Samples.wall) <> [])
    by (vm_compute; discriminate).
  assert (Hz : feqb (fst (fst (dimensions Samples.wall))) fzero
               || feqb (snd (fst (dimensions Samples.wall))) fzero = true)
    by (vm_compute; reflexivity).
  assert (Hreg : is_regular (Samples.scene [Samples.road; Samples.wall])
                            Samples.wall = true)
    by (vm_compute; reflexivity).
  apply (proj2 (@_split_object_by_materials_flat float float_scalar
                  simple_mathutils Samples.mat_writer Samples.wall
                  Huv Htri Hz)).
  - right. left. reflexivity.
  - exact Hreg.
  - reflexivity.
Defined.
End FlatMeshFacts.

(** ** What is left out of the export *)

Module VisibilityFacts.
Import node_writer constants helpers utils WriterFacts PyFacts GroupingFacts
       MeshNodeFacts NodeTreeFacts.

Section LayerCollections.

(** The collection of a layer collection. *)
Definition collection_of (layer_col : LayerCollection) : Collection :=
  match layer_col with mkLayerCollection col _ _ => col end.

(** The layer collections of a tree, each before its children. *)
Fixpoint layers (layer_col : LayerCollection) : list LayerCollection :=
  match layer_col with
  | mkLayerCollection _ _ layer_children =>
      layer_col
      :: (fix below (l : list LayerCollection) : list LayerCollection :=
            match l with
            | [] => []
            | child :: l' => layers child ++ below l'
            end) layer_children
  end.

Section Induction.
Variable P : LayerCollection -> Prop.
Hypothesis step : forall col ex layer_children,
  Forall P layer_children -> P (mkLayerCollection col ex layer_children).

Fixpoint LayerCollection_children_ind (layer_col : LayerCollection)
  : P layer_col :=
  match layer_col with
  | mkLayerCollection col ex layer_children =>
      step col ex
           ((fix all (l : list LayerCollection) : Forall P l :=
               match l with
               | [] => Forall_nil P
               | child :: l' =>
                   Forall_cons child (LayerCollection_children_ind child)
                               (all l')
               end) layer_children)
  end.
End Induction.

Lemma find_app {A} (f : A -> bool) (l l' : list A) :
  find f (l ++ l') = match find f l with
                     | Some x => Some x
                     | None => find f l'
                     end.
Proof.
  induction l as [|a l IH]; [reflexivity|].
  cbn [app find]. now destruct (f a).
Qed.

(** [find_layer_collection] is a search of the tree, parents first. *)
Lemma find_layer_collection_spec (layer_col : LayerCollection) (c : Collection) :
  find_layer_collection layer_col c
  = find (fun l => same_collection (collection_of l) c) (layers layer_col).
Proof.
  induction layer_col as [col ex layer_children IH]
    using LayerCollection_children_ind.
  cbn [find_layer_collection layers find collection_of].
  destruct (same_collection col c); [reflexivity|].
  induction IH as [|child l Hchild _ IHl]; [reflexivity|].
  rewrite find_app, <- Hchild.
  destruct (find_layer_collection child c); [reflexivity|exact IHl].
Qed.
End LayerCollections.

Section Visibility.
Context {F : Type} `{Scalar F} `{Mathutils F}.
Variable material_writer : MaterialWriter F.
Variable node_settings : list (NodeSettings F).

(** X23.  An object is kept by [is_object_excluded_by_collection]
    exactly when none of its three hide flags is set and either it is in
    no collection, or one of its collections is not hidden and the first
    layer collection of the view layer that holds it, parents before
    children, is not excluded.  A collection the view layer does not hold
    keeps nothing. *)
Theorem is_object_excluded_by_collection_spec (obj : Object F)
        (context : Context F) :
  is_object_excluded_by_collection obj context = false <->
  hide_viewport obj = false /\ hide_render obj = false /\
  hide_get obj = false /\
  (users_collection obj = [] \/
   exists c layer_col,
     In c (users_collection obj) /\
     collection_hide_viewport c = false /\
     find (fun l => same_collection (collection_of l) c)
          (layers (layer_collection context)) = Some layer_col /\
     layer_exclude layer_col = false).
Proof.
  unfold is_object_excluded_by_collection.
  destruct (hide_viewport obj); [split; [discriminate|intros (? & _); discriminate]|].
  destruct (hide_render obj);
    [split; [discriminate|intros (_ & ? & _); discriminate]|].
  destruct (hide_get obj);
    [split; [discriminate|intros (_ & _ & ? & _); discriminate]|].
  destruct (users_collection obj) as [|c0 cs] eqn:Ec.
  { split; [intros _; repeat split; now left|reflexivity]. }
  assert (Hne : users_collection obj <> []) by (rewrite Ec; discriminate).
  rewrite <- Ec in *. clear Ec. rewrite negb_false_iff, existsb_exists.
  split.
  - intros (c & Hin & Hc). apply andb_prop in Hc. destruct Hc as [Hshown Hlayer].
    apply negb_true_iff in Hshown. rewrite find_layer_collection_spec in Hlayer.
    repeat split. right.
    destruct (find _ (layers (layer_collection context))) as [layer_col|] eqn:Ef;
      [|discriminate].
    exists c, layer_col. apply negb_true_iff in Hlayer. auto.
  - intros (_ & _ & _ & [Hnone|(c & layer_col & Hin & Hshown & Hfind & Hex)]).
    + contradiction.
    + exists c. split; [exact Hin|].
      now rewrite Hshown, find_layer_collection_spec, Hfind, Hex.
Qed.
Lemma excluded_ext (context context' : Context F) (obj : Object F) :
  layer_collection context' = layer_collection context ->
  is_object_excluded_by_collection obj context'
  = is_object_excluded_by_collection obj context.
Proof.
  intros Hl. unfold is_object_excluded_by_collection. now rewrite Hl.
Qed.

Lemma is_top_level_exported_ext (context context' : Context F) obj :
  layer_collection context' = layer_collection context ->
  is_top_level_exported context' obj = is_top_level_exported context obj.
Proof.
  intros Hl. unfold is_top_level_exported.
  now rewrite (excluded_ext _ _ obj Hl).
Qed.

Lemma collect_object_ext (context context' : Context F) st obj :
  layer_collection context' = layer_collection context ->
  collect_object context' st obj = collect_object context st obj.
Proof.
  intros Hl. unfold collect_object.
  now rewrite (is_top_level_exported_ext _ _ obj Hl).
Qed.

(** The loop of [_collect_and_group_objects] passes over the objects
    that are not exported at the top level. *)
Lemma collect_fold_filter (context : Context F) (objs : list (Object F)) :
  forall st,
    fold_left (collect_object context)
              (filter (is_top_level_exported context) objs) st
    = fold_left (collect_object context) objs st.
Proof.
  induction objs as [|obj objs IH]; intros st; [reflexivity|].
  cbn [filter fold_left].
  destruct (is_top_level_exported context obj) eqn:Htop.
  - cbn [fold_left]. apply IH.
  - rewrite IH. f_equal. unfold collect_object. rewrite Htop.
    now destruct st.
Qed.

Lemma bind_ext {T A B} (m : M T A) (k k' : A -> M T B) :
  (forall a, k a = k' a) -> bind m k = bind m k'.
Proof.
  intros Hk. unfold bind. destruct (result m) as [a|e]; [|reflexivity].
  now rewrite Hk.
Qed.

Lemma _write_base_node_ext (context context' : Context F) (obj : Object F) :
  layer_collection context' = layer_collection context ->
  _write_base_node context' (Some obj) (name obj)
  = _write_base_node context (Some obj) (name obj).
Proof.
  intros Hl. unfold _write_base_node.
  replace (filter (counts_as_child context') (children obj))
    with (filter (counts_as_child context) (children obj)); [reflexivity|].
  apply filter_ext. intros child. unfold counts_as_child.
  now rewrite (excluded_ext _ _ child Hl).
Qed.

Lemma _write_object_ext (context context' : Context F) (obj : Object F) :
  layer_collection context' = layer_collection context ->
  _write_object context' material_writer node_settings obj
  = _write_object context material_writer node_settings obj.
Proof.
  intros Hl. induction obj as [obj IH] using Object_children_ind.
  rewrite !_write_object_unfold, (_write_base_node_ext _ _ obj Hl).
  destruct (negb (is_hidden_name (name obj))); [|reflexivity].
  apply bind_ext. intros _. apply for_each_ext. intros child Hin.
  rewrite (excluded_ext _ _ child Hl).
  rewrite Forall_forall in IH. now rewrite (IH child Hin).
Qed.

(** The children lists agree with the parent links, as the host keeps
    them: a child of an object of the file is an object of the file whose
    parent is that object, and an object of the file that has a parent
    is a child of the object of the file its parent names. *)
Definition consistent (context : Context F) : Prop :=
  (forall obj child,
      In obj (blend_data_objects context) -> In child (children obj) ->
      In child (blend_data_objects context) /\
      exists p, parent child = Some p /\ parent_name p = name obj) /\
  (forall child p,
      In child (blend_data_objects context) -> parent child = Some p ->
      exists obj, In obj (blend_data_objects context) /\
                  name obj = parent_name p /\ In child (children obj)).

(** X24.  Objects that are not exported at the top level leave no trace
    in the nodes.  Two files whose children lists agree with their parent
    links, with the same view layer and the same objects exported at the
    top level (no parent, no hidden name, not excluded), in the same
    order, give the same tokens, the same warnings and the same outcome of
    [write]: a top-level object with a hidden name or excluded changes
    nothing, nor does anything below it. *)
Theorem write_ignores_hidden_objects (context context' : Context F) :
  consistent context ->
  consistent context' ->
  layer_collection context' = layer_collection context ->
  filter (is_top_level_exported context') (blend_data_objects context')
  = filter (is_top_level_exported context) (blend_data_objects context) ->
  write context' material_writer node_settings
  = write context material_writer node_settings.
Proof.
  intros _ _ Hl Hobjs. unfold write, _collect_and_group_objects.
  rewrite <- (collect_fold_filter context' (blend_data_objects context')).
  rewrite Hobjs.
  replace (fold_left (collect_object context')
                     (filter (is_top_level_exported context)
                             (blend_data_objects context)) ([], []))
    with (fold_left (collect_object context) (blend_data_objects context)
                    ([], [])).
  2:{ rewrite <- collect_fold_filter.
      generalize (filter (is_top_level_exported context)
                         (blend_data_objects context)).
      generalize (@nil (Object F), @nil (string * (string * list (Object F)))).
      intros st l. revert st.
      induction l as [|obj l IHl]; intros st; [reflexivity|].
      cbn [fold_left]. rewrite IHl. f_equal. symmetry.
      now apply collect_object_ext. }
  destruct (fold_left (collect_object context) (blend_data_objects context)
                      ([], [])) as [regular_objects kstree_groups].
  apply bind_ext. intros _. apply bind_ext. intros _.
  apply for_each_ext. intros obj _. now apply _write_object_ext.
Qed.
End Visibility.

(** A file with a hidden empty, an excluded mesh and an object with two
    children, and the file without the first two. *)
Lemma write_ignores_hidden_objects_witness :
  write (Samples.scene (Samples.empty "__note" :: Samples.stowed
                        :: Samples.road :: Samples.family))
        Samples.mat_writer []
  = write (Samples.scene (Samples.road :: Samples.family))
          Samples.mat_writer [].
Proof.
  apply write_ignores_hidden_objects.
  - split.
    + intros obj child Hin Hchild.
      repeat (destruct Hin as [<-|Hin]; [|]); try (now destruct Hin);
        cbn in Hchild;
        repeat (destruct Hchild as [<-|Hchild]; [|]);
        try (now destruct Hchild);
        (split; [cbn; tauto|eexists; split; reflexivity]).
    + intros child p Hin Hp.
      repeat (destruct Hin as [<-|Hin]; [|]); try (now destruct Hin);
        cbn in Hp; try discriminate; injection Hp as <-;
        exists Samples.pivot_of_two; (split; [cbn; tauto|split; [reflexivity|cbn; tauto]]).
  - split.
    + intros obj child Hin Hchild.
      repeat (destruct Hin as [<-|Hin]; [|]); try (now destruct Hin);
        cbn in Hchild;
        repeat (destruct Hchild as [<-|Hchild]; [|]);
        try (now destruct Hchild);
        (split; [cbn; tauto|eexists; split; reflexivity]).
    + intros child p Hin Hp.
      repeat (destruct Hin as [<-|Hin]; [|]); try (now destruct Hin);
        cbn in Hp; try discriminate; injection Hp as <-;
        exists Samples.pivot_of_two; (split; [cbn; tauto|split; [reflexivity|cbn; tauto]]).
  - reflexivity.
  - vm_compute. reflexivity.
Defined.
End VisibilityFacts.

(** ** No record is empty *)

Module RecordSizeFacts.
Import node_writer constants helpers utils WriterFacts PyFacts OutcomeFacts
       GeometryFacts VertexLimitFacts RefusalFacts.

Lemma ofold_appends_in {A B} (R : A -> B -> Prop)
      (f : list B -> A -> outcome (list B)) (l : list A) :
  (forall acc x acc', In x l -> f acc x = Ok acc' ->
                      exists y, acc' = acc ++ [y] /\ R x y) ->
  forall acc out,
    ofold f l acc = Ok out -> exists ys, out = acc ++ ys /\ Forall2 R l ys.
Proof.
  induction l as [|x l IH]; intros Hf acc out; cbn [ofold].
  - intros [= <-]. exists []. rewrite app_nil_r. split; [reflexivity|constructor].
  - destruct (f acc x) as [acc'|e] eqn:E; cbn [obind]; [|discriminate].
    intros Hout. destruct (Hf _ _ _ (or_introl eq_refl) E) as (y & -> & Hy).
    destruct (IH (fun acc x acc' Hin => Hf acc x acc' (or_intror Hin)) _ _ Hout)
      as (ys & -> & Hys).
    exists (y :: ys). rewrite <- app_assoc. split; [reflexivity|].
    now constructor.
Qed.

Section Sizes.
Context {F : Type} `{Scalar F} `{Mathutils F}.
Variable material_writer : MaterialWriter F.

Lemma extend3_length indices face_indices a b c r :
  extend3 indices face_indices a b c = Ok r ->
  List.length r = List.length indices + 3.
Proof.
  unfold extend3. intros He.
  apply obind_Ok in He as (ia & _ & He).
  apply obind_Ok in He as (ib & _ & He).
  apply obind_Ok in He as (ic & _ & He).
  injection He as <-. rewrite length_app. reflexivity.
Qed.

(** A triangle of the material adds at least three indices; no triangle
    removes one. *)
Lemma split_triangle_grows (obj : Object F) mesh_copy has_uvs uv_layer
      material_index st triangle st' :
  split_triangle obj mesh_copy has_uvs uv_layer material_index st triangle
  = Ok st' ->
  List.length (snd st) <= List.length (snd st') /\
  (bpy.material_index triangle = material_index ->
   List.length (snd st) + 3 <= List.length (snd st')).
Proof.
  destruct st as [d indices]. unfold split_triangle.
  destruct (material_index =? bpy.material_index triangle) eqn:Em; cbn [negb].
  - intros Hs. apply obind_Ok in Hs as ([d' face_indices] & _ & Hs).
    apply obind_Ok in Hs as (indices1 & E1 & Hs).
    apply extend3_length in E1.
    destruct (List.length face_indices =? 4).
    + apply obind_Ok in Hs as (indices2 & E2 & Hs).
      apply extend3_length in E2. injection Hs as <-. cbn [snd]. lia.
    + injection Hs as <-. cbn [snd]. lia.
  - intros [= <-]. split; [lia|]. intros E.
    apply Nat.eqb_neq in Em. congruence.
Qed.

Lemma split_triangles_grow (obj : Object F) mesh_copy has_uvs uv_layer
      material_index (triangles : list MeshLoopTriangle) :
  forall st st',
    ofold (split_triangle obj mesh_copy has_uvs uv_layer material_index)
          triangles st = Ok st' ->
    List.length (snd st) <= List.length (snd st') /\
    ((exists triangle, In triangle triangles /\
                       bpy.material_index triangle = material_index) ->
     List.length (snd st) + 3 <= List.length (snd st')).
Proof.
  induction triangles as [|triangle triangles IH]; intros st st'; cbn [ofold].
  - intros [= <-]. split; [lia|]. intros (t & [] & _).
  - intros Hs. apply obind_Ok in Hs as (st1 & E1 & Hs).
    destruct (split_triangle_grows _ _ _ _ _ _ _ E1) as [Hle1 Hadd1].
    destruct (IH _ _ Hs) as [Hle Hadd].
    split; [lia|]. intros (t & [<-|Hin] & Ht).
    + specialize (Hadd1 Ht). lia.
    + assert (List.length (snd st1) + 3 <= List.length (snd st'))
        by (apply Hadd; eauto).
      lia.
Qed.

(** A record with at least one triangle and one vertex. *)
Definition nonempty (mesh : Mesh F) : Prop :=
  3 <= List.length (indices mesh) /\ 1 <= List.length (vertices mesh).

Lemma split_material_nonempty (obj : Object F) has_uvs uv_layer meshes
      material_index meshes' :
  In material_index (used_materials obj) ->
  split_material material_writer obj (to_mesh obj) has_uvs uv_layer meshes
                 material_index = Ok meshes' ->
  exists mesh, meshes' = meshes ++ [mesh] /\ nonempty mesh.
Proof.
  intros Hin Hs. unfold split_material in Hs.
  apply obind_Ok in Hs as (slot & _ & Hs).
  destruct slot as [material|]; [|discriminate].
  destruct (is_hidden_name (material_name material)); [discriminate|].
  apply obind_Ok in Hs as ([d indices] & Hf & Hs).
  destruct (dict_get String.eqb (material_positions material_writer)
                     (material_name material)) as [id|]; [|discriminate].
  injection Hs as <-. eexists. split; [reflexivity|].
  destruct (split_triangles_grow _ _ _ _ _ _ _ Hf) as [_ Hadd].
  apply (@ofold_invariant _ _ faces_inv _ _
           (split_triangle_spec obj (to_mesh obj) has_uvs uv_layer
                                material_index)
           _ _ faces_inv_nil) in Hf.
  destruct Hf as (Hd & Hi & _). cbn [fst snd] in *.
  assert (Hthree : 3 <= List.length indices).
  { unfold used_materials in Hin. apply (proj1 (set_of_In _ _)) in Hin.
    apply in_map_iff in Hin. destruct Hin as (triangle & Et & Hin).
    assert (0 + 3 <= List.length indices) by (apply Hadd; eauto). lia. }
  unfold nonempty. cbn [vertices node_writer.indices].
  split; [exact Hthree|].
  rewrite (vertex_dict_sorted_keys_length Hd).
  destruct indices as [|i indices]; [simpl in Hthree; lia|].
  inversion Hi as [|? ? Hlt _]; subst. lia.
Qed.

Lemma records_nonempty (obj : Object F) (divided_meshes : list (Mesh F)) :
  _split_object_by_materials material_writer obj = Ok divided_meshes ->
  List.length divided_meshes = List.length (used_materials obj) /\
  Forall nonempty divided_meshes /\
  (divided_meshes = [] <-> loop_triangles (to_mesh obj) = []).
Proof.
  intros Hsplit. unfold _split_object_by_materials in Hsplit.
  destruct (materials (to_mesh obj)); [discriminate|].
  fold (used_materials obj) in Hsplit.
  apply (@ofold_appends_in _ _ (fun _ mesh => nonempty mesh)) in Hsplit.
  2:{ intros acc x acc' Hin. now apply split_material_nonempty. }
  destruct Hsplit as (ys & -> & Hys). cbn [app].
  pose proof (Forall2_length Hys) as Hlen.
  split; [now symmetry|]. split.
  - clear Hlen. induction Hys; constructor; assumption.
  - split.
    + intros ->. cbn [List.length] in Hlen.
      destruct (loop_triangles (to_mesh obj)) as [|triangle rest] eqn:Et;
        [reflexivity|].
      assert (Hin : In (bpy.material_index triangle) (used_materials obj)).
      { unfold used_materials. apply (proj2 (set_of_In _ _)). rewrite Et. now left. }
      destruct (used_materials obj); [destruct Hin|discriminate].
    + intros Et. unfold used_materials in Hlen. rewrite Et in Hlen.
      destruct ys; [reflexivity|discriminate].
Qed.

(** Limit-splitting makes no record disappear. *)
Lemma limit_split_nonempty (obj : Object F) (divided_meshes : list (Mesh F)) :
  _split_object_by_materials material_writer obj = Ok divided_meshes ->
  exists new_meshes,
    _split_meshes_for_vertex_limit divided_meshes = Ok new_meshes /\
    Forall (fun mesh => List.length (vertices mesh) <= MAX_VERTICES_PER_MESH)
           new_meshes /\
    (new_meshes = [] <-> divided_meshes = []).
Proof.
  intros Hsplit.
  destruct (records_nonempty obj Hsplit) as (_ & Hne & _).
  pose proof (_split_object_by_materials_well_formed _ _ Hsplit) as Hwf.
  destruct (VertexCeiling.limit_splitting Hwf)
    as (new_meshes & Hlimit & Hlen & _ & Htri).
  exists new_meshes. split; [exact Hlimit|]. split; [exact Hlen|].
  split.
  - intros ->. cbn [map List.concat] in Htri.
    destruct divided_meshes as [|mesh rest]; [reflexivity|].
    inversion Hne as [|? ? [Hthree _] _]; subst.
    inversion Hwf as [|? ? [_ Htr] _]; subst.
    cbn [map List.concat] in Htri. symmetry in Htri.
    apply app_eq_nil in Htri. destruct Htri as [Htri _].
    exfalso. revert Htri Hthree. unfold triangles, corners.
    destruct (indices mesh) as [|a [|b [|c l]]]; cbn [List.length]; try lia.
    cbn [map triples]. discriminate.
  - intros ->. unfold _split_meshes_for_vertex_limit, split_meshes_at in Hlimit.
    cbn [ofold] in Hlimit. now injection Hlimit as <-.
Qed.

(** X25.  When [_split_object_by_materials] returns, no record is
    empty: there is one record for each material slot the triangles use,
    and each holds at least one triangle and one vertex.  There is no
    record at all exactly when the mesh has no triangle, and the records
    limit-splitting makes of them are as many or more. *)
Theorem _split_object_by_materials_nonempty (obj : Object F)
        (divided_meshes : list (Mesh F)) :
  _split_object_by_materials material_writer obj = Ok divided_meshes ->
  List.length divided_meshes = List.length (used_materials obj) /\
  Forall nonempty divided_meshes /\
  (divided_meshes = [] <-> loop_triangles (to_mesh obj) = []) /\
  exists new_meshes,
    _split_meshes_for_vertex_limit divided_meshes = Ok new_meshes /\
    (new_meshes = [] <-> loop_triangles (to_mesh obj) = []).
Proof.
  intros Hsplit.
  destruct (records_nonempty obj Hsplit) as (Hlen & Hne & Hnil).
  split; [exact Hlen|]. split; [exact Hne|]. split; [exact Hnil|].
  destruct (limit_split_nonempty obj Hsplit)
    as (new_meshes & Hlimit & _ & Hnew).
  exists new_meshes. split; [exact Hlimit|].
  rewrite <- Hnil. exact Hnew.
Qed.
End Sizes.

Lemma _split_object_by_materials_nonempty_witness :
  exists divided_meshes,
    _split_object_by_materials Samples.mat_writer Samples.road
    = Ok divided_meshes /\
    Forall nonempty divided_meshes.
Proof.
  eexists. split; [vm_compute; reflexivity|].
  match goal with
  | |- Forall nonempty ?ms =>
      assert (Hs : _split_object_by_materials Samples.mat_writer Samples.road
                   = Ok ms) by (vm_compute; reflexivity);
      exact (proj1 (proj2 (@_split_object_by_materials_nonempty
                             float float_scalar simple_mathutils
                             Samples.mat_writer Samples.road ms Hs)))
  end.
Defined.
End RecordSizeFacts.

(** ** Which node settings a mesh node gets *)

Module NodeSettingsFacts.
Import node_writer constants helpers utils MeshNodeFacts.

Section Settings.
Context {F : Type} `{Scalar F} `{Mathutils F}.
Variable node_settings : list (NodeSettings F).

Definition gives {A} (setting : NodeSettings F -> option A)
           (node_name : string) (self : NodeSettings F) : bool :=
  _does_node_name_match self node_name
  && match setting self with Some _ => true | None => false end.

(** The value of a setting for the node [node_name]: that of the last
    entry whose key matches the name and that gives the setting, [own]
    when there is none. *)
Definition chosen {A} (setting : NodeSettings F -> option A)
           (node_name : string) (own : A) : A :=
  match find (gives setting node_name) (rev node_settings) with
  | Some self => or_keep (setting self) own
  | None => own
  end.

Lemma np_name_fold (settings : list (NodeSettings F)) node :
  np_name (fold_left (fun node_properties node_setting =>
                        apply_settings_to_node node_setting node_properties)
                     settings node) = np_name node.
Proof.
  revert node. induction settings as [|self settings IH]; intros node;
    [reflexivity|].
  cbn [fold_left]. rewrite IH. unfold apply_settings_to_node.
  now destruct (negb (_does_node_name_match self (np_name node))).
Qed.

Lemma chosen_fold {A} (field : NodeProperties F -> A)
      (setting : NodeSettings F -> option A) :
  (forall self node,
      field (apply_settings_to_node self node)
      = if _does_node_name_match self (np_name node)
        then or_keep (setting self) (field node) else field node) ->
  forall node,
    field (fold_left (fun node_properties node_setting =>
                        apply_settings_to_node node_setting node_properties)
                     node_settings node)
    = chosen setting (np_name node) (field node).
Proof.
  intros Hfield node. unfold chosen.
  induction node_settings as [|self settings IH] using rev_ind;
    [reflexivity|].
  rewrite fold_left_app, rev_app_distr. cbn [fold_left rev app find].
  rewrite Hfield, np_name_fold, IH.
  destruct (gives setting (np_name node) self) eqn:Eg; unfold gives in Eg;
    destruct (_does_node_name_match self (np_name node));
    destruct (setting self) as [v|]; cbn [andb] in Eg; try discriminate;
    reflexivity.
Qed.

(** X26.  The properties of a mesh node.  Each of the seven node
    settings is taken from the last entry of the settings, in their order,
    whose key matches the name of the object and that gives a value for
    it; failing that it is the object's own ([layer]: 0).  The entries
    never change the name, so all are matched against the object's name. *)
Theorem properties_of_chosen (obj : Object F) :
  properties_of node_settings obj
  = {| np_name := name obj;
       lodIn := chosen set_lodIn (name obj) (lod_in (kn5 obj));
       lodOut := chosen set_lodOut (name obj) (lod_out (kn5 obj));
       layer := chosen set_layer (name obj) 0;
       castShadows := chosen set_castShadows (name obj) (cast_shadows (kn5 obj));
       visible := chosen set_visible (name obj) (kn5_visible (kn5 obj));
       transparent :=
         chosen set_transparent (name obj) (kn5_transparent (kn5 obj));
       renderable :=
         chosen set_renderable (name obj) (kn5_renderable (kn5 obj)) |}.
Proof.
  unfold properties_of.
  pose proof (np_name_fold node_settings (NodeProperties_init obj)) as Hname.
  assert (Hstep : forall A (field : NodeProperties F -> A) setting,
             (forall self node,
                 field (apply_settings_to_node self node)
                 = if _does_node_name_match self (np_name node)
                   then or_keep (setting self) (field node) else field node) ->
             field (fold_left (fun node_properties node_setting =>
                                 apply_settings_to_node node_setting
                                                        node_properties)
                              node_settings (NodeProperties_init obj))
             = chosen setting (name obj) (field (NodeProperties_init obj)))
    by (intros A field setting Hf; exact (chosen_fold field setting Hf _)).
  assert (Hcase : forall A (field : NodeProperties F -> A) setting,
             (forall self node,
                 field (apply_settings_to_node self node)
                 = if negb (_does_node_name_match self (np_name node))
                   then field node else or_keep (setting self) (field node)) ->
             forall self node,
               field (apply_settings_to_node self node)
               = if _does_node_name_match self (np_name node)
                 then or_keep (setting self) (field node) else field node).
  { intros A field setting Hf self node. rewrite Hf.
    now destruct (_does_node_name_match self (np_name node)). }
  pose proof (Hstep _ (@lodIn F) set_lodIn) as H1.
  pose proof (Hstep _ (@lodOut F) set_lodOut) as H2.
  pose proof (Hstep _ (@layer F) set_layer) as H3.
  pose proof (Hstep _ (@castShadows F) set_castShadows) as H4.
  pose proof (Hstep _ (@visible F) set_visible) as H5.
  pose proof (Hstep _ (@transparent F) set_transparent) as H6.
  pose proof (Hstep _ (@renderable F) set_renderable) as H7.
  destruct (fold_left _ node_settings (NodeProperties_init obj))
    as [n f1 f2 f3 f4 f5 f6 f7].
  cbn [np_name lodIn lodOut layer castShadows visible transparent renderable
       NodeProperties_init] in *.
  rewrite Hname, H1, H2, H3, H4, H5, H6, H7; [reflexivity|..];
    apply Hcase; intros self node; unfold apply_settings_to_node;
    now destruct (negb (_does_node_name_match self (np_name node))).
Qed.
End Settings.
End NodeSettingsFacts.

(** ** The tree of nodes of a scene *)

Module SceneTreeFacts.
Import node_writer constants helpers utils WriterFacts PyFacts OutcomeFacts
       DictFacts GeometryFacts VertexLimitFacts GroupingFacts
       InstanceGroupFacts MeshNodeFacts NodeTreeFacts RecordSizeFacts.

Section SceneTrees.
Context {F : Type} `{Scalar F} `{Mathutils F}.
Variable context : Context F.
Variable material_writer : MaterialWriter F.
Variable node_settings : list (NodeSettings F).

Lemma forest_app n m (a b : list (token F)) :
  forest n a -> forest m b -> forest (n + m) (a ++ b).
Proof.
  induction 1 as [|n node nodes Hnode _ IH]; intros Hb; [exact Hb|].
  rewrite <- app_assoc. cbn [Nat.add]. constructor; [exact Hnode|].
  now apply IH.
Qed.

(** A loop whose body writes one node each time writes as many nodes as
    it has elements. *)
Lemma for_each_forest {A} (body : A -> W F unit) (l : list A) :
  (forall x, In x l -> result (body x) = Ok tt ->
             node_tree (written (body x))) ->
  result (for_each body l) = Ok tt ->
  forest (List.length l) (written (for_each body l)).
Proof.
  induction l as [|x l IH]; intros Hbody Hrun; [constructor|].
  cbn [for_each] in *. apply result_bind_Ok in Hrun.
  destruct Hrun as ([] & Hfirst & Hrest).
  rewrite written_bind, Hfirst. cbn [List.length]. constructor.
  - apply Hbody; [now left|exact Hfirst].
  - apply IH; [|exact Hrest]. intros y Hy. apply Hbody. now right.
Qed.

(** The node of a mesh without parent that has a triangle: the mesh
    node itself when there is one record, a plain node above the mesh
    nodes when there are several. *)
Lemma _write_mesh_node_top_level (obj : Object F) :
  parent obj = None ->
  loop_triangles (to_mesh obj) <> [] ->
  result (_write_mesh_node material_writer node_settings obj) = Ok tt ->
  node_tree (written (_write_mesh_node material_writer node_settings obj)).
Proof.
  intros Hp Htri. unfold _write_mesh_node.
  destruct (_split_object_by_materials material_writer obj)
    as [divided_meshes|e] eqn:Hsplit; [|discriminate].
  destruct (records_nonempty material_writer obj Hsplit) as (_ & _ & Hnil).
  destruct (limit_split_nonempty material_writer obj Hsplit)
    as (new_meshes & Hlimit & Hlen & Hnew).
  rewrite bind_lift_Ok, Hlimit, bind_lift_Ok, Hp.
  fold (properties_of node_settings obj).
  destruct (_write_meshes_run obj (properties_of node_settings obj) Hlen)
    as (Er & Ew).
  intros _. destruct new_meshes as [|mesh [|mesh' rest]].
  - exfalso. apply Htri, Hnil, Hnew. reflexivity.
  - cbn [List.length Nat.ltb Nat.leb]. rewrite bind_ret, Ew.
    cbn [flat_map]. rewrite app_nil_r. unfold mesh_node. constructor.
  - cbn [List.length Nat.ltb Nat.leb].
    rewrite bind_ret, written_bind. cbn [result written _write_base_node_data
      _write_node_class write_uint write_string write_bool write_matrix
      emit bind app NODE_TYPES nd_name childCount active transform].
    rewrite Ew.
    apply (plain_node (name obj) Matrix_identity).
    exact (forest_mesh_nodes obj (properties_of node_settings obj)
                             (mesh :: mesh' :: rest)).
Qed.

(** An ordinary top-level object is written as one node. *)
Lemma _write_object_top_level (obj : Object F) :
  parented obj = true ->
  is_top_level_exported context obj = true ->
  (type obj = "MESH" -> loop_triangles (to_mesh obj) <> []) ->
  result (_write_object context material_writer node_settings obj) = Ok tt ->
  node_tree (written (_write_object context material_writer node_settings obj)).
Proof.
  intros Hpar Htop Htri Hrun. unfold is_top_level_exported in Htop.
  destruct (parent obj) as [p|] eqn:Hp; [discriminate|].
  destruct (is_hidden_name (name obj)) eqn:Hname; [discriminate|].
  destruct (String.eqb (type obj) "MESH") eqn:Hty.
  - apply String.eqb_eq in Hty. specialize (Htri Hty).
    revert Hrun. rewrite _write_object_unfold, Hname, Hty.
    cbn [negb String.eqb Ascii.eqb Bool.eqb].
    destruct (children obj) as [|child cs]; [|discriminate].
    cbn [for_each]. intros Hrun.
    apply result_bind_Ok in Hrun. destruct Hrun as ([] & Hfirst & _).
    rewrite written_bind, Hfirst. cbn [written ret]. rewrite app_nil_r.
    now apply _write_mesh_node_top_level.
  - assert (Hnode : one_node context material_writer node_settings obj).
    { apply _write_object_one_node; [exact Hpar|].
      intros E. rewrite E in Hty. discriminate. }
    specialize (Hnode Hrun). now rewrite Hname in Hnode.
Qed.

Local Abbreviation mesh_data := (list (list (UvVertex F) * list nat * nat)).

Lemma pass_fold_inv {S} (pass : Object F -> S -> mesh_data -> S)
      (objs : list (Object F)) : forall st r,
  ofold (fun st obj =>
           mesh_data <~ _extract_tree_mesh_data material_writer obj;;
           Ok (pass obj st mesh_data)) objs st = Ok r ->
  exists ds, extracted material_writer objs ds.
Proof.
  induction objs as [|obj objs IH]; intros st r; cbn [ofold].
  - intros _. exists []. constructor.
  - intros Hr. apply obind_Ok in Hr as (st1 & E1 & Hr).
    apply obind_Ok in E1 as (d & Ed & _).
    destruct (IH _ _ Hr) as (ds & Hds).
    exists (d :: ds). now constructor.
Qed.

(** An instance group writes nothing or one mesh node. *)
Lemma _write_kstree_group_node group_name (objects : list (Object F)) :
  result (_write_kstree_group material_writer group_name objects) = Ok tt ->
  written (_write_kstree_group material_writer group_name objects) <> [] ->
  node_tree (written (_write_kstree_group material_writer group_name objects)).
Proof.
  intros Hrun Hsome.
  assert (Hex : exists ds,
             extracted material_writer
               (filter (fun obj => String.eqb (type obj) "MESH") objects) ds).
  { revert Hrun. unfold _write_kstree_group.
    destruct (filter (fun obj => String.eqb (type obj) "MESH") objects)
      as [|obj0 rest] eqn:E; [intros _; exists []; constructor|].
    match goal with
    | |- context [lift (ofold ?f ?l ?s)] =>
        destruct (ofold f l s) as [collected|e] eqn:Hfold
    end; [|discriminate].
    intros _. now apply pass_fold_inv in Hfold. }
  destruct Hex as (ds & Hex).
  destruct (Nat.eq_dec (vertex_count (List.concat ds)) 0) as [Hz|Hnz].
  - exfalso. apply Hsome.
    now rewrite (_write_kstree_group_empty group_name _ Hex Hz).
  - destruct (@_write_kstree_group_merges _ _ _ material_writer group_name
                objects ds Hex)
      as (material_id & node_properties & mesh_center_y & _ & Ew & _);
      [lia|].
    cbv zeta in Ew. rewrite Ew. constructor.
Qed.

(** X27.  The nodes of a scene form one tree.  When below every object
    of the file each object has a parent, every ordinary top-level mesh has
    a triangle and every instance group writes its node, then whenever
    [write] returns, what it wrote is one well-formed node: the root
    [BlenderFile] followed by exactly as many nodes as the child count it
    announces, and so on below. *)
Theorem write_writes_a_tree :
  (forall obj, In obj (blend_data_objects context) -> parented obj = true) ->
  (forall obj, In obj (blend_data_objects context) ->
               is_regular context obj = true -> type obj = "MESH" ->
               loop_triangles (to_mesh obj) <> []) ->
  (forall group_key original_name objects,
      dict_get String.eqb (snd (_collect_and_group_objects context)) group_key
      = Some (original_name, objects) ->
      written (_write_kstree_group material_writer original_name objects)
      <> []) ->
  result (write context material_writer node_settings) = Ok tt ->
  node_tree (written (write context material_writer node_settings)).
Proof.
  intros Hpar Htri Hgroups.
  destruct (_collect_and_group_objects_spec context) as (Hregular & _).
  unfold write.
  destruct (_collect_and_group_objects context) as [regular groups].
  cbn [fst snd] in *. intros Hrun.
  apply result_bind_Ok in Hrun. destruct Hrun as ([] & _ & Hrun).
  apply result_bind_Ok in Hrun. destruct Hrun as ([] & Hg & Hr).
  rewrite !written_bind, Hg.
  cbn [result written _write_base_node_data _write_node_class write_uint
       write_string write_bool write_matrix emit bind app NODE_TYPES
       nd_name childCount active transform].
  apply (plain_node "BlenderFile" Matrix_identity).
  rewrite Nat.add_comm.
  apply forest_app.
  - apply for_each_forest in Hg.
    + now rewrite sorted_by_length, length_map in Hg.
    + intros group_key Hin. apply sorted_by_In in Hin.
      destruct (dict_get String.eqb groups group_key)
        as [[original_name objects]|] eqn:Eg.
      * intros Hok. apply _write_kstree_group_node; [exact Hok|].
        now apply Hgroups with (group_key := group_key).
      * discriminate.
  - apply for_each_forest in Hr; [exact Hr|].
    intros obj Hin. rewrite Hregular in Hin. apply sorted_by_In in Hin.
    apply filter_In in Hin. destruct Hin as [Hin Hreg].
    apply _write_object_top_level.
    + now apply Hpar.
    + unfold is_regular in Hreg. apply andb_prop in Hreg. now destruct Hreg.
    + now apply Htri.
Qed.
End SceneTrees.

Lemma write_writes_a_tree_witness :
  node_tree (written (write (Samples.scene [Samples.pivot; Samples.road])
                            Samples.mat_writer [])).
Proof.
  apply write_writes_a_tree.
  - intros obj [<-|[<-|[]]]; vm_compute; reflexivity.
  - intros obj [<-|[<-|[]]] _ _; vm_compute; discriminate.
  - intros group_key original_name objects Hget. vm_compute in Hget.
    discriminate.
  - vm_compute. reflexivity.
Defined.
End SceneTreeFacts.

(** ** The two extractions of the geometry *)

Module ExtractionFacts.
Import node_writer constants helpers utils PyFacts OutcomeFacts GeometryFacts.

Lemma ofold_agrees {A S} (f g : S -> A -> outcome S) (l : list A) :
  (forall s x s', In x l -> f s x = Ok s' -> g s x = Ok s') ->
  forall s r, ofold f l s = Ok r -> ofold g l s = Ok r.
Proof.
  induction l as [|x l IH]; intros Hfg s r; cbn [ofold]; [auto|].
  intros Hr. apply obind_Ok in Hr as (s1 & E1 & Hr).
  rewrite (Hfg _ _ _ (or_introl eq_refl) E1). cbn [obind].
  apply IH; [|exact Hr]. intros s0 y s' Hy. apply Hfg. now right.
Qed.

Lemma ofold_map_agrees {A S S'} (h : S -> S') (f : S -> A -> outcome S)
      (g : S' -> A -> outcome S') (l : list A) :
  (forall s x s', f s x = Ok s' -> g (h s) x = Ok (h s')) ->
  forall s r, ofold f l s = Ok r -> ofold g l (h s) = Ok (h r).
Proof.
  intros Hfg. induction l as [|x l IH]; intros s r; cbn [ofold].
  - now intros [= <-].
  - intros Hr. apply obind_Ok in Hr as (s1 & E1 & Hr).
    rewrite (Hfg _ _ _ E1). cbn [obind]. now apply IH.
Qed.

Section Agreement.
Context {F : Type} `{Scalar F} `{Mathutils F}.
Variable material_writer : MaterialWriter F.

(** A record of [_split_object_by_materials] as the tuple
    [_extract_tree_mesh_data] gives. *)
Definition record_data (mesh : Mesh F) : list (UvVertex F) * list nat * nat :=
  (vertices mesh, indices mesh,
   match material_id mesh with
   | Some material_id => material_id
   | None => DEFAULT_MATERIAL_ID
   end).

Lemma face_loop_length vertex_of (triangle : MeshLoopTriangle)
      (d d' : vertex_dict F) face_indices :
  face_loop vertex_of d triangle = Ok (d', face_indices) ->
  List.length face_indices = List.length (loops triangle).
Proof.
  unfold face_loop.
  assert (Hgen : forall l (st st' : vertex_dict F * list nat),
             ofold (fun (st : vertex_dict F * list nat) loop_index =>
                      let '(vertices, face_indices) := st in
                      vertex <~ vertex_of loop_index;;
                      r <~ vertex_dict_intern vertices vertex;;
                      Ok (fst r, face_indices ++ [snd r])) l st = Ok st' ->
             List.length (snd st') = List.length (snd st) + List.length l).
  { induction l as [|loop_index l IH]; intros st st'; cbn [ofold].
    - intros [= <-]. cbn [List.length]. lia.
    - intros Hs. apply obind_Ok in Hs as (st1 & E1 & Hs).
      rewrite (IH _ _ Hs). destruct st as [d0 fi].
      apply obind_Ok in E1 as (vertex & _ & E1).
      apply obind_Ok in E1 as (r & _ & E1). injection E1 as <-.
      cbn [snd List.length]. rewrite length_app. cbn [List.length]. lia. }
  intros Hf. apply Hgen in Hf. cbn [snd List.length] in Hf. exact Hf.
Qed.

(** With a UV layer the computed UV is not used. *)
Lemma face_loop_uv_layer (obj : Object F) mesh_copy has_uvs data
      (default_uv default_uv' : F * F * F -> outcome (F * F)) d triangle :
  face_loop (loop_vertex obj mesh_copy has_uvs (Some data) default_uv)
            d triangle
  = face_loop (loop_vertex obj mesh_copy has_uvs (Some data) default_uv')
              d triangle.
Proof. reflexivity. Qed.

Lemma triangle_agrees (obj : Object F) mesh_copy has_uvs data material_index
      st triangle st' :
  List.length (loops triangle) = 3 ->
  split_triangle obj mesh_copy has_uvs (Some data) material_index st triangle
  = Ok st' ->
  extract_triangle obj mesh_copy has_uvs (Some data) material_index st triangle
  = Ok st'.
Proof.
  intros Hthree. destruct st as [d indices].
  unfold split_triangle, extract_triangle.
  destruct (negb (material_index =? bpy.material_index triangle)); [auto|].
  rewrite (face_loop_uv_layer obj mesh_copy has_uvs data
             (_calculate_uvs obj mesh_copy material_index)
             (fun _ => Ok (fzero, fzero))).
  intros Hs. apply obind_Ok in Hs as ([d' face_indices] & Hf & Hs).
  rewrite Hf. cbn [obind].
  apply obind_Ok in Hs as (indices1 & E1 & Hs). rewrite E1. cbn [obind].
  apply face_loop_length in Hf. rewrite Hf, Hthree in Hs. exact Hs.
Qed.

Lemma material_agrees (obj : Object F) has_uvs data meshes material_index
      meshes' :
  Forall (fun triangle => List.length (loops triangle) = 3)
         (loop_triangles (to_mesh obj)) ->
  split_material material_writer obj (to_mesh obj) has_uvs (Some data) meshes
                 material_index = Ok meshes' ->
  extract_material material_writer obj (to_mesh obj) has_uvs (Some data)
                   (map record_data meshes) material_index
  = Ok (map record_data meshes').
Proof.
  intros Hthree. unfold split_material, extract_material. intros Hs.
  apply obind_Ok in Hs as (slot & Hslot & Hs). rewrite Hslot. cbn [obind].
  destruct slot as [material|]; [|discriminate].
  destruct (is_hidden_name (material_name material)); [discriminate|].
  apply obind_Ok in Hs as ([d indices] & Hf & Hs).
  apply (ofold_agrees _
           (extract_triangle obj (to_mesh obj) has_uvs (Some data)
                             material_index)) in Hf.
  2:{ intros s triangle s' Hin. apply triangle_agrees.
      rewrite Forall_forall in Hthree. now apply Hthree. }
  rewrite Hf. cbn [obind].
  destruct (dict_get String.eqb (material_positions material_writer)
                     (material_name material)) as [id|]; [|discriminate].
  injection Hs as <-. now rewrite map_app.
Qed.

(** X28.  On a mesh with a usable UV layer whose loop triangles have
    three loops each, the extraction for instance groups gives what the
    split by materials gives whenever the latter returns: the same
    records, in the same order, with the same vertices, indices and
    material ids. *)
Theorem _extract_tree_mesh_data_agrees (obj : Object F) data
        (divided_meshes : list (Mesh F)) :
  (if has_uvs_of (to_mesh obj) then uv_layers_active (to_mesh obj) else None)
  = Some data ->
  Forall (fun triangle => List.length (loops triangle) = 3)
         (loop_triangles (to_mesh obj)) ->
  _split_object_by_materials material_writer obj = Ok divided_meshes ->
  _extract_tree_mesh_data material_writer obj
  = Ok (map record_data divided_meshes).
Proof.
  intros Huv Hthree. unfold _split_object_by_materials, _extract_tree_mesh_data.
  rewrite Huv. destruct (materials (to_mesh obj)); [discriminate|].
  intros Hsplit.
  apply (ofold_map_agrees (map record_data)
           (split_material material_writer obj (to_mesh obj)
                           (has_uvs_of (to_mesh obj)) (Some data))
           (extract_material material_writer obj (to_mesh obj)
                             (has_uvs_of (to_mesh obj)) (Some data))) in Hsplit.
  - exact Hsplit.
  - intros meshes material_index meshes'. now apply material_agrees.
Qed.
End Agreement.

Lemma _extract_tree_mesh_data_agrees_witness :
  exists divided_meshes,
    _split_object_by_materials Samples.mat_writer Samples.lawn
    = Ok divided_meshes /\
    _extract_tree_mesh_data Samples.mat_writer Samples.lawn
    = Ok (map record_data divided_meshes).
Proof.
  eexists. split; [vm_compute; reflexivity|].
  match goal with
  | |- _ = Ok (map record_data ?ms) =>
      assert (Hs : _split_object_by_materials Samples.mat_writer Samples.lawn
                   = Ok ms) by (vm_compute; reflexivity);
      assert (Huv : exists data,
                 (if has_uvs_of (to_mesh Samples.lawn)
                  then uv_layers_active (to_mesh Samples.lawn) else None)
                 = Some data) by (eexists; vm_compute; reflexivity);
      destruct Huv as [data Huv];
      apply (@_extract_tree_mesh_data_agrees float float_scalar
               simple_mathutils Samples.mat_writer Samples.lawn data ms Huv);
      [|exact Hs]
  end.
  repeat constructor.
Defined.
End ExtractionFacts.
